(** * GoldenDict B-tree index (btreeidx.cc): a shallow embedding

    The index writer ([IndexedWords], [buildBtreeNode], [buildIndex]) and the
    index reader ([readNode], [findChainOffsetExactOrPrefix], [readChain],
    [antialias], [findArticles], the word search request) of namespace
    [BtreeIndexing], as functions over explicit byte buffers and an explicit
    file state.

    Conventions.
    - A byte is a [Z] in [0, 256); a [uint32_t] is a [Z] in [0, 2^32), with the
      wrap-around written out where the source converts or subtracts.
    - [std::string] is a list of bytes, [gd::wstring] a list of wide
      characters (code points as [Z]).
    - A [char const *] into a node buffer is the buffer together with a byte
      offset; reading outside the buffer is the outcome [Fault].
    - C++ exceptions are the outcome [Throw]; loops whose termination depends
      on the bytes of the file take fuel and end in [OutOfFuel] without it. *)

From Stdlib Require Import ZArith List Bool Lia Arith.
Import ListNotations.
Local Open Scope Z_scope.

(** ** Bytes, strings, integers *)

Abbreviation byte := Z (only parsing).
Abbreviation wchar := Z (only parsing).
Abbreviation bytes := (list Z) (only parsing).
Abbreviation wstring := (list Z) (only parsing).

Definition len {A : Type} (l : list A) : Z := Z.of_nat (length l).

Definition u32_modulus : Z := 4294967296.

(** Conversion to [uint32_t] / [unsigned]. *)
Definition to_u32 (v : Z) : Z := v mod u32_modulus.

(** Conversion to a 64-bit [size_t] / [uint64_t]. *)
Definition to_u64 (v : Z) : Z := v mod 18446744073709551616.

(** [std::basic_string::compare]: lexicographic, shorter string first. *)
Fixpoint str_compare (a b : list Z) : comparison :=
  match a, b with
  | [], [] => Eq
  | [], _ :: _ => Lt
  | _ :: _, [] => Gt
  | x :: a', y :: b' =>
      match x ?= y with
      | Eq => str_compare a' b'
      | c => c
      end
  end.

Definition str_eqb (a b : list Z) : bool :=
  match str_compare a b with Eq => true | _ => false end.

(** The C string a pointer designates: the characters up to the first NUL. *)
Fixpoint cstr (s : list Z) : list Z :=
  match s with
  | [] => []
  | c :: s' => if c =? 0 then [] else c :: cstr s'
  end.

(** [buf[off .. off+n)], or [None] when the range leaves the buffer. *)
Definition slice (buf : bytes) (off n : Z) : option bytes :=
  if (0 <=? off) && (0 <=? n) && (off + n <=? len buf)
  then Some (firstn (Z.to_nat n) (skipn (Z.to_nat off) buf))
  else None.

(** Little-endian image of a 32-bit word (the value is truncated to 32 bits,
    as [File::write< uint32_t >] and [memcpy] of a [uint32_t] do). *)
Definition put_u32 (v : Z) : bytes :=
  [ v mod 256; (v / 256) mod 256; (v / 65536) mod 256; (v / 16777216) mod 256 ].

Definition u32_of_bytes (b0 b1 b2 b3 : byte) : Z :=
  b0 + 256 * b1 + 65536 * b2 + 16777216 * b3.

(** [memcpy( &x, buf + off, sizeof( uint32_t ) )]. *)
Definition get_u32 (buf : bytes) (off : Z) : option Z :=
  match slice buf off 4 with
  | Some [b0; b1; b2; b3] => Some (u32_of_bytes b0 b1 b2 b3)
  | _ => None
  end.

(** [strlen] on the tail of a buffer: [None] when no NUL is found. *)
Fixpoint strlen_list (s : bytes) : option Z :=
  match s with
  | [] => None
  | c :: s' =>
      if c =? 0 then Some 0
      else match strlen_list s' with
           | Some n => Some (n + 1)
           | None => None
           end
  end.

(** [strlen( buf + off )]. *)
Definition strlen (buf : bytes) (off : Z) : option Z :=
  if (0 <=? off) && (off <=? len buf)
  then strlen_list (skipn (Z.to_nat off) buf)
  else None.

(** ** Outcomes of the reader *)

Inductive exn : Type :=
| exIndexWasNotOpened
| exFailedToDecompressNode
| exCorruptedChainData
| exCantDecode
| exReadError
| exLengthError.

Inductive outcome (A : Type) : Type :=
| Ok (a : A)
| Throw (e : exn)
| Fault
| OutOfFuel.

Arguments Ok {A} a.
Arguments Throw {A} e.
Arguments Fault {A}.
Arguments OutOfFuel {A}.

Definition bind {A B : Type} (c : outcome A) (k : A -> outcome B) : outcome B :=
  match c with
  | Ok a => k a
  | Throw e => Throw e
  | Fault => Fault
  | OutOfFuel => OutOfFuel
  end.

Notation "x <- c ;; k" := (bind c (fun x => k))
  (at level 61, c at next level, right associativity).
Notation "' p <- c ;; k" := (bind c (fun x => let p := x in k))
  (at level 61, p pattern, c at next level, right associativity).

(** A buffer access: outside the buffer the behaviour is undefined. *)
Definition access {A : Type} (o : option A) : outcome A :=
  match o with
  | Some a => Ok a
  | None => Fault
  end.

(** ** Data model *)

Record WordArticleLink : Type := mkLink {
  word : bytes;
  prefix : bytes;
  articleOffset : Z
}.

Abbreviation chain := (list WordArticleLink) (only parsing).

(** [IndexedWords] is a [std::map< string, vector< WordArticleLink > >]: the
    entries in ascending key order, keys unique. *)
Abbreviation IndexedWords := (list (bytes * chain)) (only parsing).

Record IndexInfo : Type := mkIndexInfo {
  btreeMaxElements : Z;
  rootOffset : Z
}.

Definition BtreeMinElements : Z := 64.
Definition BtreeMaxElements : Z := 4096.

(** [std::map::insert]: a present key keeps its value. *)
Fixpoint map_insert (k : bytes) (v : chain) (m : IndexedWords) : IndexedWords :=
  match m with
  | [] => [(k, v)]
  | (k', v') :: m' =>
      match str_compare k k' with
      | Lt => (k, v) :: m
      | Eq => m
      | Gt => (k', v') :: map_insert k v m'
      end
  end.

Fixpoint map_find (k : bytes) (m : IndexedWords) : option chain :=
  match m with
  | [] => None
  | (k', v') :: m' => if str_eqb k k' then Some v' else map_find k m'
  end.

(** [i->second.emplace_back( l )] through the iterator of key [k]. *)
Fixpoint map_emplace_back (k : bytes) (l : WordArticleLink) (m : IndexedWords)
  : IndexedWords :=
  match m with
  | [] => []
  | (k', v') :: m' =>
      if str_eqb k k' then (k', v' ++ [l]) :: m'
      else (k', v') :: map_emplace_back k l m'
  end.

(** The chain a key currently has; a missing key has none. *)
Definition chain_of (k : bytes) (m : IndexedWords) : chain :=
  match map_find k m with
  | Some c => c
  | None => []
  end.

(** Keys strictly ascending: the invariant of the [std::map]. *)
Fixpoint keys_ascending (m : IndexedWords) : Prop :=
  match m with
  | [] => True
  | (k, _) :: m' =>
      match m' with
      | [] => True
      | (k', _) :: _ => str_compare k k' = Lt
      end /\ keys_ascending m'
  end.

(** ** The index file

    [File::Class] is used through [seek], [tell], typed and raw [read] and
    [write].  The file is its bytes and its position indicator.  A write at
    the position overwrites and extends; a read past the end throws. *)

Module File.

Record Class : Type := mk {
  data : bytes;
  pos : Z
}.

Definition seek (off : Z) (f : Class) : Class := mk (data f) off.

Definition tell (f : Class) : Z := pos f.

Definition write (bs : bytes) (f : Class) : Class :=
  let p := Z.to_nat (pos f) in
  mk (firstn p (data f) ++ repeat 0 (p - length (data f)) ++ bs
        ++ skipn (p + length bs) (data f))
     (pos f + len bs).

Definition write_u32 (v : Z) (f : Class) : Class := write (put_u32 v) f.

Definition read (n : Z) (f : Class) : outcome (bytes * Class) :=
  match slice (data f) (pos f) n with
  | Some bs => Ok (bs, mk (data f) (pos f + n))
  | None => Throw exReadError
  end.

Definition read_u32 (f : Class) : outcome (Z * Class) :=
  match get_u32 (data f) (pos f) with
  | Some v => Ok (v, mk (data f) (pos f + 4))
  | None => Throw exReadError
  end.

End File.

(** ** Node images *)

(** Bytes one record takes in a chain. *)
Definition link_size (l : WordArticleLink) : Z :=
  len (word l) + 1 + len (prefix l) + 1 + 4.

Definition link_bytes (l : WordArticleLink) : bytes :=
  word l ++ [0] ++ prefix l ++ [0] ++ put_u32 (articleOffset l).

(** The [uint32_t size] accumulated over the records of a chain. *)
Definition chain_size (c : chain) : Z :=
  fold_left (fun s l => to_u32 (s + link_size l)) c 0.

Definition chain_bytes (c : chain) : bytes :=
  put_u32 (chain_size c) ++ concat (map link_bytes c).

(** The [uint32_t totalChainsLength] of the first loop of a leaf. *)
Definition totalChainsLength (es : IndexedWords) : Z :=
  fold_left
    (fun t e => fold_left (fun s l => to_u32 (s + link_size l)) (snd e)
                          (to_u32 (t + 4)))
    es 0.

(** The first [n] entries under the iterator and the iterator after them;
    [None] when the iterator would pass the end of the map. *)
Definition take_entries (n : Z) (nextIndex : IndexedWords)
  : option (IndexedWords * IndexedWords) :=
  if (0 <=? n) && (n <=? len nextIndex)
  then Some (firstn (Z.to_nat n) nextIndex, skipn (Z.to_nat n) nextIndex)
  else None.

(** Uncompressed image of a leaf of the entries [es]: the count word and the
    chains.  The buffer is sized from [totalChainsLength]; when the chains do
    not fit it the writes leave the buffer. *)
Definition leaf_payload (indexSize : Z) (es : IndexedWords) : option bytes :=
  let body := put_u32 indexSize ++ concat (map (fun e => chain_bytes (snd e)) es) in
  if len body =? 4 + totalChainsLength es then Some body else None.

(** Uncompressed image of an internal node. *)
Definition node_payload (offsets : list Z) (pivots : list bytes) : bytes :=
  put_u32 4294967295 ++ concat (map put_u32 offsets)
    ++ concat (map (fun k => k ++ [0]) pivots).

(** ** A small instance of the collaborators

    ASCII text: a code point below 128 is its own UTF-8 byte.  Folding
    lowers the case and drops spaces and punctuation; nodes are stored
    without compression.  The instance is used to run the index on concrete
    inputs. *)

Module Sample.

Definition lower (c : wchar) : wchar :=
  if (65 <=? c) && (c <=? 90) then c + 32 else c.

Definition isWhitespace (c : wchar) : bool := c =? 32.

Definition isPunct (c : wchar) : bool := (c =? 44) || (c =? 45) || (c =? 46).

Definition apply (w : wstring) : wstring :=
  map lower (filter (fun c => negb (isWhitespace c || isPunct c)) w).

Definition applySimpleCaseOnly (w : wstring) : wstring := map lower w.

Definition encode (w : wstring) : bytes := w.

Definition decode (b : bytes) : option wstring :=
  if forallb (fun c => (0 <=? c) && (c <? 128)) b then Some b else None.

Definition compress (b : bytes) : bytes := b.

Definition uncompress (b : bytes) : option bytes := Some b.

(** The words "a", "ab", "abc" and "New York City". *)
Definition word_a : wstring := [97].
Definition word_ab : wstring := [97; 98].
Definition word_abc : wstring := [97; 98; 99].
Definition word_nyc : wstring :=
  [78; 101; 119; 32; 89; 111; 114; 107; 32; 67; 105; 116; 121].

(** A file with a five-byte header, positioned after it. *)
Definition file0 : File.Class := File.mk [1; 2; 3; 4; 5] 5.

(** The map after [addSingleWord] of "a", "ab", "abc" (articles 1, 2, 3) and
    [addWord] of "New York City" (article 42). *)
Definition words : IndexedWords :=
  [ ([97], [mkLink [97] [] 1]);
    ([97; 98], [mkLink [97; 98] [] 2]);
    ([97; 98; 99], [mkLink [97; 98; 99] [] 3]);
    ([99; 105; 116; 121],
     [mkLink [67; 105; 116; 121] [78; 101; 119; 32; 89; 111; 114; 107; 32] 42]);
    ([110; 101; 119; 121; 111; 114; 107; 99; 105; 116; 121],
     [mkLink [78; 101; 119; 32; 89; 111; 114; 107; 32; 67; 105; 116; 121] [] 42]);
    ([121; 111; 114; 107; 99; 105; 116; 121],
     [mkLink [89; 111; 114; 107; 32; 67; 105; 116; 121] [78; 101; 119; 32] 42]) ].

(** The index [buildIndex] writes for [words] into [file0]: a single leaf at
    offset 5. *)
Definition indexInfo : IndexInfo := mkIndexInfo 64 5.

Definition indexFile : File.Class :=
  File.mk
    [1; 2; 3; 4; 5; 109; 0; 0; 0; 109; 0; 0; 0; 6; 0; 0; 0; 7; 0; 0; 0; 97; 0;
     0; 1; 0; 0; 0; 8; 0; 0; 0; 97; 98; 0; 0; 2; 0; 0; 0; 9; 0; 0; 0; 97; 98;
     99; 0; 0; 3; 0; 0; 0; 19; 0; 0; 0; 67; 105; 116; 121; 0; 78; 101; 119;
     32; 89; 111; 114; 107; 32; 0; 42; 0; 0; 0; 19; 0; 0; 0; 78; 101; 119; 32;
     89; 111; 114; 107; 32; 67; 105; 116; 121; 0; 0; 42; 0; 0; 0; 19; 0; 0; 0;
     89; 111; 114; 107; 32; 67; 105; 116; 121; 0; 78; 101; 119; 32; 0; 42; 0;
     0; 0; 0; 0; 0; 0]
    126.

(** Seventy words of two letters, "aa" to "cr", word [i] under article [i]:
    enough for an index of two levels. *)
Definition words70 : IndexedWords :=
  map (fun i : nat =>
         let k := [97 + Z.of_nat (i / 26); 97 + Z.of_nat (i mod 26)] in
         (k, [mkLink k [] (Z.of_nat i)]))
      (seq 0 70).

End Sample.

Section BtreeIndexing.

(** ** External collaborators

    Folding ([folding.hh]), the UTF-8 codec ([utf8.hh]) and zlib are used by
    the index and defined elsewhere; the index is parametric in them.
    [Utf8_decode] is [None] where the codec reports a bad sequence;
    [zlib_uncompress] is [None] where zlib reports an error. *)

Variable Folding_apply : wstring -> wstring.
Variable Folding_applySimpleCaseOnly : wstring -> wstring.
Variable Folding_isWhitespace : wchar -> bool.
Variable Folding_isPunct : wchar -> bool.
Variable Utf8_encode : wstring -> bytes.
Variable Utf8_decode : bytes -> option wstring.
Variable zlib_compress : bytes -> bytes.
Variable zlib_uncompress : bytes -> option bytes.

(** ** IndexedWords *)

(** [while( *wordBegin && Folding::isWhitespace( *wordBegin ) )]: the number
    of leading whitespace characters. *)
Fixpoint skipLeadingWhitespace (w : wstring) : nat :=
  match w with
  | [] => O
  | c :: w' =>
      if negb (c =? 0) && Folding_isWhitespace c
      then S (skipLeadingWhitespace w')
      else O
  end.

(** [while( wordSize && Folding::isWhitespace( wordBegin[ wordSize - 1 ] ) )];
    the character at index [length word] is the terminating NUL. *)
Fixpoint trimTrailingWhitespace (word : wstring) (wordBegin wordSize : nat) : nat :=
  match wordSize with
  | O => O
  | S n =>
      if Folding_isWhitespace (nth (wordBegin + n) word 0)
      then trimTrailingWhitespace word wordBegin n
      else wordSize
  end.

(** First inner loop of [addWord], from the character at index [i]: the index
    of the first character that is neither whitespace nor punctuation, or
    [None] when the end of the string comes first. *)
Fixpoint skipSeparators (rest : wstring) (i : nat) : option nat :=
  match rest with
  | [] => None
  | c :: rest' =>
      if c =? 0 then None
      else if negb (Folding_isWhitespace c) && negb (Folding_isPunct c)
           then Some i
           else skipSeparators rest' (S i)
  end.

(** Second inner loop of [addWord]: the index of the next whitespace or
    punctuation character, or [None] at the end of the string. *)
Fixpoint skipToken (rest : wstring) (i : nat) : option nat :=
  match rest with
  | [] => None
  | c :: rest' =>
      if c =? 0 then None
      else if Folding_isWhitespace c || Folding_isPunct c
           then Some i
           else skipToken rest' (S i)
  end.

(** The key under which the suffix at [nextChar] is indexed. *)
Definition suffixKey (word : wstring) (nextChar : nat) : bytes :=
  Utf8_encode (Folding_apply (cstr (skipn nextChar word))).

(** The record made for the suffix at [nextChar]. *)
Definition suffixLink (word : wstring) (wordBegin wordSize nextChar : nat)
    (articleOffset : Z) : WordArticleLink :=
  mkLink
    (Utf8_encode (firstn (wordSize - (nextChar - wordBegin)) (skipn nextChar word)))
    (Utf8_encode (firstn (nextChar - wordBegin) (skipn wordBegin word)))
    articleOffset.

(** "Insert this word": the body of the outer loop of [addWord] for the token
    that starts at [nextChar]. *)
Definition insertSuffix (word : wstring) (wordBegin wordSize nextChar : nat)
    (articleOffset : Z) (m : IndexedWords) : IndexedWords :=
  let key := suffixKey word nextChar in
  let m1 := map_insert key [] m in
  if (length (chain_of key m1) <? 1024)%nat || (nextChar =? wordBegin)%nat
  then map_emplace_back key
         (suffixLink word wordBegin wordSize nextChar articleOffset) m1
  else m1.

(** The outer loop of [addWord]; every turn moves [nextChar] forward, so
    [length word] turns are never exceeded. *)
Fixpoint addWord_loop (turns : nat) (word : wstring) (wordBegin wordSize : nat)
    (articleOffset : Z) (nextChar : nat) (m : IndexedWords) : IndexedWords :=
  match turns with
  | O => m
  | S turns' =>
      match skipSeparators (skipn nextChar word) nextChar with
      | None => m
      | Some tok =>
          let m' := insertSuffix word wordBegin wordSize tok articleOffset m in
          match skipToken (skipn (S tok) word) (S tok) with
          | None => m'
          | Some sep =>
              addWord_loop turns' word wordBegin wordSize articleOffset sep m'
          end
      end
  end.

Definition addWord (word : wstring) (articleOffset : Z) (m : IndexedWords)
  : IndexedWords :=
  let wordBegin := skipLeadingWhitespace word in
  let wordSize :=
    trimTrailingWhitespace word wordBegin (length word - wordBegin) in
  addWord_loop (S (length word)) word wordBegin wordSize articleOffset
               wordBegin m.

Definition addSingleWord (word : wstring) (articleOffset : Z) (m : IndexedWords)
  : IndexedWords :=
  let links := [mkLink (Utf8_encode word) [] articleOffset] in
  map_insert (Utf8_encode (Folding_apply word)) links m.

(** ** Tree builder *)

(** What a call of [buildBtreeNode] leaves behind: the offset of the node, the
    iterator [nextIndex], the file and [lastLeafLinkOffset]. *)
Abbreviation built := (Z * IndexedWords * File.Class * Z)%type (only parsing).

(** "Save the result": compress the node, write it at the file position and,
    for a leaf, write the zero forward link and patch the link of the
    previous leaf. *)
Definition saveNode (isLeaf : bool) (uncompressedData : bytes)
    (file : File.Class) (lastLeafLinkOffset : Z) : Z * File.Class * Z :=
  let compressedData := zlib_compress uncompressedData in
  let offset := to_u32 (File.tell file) in
  let file := File.write_u32 (len uncompressedData) file in
  let file := File.write_u32 (len compressedData) file in
  let file := File.write compressedData file in
  if isLeaf then
    let file := File.write_u32 0 file in
    let here := to_u32 (File.tell file) in
    let file :=
      if lastLeafLinkOffset =? 0 then file
      else File.seek here
             (File.write_u32 offset (File.seek lastLeafLinkOffset file)) in
    (offset, file, to_u32 (here - 4))
  else (offset, file, lastLeafLinkOffset).

(** [curEntry] of the child loop: a 64-bit product and quotient, stored in an
    [unsigned]. *)
Definition curEntryOf (indexSize maxElements x : Z) : Z :=
  to_u32 (to_u64 (to_u64 indexSize * to_u32 (x + 1)) / to_u64 (maxElements + 1)).

(** The loop [for( unsigned x = 0; x < maxElements; ++x )] of an internal
    node, [k] turns from [x] on ([maxElements] below 2^32, so that [x] does
    not wrap); [build] is the recursive call.  Dereferencing the iterator at
    the end of the map is [None]. *)
Fixpoint buildChildren
    (build : IndexedWords -> Z -> File.Class -> Z -> option built)
    (k : nat) (x prevEntry indexSize maxElements : Z)
    (nextIndex : IndexedWords) (file : File.Class) (lastLeafLinkOffset : Z)
    (offsets : list Z) (pivots : list bytes)
  : option (Z * IndexedWords * File.Class * Z * list Z * list bytes) :=
  match k with
  | O => Some (prevEntry, nextIndex, file, lastLeafLinkOffset, offsets, pivots)
  | S k' =>
      let curEntry := curEntryOf indexSize maxElements x in
      match build nextIndex (to_u32 (curEntry - prevEntry)) file
                  lastLeafLinkOffset with
      | None => None
      | Some (offset, nextIndex', file', last') =>
          match nextIndex' with
          | [] => None
          | (key, _) :: _ =>
              buildChildren build k' (x + 1) curEntry indexSize maxElements
                            nextIndex' file' last'
                            (offsets ++ [offset]) (pivots ++ [key])
          end
      end
  end.

(** [buildBtreeNode]; [fuel] bounds the depth of the recursion. *)
Fixpoint buildBtreeNode (fuel : nat) (nextIndex : IndexedWords) (indexSize : Z)
    (file : File.Class) (maxElements : Z) (lastLeafLinkOffset : Z)
  : option built :=
  match fuel with
  | O => None
  | S fuel' =>
      if indexSize <=? maxElements then
        match take_entries (to_u32 indexSize) nextIndex with
        | None => None
        | Some (es, nextIndex') =>
            match leaf_payload indexSize es with
            | None => None
            | Some uncompressedData =>
                let '(offset, file', last') :=
                  saveNode true uncompressedData file lastLeafLinkOffset in
                Some (offset, nextIndex', file', last')
            end
        end
      else
        match buildChildren
                (fun ni n f l => buildBtreeNode fuel' ni n f maxElements l)
                (Z.to_nat maxElements) 0 0 indexSize maxElements
                nextIndex file lastLeafLinkOffset [] [] with
        | None => None
        | Some (prevEntry, nextIndex', file', last', offsets, pivots) =>
            match buildBtreeNode fuel' nextIndex'
                    (to_u64 (indexSize - prevEntry)) file' maxElements last' with
            | None => None
            | Some (offset, nextIndex'', file'', last'') =>
                let '(off, f, l) :=
                  saveNode false (node_payload (offsets ++ [offset]) pivots)
                           file'' last'' in
                Some (off, nextIndex'', f, l)
            end
        end
  end.

(** "Skip any empty words": [while( indexSize && nextIndex->first.empty() )]. *)
Fixpoint skipEmptyWords (indexSize : Z) (nextIndex : IndexedWords)
  : Z * IndexedWords :=
  match nextIndex with
  | ([], _) :: rest =>
      if indexSize =? 0 then (indexSize, nextIndex)
      else skipEmptyWords (indexSize - 1) rest
  | _ => (indexSize, nextIndex)
  end.

(** The fanout [buildIndex] picks.  The source takes the square root in
    [double] and truncates; a map size is far below 2^52, where the [double]
    is exact and the truncated root is the integer square root. *)
Definition chooseMaxElements (indexSize : Z) : Z :=
  let btreeMaxElements := Z.sqrt indexSize + 1 in
  if btreeMaxElements <? BtreeMinElements then BtreeMinElements
  else if btreeMaxElements >? BtreeMaxElements then BtreeMaxElements
       else btreeMaxElements.

(** [buildIndex]: the index description and the file written. *)
Definition buildIndex (indexedWords : IndexedWords) (file : File.Class)
  : option (IndexInfo * File.Class) :=
  let '(indexSize, nextIndex) := skipEmptyWords (len indexedWords) indexedWords in
  let maxElements := chooseMaxElements indexSize in
  match buildBtreeNode (S (length nextIndex)) nextIndex indexSize file
                       maxElements 0 with
  | Some (root, _, file', _) => Some (mkIndexInfo maxElements root, file')
  | None => None
  end.

(** ** Records as the chain reader sees them *)

(** The record [l] is what is read at [p]: a NUL-terminated word, a
    NUL-terminated prefix and a 32-bit offset. *)
Definition record_at (buf : bytes) (p : Z) (l : WordArticleLink) : Prop :=
  strlen buf p = Some (len (word l))
  /\ slice buf p (len (word l)) = Some (word l)
  /\ strlen buf (p + len (word l) + 1) = Some (len (prefix l))
  /\ slice buf (p + len (word l) + 1) (len (prefix l)) = Some (prefix l)
  /\ get_u32 buf (p + len (word l) + 1 + len (prefix l) + 1)
     = Some (articleOffset l).

(** The records [ls] are read back to back from [p] and end at [q]. *)
Inductive records_from (buf : bytes) : Z -> chain -> Z -> Prop :=
| records_nil (p : Z) : records_from buf p [] p
| records_cons (p : Z) (l : WordArticleLink) (ls : chain) (q : Z) :
    record_at buf p l ->
    records_from buf (p + link_size l) ls q ->
    records_from buf p (l :: ls) q.

(** ** Tree reader *)

(** The members of [BtreeIndex]; [idxFile] is [None] before [openIndex]. *)
Record BtreeIndex : Type := mkBtreeIndex {
  idxFile : option File.Class;
  indexNodeSize : Z;
  idxRootOffset : Z;
  rootNodeLoaded : bool;
  rootNode : bytes
}.

Definition newBtreeIndex : BtreeIndex := mkBtreeIndex None 0 0 false [].

Definition openIndex (indexInfo : IndexInfo) (file : File.Class) : BtreeIndex :=
  mkBtreeIndex (Some file) (btreeMaxElements indexInfo) (rootOffset indexInfo)
               false [].

(** [readNode]: the decompressed node at [offset]; the file is left right
    after the compressed bytes. *)
Definition readNode (offset : Z) (file : File.Class)
  : outcome (bytes * File.Class) :=
  let file := File.seek offset file in
  '(uncompressedSize, file) <- File.read_u32 file ;;
  '(compressedSize, file) <- File.read_u32 file ;;
  '(compressedData, file) <- File.read compressedSize file ;;
  match zlib_uncompress compressedData with
  | Some out =>
      if len out =? uncompressedSize then Ok (out, file)
      else Throw exFailedToDecompressNode
  | None => Throw exFailedToDecompressNode
  end.

Definition byte_at (buf : bytes) (i : Z) : option byte :=
  if 0 <=? i then nth_error buf (Z.to_nat i) else None.

(** [while( closestString > ptr && closestString[ -1 ] ) --closestString],
    at most [n] steps; [n] is the distance to [ptr]. *)
Fixpoint scanBack (n : nat) (buf : bytes) (closestString : Z) : outcome Z :=
  match n with
  | O => Ok closestString
  | S n' =>
      b <- access (byte_at buf (closestString - 1)) ;;
      if b =? 0 then Ok closestString
      else scanBack n' buf (closestString - 1)
  end.

(** The string at [p] of a buffer of NUL-terminated strings, decoded. *)
Definition decodeAt (buf : bytes) (p : Z) : outcome (Z * wstring) :=
  wordSize <- access (strlen buf p) ;;
  s <- access (slice buf p wordSize) ;;
  match Utf8_decode s with
  | Some w => Ok (wordSize, cstr w)
  | None => Throw exCantDecode
  end.

(** Binary search over the pivots of an internal node: the pivot the search
    ends on and how the target compares with it. *)
Fixpoint searchPivots (fuel : nat) (target : wstring) (buf : bytes)
    (ptr window windowSize : Z) : outcome (Z * comparison) :=
  match fuel with
  | O => OutOfFuel
  | S fuel' =>
      let testPoint := window + windowSize / 2 in
      closestString <- scanBack (Z.to_nat (testPoint - ptr)) buf testPoint ;;
      '(wordSize, w) <- decodeAt buf closestString ;;
      match str_compare target w with
      | Eq => Ok (closestString, Eq)
      | Lt =>
          let windowSize' := to_u32 (closestString - window) in
          if windowSize' =? 0 then Ok (closestString, Lt)
          else searchPivots fuel' target buf ptr window windowSize'
      | Gt =>
          let windowSize' :=
            to_u32 (windowSize - ((closestString - window) + wordSize + 1)) in
          let window' := closestString + wordSize + 1 in
          if windowSize' =? 0 then Ok (closestString, Gt)
          else searchPivots fuel' target buf ptr window' windowSize'
      end
  end.

(** [for( next = ptr; next != closestString; next += strlen( next ) + 1,
    ++entry )]: the number of the pivot at [closestString]. *)
Fixpoint countEntries (fuel : nat) (buf : bytes) (next closestString entry : Z)
  : outcome Z :=
  if next =? closestString then Ok entry
  else match fuel with
       | O => OutOfFuel
       | S fuel' =>
           n <- access (strlen buf next) ;;
           countEntries fuel' buf (next + n + 1) closestString
                        (to_u32 (entry + 1))
       end.

(** "Build an array containing all chain pointers".  Every turn reads four
    bytes further on in the buffer, so the buffer is left before
    [length buf + 1] turns are over. *)
Fixpoint chainPointers (turns : nat) (buf : bytes) (ptr leafEntries : Z)
  : outcome (list Z) :=
  if leafEntries =? 0 then Ok []
  else match turns with
       | O => Fault
       | S turns' =>
           chainSize <- access (get_u32 buf ptr) ;;
           rest <- chainPointers turns' buf (ptr + 4 + chainSize)
                                 (leafEntries - 1) ;;
           Ok (ptr :: rest)
       end.

(** How the binary search of a leaf ends. *)
Inductive leafSearch : Type :=
| ExactAt (p : Z)
| PrefixAt (p : Z)
| PastLastChain.

Definition nth_chain (chainOffsets : list Z) (i : Z) : option Z :=
  if 0 <=? i then nth_error chainOffsets (Z.to_nat i) else None.

(** Binary search over the chains of a leaf; [window] is an index into
    [chainOffsets].  [windowSize] shrinks every turn. *)
Fixpoint searchChains (turns : nat) (target : wstring) (buf : bytes)
    (chainOffsets : list Z) (window windowSize : Z) : outcome leafSearch :=
  match turns with
  | O => OutOfFuel
  | S turns' =>
      let chainToCheck := window + windowSize / 2 in
      ptr <- access (nth_chain chainOffsets chainToCheck) ;;
      _ <- access (get_u32 buf ptr) ;;
      '(_, w) <- decodeAt buf (ptr + 4) ;;
      let foldedWord := Folding_apply w in
      match str_compare target foldedWord with
      | Eq => Ok (ExactAt ptr)
      | Lt =>
          let windowSize' := windowSize / 2 in
          if windowSize' =? 0 then Ok (PrefixAt ptr)
          else searchChains turns' target buf chainOffsets window windowSize'
      | Gt =>
          let windowSize' := to_u32 (windowSize - (windowSize / 2 + 1)) in
          if windowSize' =? 0 then
            if chainToCheck =? len chainOffsets - 1 then Ok PastLastChain
            else p <- access (nth_chain chainOffsets (chainToCheck + 1)) ;;
                 Ok (PrefixAt p)
          else searchChains turns' target buf chainOffsets
                            (chainToCheck + 1) windowSize'
      end
  end.

(** What [findChainOffsetExactOrPrefix] hands back: the returned pointer
    ([None] is the null pointer), [exactMatch], the buffer the pointer and
    [leafEnd] point into (the cached root or [extLeaf]), [nextLeaf] and
    [leafEnd] as an offset in that buffer. *)
Record ChainLookup : Type := mkChainLookup {
  chainOffset : option Z;
  exactMatch : bool;
  leafBuf : bytes;
  nextLeaf : Z;
  leafEnd : Z
}.

(** The loop of [findChainOffsetExactOrPrefix] from the node in [leaf], read
    at [currentNodeOffset]. *)
Fixpoint descend (fuel : nat) (target : wstring) (nodeSize root : Z)
    (file : File.Class) (leaf : bytes) (currentNodeOffset : Z)
  : outcome (ChainLookup * File.Class) :=
  match fuel with
  | O => OutOfFuel
  | S fuel' =>
      leafEntries <- access (get_u32 leaf 0) ;;
      if leafEntries =? 4294967295 then
        (* A node *)
        let ptr := 4 + to_u32 (nodeSize + 1) * 4 in
        '(closestString, compareResult) <-
          searchPivots fuel target leaf ptr ptr (to_u32 (len leaf - ptr)) ;;
        entry <- countEntries (S (length leaf)) leaf ptr closestString 0 ;;
        (* offsets[ entry ] when the target is smaller, offsets[ entry + 1 ]
           when it is equal or larger *)
        let child :=
          match compareResult with
          | Lt => entry
          | _ => to_u32 (entry + 1)
          end in
        currentNodeOffset' <- access (get_u32 leaf (4 + 4 * child)) ;;
        '(extLeaf, file') <- readNode currentNodeOffset' file ;;
        descend fuel' target nodeSize root file' extLeaf currentNodeOffset'
      else
        (* A leaf *)
        '(next, file') <-
          (if currentNodeOffset =? root then Ok (0, file)
           else File.read_u32 file) ;;
        if leafEntries =? 0 then
          if currentNodeOffset =? root
          then Ok (mkChainLookup None false leaf next (len leaf), file')
          else Throw exCorruptedChainData
        else
          chainOffsets <- chainPointers (S (length leaf)) leaf 4 leafEntries ;;
          r <- searchChains (S (length chainOffsets)) target leaf chainOffsets
                            0 (to_u32 (len chainOffsets)) ;;
          match r with
          | ExactAt p =>
              Ok (mkChainLookup (Some p) true leaf next (len leaf), file')
          | PrefixAt p =>
              Ok (mkChainLookup (Some p) false leaf next (len leaf), file')
          | PastLastChain =>
              if next =? 0
              then Ok (mkChainLookup None false leaf next (len leaf), file')
              else
                '(extLeaf, file'') <- readNode next file' ;;
                '(next', file3) <- File.read_u32 file'' ;;
                Ok (mkChainLookup (Some 4) false extLeaf next' (len extLeaf),
                    file3)
          end
  end.

(** [findChainOffsetExactOrPrefix]: the root node is read on the first call
    and kept. *)
Definition findChainOffsetExactOrPrefix (fuel : nat) (target : wstring)
    (idx : BtreeIndex) : outcome (ChainLookup * BtreeIndex) :=
  match idxFile idx with
  | None => Throw exIndexWasNotOpened
  | Some file =>
      '(root, file) <-
        (if rootNodeLoaded idx then Ok (rootNode idx, file)
         else readNode (idxRootOffset idx) file) ;;
      '(r, file') <-
        descend fuel target (indexNodeSize idx) (idxRootOffset idx) file root
                (idxRootOffset idx) ;;
      Ok (r, mkBtreeIndex (Some file') (indexNodeSize idx) (idxRootOffset idx)
                          true root)
  end.

(** The loop of [readChain]; a record takes at least six bytes of the
    buffer, so the buffer is left before [length buf + 1] turns are over.
    The subtraction does not wrap: the test before it. *)
Fixpoint readChain_loop (turns : nat) (buf : bytes) (ptr chainSize : Z)
    (result : chain) : outcome (chain * Z) :=
  if chainSize =? 0 then Ok (result, ptr)
  else match turns with
       | O => Fault
       | S turns' =>
           n1 <- access (strlen buf ptr) ;;
           str <- access (slice buf ptr n1) ;;
           let ptr1 := ptr + n1 + 1 in
           n2 <- access (strlen buf ptr1) ;;
           pre <- access (slice buf ptr1 n2) ;;
           let ptr2 := ptr1 + n2 + 1 in
           off <- access (get_u32 buf ptr2) ;;
           let recordSize := n1 + 1 + n2 + 1 + 4 in
           if chainSize <? recordSize then Throw exCorruptedChainData
           else readChain_loop turns' buf (ptr2 + 4) (chainSize - recordSize)
                               (result ++ [mkLink str pre off])
       end.

(** [readChain]: the records of the chain at [ptr] and [ptr] past them. *)
Definition readChain (buf : bytes) (ptr : Z) : outcome (chain * Z) :=
  chainSize <- access (get_u32 buf ptr) ;;
  readChain_loop (S (length buf)) buf (ptr + 4) chainSize [].

Definition erase {A : Type} (x : nat) (l : list A) : list A :=
  firstn x l ++ skipn (S x) l.

Definition assign {A : Type} (x : nat) (a : A) (l : list A) : list A :=
  firstn x l ++ a :: skipn (S x) l.

(** The loop [for( unsigned x = chain.size(); x--; )] of [antialias]. *)
Fixpoint antialias_loop (x : nat) (caseFolded : wstring) (c : chain)
  : outcome chain :=
  match x with
  | O => Ok c
  | S x' =>
      l <- access (nth_error c x') ;;
      match Utf8_decode (prefix l ++ word l) with
      | None => Throw exCantDecode
      | Some w =>
          if negb (str_eqb (Folding_applySimpleCaseOnly w) caseFolded)
          then antialias_loop x' caseFolded (erase x' c)
          else
            match prefix l with
            | [] => antialias_loop x' caseFolded c
            | _ :: _ =>
                antialias_loop x' caseFolded
                  (assign x' (mkLink (prefix l ++ word l) [] (articleOffset l)) c)
            end
      end
  end.

Definition antialias (str : wstring) (c : chain) : outcome chain :=
  antialias_loop (length c) (Folding_applySimpleCaseOnly str) c.

Definition findArticles (fuel : nat) (str : wstring) (idx : BtreeIndex)
  : outcome (chain * BtreeIndex) :=
  let folded := Folding_apply str in
  '(r, idx') <- findChainOffsetExactOrPrefix fuel folded idx ;;
  match chainOffset r with
  | Some p =>
      if exactMatch r then
        '(result, _) <- readChain (leafBuf r) p ;;
        result' <- antialias str result ;;
        Ok (result', idx')
      else Ok ([], idx')
  | None => Ok ([], idx')
  end.

(** ** Word search requests

    [BtreeWordSearchRequest::run] as the worker thread executes it.  The
    cancellation flag is written by other threads; a run is taken under a
    value of the flag that does not change while it runs. *)

(** Conversion of an [unsigned] to [int]. *)
Definition to_int (v : Z) : Z := (v + 2147483648) mod u32_modulus - 2147483648.

Record BtreeWordSearchRequest : Type := mkRequest {
  req_str : wstring;
  maxResults : Z;
  minLength : Z;
  maxSuffixVariation : Z;
  allowMiddleMatches : bool
}.

(** [resultFolded.size() >= folded.size() &&
     !resultFolded.compare( 0, folded.size(), folded )]. *)
Definition startsWith (resultFolded folded : wstring) : bool :=
  (len folded <=? len resultFolded)
  && str_eqb (firstn (length folded) resultFolded) folded.

(** The loop over the records of a chain that matched: which of them are
    added to [matches]. *)
Fixpoint addMatches (r : BtreeWordSearchRequest) (initialFoldedSize : Z)
    (resultFolded : wstring) (c : chain) (matches : list wstring)
  : outcome (list wstring) :=
  match c with
  | [] => Ok matches
  | cx :: c' =>
      notMiddle <-
        (if allowMiddleMatches r then Ok true
         else match Utf8_decode (prefix cx) with
              | Some p => Ok (match Folding_apply p with [] => true | _ => false end)
              | None => Throw exCantDecode
              end) ;;
      if notMiddle
         && ((maxSuffixVariation r <? 0)
             || (len resultFolded - initialFoldedSize <=? maxSuffixVariation r))
      then match Utf8_decode (prefix cx ++ word cx) with
           | Some w => addMatches r initialFoldedSize resultFolded c'
                                  (matches ++ [w])
           | None => Throw exCantDecode
           end
      else addMatches r initialFoldedSize resultFolded c' matches
  end.

(** The inner loop of [run]: walk the chains forward from [chainOffset]. *)
Fixpoint walkChains (fuel : nat) (r : BtreeWordSearchRequest) (isCancelled : bool)
    (initialFoldedSize : Z) (folded : wstring) (leaf : bytes)
    (chainOffset nextLeaf : Z) (file : File.Class) (matches : list wstring)
  : outcome (list wstring * File.Class) :=
  match fuel with
  | O => OutOfFuel
  | S fuel' =>
      if isCancelled then Ok (matches, file)
      else
        '(c, chainOffset') <- readChain leaf chainOffset ;;
        head <- access (nth_error c O) ;;
        match Utf8_decode (word head) with
        | None => Throw exCantDecode
        | Some chainHead =>
            let resultFolded := Folding_apply chainHead in
            if startsWith resultFolded folded then
              matches' <- addMatches r initialFoldedSize resultFolded c matches ;;
              if maxResults r <=? len matches' then Ok (matches', file)
              else if len leaf <=? chainOffset' then
                if nextLeaf =? 0 then Ok (matches', file)
                else
                  '(leaf', file') <- readNode nextLeaf file ;;
                  '(nextLeaf', file'') <- File.read_u32 file' ;;
                  walkChains fuel' r isCancelled initialFoldedSize folded
                             leaf' 4 nextLeaf' file'' matches'
              else walkChains fuel' r isCancelled initialFoldedSize folded
                              leaf chainOffset' nextLeaf file matches'
            else Ok (matches, file)
        end
  end.

(** The outer loop of [run], with [chops] characters left to chop.
    [folded.resize( folded.size() - 1 )] on an empty string asks for the
    largest [size_t], which [resize] refuses with [std::length_error]. *)
Fixpoint chopLoop (fuel : nat) (r : BtreeWordSearchRequest) (isCancelled : bool)
    (initialFoldedSize : Z) (chops : nat) (folded : wstring)
    (idx : BtreeIndex) (matches : list wstring)
  : outcome (list wstring * BtreeIndex) :=
  '(l, idx1) <- findChainOffsetExactOrPrefix fuel folded idx ;;
  '(matches', idx2) <-
    match chainOffset l, idxFile idx1 with
    | Some p, Some file =>
        '(ms, file') <- walkChains fuel r isCancelled initialFoldedSize folded
                                   (leafBuf l) p (nextLeaf l) file matches ;;
        Ok (ms, mkBtreeIndex (Some file') (indexNodeSize idx1)
                             (idxRootOffset idx1) (rootNodeLoaded idx1)
                             (rootNode idx1))
    | _, _ => Ok (matches, idx1)
    end ;;
  match chops with
  | S chops' =>
      if isCancelled then Ok (matches', idx2)
      else match folded with
           | [] => Throw exLengthError
           | _ :: _ =>
               chopLoop fuel r isCancelled initialFoldedSize chops'
                        (removelast folded) idx2 matches'
           end
  | O => Ok (matches', idx2)
  end.

(** [charsLeftToChop] as [run] computes it: the difference of two [int]s is
    an [int] again, wrapping as the machine subtracts. *)
Definition charsLeftToChop (r : BtreeWordSearchRequest) (initialFoldedSize : Z)
  : Z :=
  if 0 <=? maxSuffixVariation r then
    let c := to_int (initialFoldedSize - to_int (minLength r)) in
    if c <? 0 then 0
    else if c >? maxSuffixVariation r then maxSuffixVariation r else c
  else 0.

(** [BtreeWordSearchRequest::run]: the matches at [finish()]. *)
Definition run (fuel : nat) (r : BtreeWordSearchRequest) (isCancelled : bool)
    (dict : BtreeIndex) : outcome (list wstring * BtreeIndex) :=
  if isCancelled then Ok ([], dict)
  else
    let folded := Folding_apply (req_str r) in
    let initialFoldedSize := len folded in
    chopLoop fuel r isCancelled initialFoldedSize
             (Z.to_nat (charsLeftToChop r initialFoldedSize)) folded dict [].

Definition prefixMatch (str : wstring) (maxResults : Z)
  : BtreeWordSearchRequest :=
  mkRequest str maxResults 0 (-1) true.

Definition stemmedMatch (str : wstring)
    (minLength maxSuffixVariation maxResults : Z) : BtreeWordSearchRequest :=
  mkRequest str maxResults minLength (to_int maxSuffixVariation) false.

(** ** The chain of leaves

    The leaves as a reader walks them, with the operations of the reader:
    [readNode], the forward link read right after a leaf (as
    [findChainOffsetExactOrPrefix] and [run] read [nextLeaf]), the chain
    pointers and [readChain]. *)

Fixpoint readChains (buf : bytes) (ptrs : list Z) : outcome (list chain) :=
  match ptrs with
  | [] => Ok []
  | p :: r =>
      '(c, _) <- readChain buf p ;;
      cs <- readChains buf r ;;
      Ok (c :: cs)
  end.

(** The chains of a leaf, in order. *)
Definition leafChains (leaf : bytes) : outcome (list chain) :=
  leafEntries <- access (get_u32 leaf 0) ;;
  ptrs <- chainPointers (S (length leaf)) leaf 4 leafEntries ;;
  readChains leaf ptrs.

(** From a node down [offsets[ 0 ]] to the leftmost leaf under it. *)
Fixpoint leftmostLeaf (fuel : nat) (file : File.Class) (offset : Z)
  : outcome Z :=
  match fuel with
  | O => OutOfFuel
  | S fuel' =>
      '(node, _) <- readNode offset file ;;
      leafEntries <- access (get_u32 node 0) ;;
      if leafEntries =? 4294967295 then
        child <- access (get_u32 node 4) ;;
        leftmostLeaf fuel' file child
      else Ok offset
  end.

(** The chains met from the leaf at [offset] on, following the forward
    links until a link is 0. *)
Fixpoint followLinks (fuel : nat) (file : File.Class) (offset : Z)
  : outcome (list chain) :=
  match fuel with
  | O => OutOfFuel
  | S fuel' =>
      '(leaf, file) <- readNode offset file ;;
      '(nextLeaf, file) <- File.read_u32 file ;;
      cs <- leafChains leaf ;;
      if nextLeaf =? 0 then Ok cs
      else rest <- followLinks fuel' file nextLeaf ;;
           Ok (cs ++ rest)
  end.

(** ** What the specification says *)

(** Antialiasing, in the words of the specification: a record is kept when
    the simple case folding of [prefix + word] is that of the query, and a
    kept record has its prefix merged into the word. *)
Definition decodable (l : WordArticleLink) : bool :=
  match Utf8_decode (prefix l ++ word l) with
  | Some _ => true
  | None => false
  end.

Definition survives (q : wstring) (l : WordArticleLink) : bool :=
  match Utf8_decode (prefix l ++ word l) with
  | Some w =>
      str_eqb (Folding_applySimpleCaseOnly w) (Folding_applySimpleCaseOnly q)
  | None => false
  end.

Definition merged (l : WordArticleLink) : WordArticleLink :=
  match prefix l with
  | [] => l
  | _ :: _ => mkLink (prefix l ++ word l) [] (articleOffset l)
  end.

Definition antialiased (q : wstring) (c : chain) : chain :=
  map merged (filter (survives q) c).




(** The headwords of a chain: [prefix + word] of every record. *)
Definition headwordsOf (c : chain) : list wstring :=
  flat_map (fun cx => match Utf8_decode (prefix cx ++ word cx) with
                      | Some w => [w]
                      | None => []
                      end) c.

(** The headwords of the records of a chain that are not middle matches:
    the folding of the prefix is empty. *)
Definition isWholeHeadword (cx : WordArticleLink) : bool :=
  match Utf8_decode (prefix cx) with
  | Some p => match Folding_apply p with [] => true | _ :: _ => false end
  | None => false
  end.

Definition wholeHeadwordsOf (c : chain) : list wstring :=
  headwordsOf (filter isWholeHeadword c).

(** The entries of a map under a non-empty key: the key set the index is
    built from. *)
Definition hasKey (e : bytes * chain) : bool :=
  match fst e with
  | [] => false
  | _ :: _ => true
  end.

Definition nonEmptyKeys (m : IndexedWords) : IndexedWords := filter hasKey m.

(** Strings that can be stored NUL-terminated, and records made of them with
    an offset of 32 bits. *)
Definition nul_free (s : list Z) : bool := forallb (fun c => negb (c =? 0)) s.

Definition link_ok (l : WordArticleLink) : bool :=
  nul_free (word l) && nul_free (prefix l)
  && (0 <=? articleOffset l) && (articleOffset l <? u32_modulus).

Definition chains_ok (m : IndexedWords) : bool :=
  forallb (fun e => forallb link_ok (snd e)) m.

(** The string a key is compared as in the nodes: the reader decodes the
    stored bytes and reads the result as a C string. *)
Definition dkey (e : bytes * chain) : wstring :=
  match Utf8_decode (fst e) with
  | Some fk => cstr fk
  | None => []
  end.

(** An entry as [addSingleWord] and [addWord] make it: the key is the UTF-8
    of a NUL-free folded word, and the chain starts with a record whose word
    folds to it. *)
Definition entry_ok (e : bytes * chain) : bool :=
  match Utf8_decode (fst e), snd e with
  | Some fk, l :: _ =>
      str_eqb (Utf8_encode fk) (fst e) && nul_free (fst e) && nul_free fk
      && match Utf8_decode (word l) with
         | Some w0 => str_eqb (Folding_apply (cstr w0)) fk
         | None => false
         end
  | _, _ => false
  end.

(** Entries a search can run over: well-formed, and ascending as the
    reader compares them. *)
Definition searchable (es : IndexedWords) : Prop :=
  (forall c e, nth_error es c = Some e ->
               entry_ok e = true /\ forallb link_ok (snd e) = true)
  /\ (forall a b ea eb, (a < b)%nat ->
        nth_error es a = Some ea -> nth_error es b = Some eb ->
        str_compare (dkey ea) (dkey eb) = Lt).

(** ** The layout of the index file

    What the builder has written is a sequence of items in file order: a
    leaf with its forward link, or an internal node.  The bytes of the file
    are a function of the items: the forward link of a leaf is the offset of
    the next leaf, zero for the last. *)

Inductive item : Type :=
| LeafI (es : IndexedWords)
| NodeI (offsets : list Z) (pivots : list bytes).

Definition leaf_body (es : IndexedWords) : bytes :=
  put_u32 (len es) ++ concat (map (fun e => chain_bytes (snd e)) es).

Definition payload_of (it : item) : bytes :=
  match it with
  | LeafI es => leaf_body es
  | NodeI offsets pivots => node_payload offsets pivots
  end.

(** A node in the file: the two size words and the compressed payload. *)
Definition node_image (p : bytes) : bytes :=
  put_u32 (len p) ++ put_u32 (len (zlib_compress p)) ++ zlib_compress p.

Definition link_room (it : item) : Z :=
  match it with
  | LeafI _ => 4
  | NodeI _ _ => 0
  end.

Definition item_size (it : item) : Z :=
  len (node_image (payload_of it)) + link_room it.

Fixpoint items_size (its : list item) : Z :=
  match its with
  | [] => 0
  | it :: r => item_size it + items_size r
  end.

(** Offset of the first leaf among items placed from [cur]; zero without. *)
Fixpoint next_leaf (cur : Z) (its : list item) : Z :=
  match its with
  | [] => 0
  | LeafI _ :: _ => cur
  | it :: r => next_leaf (cur + item_size it) r
  end.

(** The bytes of items placed from [cur]. *)
Fixpoint image (cur : Z) (its : list item) : bytes :=
  match its with
  | [] => []
  | it :: r =>
      node_image (payload_of it)
        ++ match it with
           | LeafI _ => put_u32 (next_leaf (cur + item_size it) r)
           | NodeI _ _ => []
           end
        ++ image (cur + item_size it) r
  end.

(** Offset of the forward link of the last leaf; [lastLeafLinkOffset]. *)
Fixpoint last_link (cur : Z) (its : list item) : option Z :=
  match its with
  | [] => None
  | it :: r =>
      match last_link (cur + item_size it) r with
      | Some l => Some l
      | None =>
          match it with
          | LeafI _ => Some (cur + len (node_image (payload_of it)))
          | NodeI _ _ => None
          end
      end
  end.

Definition last_link_offset (cur : Z) (its : list item) : Z :=
  match last_link cur its with
  | Some l => l
  | None => 0
  end.

(** The item [it] lies at offset [off] when the items start at [b]. *)
Definition item_at (b : Z) (its : list item) (off : Z) (it : item) : Prop :=
  exists pre post, its = pre ++ it :: post /\ off = b + items_size pre.

(** The entries of the leaves, in file order. *)
Fixpoint leaf_entries (its : list item) : list IndexedWords :=
  match its with
  | [] => []
  | LeafI es :: r => es :: leaf_entries r
  | NodeI _ _ :: r => leaf_entries r
  end.

(** The file holds the bytes [d0] and then the items, and is positioned at
    its end. *)
Definition disk (f : File.Class) (d0 : bytes) (its : list item) : Prop :=
  File.data f = d0 ++ image (len d0) its /\ File.pos f = len (File.data f).

(** [bs] written over [d] at [p]. *)
Definition overwrite (d : bytes) (p : Z) (bs : bytes) : bytes :=
  firstn (Z.to_nat p) d ++ bs ++ skipn (Z.to_nat p + length bs) d.

(** The uncompressed bytes an entry can take in nodes: its key as a pivot and
    its chain in a leaf. *)
Definition entry_weight (e : bytes * chain) : Z :=
  len (fst e) + 1 + len (chain_bytes (snd e)).

Fixpoint entries_weight (es : IndexedWords) : Z :=
  match es with
  | [] => 0
  | e :: r => entry_weight e + entries_weight r
  end.

(** A bound on every uncompressed node of an index of the entries [es] with
    fanout [F]. *)
Definition raw_size (F : Z) (es : IndexedWords) : Z :=
  4 * (F + 2) + entries_weight es.

Definition payload_small (it : item) : Prop :=
  len (payload_of it) < u32_modulus.

(** Where the chains of the entries [es] start in a leaf, the first at [p]. *)
Fixpoint chain_ptrs (p : Z) (es : IndexedWords) : list Z :=
  match es with
  | [] => []
  | e :: r => p :: chain_ptrs (p + len (chain_bytes (snd e))) r
  end.

Definition file_of (r : built) : File.Class :=
  let '(_, _, f, _) := r in f.

(** The slices of an internal node: child [x] ends [cutPoint n F x] entries
    from the start, the rightmost child [F] at the end. *)
Definition cutPoint (n F x : Z) : Z :=
  if x <? 0 then 0
  else if F <=? x then n
       else n * (x + 1) / (F + 1).

Definition entries_between (es : IndexedWords) (a b : Z) : IndexedWords :=
  firstn (Z.to_nat (b - a)) (skipn (Z.to_nat a) es).

Definition key_at (es : IndexedWords) (i : Z) : bytes :=
  fst (nth (Z.to_nat i) es ([], [])).

(** The tree of the entries [es] with fanout [F] is stored with its root at
    [off], in at most [h] levels; [first] is the offset of its leftmost
    leaf.  No more than [F] entries make a leaf; more make an internal node
    of [F + 1] children, child [x] holding the entries between the cut
    points [x - 1] and [x], with the first key of child [x + 1] as pivot
    [x]. *)
Fixpoint subtree (h : nat) (F b : Z) (its : list item) (off : Z)
    (es : IndexedWords) (first : Z) : Prop :=
  match h with
  | O => False
  | S h' =>
      if len es <=? F
      then item_at b its off (LeafI es) /\ first = off
      else exists offsets pivots,
          item_at b its off (NodeI offsets pivots)
          /\ len offsets = F + 1 /\ len pivots = F
          /\ (forall x, 0 <= x < F ->
                nth (Z.to_nat x) pivots []
                = key_at es (cutPoint (len es) F x))
          /\ (forall x, 0 <= x <= F ->
                exists fx,
                  subtree h' F b its (nth (Z.to_nat x) offsets 0)
                    (entries_between es (cutPoint (len es) F (x - 1))
                                        (cutPoint (len es) F x)) fx
                  /\ (x = 0 -> fx = first))
  end.

(** What a call of [buildBtreeNode] for [n] entries under the iterator [ni]
    has done to a file that held the items [its]: it appended items [new],
    the last of them the node at the returned offset, root of the tree of
    the [n] entries; the leaves among [new] hold the [n] entries in order. *)
Definition built_ok (h : nat) (F : Z) (d0 : bytes) (its : list item)
    (ni : IndexedWords) (n : Z) (r : built) : Prop :=
  let '(off, ni', f', last') := r in
  exists new,
    disk f' d0 (its ++ new)
    /\ last' = last_link_offset (len d0) (its ++ new)
    /\ ni' = skipn (Z.to_nat n) ni
    /\ subtree h F (len d0) (its ++ new) off (firstn (Z.to_nat n) ni)
               (len d0 + items_size its)
    /\ concat (leaf_entries new) = firstn (Z.to_nat n) ni
    /\ Forall payload_small new.

(** The bytes of the pivots of an internal node. *)
Definition pivots_bytes (pivots : list bytes) : bytes :=
  concat (map (fun k => k ++ [0]) pivots).

(** Where pivot [j] starts when the pivots start at [ptr]. *)
Definition pivot_off (ptr : Z) (pivots : list bytes) (j : nat) : Z :=
  ptr + len (pivots_bytes (firstn j pivots)).

(** The buffer [buf] of a node holds the pivots from [ptr] to its end; they
    are NUL-free and decodable. *)
Definition pivot_area (buf : bytes) (ptr : Z) (pivots : list bytes) : Prop :=
  (exists H, buf = H ++ pivots_bytes pivots /\ len H = ptr)
  /\ (forall j k, nth_error pivots j = Some k ->
        nul_free k = true /\ exists fk, Utf8_decode k = Some fk)
  /\ len buf < u32_modulus.

(** How the target compares with the pivots around a place of the search:
    the pivot before [j] is smaller, the pivot at [j] is larger. *)
Definition below (t : wstring) (pivots : list bytes) (j : nat) : Prop :=
  j = O
  \/ exists k, nth_error pivots (j - 1) = Some k
               /\ str_compare t (dkey (k, [])) = Gt.

Definition above (t : wstring) (pivots : list bytes) (j : nat) : Prop :=
  j = length pivots
  \/ exists k, nth_error pivots j = Some k
               /\ str_compare t (dkey (k, [])) = Lt.

(** The state of the child loop of an internal node of [n] entries before
    child [x]: the children before [x] are written, with their offsets and
    pivots recorded. *)
Definition children_ok (h : nat) (F : Z) (d0 : bytes) (its : list item)
    (ni : IndexedWords) (n x : Z) (f : File.Class) (last : Z)
    (offs : list Z) (piv : list bytes) : Prop :=
  exists new,
    disk f d0 (its ++ new)
    /\ last = last_link_offset (len d0) (its ++ new)
    /\ len offs = x /\ len piv = x
    /\ (x = 0 -> new = [])
    /\ (forall y, 0 <= y < x ->
          nth (Z.to_nat y) piv [] = key_at ni (cutPoint n F y))
    /\ (forall y, 0 <= y < x ->
          exists fy,
            subtree h F (len d0) (its ++ new) (nth (Z.to_nat y) offs 0)
              (entries_between ni (cutPoint n F (y - 1)) (cutPoint n F y)) fy
            /\ (y = 0 -> fy = len d0 + items_size its))
    /\ concat (leaf_entries new)
       = firstn (Z.to_nat (cutPoint n F (x - 1))) ni
    /\ Forall payload_small new
    /\ len (pivots_bytes piv)
       <= entries_weight (firstn (Z.to_nat (cutPoint n F (x - 1) + 1)) ni).

(** ** The leaves as a search request walks them

    No leaf the builder writes for a non-empty slice is empty; the forward
    walk of a search request relies on it when it steps into the next
    leaf. *)

Definition leaf_nonempty (it : item) : Prop :=
  match it with
  | LeafI [] => False
  | _ => True
  end.

(** [built_ok], and the leaves written are not empty. *)
Definition built_full (h : nat) (F : Z) (d0 : bytes) (its : list item)
    (ni : IndexedWords) (n : Z) (r : built) : Prop :=
  let '(off, ni', f', last') := r in
  exists new,
    disk f' d0 (its ++ new)
    /\ last' = last_link_offset (len d0) (its ++ new)
    /\ ni' = skipn (Z.to_nat n) ni
    /\ subtree h F (len d0) (its ++ new) off (firstn (Z.to_nat n) ni)
               (len d0 + items_size its)
    /\ concat (leaf_entries new) = firstn (Z.to_nat n) ni
    /\ Forall payload_small new
    /\ (0 < n -> Forall leaf_nonempty new).

(** [children_ok], and the leaves written are not empty. *)
Definition children_full (h : nat) (F : Z) (d0 : bytes) (its : list item)
    (ni : IndexedWords) (n x : Z) (f : File.Class) (last : Z)
    (offs : list Z) (piv : list bytes) : Prop :=
  exists new,
    disk f d0 (its ++ new)
    /\ last = last_link_offset (len d0) (its ++ new)
    /\ len offs = x /\ len piv = x
    /\ (x = 0 -> new = [])
    /\ (forall y, 0 <= y < x ->
          nth (Z.to_nat y) piv [] = key_at ni (cutPoint n F y))
    /\ (forall y, 0 <= y < x ->
          exists fy,
            subtree h F (len d0) (its ++ new) (nth (Z.to_nat y) offs 0)
              (entries_between ni (cutPoint n F (y - 1)) (cutPoint n F y)) fy
            /\ (y = 0 -> fy = len d0 + items_size its))
    /\ concat (leaf_entries new)
       = firstn (Z.to_nat (cutPoint n F (x - 1))) ni
    /\ Forall payload_small new
    /\ len (pivots_bytes piv)
       <= entries_weight (firstn (Z.to_nat (cutPoint n F (x - 1) + 1)) ni)
    /\ Forall leaf_nonempty new.

(** A place of the forward walk: the buffer [leaf] is a leaf of the file,
    [p] points at one of its chains, [nx] is the forward link of the leaf,
    and [rest] are the entries from that chain on, to the end of the last
    leaf. *)
Definition cursor (b : Z) (its : list item) (leaf : bytes) (p nx : Z)
    (rest : IndexedWords) : Prop :=
  exists pre esl post j,
    its = pre ++ LeafI esl :: post
    /\ leaf = leaf_body esl
    /\ nth_error (chain_ptrs 4 esl) j = Some p
    /\ nx = next_leaf (b + items_size (pre ++ [LeafI esl])) post
    /\ rest = skipn j esl ++ concat (leaf_entries post).

(** ** The matches of a search request, over the entries of the map

    What the loops of [BtreeWordSearchRequest::run] compute, told over the
    entries instead of the file. *)

Definition prefixDecodes (l : WordArticleLink) : bool :=
  match Utf8_decode (prefix l) with
  | Some _ => true
  | None => false
  end.

(** The headwords the chain of an entry adds to the matches: none when the
    key is longer than the suffix variation allows; else the headwords of
    its records, without the middle matches unless they are allowed. *)
Definition chainMatches (r : BtreeWordSearchRequest) (initialFoldedSize : Z)
    (e : bytes * chain) : list wstring :=
  if (maxSuffixVariation r <? 0)
     || (len (dkey e) - initialFoldedSize <=? maxSuffixVariation r)
  then headwordsOf (if allowMiddleMatches r then snd e
                    else filter isWholeHeadword (snd e))
  else [].

(** The inner loop: chain after chain is added, and the loop is left after
    the first chain that brings the matches to [maxResults]. *)
Fixpoint collect (maxResults : Z) (cs : list (list wstring))
    (matches : list wstring) : list wstring :=
  match cs with
  | [] => matches
  | c :: cs' =>
      if maxResults <=? len (matches ++ c) then matches ++ c
      else collect maxResults cs' (matches ++ c)
  end.

(** The outer loop: the chains whose key starts with the target, then the
    same for the target without its last character, [chops] times. *)
Fixpoint matchesOf (r : BtreeWordSearchRequest) (initialFoldedSize : Z)
    (es : IndexedWords) (chops : nat) (folded : wstring)
    (matches : list wstring) : list wstring :=
  let matches' :=
    collect (maxResults r)
            (map (chainMatches r initialFoldedSize)
                 (filter (fun e => startsWith (dkey e) folded) es))
            matches in
  match chops with
  | O => matches'
  | S chops' =>
      matchesOf r initialFoldedSize es chops' (removelast folded) matches'
  end.

(** * Properties *)

Set Default Proof Using "Type".

(** ** String comparison *)

Lemma str_compare_refl (a : list Z) : str_compare a a = Eq.
Proof.
  induction a as [|x a IH]; simpl; [reflexivity|].
  now rewrite Z.compare_refl.
Qed.

Lemma str_compare_eq (a b : list Z) : str_compare a b = Eq -> a = b.
Proof.
  revert b; induction a as [|x a IH]; intros [|y b]; simpl;
    try discriminate; [reflexivity|].
  destruct (x ?= y) eqn:E; try discriminate.
  intros H. apply Z.compare_eq in E. subst y. now rewrite (IH b H).
Qed.

Lemma str_compare_antisym (a b : list Z) :
  str_compare b a = CompOpp (str_compare a b).
Proof.
  revert b; induction a as [|x a IH]; intros [|y b]; simpl; try reflexivity.
  rewrite (Z.compare_antisym x y).
  destruct (x ?= y); simpl; auto.
Qed.

Lemma str_compare_gt_lt (a b : list Z) :
  str_compare a b = Gt <-> str_compare b a = Lt.
Proof.
  rewrite (str_compare_antisym a b).
  destruct (str_compare a b); simpl; split; congruence.
Qed.

Lemma str_compare_lt_trans (a b c : list Z) :
  str_compare a b = Lt -> str_compare b c = Lt -> str_compare a c = Lt.
Proof.
  revert b c; induction a as [|x a IH]; intros [|y b] [|z c]; simpl;
    try discriminate; try reflexivity.
  destruct (x ?= y) eqn:Exy; try discriminate;
    destruct (y ?= z) eqn:Eyz; try discriminate; intros H1 H2.
  - apply Z.compare_eq in Exy, Eyz. subst. rewrite Z.compare_refl. eauto.
  - apply Z.compare_eq in Exy. subst. now rewrite Eyz.
  - apply Z.compare_eq in Eyz. subst. now rewrite Exy.
  - assert (x < z) as Hxz by (rewrite Z.compare_lt_iff in Exy, Eyz; lia).
    apply Z.compare_lt_iff in Hxz. now rewrite Hxz.
Qed.

Lemma str_eqb_true (a b : list Z) : str_eqb a b = true <-> a = b.
Proof.
  unfold str_eqb; split.
  - destruct (str_compare a b) eqn:E; try discriminate.
    intros _. now apply str_compare_eq.
  - intros ->. now rewrite str_compare_refl.
Qed.

Lemma str_eqb_false (a b : list Z) : str_eqb a b = false <-> a <> b.
Proof.
  rewrite <- str_eqb_true. destruct (str_eqb a b); split; congruence.
Qed.

Lemma str_eqb_refl (a : list Z) : str_eqb a a = true.
Proof. now apply str_eqb_true. Qed.

(** ** Buffers *)

Lemma len_nonneg {A : Type} (l : list A) : 0 <= len l.
Proof. unfold len. lia. Qed.

Lemma len_nil {A : Type} : len (@nil A) = 0.
Proof. reflexivity. Qed.

Lemma len_cons {A : Type} (a : A) (l : list A) : len (a :: l) = len l + 1.
Proof. unfold len. simpl length. lia. Qed.

Lemma len_app {A : Type} (a b : list A) : len (a ++ b) = len a + len b.
Proof. unfold len. rewrite length_app. lia. Qed.

Lemma len_put_u32 (v : Z) : len (put_u32 v) = 4.
Proof. reflexivity. Qed.

Lemma len_zero_nil {A : Type} (l : list A) : len l = 0 -> l = [].
Proof. destruct l; [reflexivity|]. rewrite len_cons. pose proof (len_nonneg l). lia. Qed.

Create Rewrite HintDb len.
Hint Rewrite @len_nil @len_cons @len_app len_put_u32 : len.

Ltac len_simpl := autorewrite with len in *.

Lemma slice_inv (buf : bytes) (off n : Z) (bs : bytes) :
  slice buf off n = Some bs ->
  0 <= off /\ 0 <= n /\ off + n <= len buf /\ len bs = n.
Proof.
  unfold slice.
  destruct ((0 <=? off) && (0 <=? n) && (off + n <=? len buf)) eqn:E;
    [|discriminate].
  intros [= <-].
  apply andb_true_iff in E. destruct E as [E E3].
  apply andb_true_iff in E. destruct E as [E1 E2].
  apply Z.leb_le in E1, E2, E3.
  repeat split; try assumption.
  unfold len in *. rewrite length_firstn, length_skipn. lia.
Qed.

Lemma slice_app_mid (a b c : bytes) : slice (a ++ b ++ c) (len a) (len b) = Some b.
Proof.
  unfold slice.
  replace ((0 <=? len a) && (0 <=? len b) && (len a + len b <=? len (a ++ b ++ c)))
    with true.
  - unfold len. rewrite !Nat2Z.id.
    rewrite skipn_app, skipn_all, Nat.sub_diag. simpl.
    rewrite firstn_app, firstn_all, Nat.sub_diag. simpl.
    now rewrite app_nil_r.
  - symmetry. rewrite !andb_true_iff, !Z.leb_le. len_simpl.
    pose proof (len_nonneg a). pose proof (len_nonneg b).
    pose proof (len_nonneg c). lia.
Qed.

Lemma slice_at (buf a b c : bytes) (off n : Z) :
  buf = a ++ b ++ c -> off = len a -> n = len b -> slice buf off n = Some b.
Proof. intros -> -> ->. apply slice_app_mid. Qed.

Lemma slice_split (buf : bytes) (off n : Z) (bs : bytes) :
  slice buf off n = Some bs ->
  exists a c, buf = a ++ bs ++ c /\ len a = off.
Proof.
  intros H. pose proof (slice_inv _ _ _ _ H) as (H0 & H1 & H2 & H3).
  unfold slice in H.
  destruct ((0 <=? off) && (0 <=? n) && (off + n <=? len buf)); [|discriminate].
  injection H as <-.
  exists (firstn (Z.to_nat off) buf),
         (skipn (Z.to_nat n) (skipn (Z.to_nat off) buf)).
  split.
  - now rewrite firstn_skipn, firstn_skipn.
  - unfold len in *. rewrite length_firstn. lia.
Qed.

Lemma get_u32_inv (buf : bytes) (p v : Z) :
  get_u32 buf p = Some v -> 0 <= p /\ p + 4 <= len buf.
Proof.
  unfold get_u32. destruct (slice buf p 4) as [bs|] eqn:E; [|discriminate].
  intros _. apply slice_inv in E. lia.
Qed.

Lemma get_u32_at (buf a c : bytes) (p v : Z) :
  buf = a ++ put_u32 v ++ c -> p = len a -> 0 <= v < u32_modulus ->
  get_u32 buf p = Some v.
Proof.
  intros Hbuf Hp Hv. unfold get_u32.
  rewrite (slice_at buf a (put_u32 v) c p 4 Hbuf Hp eq_refl).
  unfold put_u32, u32_of_bytes. f_equal.
  unfold u32_modulus in Hv.
  replace (v / 65536) with (v / 256 / 256)
    by (rewrite Z.div_div by lia; reflexivity).
  replace (v / 16777216) with (v / 256 / 256 / 256)
    by (rewrite !Z.div_div by lia; reflexivity).
  pose proof (Z.div_mod v 256 ltac:(lia)).
  pose proof (Z.div_mod (v / 256) 256 ltac:(lia)).
  pose proof (Z.div_mod (v / 256 / 256) 256 ltac:(lia)).
  assert (v / 256 / 256 / 256 < 256).
  { repeat (apply Z.div_lt_upper_bound; [lia|]). lia. }
  assert (0 <= v / 256 / 256 / 256).
  { repeat (apply Z.div_pos; [|lia]). lia. }
  rewrite (Z.mod_small (v / 256 / 256 / 256) 256) by lia.
  lia.
Qed.

Lemma strlen_list_inv (s : bytes) (n : Z) :
  strlen_list s = Some n -> 0 <= n /\ n < len s.
Proof.
  revert n; induction s as [|c s IH]; intros n; simpl; [discriminate|].
  len_simpl. pose proof (len_nonneg s).
  destruct (c =? 0).
  - intros [= <-]. lia.
  - destruct (strlen_list s) as [m|]; [|discriminate].
    intros [= <-]. specialize (IH m eq_refl). lia.
Qed.

Lemma strlen_inv (buf : bytes) (p n : Z) :
  strlen buf p = Some n -> 0 <= p /\ 0 <= n /\ p + n < len buf.
Proof.
  unfold strlen. destruct ((0 <=? p) && (p <=? len buf)) eqn:E; [|discriminate].
  apply andb_true_iff in E. destruct E as [E1 E2]. apply Z.leb_le in E1, E2.
  intros H. apply strlen_list_inv in H.
  unfold len in *. rewrite length_skipn in H. lia.
Qed.

(** ** The map *)

Lemma keys_ascending_tail(e : bytes * chain) (m : IndexedWords) :
  keys_ascending (e :: m) -> keys_ascending m.
Proof. destruct e; simpl; intros [_ H]; exact H. Qed.

(** Below the first key of an ascending map there is no key. *)
Lemma map_find_below (k k0 : bytes) (v0 : chain) (m : IndexedWords) :
  keys_ascending ((k0, v0) :: m) -> str_compare k k0 = Lt ->
  map_find k ((k0, v0) :: m) = None.
Proof.
  revert k0 v0; induction m as [|[k1 v1] m IH]; intros k0 v0 Hasc Hlt.
  - simpl. unfold str_eqb. now rewrite Hlt.
  - change (map_find k ((k0, v0) :: (k1, v1) :: m))
      with (if str_eqb k k0 then Some v0 else map_find k ((k1, v1) :: m)).
    unfold str_eqb at 1. rewrite Hlt.
    destruct Hasc as [H01 Hasc].
    apply IH; [exact Hasc|].
    eapply str_compare_lt_trans; eauto.
Qed.

Lemma map_insert_present (k : bytes) (v c : chain) (m : IndexedWords) :
  keys_ascending m -> map_find k m = Some c -> map_insert k v m = m.
Proof.
  induction m as [|[k0 v0] m IH]; intros Hasc Hfind; [discriminate|].
  simpl. destruct (str_compare k k0) eqn:E.
  - reflexivity.
  - rewrite (map_find_below k k0 v0 m Hasc E) in Hfind. discriminate.
  - simpl in Hfind. unfold str_eqb in Hfind. rewrite E in Hfind.
    rewrite IH; eauto using keys_ascending_tail.
Qed.

Lemma map_insert_absent_find (k : bytes) (v : chain) (m : IndexedWords) :
  map_find k m = None -> map_find k (map_insert k v m) = Some v.
Proof.
  induction m as [|[k0 v0] m IH]; intros Hfind; simpl.
  - now rewrite str_eqb_refl.
  - simpl in Hfind. unfold str_eqb in Hfind.
    destruct (str_compare k k0) eqn:E; try discriminate; simpl.
    + now rewrite str_eqb_refl.
    + unfold str_eqb. rewrite E. auto.
Qed.

Lemma map_insert_other (k k' : bytes) (v : chain) (m : IndexedWords) :
  k' <> k -> map_find k' (map_insert k v m) = map_find k' m.
Proof.
  intros Hne. induction m as [|[k0 v0] m IH]; simpl.
  - apply str_eqb_false in Hne. now rewrite Hne.
  - destruct (str_compare k k0) eqn:E; simpl.
    + reflexivity.
    + apply str_eqb_false in Hne. now rewrite Hne.
    + now rewrite IH.
Qed.

Lemma map_insert_ascending (k : bytes) (v : chain) (m : IndexedWords) :
  keys_ascending m -> keys_ascending (map_insert k v m).
Proof.
  induction m as [|[k0 v0] m IH]; intros Hasc; simpl; [split; exact I|].
  destruct (str_compare k k0) eqn:E.
  - exact Hasc.
  - split; [exact E|exact Hasc].
  - assert (Hm := keys_ascending_tail _ _ Hasc).
    specialize (IH Hm).
    split; [|exact IH].
    destruct m as [|[k1 v1] m]; simpl.
    + now apply str_compare_gt_lt.
    + destruct Hasc as [H01 _].
      destruct (str_compare k k1); [exact H01| now apply str_compare_gt_lt |exact H01].
Qed.

Lemma map_emplace_back_find (k : bytes) (l : WordArticleLink) (m : IndexedWords) :
  map_find k (map_emplace_back k l m)
  = option_map (fun c => c ++ [l]) (map_find k m).
Proof.
  induction m as [|[k0 v0] m IH]; simpl; [reflexivity|].
  destruct (str_eqb k k0) eqn:E; simpl; rewrite E; auto.
Qed.

Lemma map_emplace_back_other (k k' : bytes) (l : WordArticleLink)
    (m : IndexedWords) :
  k' <> k -> map_find k' (map_emplace_back k l m) = map_find k' m.
Proof.
  intros Hne. induction m as [|[k0 v0] m IH]; simpl; [reflexivity|].
  destruct (str_eqb k k0) eqn:E; simpl.
  - apply str_eqb_true in E. subst k0.
    apply str_eqb_false in Hne. now rewrite Hne.
  - now rewrite IH.
Qed.

Lemma map_emplace_back_keys (k : bytes) (l : WordArticleLink) (m : IndexedWords) :
  map fst (map_emplace_back k l m) = map fst m.
Proof.
  induction m as [|[k0 v0] m IH]; simpl; [reflexivity|].
  destruct (str_eqb k k0); simpl; congruence.
Qed.

Lemma map_emplace_back_ascending (k : bytes) (l : WordArticleLink)
    (m : IndexedWords) :
  keys_ascending m -> keys_ascending (map_emplace_back k l m).
Proof.
  induction m as [|[k0 v0] m IH]; simpl; [exact (fun H => H)|].
  intros [H0 Hm]. destruct (str_eqb k k0) eqn:E.
  - simpl. split; [|exact Hm]. destruct m as [|[k1 v1] m]; auto.
  - simpl. split; [|auto].
    destruct m as [|[k1 v1] m]; simpl; [exact I|].
    destruct (str_eqb k k1); exact H0.
Qed.

(** After [insert( value_type( k, vector() ) )] the key is there, with the
    chain it had. *)
Lemma map_insert_empty_find (k : bytes) (m : IndexedWords) :
  keys_ascending m ->
  map_find k (map_insert k [] m) = Some (chain_of k m).
Proof.
  intros Hasc. unfold chain_of.
  destruct (map_find k m) as [c|] eqn:E.
  - now rewrite (map_insert_present k [] c m Hasc E).
  - now apply map_insert_absent_find.
Qed.

(** ** IndexedWords::addSingleWord *)

(** C10.  [addSingleWord( w, o )] leaves the map as it is when the folded key
    of [w] is present: the new link is dropped.  When the key is absent the
    link becomes its chain, and a later [addSingleWord] of any word with the
    same folded key changes nothing: the first insertion is the one kept. *)
Theorem addSingleWord_keeps_first (w : wstring) (o : Z) (m : IndexedWords) :
  keys_ascending m ->
  let key := Utf8_encode (Folding_apply w) in
  (forall c, map_find key m = Some c -> addSingleWord w o m = m)
  /\ (map_find key m = None ->
      map_find key (addSingleWord w o m) = Some [mkLink (Utf8_encode w) [] o]
      /\ forall w' o', Utf8_encode (Folding_apply w') = key ->
           addSingleWord w' o' (addSingleWord w o m) = addSingleWord w o m).
Proof.
  intros Hasc key. split.
  - intros c Hc. unfold addSingleWord. fold key.
    eapply map_insert_present; eauto.
  - intros Hnone.
    assert (Hf : map_find key (addSingleWord w o m)
                 = Some [mkLink (Utf8_encode w) [] o]).
    { unfold addSingleWord. fold key. now apply map_insert_absent_find. }
    split; [exact Hf|].
    intros w' o' Hk. unfold addSingleWord at 1. rewrite Hk.
    eapply map_insert_present; [|exact Hf].
    unfold addSingleWord. now apply map_insert_ascending.
Qed.

(** ** IndexedWords::addWord *)


(** ** readChain *)

Lemma link_size_min (l : WordArticleLink) : 6 <= link_size l.
Proof.
  unfold link_size. pose proof (len_nonneg (word l)).
  pose proof (len_nonneg (prefix l)). lia.
Qed.

Lemma record_at_bounds (buf : bytes) (p : Z) (l : WordArticleLink) :
  record_at buf p l -> 0 <= p /\ p + link_size l <= len buf.
Proof.
  intros (H1 & _ & _ & _ & H5).
  apply strlen_inv in H1. apply get_u32_inv in H5. unfold link_size. lia.
Qed.

Lemma records_from_bounds (buf : bytes) (p q : Z) (ls : chain) :
  records_from buf p ls q ->
  p + 6 * len ls <= q /\ (ls <> [] -> 0 <= p /\ q <= len buf).
Proof.
  induction 1 as [p|p l ls q Hl Hls IH].
  - len_simpl. split; [lia|congruence].
  - len_simpl. pose proof (link_size_min l).
    pose proof (record_at_bounds _ _ _ Hl).
    destruct IH as [IH1 IH2]. split; [lia|]. intros _.
    destruct ls as [|l' ls].
    + inversion Hls; subst. lia.
    + specialize (IH2 ltac:(discriminate)). lia.
Qed.

Lemma records_from_app (buf : bytes) (p q r : Z) (ls : chain) (l : WordArticleLink) :
  records_from buf p ls q -> record_at buf q l -> r = q + link_size l ->
  records_from buf p (ls ++ [l]) r.
Proof.
  intros H Hl ->. induction H as [p|p l0 ls q H0 Hls IH]; simpl.
  - constructor; [exact Hl|constructor].
  - constructor; auto.
Qed.

(** One turn of the loop of [readChain] on the record found at [p]. *)
Lemma readChain_loop_step (turns : nat) (buf : bytes) (p c : Z) (res : chain)
    (l : WordArticleLink) :
  record_at buf p l -> c <> 0 ->
  readChain_loop (S turns) buf p c res
  = if c <? link_size l then Throw exCorruptedChainData
    else readChain_loop turns buf (p + link_size l) (c - link_size l)
                        (res ++ [l]).
Proof.
  intros (H1 & H2 & H3 & H4 & H5) Hc.
  cbn [readChain_loop]. apply Z.eqb_neq in Hc. rewrite Hc.
  rewrite H1. cbn [access bind]. rewrite H2. cbn [access bind].
  rewrite H3. cbn [access bind]. rewrite H4. cbn [access bind].
  rewrite H5. cbn [access bind].
  unfold link_size. destruct l as [w pr o]; cbn [word prefix articleOffset].
  replace (p + len w + 1 + len pr + 1 + 4) with (p + (len w + 1 + len pr + 1 + 4))
    by lia.
  reflexivity.
Qed.

(** What a turn reads is a record. *)
Lemma readChain_loop_reads (turns : nat) (buf : bytes) (p c : Z) (res : chain) :
  c <> 0 ->
  readChain_loop (S turns) buf p c res <> Fault ->
  exists l, record_at buf p l.
Proof.
  intros Hc. cbn [readChain_loop]. apply Z.eqb_neq in Hc. rewrite Hc.
  destruct (strlen buf p) as [n1|] eqn:E1; cbn [access bind]; [|congruence].
  destruct (slice buf p n1) as [str|] eqn:E2; cbn [access bind]; [|congruence].
  destruct (strlen buf (p + n1 + 1)) as [n2|] eqn:E3; cbn [access bind];
    [|congruence].
  destruct (slice buf (p + n1 + 1) n2) as [pre|] eqn:E4; cbn [access bind];
    [|congruence].
  destruct (get_u32 buf (p + n1 + 1 + n2 + 1)) as [off|] eqn:E5;
    cbn [access bind]; [|congruence].
  intros _. exists (mkLink str pre off).
  pose proof (slice_inv _ _ _ _ E2) as (_ & _ & _ & L2).
  pose proof (slice_inv _ _ _ _ E4) as (_ & _ & _ & L4).
  unfold record_at; cbn [word prefix articleOffset].
  rewrite L2, L4. auto.
Qed.

Lemma readChain_loop_ok (turns : nat) (buf : bytes) :
  forall (p c : Z) (res out : chain) (q : Z),
    0 <= c ->
    readChain_loop turns buf p c res = Ok (out, q) ->
    q = p + c /\ exists ls, out = res ++ ls /\ records_from buf p ls q.
Proof.
  induction turns as [|turns IH]; intros p c res out q Hc H.
  - cbn [readChain_loop] in H. destruct (c =? 0) eqn:E; [|discriminate].
    apply Z.eqb_eq in E. injection H as <- <-. split; [lia|].
    exists []. rewrite app_nil_r. split; [reflexivity|constructor].
  - destruct (Z.eq_dec c 0) as [->|Hne].
    + cbn [readChain_loop] in H. simpl in H. injection H as <- <-.
      split; [lia|]. exists []. rewrite app_nil_r. split; [reflexivity|constructor].
    + destruct (readChain_loop_reads turns buf p c res Hne) as [l Hl];
        [rewrite H; discriminate|].
      rewrite (readChain_loop_step turns buf p c res l Hl Hne) in H.
      destruct (c <? link_size l) eqn:E; [discriminate|].
      apply Z.ltb_ge in E.
      apply IH in H; [|lia]. destruct H as [Hq (ls & Hout & Hls)].
      split; [lia|]. exists (l :: ls). split.
      * rewrite Hout, <- app_assoc. reflexivity.
      * constructor; assumption.
Qed.

Lemma readChain_loop_throw (turns : nat) (buf : bytes) :
  forall (p c : Z) (res : chain) (e : exn),
    0 <= c ->
    readChain_loop turns buf p c res = Throw e ->
    e = exCorruptedChainData
    /\ exists ls q l, records_from buf p ls q /\ q < p + c
                      /\ record_at buf q l /\ p + c < q + link_size l.
Proof.
  induction turns as [|turns IH]; intros p c res e Hc H.
  - cbn [readChain_loop] in H. destruct (c =? 0); discriminate.
  - destruct (Z.eq_dec c 0) as [->|Hne].
    + cbn [readChain_loop] in H. simpl in H. discriminate.
    + destruct (readChain_loop_reads turns buf p c res Hne) as [l Hl];
        [rewrite H; discriminate|].
      rewrite (readChain_loop_step turns buf p c res l Hl Hne) in H.
      destruct (c <? link_size l) eqn:E.
      * injection H as <-. apply Z.ltb_lt in E. split; [reflexivity|].
        exists [], p, l.
        split; [constructor|]. split; [lia|]. split; [exact Hl|lia].
      * apply Z.ltb_ge in E. apply IH in H; [|lia].
        destruct H as [He (ls & q & l' & Hls & Hq & Hl' & Hend)].
        split; [exact He|]. exists (l :: ls), q, l'.
        split; [constructor; assumption|].
        split; [lia|]. split; [exact Hl'|lia].
Qed.

Lemma readChain_loop_complete (buf : bytes) (p q : Z) (ls : chain) :
  records_from buf p ls q ->
  forall (turns : nat) (res : chain),
    (length ls < turns)%nat ->
    readChain_loop turns buf p (q - p) res = Ok (res ++ ls, q).
Proof.
  induction 1 as [p|p l ls q Hl Hls IH]; intros turns res Hturns.
  - rewrite Z.sub_diag. destruct turns; cbn [readChain_loop]; simpl;
      now rewrite app_nil_r.
  - destruct turns as [|turns]; [simpl in Hturns; lia|].
    pose proof (records_from_bounds _ _ _ _ Hls) as [Hb _].
    pose proof (link_size_min l). pose proof (len_nonneg ls).
    rewrite (readChain_loop_step turns buf p (q - p) res l Hl) by lia.
    replace (q - p <? link_size l) with false by (symmetry; apply Z.ltb_ge; lia).
    replace (q - p - link_size l) with (q - (p + link_size l)) by lia.
    rewrite IH by (simpl in Hturns; lia).
    now rewrite <- app_assoc.
Qed.

Lemma readChain_loop_corrupt (buf : bytes) (p q : Z) (ls : chain) :
  records_from buf p ls q ->
  forall (turns : nat) (res : chain) (c : Z) (l : WordArticleLink),
    (length ls < turns)%nat ->
    record_at buf q l -> q < p + c -> p + c < q + link_size l ->
    readChain_loop turns buf p c res = Throw exCorruptedChainData.
Proof.
  induction 1 as [p|p l0 ls q Hl0 Hls IH]; intros turns res c l Hturns Hl Hq Hend.
  - destruct turns as [|turns]; [lia|].
    rewrite (readChain_loop_step turns buf p c res l Hl) by lia.
    now replace (c <? link_size l) with true by (symmetry; apply Z.ltb_lt; lia).
  - destruct turns as [|turns]; [simpl in Hturns; lia|].
    pose proof (records_from_bounds _ _ _ _ Hls) as [Hb _].
    pose proof (len_nonneg ls). pose proof (link_size_min l0).
    rewrite (readChain_loop_step turns buf p c res l0 Hl0) by lia.
    replace (c <? link_size l0) with false by (symmetry; apply Z.ltb_ge; lia).
    eapply IH; eauto; simpl in Hturns; lia.
Qed.

(** Records that lie in the buffer are fewer than its bytes. *)
Lemma records_from_count (buf : bytes) (p q : Z) (ls : chain) :
  records_from buf p ls q -> (length ls <= length buf)%nat.
Proof.
  intros H. destruct ls as [|l ls]; [simpl; lia|].
  pose proof (records_from_bounds _ _ _ _ H) as [H1 H2].
  specialize (H2 ltac:(discriminate)). unfold len in *. lia.
Qed.

(** C7.  [readChain] at the size word [chainSize] of a chain returns the
    records [ls] exactly when they are read back to back after the size word
    and end when [chainSize] bytes are consumed; it throws
    [CorruptedChainData] exactly when, after some records, bytes of the chain
    are left and the next record is longer than what is left; it throws
    nothing else. *)
Theorem readChain_spec (buf : bytes) (ptr chainSize : Z) :
  get_u32 buf ptr = Some chainSize -> 0 <= chainSize ->
  (forall ls q,
      readChain buf ptr = Ok (ls, q)
      <-> q = ptr + 4 + chainSize /\ records_from buf (ptr + 4) ls q)
  /\ (readChain buf ptr = Throw exCorruptedChainData
      <-> exists ls q l,
            records_from buf (ptr + 4) ls q /\ q < ptr + 4 + chainSize
            /\ record_at buf q l /\ ptr + 4 + chainSize < q + link_size l)
  /\ (forall e, readChain buf ptr = Throw e -> e = exCorruptedChainData).
Proof.
  intros Hsize Hpos. unfold readChain. rewrite Hsize. cbn [access bind].
  split; [|split].
  - intros ls q. split.
    + intros H. apply readChain_loop_ok in H; [|exact Hpos].
      destruct H as [Hq (ls' & Hls & Hrec)]. simpl in Hls. subst ls'.
      split; [lia|exact Hrec].
    + intros [Hq Hrec].
      pose proof (records_from_count _ _ _ _ Hrec).
      pose proof (readChain_loop_complete _ _ _ _ Hrec (S (length buf)) []
                    ltac:(lia)) as H1.
      replace (q - (ptr + 4)) with chainSize in H1 by lia. exact H1.
  - split.
    + intros H. apply readChain_loop_throw in H; [|exact Hpos].
      destruct H as [_ (ls & q & l & H1 & H2 & H3 & H4)].
      exists ls, q, l.
      split; [exact H1|]. split; [lia|]. split; [exact H3|lia].
    + intros (ls & q & l & H1 & H2 & H3 & H4).
      pose proof (records_from_count _ _ _ _ H1).
      eapply readChain_loop_corrupt; eauto; lia.
  - intros e H. apply readChain_loop_throw in H; [|exact Hpos]. exact (proj1 H).
Qed.

(** ** antialias *)

Lemma erase_middle {A : Type} (a : list A) (x : A) (b : list A) :
  erase (length a) (a ++ x :: b) = a ++ b.
Proof.
  unfold erase.
  rewrite firstn_app, firstn_all, Nat.sub_diag. simpl firstn.
  rewrite app_nil_r.
  replace (S (length a)) with (length (a ++ [x])) by (rewrite length_app; simpl; lia).
  replace (a ++ x :: b) with ((a ++ [x]) ++ b) by (now rewrite <- app_assoc).
  rewrite skipn_app, skipn_all, Nat.sub_diag. reflexivity.
Qed.

Lemma assign_middle {A : Type} (a : list A) (x y : A) (b : list A) :
  assign (length a) y (a ++ x :: b) = a ++ y :: b.
Proof.
  unfold assign.
  rewrite firstn_app, firstn_all, Nat.sub_diag. simpl firstn.
  rewrite app_nil_r.
  replace (S (length a)) with (length (a ++ [x])) by (rewrite length_app; simpl; lia).
  replace (a ++ x :: b) with ((a ++ [x]) ++ b) by (now rewrite <- app_assoc).
  rewrite skipn_app, skipn_all, Nat.sub_diag. reflexivity.
Qed.

(** The loop, with [todo] still to visit and [done] visited. *)
Lemma antialias_loop_spec (q : wstring) (todo : chain) :
  forall done : chain,
    antialias_loop (length todo) (Folding_applySimpleCaseOnly q) (todo ++ done)
    = if forallb decodable todo
      then Ok (antialiased q todo ++ done)
      else Throw exCantDecode.
Proof.
  induction todo as [|l todo IH] using rev_ind; intros done.
  - reflexivity.
  - rewrite length_app. simpl length. rewrite Nat.add_1_r.
    cbn [antialias_loop]. rewrite <- app_assoc. simpl app.
    rewrite nth_error_app2 by lia. rewrite Nat.sub_diag. cbn [nth_error access bind].
    rewrite forallb_app. simpl forallb. rewrite andb_true_r.
    unfold antialiased. rewrite filter_app, map_app. simpl filter.
    unfold decodable at 2. unfold survives at 2.
    destruct (Utf8_decode (prefix l ++ word l)) as [w|];
      [|rewrite andb_false_r; reflexivity].
    rewrite andb_true_r.
    destruct (str_eqb (Folding_applySimpleCaseOnly w)
                      (Folding_applySimpleCaseOnly q)); cbn [negb].
    + assert (Hm : merged l = match prefix l with
                              | [] => l
                              | _ :: _ => mkLink (prefix l ++ word l) []
                                                 (articleOffset l)
                              end) by reflexivity.
      cbn [map]. rewrite Hm. destruct (prefix l) eqn:Ep.
      * rewrite IH. destruct (forallb decodable todo); [|reflexivity].
        now rewrite <- app_assoc.
      * rewrite assign_middle, IH.
        destruct (forallb decodable todo); [|reflexivity].
        now rewrite <- app_assoc.
    + rewrite erase_middle, IH.
      destruct (forallb decodable todo); [|reflexivity].
      simpl map. now rewrite app_nil_r.
Qed.

(** [antialias] does what the specification says, and throws when a record
    of the chain does not decode. *)
Lemma antialias_spec (q : wstring) (c : chain) :
  antialias q c
  = if forallb decodable c then Ok (antialiased q c) else Throw exCantDecode.
Proof.
  unfold antialias.
  pose proof (antialias_loop_spec q c []) as H.
  rewrite !app_nil_r in H. exact H.
Qed.

(** ** Outcomes *)

Lemma bind_Ok {A B : Type} (c : outcome A) (k : A -> outcome B) (b : B) :
  bind c k = Ok b -> exists a, c = Ok a /\ k a = Ok b.
Proof. destruct c; simpl; try discriminate. eauto. Qed.

Lemma access_Ok {A : Type} (o : option A) (a : A) : access o = Ok a -> o = Some a.
Proof. destruct o; simpl; congruence. Qed.

(** ** Stemmed and prefix search *)

Lemma to_int_0 : to_int 0 = 0.
Proof. reflexivity. Qed.

(** A folded head word that starts with the target is no longer than the
    target only when it is the target. *)
Lemma startsWith_same_length (rf folded : wstring) :
  startsWith rf folded = true ->
  (len rf - len folded <=? 0) = str_eqb rf folded.
Proof.
  unfold startsWith. intros H. apply andb_true_iff in H. destruct H as [H1 H2].
  apply Z.leb_le in H1. apply str_eqb_true in H2.
  destruct (len rf - len folded <=? 0) eqn:E.
  - apply Z.leb_le in E. symmetry. apply str_eqb_true.
    transitivity (firstn (length folded) rf); [|exact H2].
    symmetry. apply firstn_all2. unfold len in *. lia.
  - apply Z.leb_gt in E. symmetry. apply str_eqb_false.
    intros ->. lia.
Qed.

Lemma headwordsOf_cons (cx : WordArticleLink) (c : chain) :
  headwordsOf (cx :: c)
  = match Utf8_decode (prefix cx ++ word cx) with
    | Some w => [w]
    | None => []
    end ++ headwordsOf c.
Proof. reflexivity. Qed.

(** The records a chain adds for a stemmed search without suffix variation. *)
Lemma addMatches_stemmed_zero (w : wstring) (L R n : Z) (rf : wstring) :
  forall (c : chain) (ms ms' : list wstring),
    addMatches (stemmedMatch w L 0 R) n rf c ms = Ok ms' ->
    ms' = ms ++ (if len rf - n <=? 0 then wholeHeadwordsOf c else []).
Proof.
  induction c as [|cx c IH]; intros ms ms' H.
  - cbn in H. injection H as <-. destruct (len rf - n <=? 0); now rewrite app_nil_r.
  - cbn [addMatches stemmedMatch allowMiddleMatches maxSuffixVariation] in H.
    rewrite to_int_0 in H. change (0 <? 0) with false in H. cbn [orb] in H.
    unfold wholeHeadwordsOf. cbn [filter]. unfold isWholeHeadword at 1.
    destruct (Utf8_decode (prefix cx)) as [p|]; [|discriminate].
    cbn [bind] in H.
    destruct (Folding_apply p) as [|x fp]; cbn [andb] in H.
    + destruct (len rf - n <=? 0) eqn:E.
      * destruct (Utf8_decode (prefix cx ++ word cx)) as [hw|] eqn:Ehw;
          [|discriminate].
        apply IH in H. rewrite ?E in H. rewrite H.
        rewrite headwordsOf_cons, Ehw. unfold wholeHeadwordsOf.
        now rewrite <- app_assoc.
      * apply IH in H. now rewrite ?E in H.
    + apply IH in H. destruct (len rf - n <=? 0); exact H.
Qed.

(** The records a chain adds for a prefix search. *)
Lemma addMatches_prefix (w : wstring) (R n : Z) (rf : wstring) :
  forall (c : chain) (ms ms' : list wstring),
    addMatches (prefixMatch w R) n rf c ms = Ok ms' ->
    ms' = ms ++ headwordsOf c.
Proof.
  induction c as [|cx c IH]; intros ms ms' H.
  - cbn in H. injection H as <-. now rewrite app_nil_r.
  - cbn [addMatches prefixMatch allowMiddleMatches maxSuffixVariation bind] in H.
    change (-1 <? 0) with true in H. cbn [andb orb] in H.
    rewrite headwordsOf_cons.
    destruct (Utf8_decode (prefix cx ++ word cx)) as [hw|]; [|discriminate].
    apply IH in H. rewrite H. now rewrite <- app_assoc.
Qed.

(** C9, as the code has it.  A stemmed search with no suffix variation chops
    nothing: it is one descent and one forward walk for the unchopped folded
    target, the loop a prefix search runs.  In the walk a chain whose folded
    head word starts with the target adds, for the stemmed search, nothing
    unless the folded head word is the target, and then the headwords of its
    records that are no middle matches; for the prefix search it adds the
    headwords of all its records. *)
Theorem stemmedMatch_zero (w : wstring) (L R : Z) :
  let r := stemmedMatch w L 0 R in
  let folded := Folding_apply w in
  (forall n, charsLeftToChop r n = 0)
  /\ (forall fuel dict,
        run fuel r false dict
        = chopLoop fuel r false (len folded) O folded dict []
        /\ run fuel (prefixMatch w R) false dict
           = chopLoop fuel (prefixMatch w R) false (len folded) O folded dict [])
  /\ (forall rf c ms ms',
        startsWith rf folded = true ->
        addMatches r (len folded) rf c ms = Ok ms' ->
        ms' = ms ++ (if str_eqb rf folded then wholeHeadwordsOf c else []))
  /\ (forall rf c ms ms',
        addMatches (prefixMatch w R) (len folded) rf c ms = Ok ms' ->
        ms' = ms ++ headwordsOf c).
Proof.
  intros r folded.
  assert (Hchop : forall n, charsLeftToChop r n = 0).
  { intros n. unfold charsLeftToChop, r, stemmedMatch.
    cbn [maxSuffixVariation minLength]. rewrite to_int_0.
    change (0 <=? 0) with true. cbv iota.
    destruct (to_int (n - to_int L) <? 0) eqn:E1; [reflexivity|].
    destruct (to_int (n - to_int L) >? 0) eqn:E2; [reflexivity|].
    apply Z.ltb_ge in E1. rewrite Z.gtb_ltb in E2. apply Z.ltb_ge in E2. lia. }
  split; [exact Hchop|]. split; [|split].
  - intros fuel dict. split.
    + unfold run. change (req_str r) with w. fold folded.
      now rewrite (Hchop (len folded)).
    + reflexivity.
  - intros rf c ms ms' Hs H.
    apply addMatches_stemmed_zero in H.
    now rewrite (startsWith_same_length rf folded Hs) in H.
  - intros rf c ms ms' H. eapply addMatches_prefix; eauto.
Qed.

(** ** The layout of the file *)

Lemma node_image_len (p : bytes) :
  len (node_image p) = 8 + len (zlib_compress p).
Proof. unfold node_image. len_simpl. lia. Qed.

Lemma item_size_min (it : item) : 8 <= item_size it.
Proof.
  unfold item_size. rewrite node_image_len.
  pose proof (len_nonneg (zlib_compress (payload_of it))).
  destruct it; cbn [link_room]; lia.
Qed.

Lemma items_size_nonneg (its : list item) : 0 <= items_size its.
Proof.
  induction its as [|it r IH]; simpl; [lia|].
  pose proof (item_size_min it). lia.
Qed.

Lemma items_size_app (a b : list item) :
  items_size (a ++ b) = items_size a + items_size b.
Proof. induction a as [|it a IH]; simpl; lia. Qed.

Lemma image_len (its : list item) :
  forall cur, len (image cur its) = items_size its.
Proof.
  induction its as [|it r IH]; intros cur; [reflexivity|].
  cbn [image items_size]. rewrite !len_app, IH. unfold item_size.
  destruct it; cbn [link_room]; rewrite ?len_put_u32, ?len_nil; lia.
Qed.

Lemma next_leaf_app_node (its : list item) (offs : list Z) (piv : list bytes) :
  forall cur, next_leaf cur (its ++ [NodeI offs piv]) = next_leaf cur its.
Proof.
  induction its as [|it r IH]; intros cur; simpl; [reflexivity|].
  destruct it; auto.
Qed.

Lemma image_app_node (its : list item) (offs : list Z) (piv : list bytes) :
  forall cur,
    image cur (its ++ [NodeI offs piv])
    = image cur its ++ node_image (node_payload offs piv).
Proof.
  induction its as [|it r IH]; intros cur; simpl.
  - now rewrite app_nil_r.
  - rewrite IH, next_leaf_app_node. now rewrite <- !app_assoc.
Qed.

Lemma last_link_app_node (its : list item) (offs : list Z) (piv : list bytes) :
  forall cur, last_link cur (its ++ [NodeI offs piv]) = last_link cur its.
Proof.
  induction its as [|it r IH]; intros cur; simpl; [reflexivity|].
  now rewrite IH.
Qed.

Lemma last_link_bounds (its : list item) :
  forall cur l,
    last_link cur its = Some l -> cur + 8 <= l /\ l + 4 <= cur + items_size its.
Proof.
  induction its as [|it r IH]; intros cur l; simpl; [discriminate|].
  pose proof (item_size_min it). pose proof (items_size_nonneg r).
  destruct (last_link (cur + item_size it) r) as [l'|] eqn:E.
  - intros [= <-]. apply IH in E. lia.
  - destruct it as [es|offs piv]; [|discriminate].
    intros [= <-]. unfold item_size. cbn [link_room].
    pose proof (node_image_len (payload_of (LeafI es))).
    pose proof (len_nonneg (zlib_compress (payload_of (LeafI es)))).
    cbn [payload_of] in *. lia.
Qed.

Lemma next_leaf_app_some (its tl : list item) :
  forall cur l,
    last_link cur its = Some l -> next_leaf cur (its ++ tl) = next_leaf cur its.
Proof.
  induction its as [|it r IH]; intros cur l; simpl; [discriminate|].
  destruct it as [es|offs piv]; [reflexivity|].
  destruct (last_link (cur + item_size (NodeI offs piv)) r) eqn:E;
    [|discriminate].
  intros _. eapply IH; eauto.
Qed.

Lemma next_leaf_app_none (its tl : list item) :
  forall cur,
    last_link cur its = None ->
    next_leaf cur (its ++ tl) = next_leaf (cur + items_size its) tl.
Proof.
  induction its as [|it r IH]; intros cur; simpl.
  - intros _. f_equal. lia.
  - destruct (last_link (cur + item_size it) r) eqn:E; [discriminate|].
    destruct it as [es|offs piv]; [discriminate|].
    intros _. rewrite IH by exact E. f_equal. lia.
Qed.

Lemma last_link_app_leaf (its : list item) (es : IndexedWords) :
  forall cur,
    last_link cur (its ++ [LeafI es])
    = Some (cur + items_size its + len (node_image (leaf_body es))).
Proof.
  induction its as [|it r IH]; intros cur; simpl.
  - f_equal. lia.
  - rewrite IH. f_equal. lia.
Qed.

(** ** Writing over bytes *)

Lemma overwrite_exact (a old b bs : bytes) :
  length old = length bs ->
  overwrite (a ++ old ++ b) (len a) bs = a ++ bs ++ b.
Proof.
  intros Hlen. unfold overwrite, len. rewrite Nat2Z.id.
  rewrite firstn_app, firstn_all, Nat.sub_diag. simpl firstn. rewrite app_nil_r.
  f_equal. f_equal.
  rewrite <- Hlen.
  replace (length a + length old)%nat with (length (a ++ old))
    by (now rewrite length_app).
  rewrite app_assoc, skipn_app, skipn_all, Nat.sub_diag. reflexivity.
Qed.

Lemma overwrite_app_r (a b bs : bytes) (p : Z) :
  len a <= p ->
  overwrite (a ++ b) p bs = a ++ overwrite b (p - len a) bs.
Proof.
  intros Hp. unfold overwrite, len in *.
  rewrite firstn_app, firstn_all2 by lia.
  rewrite skipn_app, skipn_all2 by lia. simpl app.
  rewrite <- app_assoc.
  replace (Z.to_nat p - length a)%nat with (Z.to_nat (p - Z.of_nat (length a)))
    by lia.
  replace (Z.to_nat p + length bs - length a)%nat
    with (Z.to_nat (p - Z.of_nat (length a)) + length bs)%nat by lia.
  reflexivity.
Qed.

Lemma overwrite_app_l (a b bs : bytes) (p : Z) :
  0 <= p -> p + len bs <= len a ->
  overwrite (a ++ b) p bs = overwrite a p bs ++ b.
Proof.
  intros H0 Hp. unfold overwrite, len in *.
  rewrite firstn_app.
  replace (Z.to_nat p - length a)%nat with O by lia. simpl firstn.
  rewrite app_nil_r.
  rewrite skipn_app.
  replace (Z.to_nat p + length bs - length a)%nat with O by lia.
  simpl skipn. now rewrite <- !app_assoc.
Qed.

Lemma write_at_end (bs : bytes) (f : File.Class) :
  File.pos f = len (File.data f) ->
  File.write bs f = File.mk (File.data f ++ bs) (File.pos f + len bs).
Proof.
  intros Hpos. unfold File.write. rewrite Hpos. unfold len.
  rewrite !Nat2Z.id, firstn_all, Nat.sub_diag.
  rewrite skipn_all2 by lia. simpl. now rewrite app_nil_r.
Qed.

Lemma write_inside (bs : bytes) (f : File.Class) :
  0 <= File.pos f -> File.pos f + len bs <= len (File.data f) ->
  File.write bs f
  = File.mk (overwrite (File.data f) (File.pos f) bs) (File.pos f + len bs).
Proof.
  intros H0 Hp. unfold File.write, overwrite. f_equal.
  replace (Z.to_nat (File.pos f) - length (File.data f))%nat with O
    by (unfold len in *; lia).
  reflexivity.
Qed.

Lemma to_u32_small (v : Z) : 0 <= v < u32_modulus -> to_u32 v = v.
Proof. intros H. unfold to_u32. now apply Z.mod_small. Qed.

Lemma to_u64_small (v : Z) : 0 <= v < u32_modulus * u32_modulus -> to_u64 v = v.
Proof. intros H. unfold to_u64. apply Z.mod_small. unfold u32_modulus in H. lia. Qed.

(** Appending a leaf patches the forward link of the leaf before it. *)
Lemma image_app_leaf (its : list item) (es : IndexedWords) :
  forall cur,
    image cur (its ++ [LeafI es])
    = match last_link cur its with
      | Some l =>
          overwrite (image cur its) (l - cur) (put_u32 (cur + items_size its))
      | None => image cur its
      end ++ node_image (leaf_body es) ++ put_u32 0.
Proof.
  induction its as [|it r IH]; intros cur.
  - cbn [app image last_link next_leaf payload_of]. now rewrite app_nil_r.
  - cbn [app image last_link items_size]. rewrite IH.
    pose proof (image_len r (cur + item_size it)) as Hlen.
    destruct (last_link (cur + item_size it) r) as [l|] eqn:E.
    + rewrite (next_leaf_app_some r [LeafI es] _ l E).
      pose proof (last_link_bounds r _ l E) as [Hl1 Hl2].
      set (lk := match it with
                 | LeafI _ => put_u32 (next_leaf (cur + item_size it) r)
                 | NodeI _ _ => []
                 end).
      assert (Hsz : len (node_image (payload_of it) ++ lk) = item_size it).
      { rewrite len_app. unfold item_size, lk.
        destruct it; cbn [link_room]; rewrite ?len_put_u32, ?len_nil; lia. }
      rewrite (app_assoc (node_image (payload_of it)) lk (image _ r)).
      rewrite overwrite_app_r by lia. rewrite Hsz.
      replace (l - cur - item_size it) with (l - (cur + item_size it)) by lia.
      replace (cur + (item_size it + items_size r))
        with (cur + item_size it + items_size r) by lia.
      now rewrite <- !app_assoc.
    + rewrite (next_leaf_app_none r [LeafI es] _ E). cbn [next_leaf].
      destruct it as [e0|offs piv].
      * replace (cur + len (node_image (payload_of (LeafI e0))) - cur)
          with (len (node_image (payload_of (LeafI e0)))) by lia.
        rewrite overwrite_exact by reflexivity.
        replace (cur + (item_size (LeafI e0) + items_size r))
          with (cur + item_size (LeafI e0) + items_size r) by lia.
        now rewrite <- !app_assoc.
      * now rewrite <- !app_assoc.
Qed.

Lemma overwrite_len (d bs : bytes) (p : Z) :
  0 <= p -> p + len bs <= len d -> len (overwrite d p bs) = len d.
Proof.
  intros H0 Hp. unfold overwrite, len in *.
  rewrite !length_app, length_firstn, length_skipn. lia.
Qed.

Lemma disk_tell (f : File.Class) (d0 : bytes) (its : list item) :
  disk f d0 its -> File.tell f = len d0 + items_size its.
Proof.
  intros [Hd Hp]. unfold File.tell. rewrite Hp, Hd, len_app, image_len. lia.
Qed.

(** The three writes of a node at the end of the file. *)
Lemma write_node_at_end (p : bytes) (f : File.Class) :
  File.pos f = len (File.data f) ->
  File.write (zlib_compress p)
    (File.write_u32 (len (zlib_compress p)) (File.write_u32 (len p) f))
  = File.mk (File.data f ++ node_image p)
            (len (File.data f ++ node_image p)).
Proof.
  intros Hpos. unfold File.write_u32.
  rewrite (write_at_end _ f Hpos).
  rewrite (write_at_end (put_u32 (len (zlib_compress p))))
    by (cbn [File.pos File.data]; len_simpl; lia).
  rewrite (write_at_end (zlib_compress p))
    by (cbn [File.pos File.data]; len_simpl; lia).
  cbn [File.pos File.data]. unfold node_image.
  rewrite <- !app_assoc. f_equal. len_simpl. lia.
Qed.

Lemma saveNode_internal (f : File.Class) (d0 : bytes) (its : list item)
    (offs : list Z) (piv : list bytes) (last : Z) :
  disk f d0 its ->
  exists f',
    saveNode false (node_payload offs piv) f last
    = (to_u32 (len d0 + items_size its), f', last)
    /\ disk f' d0 (its ++ [NodeI offs piv]).
Proof.
  intros Hdisk. pose proof (disk_tell _ _ _ Hdisk) as Htell.
  destruct Hdisk as [Hd Hp].
  unfold saveNode. rewrite Htell, (write_node_at_end _ f Hp).
  eexists. split; [reflexivity|].
  split; cbn [File.data File.pos]; [|reflexivity].
  rewrite Hd, image_app_node. now rewrite <- app_assoc.
Qed.

Lemma saveNode_leaf (f : File.Class) (d0 : bytes) (its : list item)
    (es : IndexedWords) :
  disk f d0 its ->
  len d0 + items_size (its ++ [LeafI es]) < u32_modulus ->
  exists f',
    saveNode true (leaf_body es) f (last_link_offset (len d0) its)
    = (len d0 + items_size its, f',
       len d0 + items_size its + len (node_image (leaf_body es)))
    /\ disk f' d0 (its ++ [LeafI es]).
Proof.
  intros Hdisk Hbound. pose proof (disk_tell _ _ _ Hdisk) as Htell.
  destruct Hdisk as [Hd Hp].
  rewrite items_size_app in Hbound. cbn [items_size] in Hbound.
  unfold item_size in Hbound. cbn [payload_of link_room] in Hbound.
  pose proof (len_nonneg d0). pose proof (items_size_nonneg its).
  pose proof (node_image_len (leaf_body es)) as Hn.
  pose proof (len_nonneg (zlib_compress (leaf_body es))).
  unfold saveNode. rewrite Htell, (write_node_at_end _ f Hp).
  assert (Hw : File.write_u32 0
                 (File.mk (File.data f ++ node_image (leaf_body es))
                          (len (File.data f ++ node_image (leaf_body es))))
               = File.mk ((File.data f ++ node_image (leaf_body es)) ++ put_u32 0)
                         (len (File.data f ++ node_image (leaf_body es)) + 4)).
  { unfold File.write_u32. now rewrite write_at_end by reflexivity. }
  rewrite Hw. clear Hw.
  cbn [File.data File.pos File.tell File.seek].
  rewrite Hd. rewrite !len_app, image_len.
  rewrite !to_u32_small by lia.
  replace (len d0 + items_size its + len (node_image (leaf_body es)) + 4 - 4)
    with (len d0 + items_size its + len (node_image (leaf_body es))) by lia.
  unfold last_link_offset.
  pose proof (image_app_leaf its es (len d0)) as Himg.
  destruct (last_link (len d0) its) as [l|] eqn:E.
  - pose proof (last_link_bounds its _ l E) as [Hl1 Hl2].
    replace (l =? 0) with false by (symmetry; apply Z.eqb_neq; lia).
    eexists. split; [reflexivity|].
    unfold File.write_u32, File.seek. cbn [File.data File.pos].
    rewrite write_inside
      by (cbn [File.data File.pos]; rewrite ?len_app, ?image_len, ?len_put_u32; lia).
    cbn [File.data File.pos].
    split; cbn [File.data File.pos].
    + rewrite Himg. rewrite <- !app_assoc.
      rewrite overwrite_app_r by lia.
      rewrite overwrite_app_l
        by (rewrite ?image_len, ?len_put_u32; lia).
      reflexivity.
    + rewrite overwrite_len
        by (rewrite ?len_app, ?image_len, ?len_put_u32; lia).
      rewrite !len_app, image_len, len_put_u32. lia.
  - change (0 =? 0) with true. cbv iota.
    eexists. split; [reflexivity|].
    split; cbn [File.data File.pos].
    + rewrite Himg. now rewrite <- !app_assoc.
    + rewrite !len_app, image_len, len_put_u32. lia.
Qed.

(** ** The cut points of an internal node *)

Lemma cutPoint_first (n F : Z) : cutPoint n F (-1) = 0.
Proof. reflexivity. Qed.

Lemma cutPoint_last (n F : Z) : 0 <= F -> cutPoint n F F = n.
Proof.
  intros HF. unfold cutPoint.
  replace (F <? 0) with false by (symmetry; apply Z.ltb_ge; lia).
  now rewrite Z.leb_refl.
Qed.

Lemma cutPoint_inner (n F x : Z) :
  0 <= x < F -> cutPoint n F x = n * (x + 1) / (F + 1).
Proof.
  intros Hx. unfold cutPoint.
  replace (x <? 0) with false by (symmetry; apply Z.ltb_ge; lia).
  now replace (F <=? x) with false by (symmetry; apply Z.leb_gt; lia).
Qed.

(** Every child of an internal node has an entry. *)
Lemma cutPoint_step (n F x : Z) :
  1 <= F -> F + 1 <= n -> 0 <= x <= F ->
  cutPoint n F (x - 1) + 1 <= cutPoint n F x.
Proof.
  intros HF Hn Hx.
  assert (Hprev : cutPoint n F (x - 1) = n * x / (F + 1)).
  { destruct (Z.eq_dec x 0) as [->|Hx0].
    - simpl. now rewrite Z.mul_0_r.
    - rewrite cutPoint_inner by lia. f_equal. lia. }
  rewrite Hprev.
  destruct (Z.eq_dec x F) as [->|HxF].
  - rewrite cutPoint_last by lia.
    assert (n * F / (F + 1) < n); [|lia].
    apply Z.div_lt_upper_bound; nia.
  - rewrite cutPoint_inner by lia.
    replace (n * (x + 1)) with (n * x + (n - (F + 1)) + 1 * (F + 1)) by lia.
    rewrite Z.div_add by lia.
    assert (n * x / (F + 1) <= (n * x + (n - (F + 1))) / (F + 1)); [|lia].
    apply Z.div_le_mono; lia.
Qed.

Lemma cutPoint_range (n F x : Z) :
  1 <= F -> F + 1 <= n -> -1 <= x <= F ->
  0 <= cutPoint n F x <= n.
Proof.
  intros HF Hn Hx.
  destruct (Z.eq_dec x (-1)) as [->|H1]; [rewrite cutPoint_first; lia|].
  destruct (Z.eq_dec x F) as [->|H2]; [rewrite cutPoint_last; lia|].
  rewrite cutPoint_inner by lia. split.
  - apply Z.div_pos; nia.
  - apply Z.div_le_upper_bound; nia.
Qed.

Lemma cutPoint_below (n F x : Z) :
  1 <= F -> F + 1 <= n -> -1 <= x < F -> cutPoint n F x < n.
Proof.
  intros HF Hn Hx.
  pose proof (cutPoint_step n F (x + 1) HF Hn ltac:(lia)) as H.
  replace (x + 1 - 1) with x in H by lia.
  pose proof (cutPoint_range n F (x + 1) HF Hn ltac:(lia)). lia.
Qed.

(** A child is smaller than its node. *)
Lemma cutPoint_child_smaller (n F x : Z) :
  1 <= F -> F + 1 <= n -> 0 <= x <= F ->
  cutPoint n F x - cutPoint n F (x - 1) < n.
Proof.
  intros HF Hn Hx.
  destruct (Z.eq_dec x 0) as [->|Hx0].
  - simpl (0 - 1). rewrite cutPoint_first.
    pose proof (cutPoint_below n F 0 HF Hn ltac:(lia)). lia.
  - pose proof (cutPoint_step n F (x - 1) HF Hn ltac:(lia)).
    pose proof (cutPoint_range n F (x - 1 - 1) HF Hn ltac:(lia)).
    pose proof (cutPoint_range n F x HF Hn ltac:(lia)). lia.
Qed.

(** The machine arithmetic of [curEntry] is exact on 32-bit sizes. *)
Lemma curEntryOf_cutPoint (n F x : Z) :
  0 <= n < u32_modulus -> 1 <= F -> F + 1 < u32_modulus -> F + 1 <= n ->
  0 <= x < F ->
  curEntryOf n F x = cutPoint n F x.
Proof.
  intros Hn HF HF2 Hn2 Hx. unfold curEntryOf.
  pose proof (cutPoint_range n F x HF Hn2 ltac:(lia)) as Hc.
  rewrite cutPoint_inner in * by lia.
  unfold u32_modulus in *.
  rewrite (to_u32_small (x + 1)) by (unfold u32_modulus; lia).
  rewrite (to_u64_small n) by (unfold u32_modulus; lia).
  rewrite (to_u64_small (F + 1)) by (unfold u32_modulus; lia).
  rewrite (to_u64_small (n * (x + 1))) by (unfold u32_modulus; nia).
  apply to_u32_small. unfold u32_modulus. lia.
Qed.

(** ** Sizes of chains and leaves *)

Lemma link_bytes_len (l : WordArticleLink) : len (link_bytes l) = link_size l.
Proof. unfold link_bytes, link_size. len_simpl. lia. Qed.

Lemma links_len_nonneg (c : chain) : 0 <= len (concat (map link_bytes c)).
Proof. apply len_nonneg. Qed.

Lemma links_len_cons (l : WordArticleLink) (c : chain) :
  len (concat (map link_bytes (l :: c)))
  = link_size l + len (concat (map link_bytes c)).
Proof. cbn [map concat]. now rewrite len_app, link_bytes_len. Qed.

(** The 32-bit sum of the record sizes is their sum when that fits. *)
Lemma fold_link_size_exact (c : chain) :
  forall s, 0 <= s -> s + len (concat (map link_bytes c)) < u32_modulus ->
    fold_left (fun s l => to_u32 (s + link_size l)) c s
    = s + len (concat (map link_bytes c)).
Proof.
  induction c as [|l c IH]; intros s Hs Hb.
  - cbn. lia.
  - rewrite links_len_cons in *. cbn [fold_left].
    pose proof (link_size_min l). pose proof (links_len_nonneg c).
    rewrite to_u32_small by lia. rewrite IH by lia. lia.
Qed.

Lemma chain_size_exact (c : chain) :
  len (concat (map link_bytes c)) < u32_modulus ->
  chain_size c = len (concat (map link_bytes c)).
Proof.
  intros H. unfold chain_size. rewrite fold_link_size_exact; lia.
Qed.

Lemma chain_bytes_len (c : chain) :
  len (chain_bytes c) = 4 + len (concat (map link_bytes c)).
Proof. unfold chain_bytes. now rewrite len_app, len_put_u32. Qed.

Lemma chains_len_cons (e : bytes * chain) (es : IndexedWords) :
  len (concat (map (fun e => chain_bytes (snd e)) (e :: es)))
  = len (chain_bytes (snd e))
    + len (concat (map (fun e => chain_bytes (snd e)) es)).
Proof. cbn [map concat]. now rewrite len_app. Qed.

Lemma fold_chains_exact (es : IndexedWords) :
  forall t, 0 <= t ->
    t + len (concat (map (fun e => chain_bytes (snd e)) es)) < u32_modulus ->
    fold_left
      (fun t e => fold_left (fun s l => to_u32 (s + link_size l)) (snd e)
                            (to_u32 (t + 4)))
      es t
    = t + len (concat (map (fun e => chain_bytes (snd e)) es)).
Proof.
  induction es as [|e es IH]; intros t Ht Hb.
  - cbn. lia.
  - rewrite chains_len_cons in *. rewrite chain_bytes_len in *.
    destruct e as [k c]. cbn [fold_left snd] in *.
    pose proof (links_len_nonneg c).
    pose proof (len_nonneg (concat (map (fun e => chain_bytes (snd e)) es))).
    rewrite to_u32_small by lia.
    rewrite (fold_link_size_exact c (t + 4)) by lia.
    rewrite IH by lia. lia.
Qed.

Lemma leaf_body_len (es : IndexedWords) :
  len (leaf_body es)
  = 4 + len (concat (map (fun e => chain_bytes (snd e)) es)).
Proof. unfold leaf_body. now rewrite len_app, len_put_u32. Qed.

(** A leaf that fits 32 bits is written as [leaf_body]. *)
Lemma leaf_payload_exact (es : IndexedWords) :
  len (leaf_body es) < u32_modulus ->
  leaf_payload (len es) es = Some (leaf_body es).
Proof.
  intros H. unfold leaf_payload. fold (leaf_body es).
  rewrite leaf_body_len in *. unfold totalChainsLength.
  pose proof (len_nonneg (concat (map (fun e => chain_bytes (snd e)) es))).
  rewrite fold_chains_exact by lia.
  now rewrite Z.eqb_refl.
Qed.

(** ** Weights *)

Lemma entry_weight_min (e : bytes * chain) : 5 <= entry_weight e.
Proof.
  unfold entry_weight. rewrite chain_bytes_len.
  pose proof (len_nonneg (fst e)). pose proof (links_len_nonneg (snd e)). lia.
Qed.

Lemma entries_weight_nonneg (es : IndexedWords) : 0 <= entries_weight es.
Proof.
  induction es as [|e es IH]; cbn [entries_weight]; [lia|].
  pose proof (entry_weight_min e). lia.
Qed.

Lemma entries_weight_app (a b : IndexedWords) :
  entries_weight (a ++ b) = entries_weight a + entries_weight b.
Proof. induction a as [|e a IH]; cbn [app entries_weight]; lia. Qed.

Lemma entries_weight_firstn (k : nat) (es : IndexedWords) :
  entries_weight (firstn k es) <= entries_weight es.
Proof.
  rewrite <- (firstn_skipn k es) at 2. rewrite entries_weight_app.
  pose proof (entries_weight_nonneg (skipn k es)). lia.
Qed.

Lemma entries_weight_skipn (k : nat) (es : IndexedWords) :
  entries_weight (skipn k es) <= entries_weight es.
Proof.
  rewrite <- (firstn_skipn k es) at 2. rewrite entries_weight_app.
  pose proof (entries_weight_nonneg (firstn k es)). lia.
Qed.

Lemma entries_weight_between (es : IndexedWords) (a b : Z) :
  entries_weight (entries_between es a b) <= entries_weight es.
Proof.
  unfold entries_between.
  pose proof (entries_weight_firstn (Z.to_nat (b - a)) (skipn (Z.to_nat a) es)).
  pose proof (entries_weight_skipn (Z.to_nat a) es). lia.
Qed.

Lemma leaf_body_weight (es : IndexedWords) :
  len (leaf_body es) <= 4 + entries_weight es.
Proof.
  rewrite leaf_body_len.
  induction es as [|e es IH]; [cbn; lia|].
  rewrite chains_len_cons. cbn [entries_weight]. unfold entry_weight.
  pose proof (len_nonneg (fst e)). lia.
Qed.

Lemma entries_weight_firstn_mono (a b : nat) (es : IndexedWords) :
  (a <= b)%nat -> entries_weight (firstn a es) <= entries_weight (firstn b es).
Proof.
  intros H. replace a with (Nat.min a b) by lia.
  rewrite <- firstn_firstn. apply entries_weight_firstn.
Qed.

Lemma entries_weight_slice (a m b : nat) (es : IndexedWords) :
  (a + m <= b)%nat ->
  entries_weight (firstn m (skipn a es)) <= entries_weight (firstn b es).
Proof.
  intros H. rewrite firstn_skipn_comm.
  pose proof (entries_weight_skipn a (firstn (a + m) es)).
  pose proof (entries_weight_firstn_mono (a + m) b es H). lia.
Qed.

Lemma skipn_head {A : Type} (k : nat) (l : list A) (d : A) :
  (k < length l)%nat -> skipn k l = nth k l d :: skipn (S k) l.
Proof.
  revert l; induction k as [|k IH]; intros [|a l] H; simpl in H; try lia.
  - reflexivity.
  - cbn [skipn nth]. apply IH. lia.
Qed.

(** ** The builder never shortens the file *)

Lemma write_data_len (bs : bytes) (f : File.Class) :
  len (File.data f) <= len (File.data (File.write bs f)).
Proof.
  unfold File.write. cbn [File.data]. unfold len.
  rewrite !length_app, length_firstn, repeat_length, length_skipn. lia.
Qed.

Lemma saveNode_data_len (isLeaf : bool) (p : bytes) (f : File.Class) (last : Z) :
  len (File.data f)
  <= len (File.data (snd (fst (saveNode isLeaf p f last)))).
Proof.
  unfold saveNode.
  set (f3 := File.write (zlib_compress p)
               (File.write_u32 (len (zlib_compress p))
                  (File.write_u32 (len p) f))).
  assert (H3 : len (File.data f) <= len (File.data f3)).
  { unfold f3, File.write_u32.
    eapply Z.le_trans; [|apply write_data_len].
    eapply Z.le_trans; [|apply write_data_len].
    apply write_data_len. }
  destruct isLeaf; cbn [fst snd]; [|exact H3].
  assert (H4 : len (File.data f3) <= len (File.data (File.write_u32 0 f3)))
    by apply write_data_len.
  destruct (last =? 0); [lia|].
  unfold File.seek. cbn [File.data].
  eapply Z.le_trans; [|apply write_data_len]. cbn [File.data]. lia.
Qed.

Lemma buildChildren_data_len
    (build : IndexedWords -> Z -> File.Class -> Z -> option built) :
  (forall ni n f l r,
      build ni n f l = Some r -> len (File.data f) <= len (File.data (file_of r))) ->
  forall k x prevEntry n F ni f last offs piv pe' ni' f' last' offs' piv',
    buildChildren build k x prevEntry n F ni f last offs piv
    = Some (pe', ni', f', last', offs', piv') ->
    len (File.data f) <= len (File.data f').
Proof.
  intros Hbuild. induction k as [|k IH];
    intros x prevEntry n F ni f last offs piv pe' ni' f' last' offs' piv' H.
  - cbn in H. injection H as <- <- <- <- <- <-. lia.
  - cbn [buildChildren] in H.
    destruct (build ni (to_u32 (curEntryOf n F x - prevEntry)) f last)
      as [[[[off ni1] f1] last1]|] eqn:E; [|discriminate].
    destruct ni1 as [|[key c] ni1]; [discriminate|].
    apply IH in H. apply Hbuild in E. cbn [file_of] in E. lia.
Qed.

Lemma buildBtreeNode_data_len (fuel : nat) :
  forall ni n f F last r,
    buildBtreeNode fuel ni n f F last = Some r ->
    len (File.data f) <= len (File.data (file_of r)).
Proof.
  induction fuel as [|fuel IH]; intros ni n f F last r H; [discriminate|].
  cbn [buildBtreeNode] in H.
  destruct (n <=? F).
  - destruct (take_entries (to_u32 n) ni) as [[es ni']|]; [|discriminate].
    destruct (leaf_payload n es) as [p|]; [|discriminate].
    pose proof (saveNode_data_len true p f last) as Hs.
    destruct (saveNode true p f last) as [[off f'] last'].
    injection H as <-. exact Hs.
  - destruct (buildChildren _ _ _ _ _ _ _ _ _ _ _)
      as [[[[[[pe ni1] f1] last1] offs] piv]|] eqn:E; [|discriminate].
    apply buildChildren_data_len in E; [|intros; eapply IH; eauto].
    destruct (buildBtreeNode fuel ni1 _ f1 F last1)
      as [[[[off ni2] f2] last2]|] eqn:E2; [|discriminate].
    apply IH in E2. cbn [file_of] in E2.
    pose proof (saveNode_data_len false (node_payload (offs ++ [off]) piv)
                  f2 last2) as Hs.
    destruct (saveNode false _ f2 last2) as [[off' f'] last'].
    injection H as <-. cbn [file_of fst snd] in *. lia.
Qed.

(** ** The builder returns *)

Lemma len_skipn {A : Type} (k : Z) (l : list A) :
  0 <= k <= len l -> len (skipn (Z.to_nat k) l) = len l - k.
Proof. intros H. unfold len in *. rewrite length_skipn. lia. Qed.

Lemma len_firstn {A : Type} (k : Z) (l : list A) :
  0 <= k <= len l -> len (firstn (Z.to_nat k) l) = k.
Proof. intros H. unfold len in *. rewrite length_firstn. lia. Qed.

Lemma skipn_skipn_Z {A : Type} (a b : Z) (l : list A) :
  0 <= a -> 0 <= b ->
  skipn (Z.to_nat b) (skipn (Z.to_nat a) l) = skipn (Z.to_nat (a + b)) l.
Proof.
  intros Ha Hb. rewrite skipn_skipn. f_equal. lia.
Qed.

Lemma take_entries_ok (n : Z) (ni : IndexedWords) :
  0 <= n <= len ni ->
  take_entries n ni
  = Some (firstn (Z.to_nat n) ni, skipn (Z.to_nat n) ni).
Proof.
  intros H. unfold take_entries.
  replace ((0 <=? n) && (n <=? len ni)) with true; [reflexivity|].
  symmetry. apply andb_true_iff. split; apply Z.leb_le; lia.
Qed.

Lemma raw_size_slice (F : Z) (a m n : Z) (ni : IndexedWords) :
  0 <= a -> 0 <= m -> a + m <= n ->
  raw_size F (firstn (Z.to_nat m) (skipn (Z.to_nat a) ni))
  <= raw_size F (firstn (Z.to_nat n) ni).
Proof.
  intros Ha Hm Hn. unfold raw_size.
  pose proof (entries_weight_slice (Z.to_nat a) (Z.to_nat m) (Z.to_nat n) ni
                ltac:(lia)). lia.
Qed.

Lemma buildChildren_total
    (build : IndexedWords -> Z -> File.Class -> Z -> option built)
    (n F : Z) (ni : IndexedWords) :
  (forall ni_c m f last,
      0 <= m <= len ni_c -> m < n ->
      raw_size F (firstn (Z.to_nat m) ni_c) < u32_modulus ->
      exists off f' last',
        build ni_c m f last = Some (off, skipn (Z.to_nat m) ni_c, f', last')) ->
  1 <= F -> F + 1 < u32_modulus -> F + 1 <= n -> n <= len ni ->
  n < u32_modulus ->
  raw_size F (firstn (Z.to_nat n) ni) < u32_modulus ->
  forall k x f last offs piv,
    x + Z.of_nat k = F -> 0 <= x ->
    exists f' last' offs' piv',
      buildChildren build k x (cutPoint n F (x - 1)) n F
                    (skipn (Z.to_nat (cutPoint n F (x - 1))) ni) f last offs piv
      = Some (cutPoint n F (F - 1),
              skipn (Z.to_nat (cutPoint n F (F - 1))) ni, f', last', offs', piv').
Proof.
  intros Hb HF HF2 HFn Hn Hn2 Hraw.
  induction k as [|k IH]; intros x f last offs piv Hk Hx.
  - replace x with F by lia. cbn. eauto 6.
  - cbn [buildChildren].
    rewrite curEntryOf_cutPoint by lia.
    pose proof (cutPoint_step n F x HF HFn ltac:(lia)) as Hstep.
    pose proof (cutPoint_range n F (x - 1) HF HFn ltac:(lia)) as Ha.
    pose proof (cutPoint_below n F x HF HFn ltac:(lia)) as Hc.
    set (a := cutPoint n F (x - 1)) in *. set (c := cutPoint n F x) in *.
    rewrite to_u32_small by lia.
    destruct (Hb (skipn (Z.to_nat a) ni) (c - a) f last) as (off & f1 & last1 & E).
    { rewrite len_skipn by lia. lia. }
    { lia. }
    { eapply Z.le_lt_trans; [|exact Hraw]. apply raw_size_slice; lia. }
    rewrite E. rewrite skipn_skipn_Z by lia.
    replace (a + (c - a)) with c by lia.
    rewrite (skipn_head (Z.to_nat c) ni ([], [])) by (unfold len in *; lia).
    destruct (nth (Z.to_nat c) ni ([], [])) as [key ch] eqn:Enth.
    rewrite <- Enth, <- (skipn_head (Z.to_nat c) ni ([], []))
      by (unfold len in *; lia).
    specialize (IH (x + 1) f1 last1 (offs ++ [off]) (piv ++ [key])
                   ltac:(lia) ltac:(lia)).
    replace (x + 1 - 1) with x in IH by lia. exact IH.
Qed.

Lemma buildBtreeNode_total (fuel : nat) :
  forall ni n f F last,
    0 <= n <= len ni -> (Z.to_nat n < fuel)%nat ->
    1 <= F -> F + 1 < u32_modulus ->
    raw_size F (firstn (Z.to_nat n) ni) < u32_modulus ->
    exists off f' last',
      buildBtreeNode fuel ni n f F last
      = Some (off, skipn (Z.to_nat n) ni, f', last').
Proof.
  induction fuel as [|fuel IH]; intros ni n f F last Hn Hfuel HF HF2 Hraw;
    [lia|].
  assert (Hn32 : n < u32_modulus).
  { unfold raw_size in Hraw.
    assert (entries_weight (firstn (Z.to_nat n) ni) >= len (firstn (Z.to_nat n) ni)).
    { generalize (firstn (Z.to_nat n) ni). intros l.
      induction l as [|e l IHl]; cbn [entries_weight]; len_simpl; [lia|].
      pose proof (entry_weight_min e). lia. }
    rewrite len_firstn in * by lia. lia. }
  cbn [buildBtreeNode].
  destruct (n <=? F) eqn:Eleaf.
  - rewrite to_u32_small by lia. rewrite take_entries_ok by lia.
    assert (Hp : leaf_payload n (firstn (Z.to_nat n) ni)
                 = Some (leaf_body (firstn (Z.to_nat n) ni))).
    { rewrite <- (len_firstn n ni) at 1 by lia.
      apply leaf_payload_exact.
      pose proof (leaf_body_weight (firstn (Z.to_nat n) ni)).
      unfold raw_size in Hraw. lia. }
    rewrite Hp.
    destruct (saveNode true _ f last) as [[off f'] last'].
    eauto.
  - apply Z.leb_gt in Eleaf.
    destruct (buildChildren_total
                (fun ni0 n0 f0 l0 => buildBtreeNode fuel ni0 n0 f0 F l0)
                n F ni) with (k := Z.to_nat F) (x := 0) (f := f) (last := last)
                             (offs := @nil Z) (piv := @nil bytes)
      as (f1 & last1 & offs & piv & E); try lia.
    { intros ni_c m f0 last0 Hm Hmn Hr. apply IH; try assumption. lia. }
    simpl (0 - 1) in E. rewrite cutPoint_first in E. cbn [Z.to_nat skipn] in E.
    rewrite E.
    pose proof (cutPoint_step n F F HF ltac:(lia) ltac:(lia)) as Hstep.
    pose proof (cutPoint_range n F (F - 1) HF ltac:(lia) ltac:(lia)) as Ha.
    rewrite cutPoint_last in Hstep by lia.
    pose proof (cutPoint_step n F (F - 1) HF ltac:(lia) ltac:(lia)) as Hstep'.
    pose proof (cutPoint_range n F (F - 1 - 1) HF ltac:(lia) ltac:(lia)) as Ha'.
    set (a := cutPoint n F (F - 1)) in *.
    rewrite to_u64_small by (unfold u32_modulus in *; lia).
    destruct (IH (skipn (Z.to_nat a) ni) (n - a) f1 F last1)
      as (off & f2 & last2 & E2); try assumption.
    { rewrite len_skipn by lia. lia. }
    { lia. }
    { eapply Z.le_lt_trans; [|exact Hraw]. apply raw_size_slice; lia. }
    rewrite E2. rewrite skipn_skipn_Z by lia.
    replace (a + (n - a)) with n by lia.
    destruct (saveNode false _ f2 last2) as [[off' f'] last'].
    eauto.
Qed.

(** ** What the builder writes *)

Lemma item_at_app (b : Z) (its more : list item) (off : Z) (it : item) :
  item_at b its off it -> item_at b (its ++ more) off it.
Proof.
  intros (pre & post & -> & ->). exists pre, (post ++ more).
  split; [|reflexivity]. now rewrite <- app_assoc.
Qed.

Lemma item_at_last (b : Z) (its : list item) (it : item) :
  item_at b (its ++ [it]) (b + items_size its) it.
Proof. exists its, []. auto. Qed.

Lemma subtree_app (h : nat) (F b : Z) (its more : list item) :
  forall off es first,
    subtree h F b its off es first -> subtree h F b (its ++ more) off es first.
Proof.
  induction h as [|h IH]; intros off es first H; [exact H|].
  cbn [subtree] in *. destruct (len es <=? F).
  - destruct H as [H1 H2]. split; [now apply item_at_app|exact H2].
  - destruct H as (offs & piv & H1 & H2 & H3 & H4 & H5).
    exists offs, piv. split; [now apply item_at_app|].
    repeat (split; [assumption|]).
    intros x Hx. destruct (H5 x Hx) as (fx & Hs & Hf).
    exists fx. split; [now apply IH|exact Hf].
Qed.

Lemma leaf_entries_app (a b : list item) :
  leaf_entries (a ++ b) = leaf_entries a ++ leaf_entries b.
Proof.
  induction a as [|it a IH]; [reflexivity|].
  destruct it; cbn [app leaf_entries]; now rewrite IH.
Qed.

Lemma firstn_app_slice {A : Type} (a m : Z) (l : list A) :
  0 <= a -> 0 <= m ->
  firstn (Z.to_nat a) l ++ firstn (Z.to_nat m) (skipn (Z.to_nat a) l)
  = firstn (Z.to_nat (a + m)) l.
Proof.
  intros Ha Hm. rewrite Z2Nat.inj_add by lia.
  generalize (Z.to_nat a) as i, (Z.to_nat m) as j. clear.
  intros i j. revert l. induction i as [|i IH]; intros [|x l]; cbn;
    try reflexivity.
  - now rewrite firstn_nil.
  - f_equal. apply IH.
Qed.

Lemma entries_between_firstn (n a b : Z) (ni : IndexedWords) :
  0 <= a -> a <= b -> b <= n ->
  entries_between (firstn (Z.to_nat n) ni) a b = entries_between ni a b.
Proof.
  intros Ha Hab Hb. unfold entries_between.
  rewrite skipn_firstn_comm, firstn_firstn. f_equal. lia.
Qed.

Lemma key_at_firstn (n i : Z) (ni : IndexedWords) :
  0 <= i < n -> key_at (firstn (Z.to_nat n) ni) i = key_at ni i.
Proof.
  intros H. unfold key_at. rewrite nth_firstn.
  now replace (Z.to_nat i <? Z.to_nat n)%nat with true
    by (symmetry; apply Nat.ltb_lt; lia).
Qed.

Lemma pivots_bytes_app (piv : list bytes) (k : bytes) :
  len (pivots_bytes (piv ++ [k])) = len (pivots_bytes piv) + len k + 1.
Proof.
  unfold pivots_bytes. rewrite map_app, concat_app. cbn [map concat].
  rewrite app_nil_r, len_app, len_app. change (len [0]) with 1. lia.
Qed.

Lemma entries_weight_firstn_succ (c : nat) (es : IndexedWords) :
  (c < length es)%nat ->
  entries_weight (firstn (S c) es)
  = entries_weight (firstn c es) + entry_weight (nth c es ([], [])).
Proof.
  revert es; induction c as [|c IH]; intros [|e es] H; simpl in H; try lia.
  - cbn [firstn nth entries_weight]. lia.
  - change (firstn (S (S c)) (e :: es)) with (e :: firstn (S c) es).
    change (firstn (S c) (e :: es)) with (e :: firstn c es).
    change (nth (S c) (e :: es) ([], [])) with (nth c es ([], [])).
    cbn [entries_weight]. rewrite IH by lia. lia.
Qed.

Lemma node_payload_len (offs : list Z) (piv : list bytes) :
  len (node_payload offs piv) = 4 + 4 * len offs + len (pivots_bytes piv).
Proof.
  unfold node_payload. fold (pivots_bytes piv). rewrite !len_app, len_put_u32.
  assert (len (concat (map put_u32 offs)) = 4 * len offs).
  { induction offs as [|o offs IH]; cbn [map concat]; len_simpl; lia. }
  lia.
Qed.

(** The file after a leaf holds the leaf and its link. *)
Lemma saveNode_leaf_len (f : File.Class) (d0 : bytes) (its : list item)
    (es : IndexedWords) (last : Z) :
  disk f d0 its ->
  len d0 + items_size (its ++ [LeafI es])
  <= len (File.data (snd (fst (saveNode true (leaf_body es) f last)))).
Proof.
  intros [Hd Hp]. unfold saveNode. rewrite (write_node_at_end _ f Hp).
  set (f3 := File.mk (File.data f ++ node_image (leaf_body es)) _).
  assert (H4 : len d0 + items_size (its ++ [LeafI es])
               <= len (File.data (File.write_u32 0 f3))).
  { unfold File.write_u32. rewrite write_at_end by reflexivity.
    unfold f3. cbn [File.data]. rewrite Hd, !len_app, image_len, len_put_u32.
    rewrite items_size_app. cbn [items_size]. unfold item_size.
    cbn [payload_of link_room]. lia. }
  cbn [fst snd]. destruct (last =? 0); [exact H4|].
  unfold File.seek. cbn [File.data].
  eapply Z.le_trans; [exact H4|]. unfold File.write_u32.
  eapply Z.le_trans; [|apply write_data_len]. cbn [File.data]. lia.
Qed.

Lemma nth_snoc_last {A : Type} (l : list A) (a d : A) (x : Z) :
  len l = x -> nth (Z.to_nat x) (l ++ [a]) d = a.
Proof.
  intros <-. unfold len. rewrite Nat2Z.id.
  rewrite app_nth2 by lia. now rewrite Nat.sub_diag.
Qed.

Lemma nth_snoc_before {A : Type} (l : list A) (a d : A) (y : Z) :
  0 <= y < len l -> nth (Z.to_nat y) (l ++ [a]) d = nth (Z.to_nat y) l d.
Proof. intros H. apply app_nth1. unfold len in H. lia. Qed.

(** The child loop of an internal node, from child [x] on. *)
Lemma buildChildren_ok
    (build : IndexedWords -> Z -> File.Class -> Z -> option built)
    (h : nat) (n F : Z) (ni : IndexedWords) (d0 : bytes) (its : list item) :
  (forall ni_c m f its_c last r,
      build ni_c m f last = Some r ->
      disk f d0 its_c -> last = last_link_offset (len d0) its_c ->
      0 <= m <= len ni_c -> m < n ->
      raw_size F (firstn (Z.to_nat m) ni_c) < u32_modulus ->
      len (File.data (file_of r)) < u32_modulus ->
      built_ok h F d0 its_c ni_c m r) ->
  (forall ni_c m f l r,
      build ni_c m f l = Some r ->
      len (File.data f) <= len (File.data (file_of r))) ->
  1 <= F -> F + 1 < u32_modulus -> F + 1 <= n -> n <= len ni ->
  n < u32_modulus ->
  raw_size F (firstn (Z.to_nat n) ni) < u32_modulus ->
  forall k x f last offs piv pe' ni' f' last' offs' piv',
    x + Z.of_nat k = F -> 0 <= x ->
    buildChildren build k x (cutPoint n F (x - 1)) n F
                  (skipn (Z.to_nat (cutPoint n F (x - 1))) ni) f last offs piv
    = Some (pe', ni', f', last', offs', piv') ->
    len (File.data f') < u32_modulus ->
    children_ok h F d0 its ni n x f last offs piv ->
    children_ok h F d0 its ni n F f' last' offs' piv'
    /\ pe' = cutPoint n F (F - 1)
    /\ ni' = skipn (Z.to_nat (cutPoint n F (F - 1))) ni.
Proof.
  intros Hb Hmono HF HF2 HFn Hn Hn2 Hraw.
  induction k as [|k IH];
    intros x f last offs piv pe' ni' f' last' offs' piv' Hk Hx H Hsmall Hst.
  - assert (x = F) by lia. subst x. cbn in H.
    injection H as <- <- <- <- <- <-. auto.
  - cbn [buildChildren] in H.
    rewrite curEntryOf_cutPoint in H by lia.
    pose proof (cutPoint_step n F x HF HFn ltac:(lia)) as Hstep.
    pose proof (cutPoint_range n F (x - 1) HF HFn ltac:(lia)) as Ha.
    pose proof (cutPoint_below n F x HF HFn ltac:(lia)) as Hc.
    set (a := cutPoint n F (x - 1)) in *. set (c := cutPoint n F x) in *.
    rewrite to_u32_small in H by lia.
    destruct (build (skipn (Z.to_nat a) ni) (c - a) f last)
      as [[[[off ni1] f1] last1]|] eqn:E; [|discriminate].
    destruct ni1 as [|[key ch] rest] eqn:Eni1; [discriminate|].
    rewrite <- Eni1 in *.
    pose proof (buildChildren_data_len build Hmono _ _ _ _ _ _ _ _ _ _
                  _ _ _ _ _ _ H) as Hlen1.
    destruct Hst as (newx & Hd & Hl & Ho & Hp & Hx0 & Hpiv & Hsub & Hle & Hsm & Hw).
    pose proof (Hb _ _ _ _ _ _ E Hd Hl) as Hok.
    cbn [file_of] in Hok.
    destruct Hok as (new1 & Hd1 & Hl1 & Hni1 & Hs1 & Hc1 & Hp1).
    { rewrite len_skipn by lia. lia. }
    { lia. }
    { eapply Z.le_lt_trans; [|exact Hraw]. apply raw_size_slice; lia. }
    { lia. }
    rewrite skipn_skipn_Z in Hni1 by lia.
    replace (a + (c - a)) with c in Hni1 by lia.
    assert (Hnth : nth (Z.to_nat c) ni ([], []) = (key, ch)).
    { rewrite (skipn_head (Z.to_nat c) ni ([], [])) in Hni1
        by (unfold len in *; lia).
      rewrite Eni1 in Hni1. now injection Hni1 as -> _. }
    specialize (IH (x + 1) f1 last1 (offs ++ [off]) (piv ++ [key])
                   pe' ni' f' last' offs' piv' ltac:(lia) ltac:(lia)).
    replace (x + 1 - 1) with x in IH by lia. fold c in IH.
    rewrite Hni1 in H.
    apply IH; [exact H|exact Hsmall|].
    exists (newx ++ new1).
    rewrite app_assoc. split; [exact Hd1|]. split; [exact Hl1|].
    split; [rewrite len_app; change (len [off]) with 1; lia|].
    split; [rewrite len_app; change (len [key]) with 1; lia|].
    split; [intros; lia|].
    split.
    { intros y Hy. destruct (Z.eq_dec y x) as [->|Hne].
      - rewrite nth_snoc_last by exact Hp.
        unfold key_at. fold c. now rewrite Hnth.
      - rewrite nth_snoc_before by lia. apply Hpiv. lia. }
    split.
    { intros y Hy. destruct (Z.eq_dec y x) as [->|Hne].
      - rewrite nth_snoc_last by exact Ho.
        exists (len d0 + items_size (its ++ newx)). split.
        + exact Hs1.
        + intros ->. rewrite (Hx0 eq_refl). now rewrite app_nil_r.
      - rewrite nth_snoc_before by lia.
        destruct (Hsub y ltac:(lia)) as (fy & Hsy & Hfy).
        exists fy. split; [now apply subtree_app|exact Hfy]. }
    split.
    { replace (x + 1 - 1) with x by lia. fold c.
      rewrite leaf_entries_app, concat_app, Hle, Hc1.
      fold a. rewrite firstn_app_slice by lia. f_equal. f_equal. lia. }
    split.
    { apply Forall_app. split; assumption. }
    replace (x + 1 - 1) with x by lia. fold c.
    rewrite pivots_bytes_app.
    replace (Z.to_nat (c + 1)) with (S (Z.to_nat c)) by lia.
    rewrite entries_weight_firstn_succ by (unfold len in *; lia).
    rewrite Hnth. unfold entry_weight. cbn [fst snd].
    pose proof (entries_weight_firstn_mono (Z.to_nat (a + 1)) (Z.to_nat c) ni
                  ltac:(lia)).
    pose proof (len_nonneg (chain_bytes ch)). fold a in Hw. lia.
Qed.

Lemma disk_len (f : File.Class) (d0 : bytes) (its : list item) :
  disk f d0 its -> len (File.data f) = len d0 + items_size its.
Proof. intros [Hd _]. now rewrite Hd, len_app, image_len. Qed.

(** What [buildBtreeNode] leaves in the file, when the file stays below
    2^32 bytes. *)
Lemma buildBtreeNode_ok (fuel : nat) (d0 : bytes) :
  forall ni n f F last its r,
    buildBtreeNode fuel ni n f F last = Some r ->
    disk f d0 its -> last = last_link_offset (len d0) its ->
    0 <= n <= len ni -> 1 <= F -> F + 1 < u32_modulus ->
    raw_size F (firstn (Z.to_nat n) ni) < u32_modulus ->
    len (File.data (file_of r)) < u32_modulus ->
    built_ok fuel F d0 its ni n r.
Proof.
  induction fuel as [|fuel IH];
    intros ni n f F last its r H Hd Hl Hn HF HF2 Hraw Hsmall; [discriminate|].
  assert (Hn32 : n < u32_modulus).
  { unfold raw_size in Hraw.
    assert (entries_weight (firstn (Z.to_nat n) ni) >= len (firstn (Z.to_nat n) ni)).
    { generalize (firstn (Z.to_nat n) ni). intros l.
      induction l as [|e l IHl]; cbn [entries_weight];
        rewrite ?len_cons; [unfold len; simpl; lia|].
      pose proof (entry_weight_min e). lia. }
    rewrite len_firstn in * by lia. lia. }
  pose proof (len_nonneg d0) as Hd0. pose proof (items_size_nonneg its) as Hits.
  cbn [buildBtreeNode] in H.
  destruct (n <=? F) eqn:Eleaf.
  - (* a leaf *)
    rewrite to_u32_small in H by lia. rewrite take_entries_ok in H by lia.
    set (es := firstn (Z.to_nat n) ni) in *.
    assert (Hes : len es = n) by (unfold es; apply len_firstn; lia).
    assert (Hbody : len (leaf_body es) < u32_modulus).
    { pose proof (leaf_body_weight es). unfold raw_size in Hraw. lia. }
    rewrite <- Hes in H at 1.
    rewrite (leaf_payload_exact es Hbody) in H.
    pose proof (saveNode_leaf_len f d0 its es last Hd) as Hlen.
    destruct (saveNode true (leaf_body es) f last) as [[off f'] last'] eqn:Es.
    injection H as <-. cbn [file_of fst snd] in *.
    destruct (saveNode_leaf f d0 its es Hd ltac:(lia)) as (f'' & Es' & Hd').
    rewrite <- Hl in Es'. rewrite Es in Es'. injection Es' as -> <- ->.
    exists [LeafI es].
    split; [exact Hd'|]. split.
    { unfold last_link_offset. now rewrite last_link_app_leaf. }
    split; [reflexivity|]. split.
    { fold es. cbn [subtree]. rewrite Hes, Eleaf.
      split; [apply item_at_last|reflexivity]. }
    split; [cbn; now rewrite app_nil_r|].
    constructor; [exact Hbody|constructor].
  - (* an internal node *)
    apply Z.leb_gt in Eleaf.
    destruct (buildChildren _ _ _ _ _ _ _ _ _ _ _)
      as [[[[[[pe ni1] f1] last1] offs] piv]|] eqn:E; [|discriminate].
    destruct (buildBtreeNode fuel ni1 _ f1 F last1)
      as [[[[off ni2] f2] last2]|] eqn:E2; [|discriminate].
    pose proof (saveNode_data_len false (node_payload (offs ++ [off]) piv)
                  f2 last2) as Hlen3.
    destruct (saveNode false _ f2 last2) as [[off' f'] last'] eqn:Es.
    injection H as <-. cbn [file_of fst snd] in *.
    pose proof (buildBtreeNode_data_len _ _ _ _ _ _ _ E2) as Hlen2.
    cbn [file_of] in Hlen2.
    pose proof (cutPoint_step n F F HF ltac:(lia) ltac:(lia)) as Hstep.
    pose proof (cutPoint_range n F (F - 1) HF ltac:(lia) ltac:(lia)) as Ha.
    rewrite cutPoint_last in Hstep by lia.
    (* the children before the rightmost *)
    destruct (buildChildren_ok
                (fun ni0 n0 f0 l0 => buildBtreeNode fuel ni0 n0 f0 F l0)
                fuel n F ni d0 its) with
        (k := Z.to_nat F) (x := 0) (f := f) (last := last)
        (offs := @nil Z) (piv := @nil (list Z))
        (pe' := pe) (ni' := ni1) (f' := f1) (last' := last1)
        (offs' := offs) (piv' := piv)
      as (Hch & Hpe & Hni1); try lia.
    { intros ni_c m f0 its_c last0 r0 H0 Hd0' Hl0 Hm Hmn Hr Hs.
      eapply IH; eauto. }
    { intros ni_c m f0 l0 r0 H0. eapply buildBtreeNode_data_len; eauto. }
    { exact E. }
    { exists []. rewrite app_nil_r.
      split; [exact Hd|]. split; [exact Hl|].
      split; [reflexivity|]. split; [reflexivity|]. split; [reflexivity|].
      split; [intros; lia|]. split; [intros; lia|].
      split; [reflexivity|]. split; [constructor|].
      cbn. apply entries_weight_nonneg. }
    subst pe ni1.
    destruct Hch as (newF & HdF & HlF & Ho & Hp & _ & Hpiv & Hsub & Hle & Hsm & Hw).
    set (a := cutPoint n F (F - 1)) in *.
    rewrite to_u64_small in E2 by (unfold u32_modulus in *; lia).
    (* the rightmost child *)
    pose proof (IH _ _ _ _ _ _ _ E2 HdF HlF) as Hr.
    cbn [file_of] in Hr.
    destruct Hr as (new2 & Hd2 & Hl2 & Hni2 & Hs2 & Hc2 & Hp2).
    { rewrite len_skipn by lia. lia. }
    { exact HF. }
    { exact HF2. }
    { eapply Z.le_lt_trans; [|exact Hraw]. apply raw_size_slice; lia. }
    { lia. }
    rewrite skipn_skipn_Z in Hni2 by lia.
    replace (a + (n - a)) with n in Hni2 by lia.
    (* the node itself *)
    destruct (saveNode_internal f2 d0 ((its ++ newF) ++ new2) (offs ++ [off])
                piv last2 Hd2) as (f'' & Es' & Hd').
    rewrite Es in Es'. injection Es' as -> <-.
    pose proof (disk_len _ _ _ Hd') as Hlen'.
    rewrite items_size_app in Hlen'. cbn [items_size] in Hlen'.
    pose proof (item_size_min (NodeI (offs ++ [off]) piv)) as Hmin.
    pose proof (items_size_nonneg ((its ++ newF) ++ new2)) as Hsz.
    rewrite to_u32_small by lia.
    exists (newF ++ new2 ++ [NodeI (offs ++ [off]) piv]).
    replace (its ++ newF ++ new2 ++ [NodeI (offs ++ [off]) piv])
      with (((its ++ newF) ++ new2) ++ [NodeI (offs ++ [off]) piv])
      by (now rewrite <- !app_assoc).
    split; [exact Hd'|]. split.
    { subst last' last2. unfold last_link_offset.
      now rewrite last_link_app_node. }
    split; [exact Hni2|].
    assert (Hlen_es : len (firstn (Z.to_nat n) ni) = n)
      by (apply len_firstn; lia).
    split.
    { cbn [subtree]. rewrite Hlen_es.
      replace (n <=? F) with false by (symmetry; apply Z.leb_gt; lia).
      exists (offs ++ [off]), piv.
      split; [apply item_at_last|].
      split; [rewrite len_app; change (len [off]) with 1; lia|].
      split; [exact Hp|].
      split.
      { intros x Hx. rewrite Hpiv by exact Hx.
        symmetry. apply key_at_firstn.
        pose proof (cutPoint_range n F x HF ltac:(lia) ltac:(lia)).
        pose proof (cutPoint_below n F x HF ltac:(lia) ltac:(lia)). lia. }
      intros x Hx.
      pose proof (cutPoint_step n F x HF ltac:(lia) Hx) as Hsx.
      pose proof (cutPoint_range n F (x - 1) HF ltac:(lia) ltac:(lia)) as Hax.
      pose proof (cutPoint_range n F x HF ltac:(lia) ltac:(lia)) as Hcx.
      rewrite entries_between_firstn by lia.
      destruct (Z.eq_dec x F) as [->|Hne].
      - rewrite nth_snoc_last by exact Ho.
        exists (len d0 + items_size (its ++ newF)). split; [|intros; lia].
        rewrite cutPoint_last by lia. fold a. unfold entries_between.
        now apply subtree_app.
      - rewrite nth_snoc_before by lia.
        destruct (Hsub x ltac:(lia)) as (fx & Hsx' & Hfx).
        exists fx. split; [|exact Hfx].
        apply subtree_app. now apply subtree_app. }
    split.
    { rewrite !leaf_entries_app, !concat_app, Hle, Hc2. cbn [leaf_entries concat].
      rewrite app_nil_r. fold a. rewrite firstn_app_slice by lia.
      f_equal. f_equal. lia. }
    apply Forall_app. split; [exact Hsm|].
    apply Forall_app. split; [exact Hp2|].
    constructor; [|constructor].
    unfold payload_small. cbn [payload_of]. rewrite node_payload_len.
    rewrite len_app. change (len [off]) with 1. rewrite Ho.
    pose proof (entries_weight_firstn_mono (Z.to_nat (a + 1)) (Z.to_nat n) ni
                  ltac:(lia)).
    unfold raw_size in Hraw. fold a in Hw. lia.
Qed.

(** ** [buildIndex] *)

Lemma keys_ascending_hasKey (e : bytes * chain) (m : IndexedWords) :
  keys_ascending (e :: m) -> Forall (fun e' => hasKey e' = true) m.
Proof.
  revert e. induction m as [|[k' c'] m IH]; intros [k c] H; [constructor|].
  destruct H as [Hlt Hm]. constructor; [|exact (IH _ Hm)].
  unfold hasKey. cbn [fst]. destruct k'; [|reflexivity].
  destruct k; discriminate Hlt.
Qed.

Lemma nonEmptyKeys_all (m : IndexedWords) :
  Forall (fun e => hasKey e = true) m -> nonEmptyKeys m = m.
Proof.
  unfold nonEmptyKeys. induction 1 as [|e m He _ IH]; [reflexivity|].
  cbn [filter]. now rewrite He, IH.
Qed.

Lemma skipEmptyWords_stop (n : Z) (m : IndexedWords) :
  Forall (fun e => hasKey e = true) m -> skipEmptyWords n m = (n, m).
Proof.
  intros H. destruct m as [|[[|b k] c] m]; [reflexivity| |reflexivity].
  inversion H as [|? ? He _]. discriminate He.
Qed.

(** In a map, only the first key can be empty: skipping the leading empty
    words leaves the entries under non-empty keys. *)
Lemma skipEmptyWords_ascending (m : IndexedWords) :
  keys_ascending m ->
  skipEmptyWords (len m) m = (len (nonEmptyKeys m), nonEmptyKeys m).
Proof.
  intros H. destruct m as [|[k c] m]; [reflexivity|].
  pose proof (keys_ascending_hasKey _ _ H) as Hm.
  destruct k as [|b k].
  - cbn [skipEmptyWords]. rewrite len_cons.
    pose proof (len_nonneg m).
    replace (len m + 1 =? 0) with false by (symmetry; apply Z.eqb_neq; lia).
    replace (len m + 1 - 1) with (len m) by lia.
    unfold nonEmptyKeys. cbn [filter hasKey fst].
    fold (nonEmptyKeys m). rewrite nonEmptyKeys_all by exact Hm.
    now apply skipEmptyWords_stop.
  - rewrite nonEmptyKeys_all by (constructor; [reflexivity|exact Hm]).
    reflexivity.
Qed.

Lemma chooseMaxElements_clamp (n : Z) :
  chooseMaxElements n = Z.max 64 (Z.min 4096 (Z.sqrt n + 1)).
Proof.
  unfold chooseMaxElements, BtreeMinElements, BtreeMaxElements.
  destruct (Z.sqrt n + 1 <? 64) eqn:E1; [apply Z.ltb_lt in E1; lia|].
  apply Z.ltb_ge in E1.
  destruct (Z.sqrt n + 1 >? 4096) eqn:E2; rewrite Z.gtb_ltb in E2;
    [apply Z.ltb_lt in E2|apply Z.ltb_ge in E2]; lia.
Qed.

Lemma entries_weight_nonEmptyKeys (m : IndexedWords) :
  entries_weight (nonEmptyKeys m) <= entries_weight m.
Proof.
  unfold nonEmptyKeys. induction m as [|e m IH]; [reflexivity|].
  cbn [filter entries_weight]. pose proof (entry_weight_min e).
  destruct (hasKey e); cbn [entries_weight]; lia.
Qed.

Lemma firstn_len {A : Type} (l : list A) : firstn (Z.to_nat (len l)) l = l.
Proof. unfold len. rewrite Nat2Z.id. apply firstn_all. Qed.

Lemma skipn_len {A : Type} (l : list A) : skipn (Z.to_nat (len l)) l = [].
Proof. unfold len. rewrite Nat2Z.id. apply skipn_all. Qed.

(** [buildIndex] returns, for maps whose uncompressed nodes stay below
    2^32 bytes. *)
Lemma buildIndex_total (m : IndexedWords) (file : File.Class) :
  keys_ascending m ->
  raw_size BtreeMaxElements m < u32_modulus ->
  exists root file' last',
    buildBtreeNode (S (length (nonEmptyKeys m))) (nonEmptyKeys m)
                   (len (nonEmptyKeys m)) file
                   (chooseMaxElements (len (nonEmptyKeys m))) 0
    = Some (root, [], file', last')
    /\ buildIndex m file
       = Some (mkIndexInfo (chooseMaxElements (len (nonEmptyKeys m))) root,
               file').
Proof.
  intros Hasc Hraw. unfold buildIndex.
  rewrite skipEmptyWords_ascending by exact Hasc.
  set (es := nonEmptyKeys m). set (F := chooseMaxElements (len es)).
  assert (HF : 64 <= F <= 4096)
    by (unfold F; rewrite chooseMaxElements_clamp; lia).
  pose proof (len_nonneg es) as Hes.
  destruct (buildBtreeNode_total (S (length es)) es (len es) file F 0)
    as (off & f' & last' & Hb).
  - lia.
  - unfold len. rewrite Nat2Z.id. lia.
  - lia.
  - unfold u32_modulus. lia.
  - rewrite firstn_len. pose proof (entries_weight_nonEmptyKeys m).
    unfold raw_size, BtreeMaxElements in *. fold es in H. lia.
  - rewrite skipn_len in Hb. exists off, f', last'. split; [exact Hb|].
    now rewrite Hb.
Qed.

(** C3.  For a map with [n] entries under non-empty keys, the [IndexInfo]
    [buildIndex] returns has the fanout [floor(sqrt n) + 1] clamped to
    [64, 4096]: it lies in [64, 4096], and is 71 for [n = 5000].  And
    [buildIndex] returns, when the nodes stay below 2^32 bytes. *)
Theorem buildIndex_fanout (m : IndexedWords) (file : File.Class) :
  keys_ascending m ->
  (forall info file',
      buildIndex m file = Some (info, file') ->
      btreeMaxElements info
      = Z.max 64 (Z.min 4096 (Z.sqrt (len (nonEmptyKeys m)) + 1))
      /\ 64 <= btreeMaxElements info <= 4096
      /\ (len (nonEmptyKeys m) = 5000 -> btreeMaxElements info = 71))
  /\ (raw_size BtreeMaxElements m < u32_modulus ->
      exists info file', buildIndex m file = Some (info, file')).
Proof.
  intros Hasc. split.
  - intros info file' Hb. unfold buildIndex in Hb.
    rewrite skipEmptyWords_ascending in Hb by exact Hasc.
    destruct (buildBtreeNode _ _ _ _ _ _) as [[[[root ni] f'] last']|];
      [|discriminate].
    injection Hb as <- _. cbn [btreeMaxElements].
    rewrite chooseMaxElements_clamp.
    split; [reflexivity|]. split; [lia|].
    intros ->. reflexivity.
  - intros Hraw.
    destruct (buildIndex_total m file Hasc Hraw)
      as (root & f' & last' & _ & Hb).
    eauto.
Qed.



(** ** Reading back what the builder wrote *)

Lemma image_app (pre post : list item) :
  forall cur, exists P,
    len P = items_size pre
    /\ image cur (pre ++ post) = P ++ image (cur + items_size pre) post.
Proof.
  induction pre as [|it r IH]; intros cur.
  - exists []. split; [reflexivity|]. cbn [items_size app].
    now replace (cur + 0) with cur by lia.
  - destruct (IH (cur + item_size it)) as (P & HP & HI).
    cbn [app image items_size]. rewrite HI.
    exists (node_image (payload_of it)
            ++ match it with
               | LeafI _ => put_u32 (next_leaf (cur + item_size it) (r ++ post))
               | NodeI _ _ => []
               end ++ P).
    split.
    + rewrite !len_app, HP. unfold item_size.
      destruct it; cbn [link_room]; rewrite ?len_put_u32, ?len_nil; lia.
    + rewrite <- !app_assoc.
      now replace (cur + (item_size it + items_size r))
        with (cur + item_size it + items_size r) by lia.
Qed.

(** [readNode] at the offset of an item gives its payload back. *)
Lemma readNode_at (f : File.Class) (d0 : bytes) (pre post : list item)
    (it : item) :
  File.data f = d0 ++ image (len d0) (pre ++ it :: post) ->
  len (File.data f) < u32_modulus ->
  payload_small it ->
  zlib_uncompress (zlib_compress (payload_of it)) = Some (payload_of it) ->
  readNode (len d0 + items_size pre) f
  = Ok (payload_of it,
        File.mk (File.data f)
                (len d0 + items_size pre + len (node_image (payload_of it)))).
Proof.
  intros Hd Hlen Hsmall Hz.
  destruct (image_app pre (it :: post) (len d0)) as (P & HP & HI).
  rewrite HI in Hd. cbn [image] in Hd.
  set (p := payload_of it) in *. set (c := zlib_compress p) in *.
  set (tl := match it with
             | LeafI _ => _
             | NodeI _ _ => []
             end ++ _) in Hd.
  unfold node_image in Hd. fold c in Hd.
  pose proof (len_nonneg p) as Hp0. pose proof (len_nonneg c) as Hc0.
  pose proof (len_nonneg d0) as Hd0. pose proof (len_nonneg P) as HP0.
  pose proof (len_nonneg tl) as Htl.
  assert (Hc : len c < u32_modulus).
  { rewrite Hd in Hlen. rewrite !len_app, !len_put_u32 in Hlen. lia. }
  unfold readNode, File.seek, File.read_u32, File.read. cbn [File.data File.pos].
  rewrite (get_u32_at (File.data f) (d0 ++ P)
             (put_u32 (len c) ++ c ++ tl) _ (len p)).
  2:{ rewrite Hd. now rewrite <- !app_assoc. }
  2:{ rewrite len_app. lia. }
  2:{ unfold payload_small in Hsmall. fold p in Hsmall. lia. }
  cbn [bind File.data File.pos].
  rewrite (get_u32_at (File.data f) (d0 ++ P ++ put_u32 (len p))
             (c ++ tl) _ (len c)).
  2:{ rewrite Hd. now rewrite <- !app_assoc. }
  2:{ rewrite !len_app, len_put_u32. lia. }
  2:{ lia. }
  cbn [bind File.data File.pos].
  rewrite (slice_at (File.data f) (d0 ++ P ++ put_u32 (len p) ++ put_u32 (len c))
             c tl _ (len c)).
  2:{ rewrite Hd. now rewrite <- !app_assoc. }
  2:{ rewrite !len_app, !len_put_u32. lia. }
  2:{ reflexivity. }
  cbn [bind File.data File.pos]. fold c. rewrite Hz, Z.eqb_refl.
  f_equal. f_equal. f_equal. rewrite node_image_len. fold c. lia.
Qed.

Lemma next_leaf_bounds (its : list item) :
  forall cur, 0 <= cur ->
    next_leaf cur its = 0
    \/ cur <= next_leaf cur its /\ next_leaf cur its < cur + items_size its.
Proof.
  induction its as [|it r IH]; intros cur Hcur; [now left|].
  pose proof (item_size_min it). pose proof (items_size_nonneg r).
  cbn [next_leaf items_size].
  destruct it as [es|offs piv]; [right; lia|].
  destruct (IH (cur + item_size (NodeI offs piv)) ltac:(lia)) as [->|Hb];
    [now left|right; lia].
Qed.

(** After [readNode] has read a leaf, the file is before its forward link:
    the offset of the next leaf, zero after the last. *)
Lemma read_link_at (f : File.Class) (d0 : bytes) (pre post : list item)
    (es : IndexedWords) :
  File.data f = d0 ++ image (len d0) (pre ++ LeafI es :: post) ->
  len (File.data f) < u32_modulus ->
  File.read_u32
    (File.mk (File.data f)
             (len d0 + items_size pre + len (node_image (leaf_body es))))
  = Ok (next_leaf (len d0 + items_size pre + item_size (LeafI es)) post,
        File.mk (File.data f)
                (len d0 + items_size pre + item_size (LeafI es))).
Proof.
  intros Hd Hlen.
  pose proof (image_len (pre ++ LeafI es :: post) (len d0)) as Hil.
  rewrite items_size_app in Hil. cbn [items_size] in Hil.
  assert (Htot : len (File.data f)
                 = len d0 + (items_size pre
                             + (item_size (LeafI es) + items_size post)))
    by (rewrite Hd, len_app, Hil; reflexivity).
  destruct (image_app pre (LeafI es :: post) (len d0)) as (P & HP & HI).
  rewrite HI in Hd. cbn [image payload_of] in Hd.
  pose proof (len_nonneg d0) as Hd0. pose proof (items_size_nonneg pre).
  pose proof (items_size_nonneg post).
  pose proof (item_size_min (LeafI es)).
  set (nx := next_leaf (len d0 + items_size pre + item_size (LeafI es)) post)
    in *.
  assert (Hnx : 0 <= nx < u32_modulus).
  { rewrite Htot in Hlen.
    destruct (next_leaf_bounds post
                (len d0 + items_size pre + item_size (LeafI es)) ltac:(lia))
      as [Hz|Hb]; fold nx in Hz || fold nx in Hb; unfold u32_modulus in *; lia. }
  unfold File.read_u32. cbn [File.data File.pos].
  rewrite (get_u32_at (File.data f) (d0 ++ P ++ node_image (leaf_body es))
             (image (len d0 + items_size pre + item_size (LeafI es)) post)
             _ nx).
  2:{ rewrite Hd. now rewrite <- !app_assoc. }
  2:{ rewrite !len_app. lia. }
  2:{ exact Hnx. }
  f_equal. f_equal. f_equal. unfold item_size. cbn [link_room payload_of]. lia.
Qed.

Lemma disk_empty (file : File.Class) :
  File.pos file = len (File.data file) -> disk file (File.data file) [].
Proof. intros H. split; [cbn [image]; now rewrite app_nil_r|exact H]. Qed.

(** What [buildIndex] writes after the bytes the file held: the items of a
    tree of the entries under non-empty keys. *)
Lemma buildIndex_ok (m : IndexedWords) (file : File.Class) (info : IndexInfo)
    (file' : File.Class) :
  keys_ascending m ->
  raw_size BtreeMaxElements m < u32_modulus ->
  File.pos file = len (File.data file) ->
  buildIndex m file = Some (info, file') ->
  len (File.data file') < u32_modulus ->
  btreeMaxElements info = chooseMaxElements (len (nonEmptyKeys m))
  /\ exists new,
      disk file' (File.data file) new
      /\ subtree (S (length (nonEmptyKeys m))) (btreeMaxElements info)
                 (len (File.data file)) new (rootOffset info)
                 (nonEmptyKeys m) (len (File.data file))
      /\ concat (leaf_entries new) = nonEmptyKeys m
      /\ Forall payload_small new.
Proof.
  intros Hasc Hraw Hpos Hb Hsmall.
  destruct (buildIndex_total m file Hasc Hraw)
    as (root & f' & last' & Hn & Hb').
  rewrite Hb in Hb'. injection Hb' as -> ->. cbn [btreeMaxElements rootOffset].
  split; [reflexivity|].
  set (es := nonEmptyKeys m) in *. set (F := chooseMaxElements (len es)) in *.
  assert (HF : 64 <= F <= 4096)
    by (unfold F; rewrite chooseMaxElements_clamp; lia).
  pose proof (len_nonneg es) as Hes.
  pose proof (buildBtreeNode_ok _ (File.data file) _ _ _ _ _ [] _ Hn
                (disk_empty file Hpos) eq_refl) as Hok.
  destruct Hok as (new & Hd & _ & _ & Hsub & Hle & Hsm).
  - lia.
  - lia.
  - unfold u32_modulus. lia.
  - rewrite firstn_len. pose proof (entries_weight_nonEmptyKeys m).
    unfold raw_size, BtreeMaxElements in *. fold es in H. lia.
  - exact Hsmall.
  - rewrite firstn_len in *. cbn [app items_size] in *.
    rewrite Z.add_0_r in Hsub. exists new. auto.
Qed.

Lemma skipEmptyWords_all_empty (m : IndexedWords) :
  Forall (fun e => hasKey e = false) m -> skipEmptyWords (len m) m = (0, []).
Proof.
  induction 1 as [|[k c] m He _ IH]; [reflexivity|].
  destruct k as [|b k]; [|discriminate He].
  cbn [skipEmptyWords]. rewrite len_cons. pose proof (len_nonneg m).
  replace (len m + 1 =? 0) with false by (symmetry; apply Z.eqb_neq; lia).
  now replace (len m + 1 - 1) with (len m) by lia.
Qed.

(** C8.  From a map without a non-empty key [buildIndex] writes a single
    leaf whose count word is 0 (fanout 64, the leaf is the root).  On that
    index [findChainOffsetExactOrPrefix] returns the null pointer for every
    target and raises nothing, on the first call, which reads the root, and
    on the calls after it; [findArticles] returns the empty list.  In the
    descent, a leaf with count 0 is "no match" at the root and
    [exCorruptedChainData] elsewhere (after the read of its forward link). *)
Theorem empty_index (m : IndexedWords) (file : File.Class) :
  Forall (fun e => hasKey e = false) m ->
  File.pos file = len (File.data file) ->
  len (File.data file) + item_size (LeafI []) < u32_modulus ->
  zlib_uncompress (zlib_compress (put_u32 0)) = Some (put_u32 0) ->
  exists file',
    buildIndex m file = Some (mkIndexInfo 64 (len (File.data file)), file')
    /\ disk file' (File.data file) [LeafI []]
    /\ payload_of (LeafI []) = put_u32 0
    /\ (forall fuel target, exists f1,
          findChainOffsetExactOrPrefix (S fuel) target
            (openIndex (mkIndexInfo 64 (len (File.data file))) file')
          = Ok (mkChainLookup None false (put_u32 0) 0 4,
                mkBtreeIndex (Some f1) 64 (len (File.data file)) true
                             (put_u32 0))
          /\ findChainOffsetExactOrPrefix (S fuel) target
               (mkBtreeIndex (Some f1) 64 (len (File.data file)) true
                             (put_u32 0))
             = Ok (mkChainLookup None false (put_u32 0) 0 4,
                   mkBtreeIndex (Some f1) 64 (len (File.data file)) true
                                (put_u32 0)))
    /\ (forall fuel w, exists idx',
          findArticles (S fuel) w
            (openIndex (mkIndexInfo 64 (len (File.data file))) file')
          = Ok ([], idx'))
    /\ (forall fuel target nodeSize root f leaf cur,
          get_u32 leaf 0 = Some 0 ->
          descend (S fuel) target nodeSize root f leaf cur
          = if cur =? root
            then Ok (mkChainLookup None false leaf 0 (len leaf), f)
            else ' (_, _) <- File.read_u32 f ;; Throw exCorruptedChainData).
Proof.
  intros Hm Hpos Hlen Hz.
  pose proof (disk_empty file Hpos) as Hd.
  destruct (saveNode_leaf file (File.data file) [] [] Hd Hlen)
    as (f' & Hs & Hd').
  cbn [app items_size] in *. rewrite Z.add_0_r in Hs.
  assert (Hdesc : forall fuel target nodeSize root f leaf cur,
             get_u32 leaf 0 = Some 0 ->
             descend (S fuel) target nodeSize root f leaf cur
             = if cur =? root
               then Ok (mkChainLookup None false leaf 0 (len leaf), f)
               else ' (_, _) <- File.read_u32 f ;; Throw exCorruptedChainData).
  { intros fuel target nodeSize root f leaf cur Hg.
    cbn [descend]. rewrite Hg. cbn [access bind].
    change (0 =? 4294967295) with false. change (0 =? 0) with true.
    destruct (cur =? root); [reflexivity|].
    destruct (File.read_u32 f) as [[nx f2]| | |]; reflexivity. }
  assert (Hfind : forall fuel target, exists f1,
             findChainOffsetExactOrPrefix (S fuel) target
               (openIndex (mkIndexInfo 64 (len (File.data file))) f')
             = Ok (mkChainLookup None false (put_u32 0) 0 4,
                   mkBtreeIndex (Some f1) 64 (len (File.data file)) true
                                (put_u32 0))
             /\ findChainOffsetExactOrPrefix (S fuel) target
                  (mkBtreeIndex (Some f1) 64 (len (File.data file)) true
                                (put_u32 0))
                = Ok (mkChainLookup None false (put_u32 0) 0 4,
                      mkBtreeIndex (Some f1) 64 (len (File.data file)) true
                                   (put_u32 0))).
  { intros fuel target.
    unfold findChainOffsetExactOrPrefix, openIndex.
    cbn [idxFile rootNodeLoaded idxRootOffset indexNodeSize rootOffset
         btreeMaxElements rootNode].
    destruct Hd' as [Hd' _].
    pose proof (readNode_at f' (File.data file) [] [] (LeafI []) Hd') as Hr.
    cbn [items_size payload_of] in Hr. rewrite Z.add_0_r in Hr.
    rewrite Hr.
    - cbn [bind]. change (leaf_body []) with (put_u32 0).
      eexists. rewrite !(Hdesc fuel target) by reflexivity.
      rewrite Z.eqb_refl. cbn [bind]. split; reflexivity.
    - rewrite Hd', len_app, image_len. cbn [items_size]. lia.
    - unfold payload_small. cbn. unfold u32_modulus. lia.
    - exact Hz. }
  exists f'. split; [|split; [exact Hd'|split; [reflexivity|split; [exact Hfind|split; [|exact Hdesc]]]]].
  - unfold buildIndex. rewrite skipEmptyWords_all_empty by exact Hm.
    cbn [buildBtreeNode length]. change (chooseMaxElements 0) with 64.
    change (0 <=? 64) with true.
    change (take_entries (to_u32 0) [])
      with (Some (@nil (bytes * chain), @nil (bytes * chain))).
    cbv iota beta. change (leaf_payload 0 []) with (Some (leaf_body [])).
    change (last_link_offset (len (File.data file)) []) with 0 in Hs.
    cbv iota beta. now rewrite Hs.
  - intros fuel w. destruct (Hfind fuel (Folding_apply w)) as (f1 & H1 & _).
    unfold findArticles. rewrite H1. cbn [bind chainOffset]. eauto.
Qed.

(** ** Chains in a leaf *)

Lemma strlen_list_at (s rest : bytes) :
  nul_free s = true -> strlen_list (s ++ 0 :: rest) = Some (len s).
Proof.
  induction s as [|c s IH]; intros H; [reflexivity|].
  cbn [nul_free forallb] in H. apply andb_true_iff in H. destruct H as [Hc Hs].
  cbn [app strlen_list]. apply negb_true_iff in Hc. rewrite Hc.
  rewrite (IH Hs), len_cons. reflexivity.
Qed.

Lemma strlen_at (buf a s rest : bytes) (p : Z) :
  buf = a ++ s ++ 0 :: rest -> p = len a -> nul_free s = true ->
  strlen buf p = Some (len s).
Proof.
  intros -> -> Hs. unfold strlen. pose proof (len_nonneg a).
  rewrite len_app. pose proof (len_nonneg (s ++ 0 :: rest)).
  replace ((0 <=? len a) && (len a <=? len a + len (s ++ 0 :: rest)))
    with true
    by (symmetry; apply andb_true_iff; split; apply Z.leb_le; lia).
  unfold len at 1. rewrite Nat2Z.id, skipn_app, skipn_all, Nat.sub_diag.
  cbn [skipn app]. now apply strlen_list_at.
Qed.

Lemma link_ok_inv (l : WordArticleLink) :
  link_ok l = true ->
  nul_free (word l) = true /\ nul_free (prefix l) = true
  /\ 0 <= articleOffset l < u32_modulus.
Proof.
  unfold link_ok. intros H.
  apply andb_true_iff in H. destruct H as [H H4].
  apply andb_true_iff in H. destruct H as [H H3].
  apply andb_true_iff in H. destruct H as [H1 H2].
  apply Z.leb_le in H3. apply Z.ltb_lt in H4. auto.
Qed.

(** A record written by the builder is a record for the reader. *)
Lemma record_at_link (buf a c : bytes) (p : Z) (l : WordArticleLink) :
  buf = a ++ link_bytes l ++ c -> p = len a -> link_ok l = true ->
  record_at buf p l.
Proof.
  intros Hb Hp Hl. apply link_ok_inv in Hl. destruct Hl as (H1 & H2 & H3).
  unfold link_bytes in Hb. rewrite <- !app_assoc in Hb. cbn [app] in Hb.
  unfold record_at. split; [|split; [|split; [|split]]].
  - eapply strlen_at; [exact Hb|exact Hp|exact H1].
  - eapply slice_at; [exact Hb|exact Hp|reflexivity].
  - apply (strlen_at buf (a ++ word l ++ [0]) (prefix l)
             (put_u32 (articleOffset l) ++ c)); [|len_simpl; lia|exact H2].
    rewrite Hb. rewrite <- !app_assoc. reflexivity.
  - apply (slice_at buf (a ++ word l ++ [0]) (prefix l)
             (0 :: put_u32 (articleOffset l) ++ c)); [|len_simpl; lia|reflexivity].
    rewrite Hb. rewrite <- !app_assoc. reflexivity.
  - apply (get_u32_at buf (a ++ word l ++ [0] ++ prefix l ++ [0]) c);
      [|len_simpl; lia|exact H3].
    rewrite Hb. rewrite <- !app_assoc. reflexivity.
Qed.

Lemma records_from_links (ls : chain) :
  forall (buf a c : bytes) (p : Z),
    buf = a ++ concat (map link_bytes ls) ++ c -> p = len a ->
    forallb link_ok ls = true ->
    records_from buf p ls (p + len (concat (map link_bytes ls))).
Proof.
  induction ls as [|l ls IH]; intros buf a c p Hb Hp Hok.
  - cbn [map concat]. rewrite len_nil, Z.add_0_r. constructor.
  - cbn [forallb] in Hok. apply andb_true_iff in Hok. destruct Hok as [Hl Hls].
    cbn [map concat] in *. rewrite <- app_assoc in Hb.
    constructor; [eapply record_at_link; eauto|].
    rewrite len_app, link_bytes_len, Z.add_assoc.
    apply (IH buf (a ++ link_bytes l) c).
    + now rewrite <- app_assoc.
    + rewrite len_app, link_bytes_len. lia.
    + exact Hls.
Qed.

(** [readChain] gives back a chain the builder wrote. *)
Lemma readChain_at (buf a c : bytes) (p : Z) (ch : chain) :
  buf = a ++ chain_bytes ch ++ c -> p = len a ->
  forallb link_ok ch = true ->
  len (chain_bytes ch) < u32_modulus ->
  readChain buf p = Ok (ch, p + len (chain_bytes ch)).
Proof.
  intros Hb Hp Hok Hlen. rewrite chain_bytes_len in Hlen.
  pose proof (len_nonneg (concat (map link_bytes ch))) as H0.
  unfold chain_bytes in Hb. rewrite <- app_assoc in Hb.
  rewrite chain_size_exact in Hb by lia.
  unfold readChain.
  rewrite (get_u32_at buf a _ p _ Hb Hp) by lia. cbn [access bind].
  pose proof (records_from_links ch buf (a ++ put_u32 (len (concat (map link_bytes ch))))
                c (p + 4)) as Hr.
  rewrite <- app_assoc in Hr. specialize (Hr Hb).
  rewrite len_app, len_put_u32 in Hr.
  specialize (Hr ltac:(lia) Hok).
  pose proof (readChain_loop_complete _ _ _ _ Hr (S (length buf)) []) as Hc.
  replace (p + 4 + len (concat (map link_bytes ch)) - (p + 4))
    with (len (concat (map link_bytes ch))) in Hc by lia.
  rewrite Hc.
  - rewrite chain_bytes_len. cbn [app]. f_equal. f_equal. lia.
  - pose proof (records_from_count _ _ _ _ Hr). lia.
Qed.

Lemma chains_ok_cons (e : bytes * chain) (es : IndexedWords) :
  chains_ok (e :: es) = true ->
  forallb link_ok (snd e) = true /\ chains_ok es = true.
Proof. unfold chains_ok. cbn [forallb]. apply andb_true_iff. Qed.

Lemma chainPointers_at (es : IndexedWords) :
  forall (buf a c : bytes) (p : Z) (turns : nat),
    buf = a ++ concat (map (fun e => chain_bytes (snd e)) es) ++ c ->
    p = len a -> (length es <= turns)%nat ->
    len (concat (map (fun e => chain_bytes (snd e)) es)) < u32_modulus ->
    chainPointers turns buf p (len es) = Ok (chain_ptrs p es).
Proof.
  induction es as [|e es IH]; intros buf a c p turns Hb Hp Ht Hlen.
  - destruct turns; reflexivity.
  - destruct turns as [|turns]; [simpl in Ht; lia|].
    rewrite chains_len_cons in Hlen. rewrite len_cons.
    pose proof (len_nonneg es) as Hes.
    pose proof (len_nonneg (concat (map (fun e => chain_bytes (snd e)) es))).
    pose proof (chain_bytes_len (snd e)) as Hce.
    pose proof (len_nonneg (concat (map link_bytes (snd e)))).
    cbn [chainPointers chain_ptrs].
    replace (len es + 1 =? 0) with false by (symmetry; apply Z.eqb_neq; lia).
    cbn [map concat] in Hb. unfold chain_bytes at 1 in Hb.
    rewrite <- !app_assoc in Hb.
    rewrite chain_size_exact in Hb by lia.
    rewrite (get_u32_at buf a _ p _ Hb Hp) by lia. cbn [access bind].
    replace (len es + 1 - 1) with (len es) by lia.
    replace (p + 4 + len (concat (map link_bytes (snd e))))
      with (p + len (chain_bytes (snd e))) by lia.
    rewrite (IH buf (a ++ chain_bytes (snd e)) c).
    + reflexivity.
    + rewrite Hb. unfold chain_bytes. rewrite chain_size_exact by lia.
      now rewrite <- !app_assoc.
    + rewrite len_app. lia.
    + simpl in Ht. lia.
    + lia.
Qed.

Lemma readChains_at (es : IndexedWords) :
  forall (buf a c : bytes) (p : Z),
    buf = a ++ concat (map (fun e => chain_bytes (snd e)) es) ++ c ->
    p = len a -> chains_ok es = true ->
    len (concat (map (fun e => chain_bytes (snd e)) es)) < u32_modulus ->
    readChains buf (chain_ptrs p es) = Ok (map snd es).
Proof.
  induction es as [|e es IH]; intros buf a c p Hb Hp Hok Hlen; [reflexivity|].
  apply chains_ok_cons in Hok. destruct Hok as [He Hes].
  rewrite chains_len_cons in Hlen.
  pose proof (len_nonneg (concat (map (fun e => chain_bytes (snd e)) es))).
  pose proof (len_nonneg (chain_bytes (snd e))).
  cbn [map concat] in Hb. rewrite <- app_assoc in Hb.
  cbn [chain_ptrs readChains map].
  rewrite (readChain_at buf a _ p (snd e) Hb Hp He) by lia. cbn [bind].
  rewrite (IH buf (a ++ chain_bytes (snd e)) c).
  - reflexivity.
  - now rewrite <- app_assoc.
  - rewrite len_app. lia.
  - exact Hes.
  - lia.
Qed.

Lemma chains_len_min (es : IndexedWords) :
  4 * len es <= len (concat (map (fun e => chain_bytes (snd e)) es)).
Proof.
  induction es as [|e es IH]; [reflexivity|].
  rewrite chains_len_cons, len_cons, chain_bytes_len.
  pose proof (len_nonneg (concat (map link_bytes (snd e)))). lia.
Qed.

Lemma leaf_count (es : IndexedWords) (c : bytes) :
  len (leaf_body es) < u32_modulus ->
  get_u32 (leaf_body es ++ c) 0 = Some (len es).
Proof.
  intros H. rewrite leaf_body_len in H. pose proof (chains_len_min es).
  pose proof (len_nonneg es).
  apply (get_u32_at _ [] (concat (map (fun e => chain_bytes (snd e)) es) ++ c));
    [|reflexivity|lia].
  unfold leaf_body. now rewrite <- app_assoc.
Qed.

(** The chains of a leaf the builder wrote are the chains of its entries. *)
Lemma leafChains_body (es : IndexedWords) :
  len (leaf_body es) < u32_modulus -> chains_ok es = true ->
  leafChains (leaf_body es) = Ok (map snd es).
Proof.
  intros Hlen Hok. unfold leafChains.
  pose proof (leaf_count es [] Hlen) as Hc. rewrite app_nil_r in Hc.
  rewrite Hc. cbn [access bind]. rewrite leaf_body_len in Hlen.
  pose proof (chains_len_min es). pose proof (len_nonneg es).
  assert (Hb : leaf_body es
               = put_u32 (len es)
                   ++ concat (map (fun e => chain_bytes (snd e)) es) ++ [])
    by (unfold leaf_body; now rewrite app_nil_r).
  rewrite (chainPointers_at es _ _ _ 4 _ Hb) by
      (try reflexivity; try lia;
       unfold leaf_body, len in *; rewrite length_app; simpl; lia).
  cbn [bind]. apply (readChains_at es _ _ _ 4 Hb); [reflexivity|exact Hok|lia].
Qed.

(** ** The chain of leaves *)

Lemma next_leaf_split (its : list item) :
  forall cur,
    (leaf_entries its = [] /\ next_leaf cur its = 0)
    \/ exists nodes es post,
        its = nodes ++ LeafI es :: post /\ leaf_entries nodes = []
        /\ next_leaf cur its = cur + items_size nodes.
Proof.
  induction its as [|it r IH]; intros cur; [left; split; reflexivity|].
  destruct it as [es|offs piv].
  - right. exists [], es, r. cbn [app items_size next_leaf leaf_entries].
    repeat split. lia.
  - cbn [next_leaf leaf_entries].
    destruct (IH (cur + item_size (NodeI offs piv)))
      as [[H1 H2]|(nodes & es & post & -> & Hn & Hx)]; [left; auto|].
    right. exists (NodeI offs piv :: nodes), es, post.
    cbn [app items_size leaf_entries]. repeat split; [exact Hn|]. lia.
Qed.

Lemma followLinks_step (fuel : nat) (f : File.Class) (d0 : bytes)
    (pre post : list item) (es0 : IndexedWords) :
  zlib_uncompress (zlib_compress (leaf_body es0)) = Some (leaf_body es0) ->
  File.data f = d0 ++ image (len d0) (pre ++ LeafI es0 :: post) ->
  len (File.data f) < u32_modulus ->
  len (leaf_body es0) < u32_modulus -> chains_ok es0 = true ->
  followLinks (S fuel) f (len d0 + items_size pre)
  = if next_leaf (len d0 + items_size pre + item_size (LeafI es0)) post =? 0
    then Ok (map snd es0)
    else rest <- followLinks fuel
                   (File.mk (File.data f)
                      (len d0 + items_size pre + item_size (LeafI es0)))
                   (next_leaf (len d0 + items_size pre + item_size (LeafI es0))
                              post) ;;
         Ok (map snd es0 ++ rest).
Proof.
  intros Hz Himg HD Hs0 Hok0. cbn [followLinks].
  rewrite (readNode_at f d0 pre post (LeafI es0) Himg HD Hs0 Hz).
  cbn [bind payload_of].
  rewrite (read_link_at f d0 pre post es0 Himg HD). cbn [bind].
  rewrite (leafChains_body es0 Hs0 Hok0). reflexivity.
Qed.

Lemma chains_ok_app (a b : IndexedWords) :
  chains_ok (a ++ b) = true -> chains_ok a = true /\ chains_ok b = true.
Proof. unfold chains_ok. rewrite forallb_app. apply andb_true_iff. Qed.

(** Following the forward links from a leaf visits the leaves after it in
    file order, and ends at the last. *)
Lemma followLinks_at (d0 D : bytes) :
  (forall p, zlib_uncompress (zlib_compress p) = Some p) ->
  len D < u32_modulus ->
  forall (n : nat) (post pre : list item) (es0 : IndexedWords),
    (length post <= n)%nat ->
    D = d0 ++ image (len d0) (pre ++ LeafI es0 :: post) ->
    Forall payload_small (LeafI es0 :: post) ->
    chains_ok (concat (leaf_entries (LeafI es0 :: post))) = true ->
    forall (fuel : nat) (f : File.Class),
      File.data f = D -> (n < fuel)%nat ->
      followLinks fuel f (len d0 + items_size pre)
      = Ok (map snd (concat (leaf_entries (LeafI es0 :: post)))).
Proof.
  intros Hz HD. induction n as [|n IH];
    intros post pre es0 Hn Himg Hsm Hok fuel f Hf Hfuel.
  - destruct fuel as [|fuel]; [lia|].
    destruct post; [|simpl in Hn; lia].
    inversion Hsm as [|? ? Hs0 _]. cbn [leaf_entries concat] in *.
    rewrite app_nil_r in *.
    rewrite (followLinks_step fuel f d0 pre [] es0 (Hz _)); try assumption;
      [reflexivity|congruence|congruence].
  - destruct fuel as [|fuel]; [lia|].
    inversion Hsm as [|? ? Hs0 Hsp]. cbn [leaf_entries concat] in *.
    apply chains_ok_app in Hok. destruct Hok as [Hok0 Hokp].
    rewrite (followLinks_step fuel f d0 pre post es0 (Hz _)); try assumption;
      [|congruence|congruence].
    pose proof (len_nonneg d0). pose proof (items_size_nonneg pre).
    pose proof (item_size_min (LeafI es0)).
    destruct (next_leaf_split post
                (len d0 + items_size pre + item_size (LeafI es0)))
      as [[Hle Hnx]|(nodes & es1 & post' & Hpost & Hnodes & Hnx)];
      rewrite Hnx.
    + rewrite Hle. cbn [concat]. now rewrite app_nil_r.
    + pose proof (items_size_nonneg nodes).
      replace (len d0 + items_size pre + item_size (LeafI es0)
               + items_size nodes =? 0) with false
        by (symmetry; apply Z.eqb_neq; lia).
      replace (len d0 + items_size pre + item_size (LeafI es0)
               + items_size nodes)
        with (len d0 + items_size (pre ++ LeafI es0 :: nodes))
        by (rewrite items_size_app; cbn [items_size]; lia).
      rewrite Hpost, leaf_entries_app, Hnodes in *. cbn [app] in *.
      rewrite (IH post' (pre ++ LeafI es0 :: nodes) es1).
      * cbn [bind leaf_entries concat]. rewrite !map_app. reflexivity.
      * rewrite length_app in Hn. cbn [length] in Hn. lia.
      * rewrite Himg. f_equal. f_equal. rewrite <- app_assoc. reflexivity.
      * apply Forall_app in Hsp. exact (proj2 Hsp).
      * exact Hokp.
      * exact Hf.
      * lia.
Qed.

(** ** Internal nodes as the reader sees them *)

Lemma offsets_bytes_len (offsets : list Z) :
  len (concat (map put_u32 offsets)) = 4 * len offsets.
Proof.
  induction offsets as [|o r IH]; [reflexivity|].
  cbn [map concat]. rewrite len_app, len_put_u32, len_cons, IH. lia.
Qed.

Lemma nth_split_Z {A : Type} (i : Z) (l : list A) (d : A) :
  0 <= i < len l ->
  l = firstn (Z.to_nat i) l ++ nth (Z.to_nat i) l d :: skipn (S (Z.to_nat i)) l
  /\ len (firstn (Z.to_nat i) l) = i.
Proof.
  intros Hi. split; [|apply len_firstn; lia].
  assert (Hn : (Z.to_nat i < length l)%nat) by (unfold len in Hi; lia).
  revert Hn. generalize (Z.to_nat i). clear Hi. intros n. revert l.
  induction n as [|n IH]; intros [|a l] Hn; simpl in Hn; try lia.
  - reflexivity.
  - cbn [firstn nth app]. change (skipn (S (S n)) (a :: l)) with (skipn (S n) l).
    f_equal. apply IH. lia.
Qed.

(** [offsets[ i ]] of an internal node. *)
Lemma node_offset_at (offsets : list Z) (pivots : list bytes) (i : Z) :
  0 <= i < len offsets ->
  0 <= nth (Z.to_nat i) offsets 0 < u32_modulus ->
  get_u32 (node_payload offsets pivots) (4 + 4 * i)
  = Some (nth (Z.to_nat i) offsets 0).
Proof.
  intros Hi Hr. destruct (nth_split_Z i offsets 0 Hi) as [Hs Hl].
  apply (get_u32_at _ (put_u32 4294967295
                       ++ concat (map put_u32 (firstn (Z.to_nat i) offsets)))
           (concat (map put_u32 (skipn (S (Z.to_nat i)) offsets))
            ++ concat (map (fun k => k ++ [0]) pivots))).
  - unfold node_payload. rewrite Hs at 1.
    rewrite map_app, concat_app. cbn [map concat].
    now rewrite <- !app_assoc.
  - rewrite len_app, len_put_u32, offsets_bytes_len, Hl. lia.
  - exact Hr.
Qed.

Lemma node_marker (offsets : list Z) (pivots : list bytes) :
  get_u32 (node_payload offsets pivots) 0 = Some 4294967295.
Proof.
  apply (get_u32_at _ [] (concat (map put_u32 offsets)
                          ++ concat (map (fun k => k ++ [0]) pivots)));
    [reflexivity|reflexivity|unfold u32_modulus; lia].
Qed.

Lemma item_at_bounds (b : Z) (its : list item) (off : Z) (it : item) :
  item_at b its off it ->
  b <= off /\ off + item_size it <= b + items_size its.
Proof.
  intros (pre & post & -> & ->). rewrite items_size_app. cbn [items_size].
  pose proof (items_size_nonneg pre). pose proof (items_size_nonneg post). lia.
Qed.

Lemma subtree_item (h : nat) (F b : Z) (its : list item) (off : Z)
    (es : IndexedWords) (first : Z) :
  subtree h F b its off es first -> exists it, item_at b its off it.
Proof.
  destruct h as [|h]; [intros []|]. cbn [subtree].
  destruct (len es <=? F).
  - intros [H _]. eauto.
  - intros (offs & piv & H & _). eauto.
Qed.

Lemma leaf_not_marker (es : IndexedWords) :
  len (leaf_body es) < u32_modulus -> len es <> 4294967295.
Proof.
  rewrite leaf_body_len. pose proof (chains_len_min es).
  unfold u32_modulus. lia.
Qed.

(** Down the first offsets from the root of a tree: its leftmost leaf. *)
Lemma leftmostLeaf_at (d0 : bytes) (its : list item) (f : File.Class) (F : Z) :
  (forall p, zlib_uncompress (zlib_compress p) = Some p) ->
  File.data f = d0 ++ image (len d0) its ->
  len (File.data f) < u32_modulus ->
  Forall payload_small its ->
  forall (h : nat) (off : Z) (es : IndexedWords) (first : Z),
    subtree h F (len d0) its off es first ->
    leftmostLeaf h f off = Ok first
    /\ exists es0, item_at (len d0) its first (LeafI es0).
Proof.
  intros Hz Hd Hlen Hsm. pose proof (len_nonneg d0) as Hd0.
  assert (Hread : forall off it,
             item_at (len d0) its off it ->
             readNode off f
             = Ok (payload_of it,
                   File.mk (File.data f)
                           (off + len (node_image (payload_of it))))
             /\ payload_small it).
  { intros off it (pre & post & Hi & ->).
    assert (Hs : payload_small it).
    { rewrite Hi in Hsm. apply Forall_app in Hsm. destruct Hsm as [_ Hsm].
      now inversion Hsm. }
    split; [|exact Hs]. rewrite Hi in Hd.
    apply (readNode_at f d0 pre post it Hd Hlen Hs (Hz _)). }
  induction h as [|h IH]; intros off es first Hsub; [destruct Hsub|].
  cbn [subtree] in Hsub. cbn [leftmostLeaf].
  destruct (len es <=? F).
  - destruct Hsub as [Hat ->]. destruct (Hread _ _ Hat) as [Hr Hs].
    rewrite Hr. cbn [bind payload_of].
    pose proof (leaf_count es [] Hs) as Hc. rewrite app_nil_r in Hc.
    rewrite Hc. cbn [access bind].
    replace (len es =? 4294967295) with false
      by (symmetry; apply Z.eqb_neq; now apply leaf_not_marker).
    split; [reflexivity|eauto].
  - destruct Hsub as (offs & piv & Hat & Ho & Hp & _ & Hch).
    destruct (Hread _ _ Hat) as [Hr Hs].
    rewrite Hr. cbn [bind payload_of]. rewrite node_marker. cbn [access bind].
    change (4294967295 =? 4294967295) with true.
    pose proof (len_nonneg piv) as HF.
    destruct (Hch 0 ltac:(lia)) as (fx & Hsub0 & Hfx).
    specialize (Hfx eq_refl). subst fx.
    destruct (subtree_item _ _ _ _ _ _ _ Hsub0) as (it0 & Hat0).
    pose proof (item_at_bounds _ _ _ _ Hat0) as Hb0.
    pose proof (item_size_min it0).
    rewrite Hd, len_app, image_len in Hlen.
    pose proof (node_offset_at offs piv 0 ltac:(lia)) as Hg.
    change (Z.to_nat 0) with 0%nat in *. change (4 + 4 * 0) with 4 in Hg.
    rewrite Hg by lia. cbn [access bind].
    exact (IH _ _ _ Hsub0).
Qed.

Lemma items_size_zero (its : list item) : items_size its = 0 -> its = [].
Proof.
  destruct its as [|it r]; [reflexivity|]. cbn [items_size].
  pose proof (item_size_min it). pose proof (items_size_nonneg r). lia.
Qed.

Lemma chains_ok_nonEmptyKeys (m : IndexedWords) :
  chains_ok m = true -> chains_ok (nonEmptyKeys m) = true.
Proof.
  unfold chains_ok, nonEmptyKeys. induction m as [|e m IH]; [reflexivity|].
  cbn [forallb filter]. intros H. apply andb_true_iff in H.
  destruct H as [He Hm]. destruct (hasKey e); cbn [forallb]; auto.
  now rewrite He, IH.
Qed.

Lemma keys_ascending_nonEmptyKeys (m : IndexedWords) :
  keys_ascending m -> keys_ascending (nonEmptyKeys m).
Proof.
  intros H. destruct m as [|[k c] m]; [exact I|].
  pose proof (keys_ascending_hasKey _ _ H) as Hm.
  destruct k as [|b k].
  - unfold nonEmptyKeys. cbn [filter hasKey fst]. fold (nonEmptyKeys m).
    rewrite nonEmptyKeys_all by exact Hm. exact (keys_ascending_tail _ _ H).
  - rewrite nonEmptyKeys_all by (constructor; [reflexivity|exact Hm]).
    exact H.
Qed.

(** C5, amended.  In an index written by [buildIndex] from a map (keys
    ascending, records storable), descending the first offsets from the root
    reaches a leftmost leaf, and following the forward links from it, until
    a link is 0, reads the chains of the entries under the non-empty keys:
    every one once, in the ascending order of the keys.  The walk ends: the
    forward link of the last leaf is 0.  The entry under the empty key, when
    the map has one, is not written and so not met. *)
Theorem leaf_linkage (m : IndexedWords) (file : File.Class) (info : IndexInfo)
    (file' : File.Class) :
  (forall p, zlib_uncompress (zlib_compress p) = Some p) ->
  keys_ascending m -> chains_ok m = true ->
  raw_size BtreeMaxElements m < u32_modulus ->
  File.pos file = len (File.data file) ->
  buildIndex m file = Some (info, file') ->
  len (File.data file') < u32_modulus ->
  keys_ascending (nonEmptyKeys m)
  /\ exists first k,
      leftmostLeaf (S (length (nonEmptyKeys m))) file' (rootOffset info)
      = Ok first
      /\ forall fuel, (k <= fuel)%nat ->
           followLinks fuel file' first = Ok (map snd (nonEmptyKeys m)).
Proof.
  intros Hz Hasc Hok Hraw Hpos Hb Hsmall.
  split; [now apply keys_ascending_nonEmptyKeys|].
  destruct (buildIndex_ok m file info file' Hasc Hraw Hpos Hb Hsmall)
    as (_ & new & [Hd _] & Hsub & Hle & Hsm).
  destruct (leftmostLeaf_at _ _ file' _ Hz Hd Hsmall Hsm _ _ _ _ Hsub)
    as (Hleft & es0 & pre & post & Hnew & Hoff).
  assert (Hpre : pre = []) by (apply items_size_zero; lia).
  subst pre. cbn [app] in Hnew.
  exists (len (File.data file)), (S (length post)).
  split; [exact Hleft|]. intros fuel Hfuel.
  pose proof (followLinks_at (File.data file) (File.data file') Hz Hsmall
                (length post) post [] es0 (le_n _)) as Hw.
  cbn [app items_size] in Hw. rewrite Z.add_0_r in Hw.
  rewrite <- Hnew, Hle in Hw. apply Hw.
  - exact Hd.
  - exact Hsm.
  - now apply chains_ok_nonEmptyKeys.
  - reflexivity.
  - lia.
Qed.

(** ** Searching a leaf *)

Lemma cstr_nul_free (s : list Z) : nul_free s = true -> cstr s = s.
Proof.
  induction s as [|c s IH]; [reflexivity|]. cbn [nul_free forallb cstr].
  intros H. apply andb_true_iff in H. destruct H as [Hc Hs].
  apply negb_true_iff in Hc. rewrite Hc. f_equal. exact (IH Hs).
Qed.

Lemma decodeAt_at (buf a s rest : bytes) (p : Z) (w : wstring) :
  buf = a ++ s ++ 0 :: rest -> p = len a -> nul_free s = true ->
  Utf8_decode s = Some w ->
  decodeAt buf p = Ok (len s, cstr w).
Proof.
  intros Hb Hp Hs Hw. unfold decodeAt.
  rewrite (strlen_at buf a s rest p Hb Hp Hs). cbn [access bind].
  rewrite (slice_at buf a s (0 :: rest) p (len s) Hb Hp eq_refl).
  cbn [access bind]. now rewrite Hw.
Qed.

(** Where chain [c] lies in the chains area that starts at [p]. *)
Lemma chain_in_leaf (es : IndexedWords) :
  forall (p : Z) (c : nat) (e : bytes * chain),
    nth_error es c = Some e ->
    exists A C,
      concat (map (fun e => chain_bytes (snd e)) es)
      = A ++ chain_bytes (snd e) ++ C
      /\ nth_error (chain_ptrs p es) c = Some (p + len A).
Proof.
  induction es as [|e0 es IH]; intros p c e Hc; [destruct c; discriminate|].
  destruct c as [|c].
  - injection Hc as ->. exists [], (concat (map (fun e => chain_bytes (snd e)) es)).
    split; [reflexivity|]. cbn [chain_ptrs nth_error]. rewrite len_nil.
    now rewrite Z.add_0_r.
  - destruct (IH (p + len (chain_bytes (snd e0))) c e Hc) as (A & C & HA & Hp).
    exists (chain_bytes (snd e0) ++ A), C. split.
    + cbn [map concat]. rewrite HA. now rewrite <- app_assoc.
    + cbn [chain_ptrs nth_error]. rewrite Hp, len_app. f_equal. lia.
Qed.

Lemma chain_ptrs_length (es : IndexedWords) :
  forall p, length (chain_ptrs p es) = length es.
Proof. induction es as [|e es IH]; intros p; simpl; auto. Qed.

Lemma entry_ok_inv (e : bytes * chain) :
  entry_ok e = true ->
  exists fk l c' w0,
    Utf8_decode (fst e) = Some fk /\ snd e = l :: c'
    /\ Utf8_encode fk = fst e /\ nul_free (fst e) = true
    /\ nul_free fk = true /\ Utf8_decode (word l) = Some w0
    /\ Folding_apply (cstr w0) = fk /\ dkey e = fk.
Proof.
  unfold entry_ok, dkey.
  destruct (Utf8_decode (fst e)) as [fk|]; [|discriminate].
  destruct (snd e) as [|l c']; [discriminate|].
  destruct (Utf8_decode (word l)) as [w0|] eqn:Ew;
    [|rewrite andb_false_r; discriminate].
  intros H. apply andb_true_iff in H. destruct H as [H H4].
  apply andb_true_iff in H. destruct H as [H H3].
  apply andb_true_iff in H. destruct H as [H1 H2].
  apply str_eqb_true in H1, H4.
  exists fk, l, c', w0. repeat split; auto using cstr_nul_free.
Qed.

(** What the binary search of a leaf sees at chain [c]: its pointer, its
    size word, and a first word that folds to the key. *)
Lemma probe_chain (es : IndexedWords) (c : nat) (e : bytes * chain) :
  searchable es -> len (leaf_body es) < u32_modulus ->
  nth_error es c = Some e ->
  exists pc v n w,
    nth_error (chain_ptrs 4 es) c = Some pc
    /\ get_u32 (leaf_body es) pc = Some v
    /\ decodeAt (leaf_body es) (pc + 4) = Ok (n, w)
    /\ Folding_apply w = dkey e
    /\ readChain (leaf_body es) pc = Ok (snd e, pc + len (chain_bytes (snd e))).
Proof.
  intros [Hok _] Hlen Hc. destruct (Hok c e Hc) as [He Hl].
  destruct (entry_ok_inv e He)
    as (fk & l & c' & w0 & _ & Hs & _ & _ & _ & Hw0 & Hf & Hk).
  destruct (chain_in_leaf es 4 c e Hc) as (A & C & HA & Hp).
  rewrite leaf_body_len, HA, !len_app in Hlen.
  pose proof (len_nonneg A). pose proof (len_nonneg C).
  pose proof (chain_bytes_len (snd e)) as Hcl.
  pose proof (len_nonneg (concat (map link_bytes (snd e)))).
  assert (Hleaf : leaf_body es
                  = (put_u32 (len es) ++ A) ++ chain_bytes (snd e) ++ C)
    by (unfold leaf_body; rewrite HA; now rewrite <- app_assoc).
  assert (HpA : 4 + len A = len (put_u32 (len es) ++ A))
    by (now rewrite len_app, len_put_u32).
  exists (4 + len A), (len (concat (map link_bytes (snd e)))),
    (len (word l)), (cstr w0).
  split; [exact Hp|]. split; [|split; [|split]].
  - apply (get_u32_at _ (put_u32 (len es) ++ A)
             (concat (map link_bytes (snd e)) ++ C)); [|exact HpA|lia].
    rewrite Hleaf. unfold chain_bytes. rewrite chain_size_exact by lia.
    now rewrite <- !app_assoc.
  - rewrite Hs in Hl. cbn [forallb] in Hl. apply andb_true_iff in Hl.
    destruct Hl as [Hl _]. apply link_ok_inv in Hl. destruct Hl as (Hn & _).
    apply (decodeAt_at _ ((put_u32 (len es) ++ A) ++ put_u32 (chain_size (snd e)))
             (word l)
             (prefix l ++ [0] ++ put_u32 (articleOffset l)
              ++ concat (map link_bytes c') ++ C));
      [|rewrite len_app, len_put_u32; lia|exact Hn|exact Hw0].
    rewrite Hleaf. unfold chain_bytes. rewrite Hs. cbn [map concat].
    unfold link_bytes. rewrite <- !app_assoc. reflexivity.
  - now rewrite Hf, Hk.
  - apply (readChain_at _ (put_u32 (len es) ++ A) C); [exact Hleaf|exact HpA|exact Hl|lia].
Qed.

(** The binary search of a leaf ends on the chain of the key it is asked
    for, when the key is in the leaf. *)
Lemma searchChains_finds (es : IndexedWords) (t : wstring) (i : nat)
    (ei : bytes * chain) :
  searchable es -> len (leaf_body es) < u32_modulus ->
  nth_error es i = Some ei -> dkey ei = t ->
  forall (turns : nat) (w0 s : Z),
    0 <= w0 -> w0 <= Z.of_nat i < w0 + s -> w0 + s <= len es ->
    s <= Z.of_nat turns ->
    exists pi,
      nth_error (chain_ptrs 4 es) i = Some pi
      /\ searchChains turns t (leaf_body es) (chain_ptrs 4 es) w0 s
         = Ok (ExactAt pi).
Proof.
  intros Hs Hlen Hi Ht.
  assert (Hn32 : len es < u32_modulus).
  { rewrite leaf_body_len in Hlen. pose proof (chains_len_min es).
    unfold u32_modulus in *. lia. }
  induction turns as [|turns IH]; intros w0 s Hw0 Hin Hend Hturns; [lia|].
  cbn [searchChains].
  set (c := w0 + s / 2).
  assert (Hc : w0 <= c < w0 + s).
  { assert (0 <= s / 2 < s) by (split; [apply Z.div_pos|apply Z.div_lt]; lia).
    unfold c. lia. }
  destruct (nth_error es (Z.to_nat c)) as [e|] eqn:Ec.
  2:{ apply nth_error_None in Ec. unfold len in Hend. lia. }
  destruct (probe_chain es _ e Hs Hlen Ec)
    as (pc & v & n & w & Hp & Hv & Hd & Hf & _).
  unfold nth_chain.
  replace (0 <=? c) with true by (symmetry; apply Z.leb_le; lia).
  rewrite Hp. cbn [access bind]. rewrite Hv. cbn [access bind].
  rewrite Hd. cbn [bind]. rewrite Hf.
  destruct (lt_eq_lt_dec i (Z.to_nat c)) as [[Hlt|Heq]|Hgt].
  - (* the key is before the chain checked *)
    assert (Hcmp : str_compare t (dkey e) = Lt)
      by (rewrite <- Ht; exact (proj2 Hs i (Z.to_nat c) ei e Hlt Hi Ec)).
    rewrite Hcmp.
    assert (Hh : 0 < s / 2) by (unfold c in *; lia).
    replace (s / 2 =? 0) with false by (symmetry; apply Z.eqb_neq; lia).
    apply IH; unfold c in *; lia.
  - (* the chain checked is the chain of the key *)
    subst i. rewrite Ec in Hi. injection Hi as ->.
    rewrite Ht, str_compare_refl. exists pc. auto.
  - (* the key is after the chain checked *)
    assert (Hcmp : str_compare t (dkey e) = Gt)
      by (rewrite <- Ht; apply str_compare_gt_lt;
          exact (proj2 Hs (Z.to_nat c) i e ei Hgt Ec Hi)).
    rewrite Hcmp.
    assert (Hh : 0 < s - (s / 2 + 1)) by (unfold c in *; lia).
    rewrite to_u32_small by lia.
    replace (s - (s / 2 + 1) =? 0) with false
      by (symmetry; apply Z.eqb_neq; lia).
    apply IH; unfold c in *; try lia.
Qed.

(** ** The pivots of an internal node *)

Lemma pivots_bytes_split (pivots : list bytes) (j : nat) (k : bytes) :
  nth_error pivots j = Some k ->
  pivots_bytes pivots
  = pivots_bytes (firstn j pivots) ++ k ++ 0 :: pivots_bytes (skipn (S j) pivots).
Proof.
  intros H. rewrite <- (firstn_skipn_middle j pivots H) at 1.
  unfold pivots_bytes. rewrite map_app, concat_app. cbn [map concat].
  rewrite <- app_assoc. reflexivity.
Qed.

Lemma firstn_succ_snoc {A : Type} (l : list A) :
  forall (j : nat) (k : A),
    nth_error l j = Some k -> firstn (S j) l = firstn j l ++ [k].
Proof.
  induction l as [|a l IH]; intros [|j] k H; try discriminate.
  - injection H as ->. reflexivity.
  - cbn [firstn app]. f_equal. apply IH. exact H.
Qed.

Lemma pivot_off_succ (ptr : Z) (pivots : list bytes) (j : nat) (k : bytes) :
  nth_error pivots j = Some k ->
  pivot_off ptr pivots (S j) = pivot_off ptr pivots j + len k + 1.
Proof.
  intros H. unfold pivot_off.
  rewrite (firstn_succ_snoc pivots j k H), pivots_bytes_app. lia.
Qed.

Lemma pivot_off_lt (ptr : Z) (pivots : list bytes) :
  forall b a, (a < b <= length pivots)%nat ->
              pivot_off ptr pivots a < pivot_off ptr pivots b.
Proof.
  induction b as [|b IH]; intros a Hab; [lia|].
  destruct (nth_error pivots b) as [k|] eqn:E;
    [|apply nth_error_None in E; lia].
  rewrite (pivot_off_succ ptr pivots b k E). pose proof (len_nonneg k).
  destruct (Nat.eq_dec a b) as [->|Hne]; [lia|].
  specialize (IH a ltac:(lia)). lia.
Qed.

Lemma pivot_off_all (ptr : Z) (pivots : list bytes) :
  pivot_off ptr pivots (length pivots) = ptr + len (pivots_bytes pivots).
Proof. unfold pivot_off. now rewrite firstn_all. Qed.

(** A place in the window lies in one pivot of the window, its NUL
    included. *)
Lemma locate_pivot (ptr : Z) (pivots : list bytes) (tp : Z) :
  forall hi lo, (lo < hi <= length pivots)%nat ->
    pivot_off ptr pivots lo <= tp < pivot_off ptr pivots hi ->
    exists j, (lo <= j < hi)%nat
              /\ pivot_off ptr pivots j <= tp < pivot_off ptr pivots (S j).
Proof.
  induction hi as [|hi IH]; intros lo Hlo Htp; [lia|].
  destruct (Z_lt_le_dec tp (pivot_off ptr pivots hi)) as [Hlt|Hge].
  - assert (lo <> hi) by (intros ->; lia).
    destruct (IH lo ltac:(lia) ltac:(lia)) as (j & Hj & Hb).
    exists j. split; [lia|exact Hb].
  - exists hi. split; [lia|lia].
Qed.

Lemma byte_at_mid (A s R : bytes) (d : nat) (b : Z) :
  nth_error s d = Some b ->
  byte_at (A ++ s ++ R) (len A + Z.of_nat d) = Some b.
Proof.
  intros H. unfold byte_at. pose proof (len_nonneg A).
  replace (0 <=? len A + Z.of_nat d) with true
    by (symmetry; apply Z.leb_le; lia).
  replace (Z.to_nat (len A + Z.of_nat d)) with (length A + d)%nat
    by (unfold len; lia).
  rewrite nth_error_app2 by lia.
  replace (length A + d - length A)%nat with d by lia.
  rewrite nth_error_app1 by (apply nth_error_Some; congruence).
  exact H.
Qed.

Lemma nul_free_nth (s : bytes) (d : nat) (b : Z) :
  nul_free s = true -> nth_error s d = Some b -> b <> 0.
Proof.
  intros Hs Hb. unfold nul_free in Hs. rewrite forallb_forall in Hs.
  specialize (Hs b (nth_error_In _ _ Hb)). apply negb_true_iff in Hs.
  now apply Z.eqb_neq.
Qed.

(** Scanning back from a place in a string stops at its start. *)
Lemma scanBack_to_start (buf A s R : bytes) (ptr : Z) :
  buf = A ++ s ++ R -> nul_free s = true -> ptr <= len A ->
  (ptr = len A \/ exists A', A = A' ++ [0]) ->
  forall d : nat, Z.of_nat d <= len s ->
    scanBack (Z.to_nat (len A + Z.of_nat d - ptr)) buf (len A + Z.of_nat d)
    = Ok (len A).
Proof.
  intros Hb Hs Hptr HA. induction d as [|d IH]; intros Hd.
  - change (Z.of_nat 0) with 0. rewrite !Z.add_0_r.
    destruct (Z.to_nat (len A - ptr)) as [|n] eqn:En; [reflexivity|].
    destruct HA as [->|[A' HA]]; [lia|].
    cbn [scanBack].
    assert (Hby : byte_at buf (len A - 1) = Some 0).
    { rewrite Hb, HA. rewrite len_app. change (len [0]) with 1.
      replace (len A' + 1 - 1) with (len A' + Z.of_nat 0) by lia.
      rewrite <- app_assoc. now apply byte_at_mid. }
    rewrite Hby. reflexivity.
  - replace (Z.to_nat (len A + Z.of_nat (S d) - ptr))
      with (S (Z.to_nat (len A + Z.of_nat d - ptr))) by lia.
    cbn [scanBack].
    replace (len A + Z.of_nat (S d) - 1) with (len A + Z.of_nat d) by lia.
    destruct (nth_error s d) as [b|] eqn:Eb;
      [|apply nth_error_None in Eb; unfold len in Hd; lia].
    rewrite Hb at 1. rewrite (byte_at_mid A s R d b Eb). cbn [access bind].
    replace (b =? 0) with false
      by (symmetry; apply Z.eqb_neq; eapply nul_free_nth; eauto).
    apply IH. lia.
Qed.

Lemma pivots_bytes_snoc (piv : list bytes) (k : bytes) :
  pivots_bytes (piv ++ [k]) = (pivots_bytes piv ++ k) ++ [0].
Proof.
  unfold pivots_bytes. rewrite map_app, concat_app. cbn [map concat].
  now rewrite app_nil_r, app_assoc.
Qed.

(** What the search of a node sees at pivot [j]. *)
Lemma pivot_probe (buf : bytes) (ptr : Z) (pivots : list bytes) (j : nat)
    (k : bytes) :
  pivot_area buf ptr pivots -> nth_error pivots j = Some k ->
  strlen buf (pivot_off ptr pivots j) = Some (len k)
  /\ decodeAt buf (pivot_off ptr pivots j) = Ok (len k, dkey (k, []))
  /\ forall tp,
      pivot_off ptr pivots j <= tp < pivot_off ptr pivots (S j) ->
      scanBack (Z.to_nat (tp - ptr)) buf tp = Ok (pivot_off ptr pivots j).
Proof.
  intros ((H & Hbuf & HH) & Hpiv & _) Hj.
  destruct (Hpiv j k Hj) as (Hnul & fk & Hfk).
  set (A := H ++ pivots_bytes (firstn j pivots)).
  assert (HA : len A = pivot_off ptr pivots j)
    by (unfold A, pivot_off; rewrite len_app; lia).
  assert (Hb : buf = A ++ k ++ 0 :: pivots_bytes (skipn (S j) pivots)).
  { rewrite Hbuf, (pivots_bytes_split pivots j k Hj). unfold A.
    now rewrite <- app_assoc. }
  split; [|split].
  - exact (strlen_at buf A k _ _ Hb (eq_sym HA) Hnul).
  - rewrite (decodeAt_at buf A k _ _ fk Hb (eq_sym HA) Hnul Hfk).
    unfold dkey. cbn [fst]. now rewrite Hfk.
  - intros tp Htp. rewrite (pivot_off_succ ptr pivots j k Hj) in Htp.
    pose proof (len_nonneg (pivots_bytes (firstn j pivots))) as Hnn.
    assert (Hend : ptr = len A \/ exists A', A = A' ++ [0]).
    { destruct j as [|j'].
      - left. unfold A. cbn [firstn]. unfold pivots_bytes. cbn [map concat].
        now rewrite app_nil_r.
      - right. destruct (nth_error pivots j') as [k'|] eqn:E'.
        + unfold A. rewrite (firstn_succ_snoc pivots j' k' E').
          rewrite pivots_bytes_snoc.
          exists (H ++ pivots_bytes (firstn j' pivots) ++ k').
          now rewrite <- !app_assoc.
        + apply nth_error_None in E'.
          assert (nth_error pivots (S j') <> None) by congruence.
          apply nth_error_Some in H0. lia. }
    pose proof (scanBack_to_start buf A k _ ptr Hb Hnul
                  ltac:(unfold pivot_off in HA; lia) Hend
                  (Z.to_nat (tp - len A)) ltac:(lia)) as Hs.
    replace (len A + Z.of_nat (Z.to_nat (tp - len A))) with tp in Hs by lia.
    now rewrite <- HA.
Qed.

(** The binary search over the pivots: it ends on a pivot [j], with the
    comparison of the target to it; when the target is smaller, the pivot
    before [j] is smaller than the target; when it is larger, the pivot after
    [j] is larger than the target. *)
Lemma searchPivots_spec (buf : bytes) (ptr : Z) (pivots : list bytes)
    (t : wstring) :
  pivot_area buf ptr pivots ->
  forall (fuel lo hi : nat),
    (lo < hi <= length pivots)%nat -> (hi - lo <= fuel)%nat ->
    below t pivots lo -> above t pivots hi ->
    exists j k,
      (lo <= j < hi)%nat /\ nth_error pivots j = Some k
      /\ searchPivots fuel t buf ptr (pivot_off ptr pivots lo)
           (pivot_off ptr pivots hi - pivot_off ptr pivots lo)
         = Ok (pivot_off ptr pivots j, str_compare t (dkey (k, [])))
      /\ (str_compare t (dkey (k, [])) = Lt -> below t pivots j)
      /\ (str_compare t (dkey (k, [])) = Gt -> above t pivots (S j)).
Proof.
  intros Harea. pose proof Harea as ((H & Hbuf & HH) & _ & Hsmall).
  assert (Hoff : forall j, (j <= length pivots)%nat ->
                   ptr <= pivot_off ptr pivots j <= len buf).
  { intros j Hj. unfold pivot_off.
    pose proof (len_nonneg (pivots_bytes (firstn j pivots))).
    destruct (Nat.eq_dec j (length pivots)) as [->|Hne].
    - rewrite firstn_all in *. rewrite Hbuf, len_app. lia.
    - pose proof (pivot_off_lt ptr pivots (length pivots) j ltac:(lia)) as Hl.
      rewrite pivot_off_all in Hl. unfold pivot_off in Hl.
      rewrite Hbuf, len_app. lia. }
  pose proof (len_nonneg H) as HH0.
  induction fuel as [|fuel IH]; intros lo hi Hlo Hfuel Hbelow Habove; [lia|].
  pose proof (pivot_off_lt ptr pivots hi lo ltac:(lia)) as Hwin.
  set (window := pivot_off ptr pivots lo) in *.
  set (s := pivot_off ptr pivots hi - window).
  assert (Hs2 : 0 <= s / 2 < s)
    by (split; [apply Z.div_pos|apply Z.div_lt]; unfold s; lia).
  destruct (locate_pivot ptr pivots (window + s / 2) hi lo Hlo
              ltac:(unfold s, window in *; lia)) as (j & Hj & Htp).
  destruct (nth_error pivots j) as [k|] eqn:Ek;
    [|apply nth_error_None in Ek; lia].
  destruct (pivot_probe buf ptr pivots j k Harea Ek) as (_ & Hdec & Hscan).
  pose proof (pivot_off_succ ptr pivots j k Ek) as Hsucc.
  pose proof (Hoff lo ltac:(lia)). pose proof (Hoff hi ltac:(lia)).
  pose proof (Hoff j ltac:(lia)). pose proof (Hoff (S j) ltac:(lia)).
  assert (Hlo_j : pivot_off ptr pivots lo <= pivot_off ptr pivots j).
  { destruct (Nat.eq_dec j lo) as [->|Hne]; [lia|].
    pose proof (pivot_off_lt ptr pivots j lo ltac:(lia)). lia. }
  assert (Hj_hi : pivot_off ptr pivots (S j) <= pivot_off ptr pivots hi).
  { destruct (Nat.eq_dec (S j) hi) as [->|Hne]; [lia|].
    pose proof (pivot_off_lt ptr pivots hi (S j) ltac:(lia)). lia. }
  fold window in Hlo_j.
  cbn [searchPivots]. rewrite (Hscan _ Htp). cbn [bind]. rewrite Hdec.
  cbn [bind].
  destruct (str_compare t (dkey (k, []))) eqn:Ecmp.
  - exists j, k. rewrite Ecmp.
    split; [lia|]. split; [exact Ek|]. split; [reflexivity|].
    split; discriminate.
  - (* the target is smaller *)
    rewrite to_u32_small by (unfold window in *; lia).
    destruct (Nat.eq_dec j lo) as [->|Hne].
    + fold window. rewrite Z.sub_diag. cbn [Z.eqb].
      exists lo, k. rewrite Ecmp.
      split; [lia|]. split; [exact Ek|]. split; [reflexivity|].
      split; [intros _; exact Hbelow|discriminate].
    + pose proof (pivot_off_lt ptr pivots j lo ltac:(lia)).
      replace (pivot_off ptr pivots j - window =? 0) with false
        by (symmetry; apply Z.eqb_neq; unfold window; lia).
      destruct (IH lo j ltac:(lia) ltac:(lia) Hbelow
                  ltac:(right; exists k; auto))
        as (j' & k' & Hj' & Ek' & Hr & Hlt & Hgt).
      exists j', k'. split; [lia|]. split; [exact Ek'|].
      split; [exact Hr|]. split; [exact Hlt|]. exact Hgt.
  - (* the target is larger *)
    replace (s - (pivot_off ptr pivots j - window + len k + 1))
      with (pivot_off ptr pivots hi - pivot_off ptr pivots (S j))
      by (unfold s; lia).
    replace (pivot_off ptr pivots j + len k + 1)
      with (pivot_off ptr pivots (S j)) by lia.
    rewrite to_u32_small by lia.
    destruct (Nat.eq_dec (S j) hi) as [Heq|Hne].
    + rewrite Heq, Z.sub_diag. cbn [Z.eqb].
      exists j, k. rewrite Ecmp.
      split; [lia|]. split; [exact Ek|]. split; [reflexivity|].
      split; [discriminate|]. intros _. now rewrite Heq.
    + pose proof (pivot_off_lt ptr pivots hi (S j) ltac:(lia)).
      replace (pivot_off ptr pivots hi - pivot_off ptr pivots (S j) =? 0)
        with false by (symmetry; apply Z.eqb_neq; lia).
      destruct (IH (S j) hi ltac:(lia) ltac:(lia)) as
          (j' & k' & Hj' & Ek' & Hr & Hlt & Hgt).
      * right. exists k. replace (S j - 1)%nat with j by lia. auto.
      * exact Habove.
      * exists j', k'. split; [lia|]. split; [exact Ek'|].
        split; [exact Hr|]. split; [exact Hlt|]. exact Hgt.
Qed.

(** Counting the pivots up to the one the search ended on gives its
    number. *)
Lemma countEntries_spec (buf : bytes) (ptr : Z) (pivots : list bytes) :
  pivot_area buf ptr pivots ->
  forall (d a j : nat) (e : Z) (fuel : nat),
    (a + d = j)%nat -> (j <= length pivots)%nat -> (d <= fuel)%nat ->
    0 <= e -> e + Z.of_nat d < u32_modulus ->
    countEntries fuel buf (pivot_off ptr pivots a) (pivot_off ptr pivots j) e
    = Ok (e + Z.of_nat d).
Proof.
  intros Harea. induction d as [|d IH]; intros a j e fuel Hd Hj Hfuel He Hb.
  - replace j with a by lia. rewrite Z.add_0_r.
    destruct fuel; cbn [countEntries]; now rewrite Z.eqb_refl.
  - destruct fuel as [|fuel]; [lia|]. cbn [countEntries].
    pose proof (pivot_off_lt ptr pivots j a ltac:(lia)).
    replace (pivot_off ptr pivots a =? pivot_off ptr pivots j) with false
      by (symmetry; apply Z.eqb_neq; lia).
    destruct (nth_error pivots a) as [k|] eqn:Ek;
      [|apply nth_error_None in Ek; lia].
    destruct (pivot_probe buf ptr pivots a k Harea Ek) as (Hlen & _ & _).
    rewrite Hlen. cbn [access bind].
    rewrite <- (pivot_off_succ ptr pivots a k Ek).
    rewrite to_u32_small by lia.
    rewrite (IH (S a) j (e + 1) fuel) by lia. f_equal. lia.
Qed.

(** ** The descent *)

Lemma readNode_item (f : File.Class) (d0 : bytes) (its : list item) (off : Z)
    (it : item) :
  (forall p, zlib_uncompress (zlib_compress p) = Some p) ->
  File.data f = d0 ++ image (len d0) its ->
  len (File.data f) < u32_modulus ->
  Forall payload_small its ->
  item_at (len d0) its off it ->
  readNode off f
  = Ok (payload_of it,
        File.mk (File.data f) (off + len (node_image (payload_of it))))
  /\ payload_small it.
Proof.
  intros Hz Hd Hlen Hsm (pre & post & Hi & ->).
  assert (Hs : payload_small it).
  { rewrite Hi in Hsm. apply Forall_app in Hsm. destruct Hsm as [_ Hsm].
    now inversion Hsm. }
  split; [|exact Hs]. rewrite Hi in Hd.
  apply (readNode_at f d0 pre post it Hd Hlen Hs (Hz _)).
Qed.

Lemma read_link_item (f : File.Class) (d0 : bytes) (its : list item) (off : Z)
    (es : IndexedWords) :
  File.data f = d0 ++ image (len d0) its ->
  len (File.data f) < u32_modulus ->
  item_at (len d0) its off (LeafI es) ->
  exists nx,
    File.read_u32
      (File.mk (File.data f) (off + len (node_image (leaf_body es))))
    = Ok (nx, File.mk (File.data f) (off + item_size (LeafI es))).
Proof.
  intros Hd Hlen (pre & post & Hi & ->). rewrite Hi in Hd.
  eexists. apply (read_link_at f d0 pre post es Hd Hlen).
Qed.

Lemma dkey_fst (e : bytes * chain) (c : chain) : dkey (fst e, c) = dkey e.
Proof. reflexivity. Qed.

(** Entries a search can run over compare as their places do. *)
Lemma index_compare (es : IndexedWords) (a b : nat) (ea eb : bytes * chain) :
  searchable es -> nth_error es a = Some ea -> nth_error es b = Some eb ->
  str_compare (dkey ea) (dkey eb) = Nat.compare a b.
Proof.
  intros [_ Hs] Ha Hb. destruct (Nat.compare_spec a b) as [Heq|Hlt|Hgt].
  - subst b. rewrite Ha in Hb. injection Hb as ->. apply str_compare_refl.
  - exact (Hs a b ea eb Hlt Ha Hb).
  - apply str_compare_gt_lt. exact (Hs b a eb ea Hgt Hb Ha).
Qed.

Lemma nth_error_between (es : IndexedWords) (a b : Z) (i : nat) :
  0 <= a -> a <= Z.of_nat i < b ->
  nth_error (entries_between es a b) (i - Z.to_nat a) = nth_error es i.
Proof.
  intros Ha Hi. unfold entries_between. rewrite nth_error_firstn.
  replace (i - Z.to_nat a <? Z.to_nat (b - a))%nat with true
    by (symmetry; apply Nat.ltb_lt; lia).
  rewrite nth_error_skipn. f_equal. lia.
Qed.

Lemma nth_error_between_inv (es : IndexedWords) (a b : Z) (c : nat)
    (e : bytes * chain) :
  0 <= a ->
  nth_error (entries_between es a b) c = Some e ->
  nth_error es (Z.to_nat a + c) = Some e.
Proof.
  intros Ha. unfold entries_between. rewrite nth_error_firstn.
  destruct (c <? Z.to_nat (b - a))%nat; [|discriminate].
  now rewrite nth_error_skipn.
Qed.

Lemma searchable_between (es : IndexedWords) (a b : Z) :
  0 <= a -> searchable es -> searchable (entries_between es a b).
Proof.
  intros Ha [Hok Hs]. split.
  - intros c e Hc. apply (Hok (Z.to_nat a + c)%nat e).
    exact (nth_error_between_inv es a b c e Ha Hc).
  - intros x y ex ey Hxy Hx Hy.
    apply (Hs (Z.to_nat a + x)%nat (Z.to_nat a + y)%nat); [lia| |].
    + exact (nth_error_between_inv es a b x ex Ha Hx).
    + exact (nth_error_between_inv es a b y ey Ha Hy).
Qed.

Lemma key_at_nth (es : IndexedWords) (c : Z) (e : bytes * chain) :
  nth_error es (Z.to_nat c) = Some e -> key_at es c = fst e.
Proof. intros H. unfold key_at. now rewrite (nth_error_nth _ _ _ H). Qed.

(** The pivots of a node over entries a search can run over. *)
Lemma pivot_area_node (es : IndexedWords) (offsets : list Z)
    (pivots : list bytes) (cut : nat -> Z) :
  searchable es ->
  len (node_payload offsets pivots) < u32_modulus ->
  (forall j, (j < length pivots)%nat ->
     0 <= cut j < len es /\ nth j pivots [] = key_at es (cut j)) ->
  pivot_area (node_payload offsets pivots) (4 + 4 * len offsets) pivots.
Proof.
  intros [Hok _] Hlen Hpiv. split; [|split; [|exact Hlen]].
  - exists (put_u32 4294967295 ++ concat (map put_u32 offsets)). split.
    + unfold node_payload, pivots_bytes. now rewrite <- app_assoc.
    + rewrite len_app, len_put_u32, offsets_bytes_len. lia.
  - intros j k Hj.
    assert (Hjl : (j < length pivots)%nat)
      by (apply nth_error_Some; congruence).
    destruct (Hpiv j Hjl) as [Hc Hk].
    rewrite (nth_error_nth _ _ [] Hj) in Hk.
    destruct (nth_error es (Z.to_nat (cut j))) as [e|] eqn:Ee;
      [|apply nth_error_None in Ee; unfold len in Hc; lia].
    rewrite (key_at_nth es _ e Ee) in Hk. subst k.
    destruct (Hok _ e Ee) as [He _].
    destruct (entry_ok_inv e He) as (fk & _ & _ & _ & Hd & _ & _ & Hn & _).
    split; [exact Hn|eauto].
Qed.

Lemma chainPointers_leaf (es : IndexedWords) :
  len (leaf_body es) < u32_modulus ->
  chainPointers (S (length (leaf_body es))) (leaf_body es) 4 (len es)
  = Ok (chain_ptrs 4 es).
Proof.
  intros Hlen. rewrite leaf_body_len in Hlen.
  pose proof (chains_len_min es). pose proof (len_nonneg es).
  assert (Hb : leaf_body es
               = put_u32 (len es)
                   ++ concat (map (fun e => chain_bytes (snd e)) es) ++ [])
    by (unfold leaf_body; now rewrite app_nil_r).
  apply (chainPointers_at es _ _ _ 4 _ Hb); [reflexivity| |lia].
  unfold leaf_body, len in *. rewrite length_app. simpl. lia.
Qed.

(** In a leaf that holds the key, the descent ends on the chain of the
    key, as an exact match. *)
Lemma descend_leaf (fuel : nat) (t : wstring) (F root : Z) (f : File.Class)
    (es : IndexedWords) (off : Z) (i : nat) (ei : bytes * chain) :
  searchable es -> len (leaf_body es) < u32_modulus ->
  nth_error es i = Some ei -> dkey ei = t ->
  (off <> root ->
   exists nx f', File.read_u32 f = Ok (nx, f')
                 /\ File.data f' = File.data f) ->
  exists r f' p,
    descend (S fuel) t F root f (leaf_body es) off = Ok (r, f')
    /\ File.data f' = File.data f
    /\ exactMatch r = true /\ chainOffset r = Some p
    /\ readChain (leafBuf r) p = Ok (snd ei, p + len (chain_bytes (snd ei))).
Proof.
  intros Hs Hlen Hi Ht Hread.
  assert (Hn : 0 < len es < u32_modulus).
  { assert (i < length es)%nat by (apply nth_error_Some; congruence).
    rewrite leaf_body_len in Hlen. pose proof (chains_len_min es).
    unfold len, u32_modulus in *. lia. }
  assert (Hil : (i < length es)%nat) by (apply nth_error_Some; congruence).
  destruct (searchChains_finds es t i ei Hs Hlen Hi Ht
              (S (length (chain_ptrs 4 es))) 0 (len es)
              ltac:(lia) ltac:(unfold len; lia) ltac:(lia)
              ltac:(rewrite chain_ptrs_length; unfold len; lia))
    as (pi & Hpi & Hsearch).
  destruct (probe_chain es i ei Hs Hlen Hi)
    as (pc & _ & _ & _ & Hpc & _ & _ & _ & Hrc).
  rewrite Hpi in Hpc. injection Hpc as <-.
  assert (Hgo : forall nx f',
             '(next, file') <- Ok (nx, f') ;;
             (if len es =? 0
              then if off =? root
                   then Ok (mkChainLookup None false (leaf_body es) next
                              (len (leaf_body es)), file')
                   else Throw exCorruptedChainData
              else
                chainOffsets <- chainPointers (S (length (leaf_body es)))
                                  (leaf_body es) 4 (len es) ;;
                r <- searchChains (S (length chainOffsets)) t (leaf_body es)
                       chainOffsets 0 (to_u32 (len chainOffsets)) ;;
                match r with
                | ExactAt p =>
                    Ok (mkChainLookup (Some p) true (leaf_body es) next
                          (len (leaf_body es)), file')
                | PrefixAt p =>
                    Ok (mkChainLookup (Some p) false (leaf_body es) next
                          (len (leaf_body es)), file')
                | PastLastChain =>
                    if next =? 0
                    then Ok (mkChainLookup None false (leaf_body es) next
                               (len (leaf_body es)), file')
                    else
                      '(extLeaf, file'') <- readNode next file' ;;
                      '(next', file3) <- File.read_u32 file'' ;;
                      Ok (mkChainLookup (Some 4) false extLeaf next'
                            (len extLeaf), file3)
                end)
             = Ok (mkChainLookup (Some pi) true (leaf_body es) nx
                     (len (leaf_body es)), f')).
  { intros nx f'. cbn [bind].
    replace (len es =? 0) with false by (symmetry; apply Z.eqb_neq; lia).
    rewrite (chainPointers_leaf es Hlen). cbn [bind].
    replace (to_u32 (len (chain_ptrs 4 es))) with (len es)
      by (unfold len; rewrite chain_ptrs_length; symmetry;
          apply to_u32_small; unfold len in Hn; lia).
    rewrite Hsearch. reflexivity. }
  cbn [descend].
  pose proof (leaf_count es [] Hlen) as Hc. rewrite app_nil_r in Hc.
  rewrite Hc. cbn [access bind].
  replace (len es =? 4294967295) with false
    by (symmetry; apply Z.eqb_neq; now apply leaf_not_marker).
  destruct (off =? root) eqn:Eroot.
  - rewrite Hgo. eexists _, f, pi. repeat split; auto.
  - apply Z.eqb_neq in Eroot. destruct (Hread Eroot) as (nx & f' & Hr & Hd).
    rewrite Hr, Hgo. eexists _, f', pi. repeat split; auto.
Qed.

(** At an internal node the descent goes on in a child next to the pivot
    [j] the search ended on: child [j] when the target is smaller than the
    pivot, child [j + 1] otherwise. *)
Lemma descend_node (fuel : nat) (t : wstring) (F root : Z) (f : File.Class)
    (offsets : list Z) (pivots : list bytes) (off : Z) :
  pivot_area (node_payload offsets pivots) (4 + 4 * len offsets) pivots ->
  len offsets = F + 1 -> len pivots = F -> 1 <= F -> F + 1 < u32_modulus ->
  (Z.to_nat F <= S fuel)%nat ->
  (forall x, 0 <= x <= F -> 0 <= nth (Z.to_nat x) offsets 0 < u32_modulus) ->
  exists (j : nat) (k : bytes) (child : Z),
    (j < length pivots)%nat /\ nth_error pivots j = Some k
    /\ child = match str_compare t (dkey (k, [])) with
               | Lt => Z.of_nat j
               | _ => Z.of_nat j + 1
               end
    /\ (str_compare t (dkey (k, [])) = Lt -> below t pivots j)
    /\ (str_compare t (dkey (k, [])) = Gt -> above t pivots (S j))
    /\ descend (S fuel) t F root f (node_payload offsets pivots) off
       = ('(extLeaf, file') <- readNode (nth (Z.to_nat child) offsets 0) f ;;
          descend fuel t F root file' extLeaf (nth (Z.to_nat child) offsets 0)).
Proof.
  intros Harea Ho Hp HF HF2 Hfuel Hoffs.
  set (buf := node_payload offsets pivots) in *.
  set (ptr := 4 + 4 * len offsets) in *.
  assert (HlenF : length pivots = Z.to_nat F) by (unfold len in Hp; lia).
  destruct (searchPivots_spec buf ptr pivots t Harea (S fuel) 0
              (length pivots) ltac:(lia) ltac:(lia)
              ltac:(left; reflexivity) ltac:(left; reflexivity))
    as (j & k & Hj & Ek & Hsearch & Hlt & Hgt).
  assert (Hp0 : pivot_off ptr pivots 0 = ptr)
    by (unfold pivot_off; cbn [firstn]; unfold pivots_bytes; cbn; lia).
  rewrite pivot_off_all, Hp0 in Hsearch.
  pose proof (countEntries_spec buf ptr pivots Harea j 0 j 0
                (S (length buf)) ltac:(lia) ltac:(lia)) as Hcount.
  rewrite Hp0 in Hcount.
  pose proof (node_payload_len offsets pivots) as Hbl. fold buf ptr in Hbl.
  pose proof (len_nonneg (pivots_bytes pivots)) as Hpb.
  pose proof (len_nonneg offsets) as Hoff0.
  destruct Harea as (_ & _ & Hsmall).
  assert (Hjb : (j <= S (length buf))%nat).
  { unfold ptr, len in Hbl, Hp, Ho, Hpb. lia. }
  assert (Hj32 : Z.of_nat j + 1 < u32_modulus) by lia.
  specialize (Hcount Hjb ltac:(lia) ltac:(lia)).
  exists j, k, (match str_compare t (dkey (k, [])) with
                | Lt => Z.of_nat j
                | _ => Z.of_nat j + 1
                end).
  split; [lia|]. split; [exact Ek|]. split; [reflexivity|].
  split; [exact Hlt|]. split; [exact Hgt|].
  cbn [descend]. fold buf. unfold buf at 1. rewrite node_marker. fold buf.
  cbn [access bind]. rewrite Z.eqb_refl.
  rewrite (to_u32_small (F + 1)) by lia.
  replace (4 + (F + 1) * 4) with ptr by (unfold ptr; lia).
  replace (to_u32 (len buf - ptr)) with (ptr + len (pivots_bytes pivots) - ptr)
    by (rewrite to_u32_small; lia).
  rewrite Hsearch. cbn [bind]. rewrite Hcount. cbn [bind].
  rewrite Z.add_0_l.
  set (child := match str_compare t (dkey (k, [])) with
                | Lt => Z.of_nat j
                | _ => Z.of_nat j + 1
                end).
  assert (Hchild : match str_compare t (dkey (k, [])) with
                   | Lt => Z.of_nat j
                   | _ => to_u32 (Z.of_nat j + 1)
                   end = child).
  { unfold child. rewrite to_u32_small by lia.
    destruct (str_compare t (dkey (k, []))); reflexivity. }
  rewrite Hchild.
  assert (Hcr : 0 <= child <= F).
  { unfold child. destruct (str_compare t (dkey (k, []))); lia. }
  unfold buf. rewrite (node_offset_at offsets pivots child) by
      (try apply Hoffs; lia).
  reflexivity.
Qed.

(** The descent from the root of a tree the builder wrote, for the key of
    an entry of the tree, ends on the chain of that entry as an exact
    match. *)
Lemma descend_finds (d0 : bytes) (its : list item) (F root : Z)
    (t : wstring) :
  (forall p, zlib_uncompress (zlib_compress p) = Some p) ->
  len (d0 ++ image (len d0) its) < u32_modulus ->
  Forall payload_small its -> 1 <= F -> F + 1 < u32_modulus ->
  forall (h : nat) (off : Z) (es : IndexedWords) (first : Z),
    subtree h F (len d0) its off es first ->
    searchable es ->
    forall (i : nat) (ei : bytes * chain),
      nth_error es i = Some ei -> dkey ei = t ->
      forall (fuel : nat) (f : File.Class),
        File.data f = d0 ++ image (len d0) its ->
        (h + Z.to_nat F <= fuel)%nat ->
        exists r f' p,
          ('(leaf, f1) <- readNode off f ;;
           descend fuel t F root f1 leaf off) = Ok (r, f')
          /\ File.data f' = File.data f
          /\ exactMatch r = true /\ chainOffset r = Some p
          /\ readChain (leafBuf r) p
             = Ok (snd ei, p + len (chain_bytes (snd ei))).
Proof.
  intros Hz HD Hsm HF HF2.
  induction h as [|h IH]; intros off es first Hsub Hs i ei Hi Ht fuel f Hf Hfuel;
    [destruct Hsub|].
  destruct fuel as [|fuel]; [lia|].
  assert (Hil : (i < length es)%nat) by (apply nth_error_Some; congruence).
  rewrite <- Hf in HD.
  cbn [subtree] in Hsub. destruct (len es <=? F) eqn:Eleaf.
  - (* a leaf *)
    destruct Hsub as [Hat _].
    destruct (readNode_item f d0 its off _ Hz Hf HD Hsm Hat) as [Hr Hsmall].
    rewrite Hr. cbn [bind payload_of].
    destruct (descend_leaf fuel t F root
                (File.mk (File.data f)
                         (off + len (node_image (leaf_body es))))
                es off i ei Hs Hsmall Hi Ht) as (r & f' & p & Hd & Hdata & Hrest).
    + intros _. destruct (read_link_item f d0 its off es Hf HD Hat)
        as (nx & Hnx).
      eexists _, _. split; [exact Hnx|reflexivity].
    + exists r, f', p. split; [exact Hd|]. split; [exact Hdata|exact Hrest].
  - (* an internal node *)
    apply Z.leb_gt in Eleaf.
    destruct Hsub as (offsets & pivots & Hat & Ho & Hp & Hpiv & Hch).
    destruct (readNode_item f d0 its off _ Hz Hf HD Hsm Hat) as [Hr Hsmall].
    rewrite Hr. cbn [bind payload_of].
    set (n := len es) in *.
    assert (Hcut : forall x, 0 <= x < F ->
               0 <= cutPoint n F x < n
               /\ cutPoint n F (x - 1) <= cutPoint n F x).
    { intros x Hx.
      pose proof (cutPoint_range n F x HF ltac:(lia) ltac:(lia)).
      pose proof (cutPoint_range n F (x + 1) HF ltac:(lia) ltac:(lia)).
      pose proof (cutPoint_step n F (x + 1) HF ltac:(lia) ltac:(lia)) as H1.
      pose proof (cutPoint_step n F x HF ltac:(lia) ltac:(lia)) as H2.
      replace (x + 1 - 1) with x in H1 by lia. lia. }
    assert (Harea : pivot_area (node_payload offsets pivots)
                      (4 + 4 * len offsets) pivots).
    { apply (pivot_area_node es offsets pivots
               (fun j => cutPoint n F (Z.of_nat j)) Hs Hsmall).
      intros j Hj. unfold len in Hp.
      split; [apply Hcut; lia|].
      rewrite <- (Hpiv (Z.of_nat j)) by lia. now rewrite Nat2Z.id. }
    assert (Hoffs : forall x, 0 <= x <= F ->
               0 <= nth (Z.to_nat x) offsets 0 < u32_modulus).
    { intros x Hx. destruct (Hch x Hx) as (fx & Hsx & _).
      destruct (subtree_item _ _ _ _ _ _ _ Hsx) as (itx & Hatx).
      pose proof (item_at_bounds _ _ _ _ Hatx).
      pose proof (item_size_min itx). pose proof (len_nonneg d0).
      rewrite Hf, len_app, image_len in HD. lia. }
    destruct (descend_node fuel t F root
                (File.mk (File.data f)
                         (off + len (node_image (node_payload offsets pivots))))
                offsets pivots off Harea Ho Hp HF HF2 ltac:(lia) Hoffs)
      as (j & k & child & Hj & Ek & Hchild & Hlt & Hgt & Hstep).
    rewrite Hstep. clear Hstep.
    (* the entry the pivot [j] is the key of *)
    assert (Hpk : forall j' k', nth_error pivots j' = Some k' ->
               exists e', nth_error es (Z.to_nat (cutPoint n F (Z.of_nat j')))
                          = Some e'
                          /\ dkey (k', []) = dkey e').
    { intros j' k' Ek'.
      assert (Hj' : (j' < length pivots)%nat)
        by (apply nth_error_Some; congruence).
      unfold len in Hp.
      destruct (Hcut (Z.of_nat j') ltac:(lia)) as [Hc _].
      destruct (nth_error es (Z.to_nat (cutPoint n F (Z.of_nat j'))))
        as [e'|] eqn:Ee'; [|apply nth_error_None in Ee'; unfold n, len in *; lia].
      exists e'. split; [reflexivity|].
      pose proof (Hpiv (Z.of_nat j') ltac:(lia)) as Hk.
      rewrite Nat2Z.id, (nth_error_nth _ _ [] Ek'), (key_at_nth es _ e' Ee') in Hk.
      subst k'. apply dkey_fst. }
    (* the child holds the entry looked for *)
    assert (Hrange : 0 <= child <= F
                     /\ cutPoint n F (child - 1) <= Z.of_nat i
                        < cutPoint n F child).
    { destruct (Hpk j k Ek) as (e & Ee & Hke). unfold len in Hp.
      destruct (Hcut (Z.of_nat j) ltac:(lia)) as [Hcj Hcj'].
      pose proof (index_compare es i _ ei e Hs Hi Ee) as Hcmp.
      rewrite Ht, <- Hke in Hcmp.
      pose proof (cutPoint_step n F (Z.of_nat j + 1) HF ltac:(lia) ltac:(lia))
        as Hnext.
      replace (Z.of_nat j + 1 - 1) with (Z.of_nat j) in Hnext by lia.
      pose proof (cutPoint_range n F (Z.of_nat j + 1) HF ltac:(lia) ltac:(lia)).
      destruct (str_compare t (dkey (k, []))) eqn:Ec; subst child.
      - symmetry in Hcmp. apply Nat.compare_eq in Hcmp.
        replace (Z.of_nat j + 1 - 1) with (Z.of_nat j) by lia. lia.
      - symmetry in Hcmp. apply Nat.compare_lt_iff in Hcmp.
        split; [lia|]. split; [|lia].
        destruct (Nat.eq_dec j 0) as [->|Hj0].
        + change (Z.of_nat 0 - 1) with (-1). rewrite cutPoint_first. lia.
        + destruct (Hlt eq_refl) as [->|(k' & Ek' & Hk')]; [lia|].
          destruct (Hpk _ _ Ek') as (e' & Ee' & Hke').
          pose proof (index_compare es i _ ei e' Hs Hi Ee') as Hcmp'.
          rewrite Ht, <- Hke', Hk' in Hcmp'. symmetry in Hcmp'.
          apply Nat.compare_gt_iff in Hcmp'.
          replace (Z.of_nat (j - 1)) with (Z.of_nat j - 1) in Hcmp' by lia.
          pose proof (cutPoint_range n F (Z.of_nat j - 1) HF ltac:(lia)
                        ltac:(lia)). lia.
      - symmetry in Hcmp. apply Nat.compare_gt_iff in Hcmp.
        replace (Z.of_nat j + 1 - 1) with (Z.of_nat j) by lia.
        split; [lia|]. split; [lia|].
        destruct (Hgt eq_refl) as [Hlast|(k' & Ek' & Hk')].
        + replace (Z.of_nat j + 1) with F by lia.
          rewrite cutPoint_last by lia. unfold n, len. lia.
        + destruct (Hpk _ _ Ek') as (e' & Ee' & Hke').
          pose proof (index_compare es i _ ei e' Hs Hi Ee') as Hcmp'.
          rewrite Ht, <- Hke', Hk' in Hcmp'. symmetry in Hcmp'.
          apply Nat.compare_lt_iff in Hcmp'.
          replace (Z.of_nat (S j)) with (Z.of_nat j + 1) in Hcmp' by lia.
          lia. }
    destruct Hrange as [Hcr Hci].
    destruct (Hch child Hcr) as (fx & Hsx & _).
    pose proof (cutPoint_range n F (child - 1) HF ltac:(lia) ltac:(lia)) as Ha.
    destruct (IH _ _ _ Hsx (searchable_between es _ _ (proj1 Ha) Hs)
                (i - Z.to_nat (cutPoint n F (child - 1)))%nat ei
                ltac:(rewrite nth_error_between by lia; exact Hi) Ht fuel
                (File.mk (File.data f)
                   (off + len (node_image (node_payload offsets pivots))))
                Hf ltac:(lia))
      as (r & f' & p & Hd & Hdata & Hrest).
    exists r, f', p. split; [exact Hd|]. split; [exact Hdata|exact Hrest].
Qed.

(** ** Round trip *)

Lemma keys_ascending_head (m : IndexedWords) :
  forall k c, keys_ascending ((k, c) :: m) ->
              forall e, In e m -> str_compare k (fst e) = Lt.
Proof.
  induction m as [|[k' c'] m IH]; intros k c H e He; [destruct He|].
  destruct H as [Hlt Hm]. destruct He as [<-|He]; [exact Hlt|].
  eapply str_compare_lt_trans; [exact Hlt|]. exact (IH k' c' Hm e He).
Qed.

Lemma keys_ascending_pairwise (m : IndexedWords) :
  keys_ascending m ->
  forall a b ea eb, (a < b)%nat ->
    nth_error m a = Some ea -> nth_error m b = Some eb ->
    str_compare (fst ea) (fst eb) = Lt.
Proof.
  induction m as [|[k c] m IH]; intros H a b ea eb Hab Ha Hb;
    [destruct a; discriminate|].
  destruct b as [|b]; [lia|]. cbn [nth_error] in Hb.
  destruct a as [|a].
  - injection Ha as <-. cbn [fst].
    exact (keys_ascending_head m k c H eb (nth_error_In _ _ Hb)).
  - cbn [nth_error] in Ha.
    exact (IH (keys_ascending_tail _ _ H) a b ea eb ltac:(lia) Ha Hb).
Qed.

(** The entries of a well-formed map under non-empty keys are entries a
    search can run over, when the codec keeps the order of strings. *)
Lemma searchable_map (m : IndexedWords) :
  (forall a b, str_compare (Utf8_encode a) (Utf8_encode b) = str_compare a b) ->
  keys_ascending m -> forallb entry_ok m = true -> chains_ok m = true ->
  searchable (nonEmptyKeys m).
Proof.
  intros Hord Hasc Hok Hch.
  assert (Hin : forall c e, nth_error (nonEmptyKeys m) c = Some e -> In e m).
  { intros c e H. apply nth_error_In in H. unfold nonEmptyKeys in H.
    apply filter_In in H. exact (proj1 H). }
  rewrite forallb_forall in Hok. unfold chains_ok in Hch.
  rewrite forallb_forall in Hch.
  split.
  - intros c e H. split; [apply Hok|apply Hch]; eapply Hin; eauto.
  - intros a b ea eb Hab Ha Hb.
    pose proof (keys_ascending_pairwise _ (keys_ascending_nonEmptyKeys m Hasc)
                  a b ea eb Hab Ha Hb) as Hlt.
    destruct (entry_ok_inv ea (Hok ea (Hin _ _ Ha)))
      as (fa & _ & _ & _ & _ & _ & Hea & _ & _ & _ & _ & Hka).
    destruct (entry_ok_inv eb (Hok eb (Hin _ _ Hb)))
      as (fb & _ & _ & _ & _ & _ & Heb & _ & _ & _ & _ & Hkb).
    rewrite Hka, Hkb, <- Hord, Hea, Heb. exact Hlt.
Qed.

Lemma map_find_In (m : IndexedWords) (k : bytes) (c : chain) :
  map_find k m = Some c -> In (k, c) m.
Proof.
  induction m as [|[k' c'] m IH]; [discriminate|]. cbn [map_find].
  destruct (str_eqb k k') eqn:E.
  - apply str_eqb_true in E. subst k'. intros [= ->]. now left.
  - intros H. right. exact (IH H).
Qed.

(** What [findArticles] returns on a freshly opened index when the descent
    ends on a chain as an exact match. *)
Lemma findArticles_found (fuel : nat) (w : wstring) (info : IndexInfo)
    (file f' : File.Class) (r : ChainLookup) (p q : Z) (c : chain) :
  ('(leaf, f1) <- readNode (rootOffset info) file ;;
   descend fuel (Folding_apply w) (btreeMaxElements info) (rootOffset info)
           f1 leaf (rootOffset info)) = Ok (r, f') ->
  exactMatch r = true -> chainOffset r = Some p ->
  readChain (leafBuf r) p = Ok (c, q) ->
  forallb decodable c = true ->
  exists idx',
    findArticles fuel w (openIndex info file) = Ok (antialiased w c, idx').
Proof.
  intros Hd Hex Hp Hrc Hdec.
  apply bind_Ok in Hd. destruct Hd as ([leaf f1] & Hr & Hd).
  unfold findArticles, findChainOffsetExactOrPrefix, openIndex.
  cbn [idxFile rootNodeLoaded idxRootOffset indexNodeSize].
  rewrite Hr. cbn [bind]. rewrite Hd. cbn [bind chainOffset].
  rewrite Hp, Hex, Hrc. cbn [bind].
  rewrite antialias_spec, Hdec. cbn [bind]. eauto.
Qed.

(** * Further properties *)

(** ** What [addWord] and [addSingleWord] keep of the map *)

Lemma Forall_map_insert (P : bytes * chain -> Prop) (k : bytes) (v : chain)
    (m : IndexedWords) :
  Forall P m -> P (k, v) -> Forall P (map_insert k v m).
Proof.
  intros H Hk. induction H as [|[k0 v0] m H0 Hm IH]; simpl.
  - constructor; [exact Hk|constructor].
  - destruct (str_compare k k0); constructor; auto.
Qed.

Lemma Forall_map_emplace_back (k : bytes) (l : WordArticleLink)
    (m : IndexedWords) :
  Forall (fun e => snd e <> []) m ->
  Forall (fun e => snd e <> []) (map_emplace_back k l m).
Proof.
  induction 1 as [|[k0 v0] m H0 Hm IH]; simpl; [constructor|].
  destruct (str_eqb k k0); constructor; auto.
  cbn [snd]. intros Hnil. apply app_eq_nil in Hnil.
  destruct Hnil as [_ Hnil]. discriminate Hnil.
Qed.

(** A first record under a key: the empty chain is inserted and the record
    appended to it. *)
Lemma map_emplace_back_fresh (k : bytes) (l : WordArticleLink)
    (m : IndexedWords) :
  map_find k m = None ->
  map_emplace_back k l (map_insert k [] m) = map_insert k [l] m.
Proof.
  induction m as [|[k0 v0] m IH]; intros Hnone; simpl.
  - now rewrite str_eqb_refl.
  - simpl in Hnone. unfold str_eqb in Hnone |- *.
    destruct (str_compare k k0) eqn:E; [discriminate| |].
    + simpl. unfold str_eqb. now rewrite str_compare_refl.
    + simpl. unfold str_eqb. rewrite E. f_equal. exact (IH Hnone).
Qed.

(** One turn of [addWord]: the keys stay ascending, no chain is left empty,
    and every chain keeps its records, the chain of the key getting at most
    one more, for the article [o]. *)
Lemma insertSuffix_keeps (word : wstring) (wordBegin wordSize nextChar : nat)
    (o : Z) (m : IndexedWords) :
  keys_ascending m ->
  let m' := insertSuffix word wordBegin wordSize nextChar o m in
  keys_ascending m'
  /\ (Forall (fun e => snd e <> []) m -> Forall (fun e => snd e <> []) m')
  /\ (forall k, exists s,
        chain_of k m' = chain_of k m ++ s
        /\ Forall (fun l => articleOffset l = o) s)
  /\ (nextChar = wordBegin ->
      In (suffixLink word wordBegin wordSize nextChar o)
         (chain_of (suffixKey word nextChar) m')).
Proof.
  intros Hasc. unfold insertSuffix. cbv zeta.
  set (key := suffixKey word nextChar).
  set (link := suffixLink word wordBegin wordSize nextChar o).
  assert (Hm1 : map_find key (map_insert key [] m) = Some (chain_of key m))
    by (apply map_insert_empty_find; exact Hasc).
  replace (chain_of key (map_insert key [] m)) with (chain_of key m)
    by (unfold chain_of at 2; now rewrite Hm1).
  assert (Hother : forall k, k <> key ->
             chain_of k (map_emplace_back key link (map_insert key [] m))
             = chain_of k m
             /\ chain_of k (map_insert key [] m) = chain_of k m).
  { intros k Hk. unfold chain_of.
    now rewrite map_emplace_back_other, map_insert_other by exact Hk. }
  destruct ((length (chain_of key m) <? 1024)%nat || (nextChar =? wordBegin)%nat)
    eqn:Econd.
  - (* the record is appended *)
    assert (Hkey : chain_of key (map_emplace_back key link (map_insert key [] m))
                   = chain_of key m ++ [link])
      by (unfold chain_of at 1; rewrite map_emplace_back_find, Hm1; reflexivity).
    split; [now apply map_emplace_back_ascending, map_insert_ascending|].
    split.
    { intros Hne. destruct (map_find key m) as [c|] eqn:Ef.
      - rewrite (map_insert_present key [] c m Hasc Ef).
        now apply Forall_map_emplace_back.
      - rewrite (map_emplace_back_fresh key link m Ef).
        apply Forall_map_insert; [exact Hne|discriminate]. }
    split.
    { intros k. destruct (list_eq_dec Z.eq_dec k key) as [->|Hk].
      - exists [link]. split; [exact Hkey|]. constructor; [reflexivity|constructor].
      - exists []. rewrite app_nil_r. split; [apply Hother, Hk|constructor]. }
    intros _. rewrite Hkey. apply in_or_app. right. now left.
  - (* the chain is full and this is a middle match *)
    apply orb_false_iff in Econd. destruct Econd as [Elen Enext].
    apply Nat.ltb_ge in Elen. apply Nat.eqb_neq in Enext.
    assert (Hsame : map_insert key [] m = m).
    { destruct (map_find key m) as [c|] eqn:Ef;
        [exact (map_insert_present key [] c m Hasc Ef)|].
      unfold chain_of in Elen. rewrite Ef in Elen. simpl in Elen. lia. }
    rewrite Hsame. split; [exact Hasc|]. split; [exact (fun H => H)|]. split.
    + intros k. exists []. rewrite app_nil_r. split; [reflexivity|constructor].
    + intros He. contradiction.
Qed.

Lemma addWord_loop_keeps (word : wstring) (wordBegin wordSize : nat) (o : Z) :
  forall (turns nextChar : nat) (m : IndexedWords),
    keys_ascending m ->
    let m' := addWord_loop turns word wordBegin wordSize o nextChar m in
    keys_ascending m'
    /\ (Forall (fun e => snd e <> []) m -> Forall (fun e => snd e <> []) m')
    /\ (forall k, exists s,
          chain_of k m' = chain_of k m ++ s
          /\ Forall (fun l => articleOffset l = o) s).
Proof.
  assert (Hrefl : forall m : IndexedWords,
             keys_ascending m ->
             keys_ascending m
             /\ (Forall (fun e => snd e <> []) m ->
                 Forall (fun e => snd e <> []) m)
             /\ (forall k, exists s,
                   chain_of k m = chain_of k m ++ s
                   /\ Forall (fun l => articleOffset l = o) s)).
  { intros m H. split; [exact H|]. split; [exact (fun H => H)|].
    intros k. exists []. rewrite app_nil_r. split; [reflexivity|constructor]. }
  induction turns as [|turns IH]; intros nextChar m Hasc; cbn [addWord_loop];
    [now apply Hrefl|].
  destruct (skipSeparators (skipn nextChar word) nextChar) as [tok|];
    [|now apply Hrefl].
  destruct (insertSuffix_keeps word wordBegin wordSize tok o m Hasc)
    as (Hasc1 & Hne1 & Hch1 & _).
  cbv zeta.
  destruct (skipToken (skipn (S tok) word) (S tok)) as [sep|].
  - destruct (IH sep _ Hasc1) as (Hasc2 & Hne2 & Hch2).
    split; [exact Hasc2|]. split; [auto|].
    intros k. destruct (Hch1 k) as (s1 & E1 & F1).
    destruct (Hch2 k) as (s2 & E2 & F2).
    exists (s1 ++ s2). rewrite E2, E1, app_assoc. split; [reflexivity|].
    apply Forall_app. auto.
  - split; [exact Hasc1|]. split; [exact Hne1|exact Hch1].
Qed.

(** X1.  [addWord] and [addSingleWord] keep the invariants of the word map:
    the keys stay strictly ascending (so unique), and no key is left with an
    empty chain. *)
Theorem IndexedWords_invariant (w : wstring) (o : Z) (m : IndexedWords) :
  keys_ascending m -> Forall (fun e => snd e <> []) m ->
  (keys_ascending (addWord w o m)
   /\ Forall (fun e => snd e <> []) (addWord w o m))
  /\ (keys_ascending (addSingleWord w o m)
      /\ Forall (fun e => snd e <> []) (addSingleWord w o m)).
Proof.
  intros Hasc Hne. split.
  - unfold addWord.
    destruct (addWord_loop_keeps w (skipLeadingWhitespace w)
                (trimTrailingWhitespace w (skipLeadingWhitespace w)
                   (length w - skipLeadingWhitespace w)) o
                (S (length w)) (skipLeadingWhitespace w) m Hasc)
      as (H1 & H2 & _).
    split; [exact H1|exact (H2 Hne)].
  - unfold addSingleWord. split; [now apply map_insert_ascending|].
    apply Forall_map_insert; [exact Hne|discriminate].
Qed.

(** X2.  [addWord( w, o )] only appends: the chain of every key keeps the
    records it had, in their order, and the records that come after them all
    carry the article offset [o]. *)
Theorem addWord_only_appends (w : wstring) (o : Z) (m : IndexedWords) :
  keys_ascending m ->
  forall k, exists s,
    chain_of k (addWord w o m) = chain_of k m ++ s
    /\ Forall (fun l => articleOffset l = o) s.
Proof.
  intros Hasc. unfold addWord.
  exact (proj2 (proj2 (addWord_loop_keeps w _ _ o _ _ m Hasc))).
Qed.

Lemma skipSeparators_none (rest : wstring) :
  forall i,
    forallb (fun c => Folding_isWhitespace c || Folding_isPunct c) rest = true ->
    skipSeparators rest i = None.
Proof.
  induction rest as [|c rest IH]; intros i H; [reflexivity|].
  cbn [forallb] in H. apply andb_true_iff in H. destruct H as [Hc Hr].
  cbn [skipSeparators]. destruct (c =? 0); [reflexivity|].
  apply orb_true_iff in Hc.
  replace (negb (Folding_isWhitespace c) && negb (Folding_isPunct c))
    with false by (destruct Hc as [-> | ->]; now rewrite ?andb_false_r).
  exact (IH _ Hr).
Qed.

Lemma forallb_skipn {A : Type} (f : A -> bool) (n : nat) (l : list A) :
  forallb f l = true -> forallb f (skipn n l) = true.
Proof.
  intros H. rewrite <- (firstn_skipn n l), forallb_app in H.
  apply andb_true_iff in H. exact (proj2 H).
Qed.

(** X3.  A headword made of whitespace and punctuation only, the empty
    headword included, is not indexed: [addWord] leaves the map as it is. *)
Theorem addWord_blank (w : wstring) (o : Z) (m : IndexedWords) :
  forallb (fun c => Folding_isWhitespace c || Folding_isPunct c) w = true ->
  addWord w o m = m.
Proof.
  intros H. unfold addWord. cbn [addWord_loop].
  now rewrite skipSeparators_none by (apply forallb_skipn; exact H).
Qed.

Lemma skipLeadingWhitespace_stop (w : wstring) (c : wchar) (rest : wstring) :
  skipn (skipLeadingWhitespace w) w = c :: rest -> c <> 0 ->
  Folding_isWhitespace c = false.
Proof.
  induction w as [|a w IH]; cbn [skipLeadingWhitespace]; [discriminate|].
  destruct (negb (a =? 0) && Folding_isWhitespace a) eqn:E.
  - cbn [skipn]. exact IH.
  - cbn [skipn]. intros [= -> ->] Hc. apply Z.eqb_neq in Hc.
    rewrite Hc in E. exact E.
Qed.

(** X4.  A headword that, after its leading whitespace, starts with a
    character that is not punctuation is indexed as a whole: after
    [addWord( w, o )] the chain of its folded key holds the record with the
    headword (leading and trailing whitespace removed), an empty prefix and
    the article offset [o], however long that chain already was. *)
Theorem addWord_whole_word (w : wstring) (o : Z) (m : IndexedWords)
    (c : wchar) (rest : wstring) :
  keys_ascending m ->
  skipn (skipLeadingWhitespace w) w = c :: rest ->
  c <> 0 -> Folding_isPunct c = false ->
  let wordBegin := skipLeadingWhitespace w in
  let wordSize := trimTrailingWhitespace w wordBegin (length w - wordBegin) in
  In (mkLink (Utf8_encode (firstn wordSize (skipn wordBegin w)))
             (Utf8_encode []) o)
     (chain_of (Utf8_encode (Folding_apply (cstr (skipn wordBegin w))))
               (addWord w o m)).
Proof.
  intros Hasc Hskip Hc Hp wordBegin wordSize.
  pose proof (skipLeadingWhitespace_stop w c rest Hskip Hc) as Hw.
  unfold addWord. fold wordBegin. fold wordSize. cbn [addWord_loop].
  fold wordBegin in Hskip. rewrite Hskip. cbn [skipSeparators].
  apply Z.eqb_neq in Hc. rewrite Hc, Hw, Hp. cbn [negb andb].
  rewrite <- Hskip.
  destruct (insertSuffix_keeps w wordBegin wordSize wordBegin o m Hasc)
    as (Hasc1 & _ & _ & Hin).
  specialize (Hin eq_refl). unfold suffixLink, suffixKey in Hin.
  rewrite Nat.sub_diag, Nat.sub_0_r in Hin. cbn [firstn] in Hin.
  destruct (skipToken (skipn (S wordBegin) w) (S wordBegin)) as [sep|];
    [|exact Hin].
  destruct (addWord_loop_keeps w wordBegin wordSize o (length w) sep _ Hasc1)
    as (_ & _ & Hch).
  destruct (Hch (Utf8_encode (Folding_apply (cstr (skipn wordBegin w)))))
    as (s & Hs & _).
  rewrite Hs. apply in_or_app. left. exact Hin.
Qed.

(** ** The tokens [addWord] visits *)













(** ** Maps the reader can search

    The lookups need entries whose key is the folding of the first word of
    the chain, and records that can be stored; [addSingleWord] and [addWord]
    make such entries when the codec round-trips and keeps strings free of
    NUL, and folding keeps strings free of NUL and ignores trailing
    whitespace. *)

Lemma nul_free_firstn (n : nat) (s : list Z) :
  nul_free s = true -> nul_free (firstn n s) = true.
Proof.
  unfold nul_free. intros H. rewrite <- (firstn_skipn n s), forallb_app in H.
  apply andb_true_iff in H. exact (proj1 H).
Qed.

Lemma nul_free_skipn (n : nat) (s : list Z) :
  nul_free s = true -> nul_free (skipn n s) = true.
Proof. apply forallb_skipn. Qed.

(** Appending a record to a chain keeps a well-formed entry well formed. *)
Lemma entry_ok_append (k : bytes) (c : chain) (l : WordArticleLink) :
  entry_ok (k, c) = true -> forallb link_ok c = true -> link_ok l = true ->
  entry_ok (k, c ++ [l]) = true /\ forallb link_ok (c ++ [l]) = true.
Proof.
  intros He Hc Hl. split.
  - unfold entry_ok in *. cbn [fst snd] in *.
    destruct (Utf8_decode k) as [fk|]; [|discriminate].
    destruct c as [|hd tl]; [discriminate|exact He].
  - rewrite forallb_app, Hc. cbn. now rewrite Hl.
Qed.

Lemma map_emplace_back_ok (k : bytes) (l : WordArticleLink) (m : IndexedWords) :
  Forall (fun e => entry_ok e = true /\ forallb link_ok (snd e) = true) m ->
  link_ok l = true ->
  Forall (fun e => entry_ok e = true /\ forallb link_ok (snd e) = true)
         (map_emplace_back k l m).
Proof.
  intros H Hl. induction H as [|[k0 v0] m [H0 H1] Hm IH]; cbn [map_emplace_back];
    [constructor|].
  destruct (str_eqb k k0); constructor; auto.
  exact (entry_ok_append k0 v0 l H0 H1 Hl).
Qed.

(** One turn of [addWord] keeps the entries well formed, when the record it
    makes can be stored and, as the first record of a chain, folds to the
    key. *)
Lemma insertSuffix_ok (word : wstring) (wordBegin wordSize nextChar : nat)
    (o : Z) (m : IndexedWords) :
  keys_ascending m ->
  Forall (fun e => entry_ok e = true /\ forallb link_ok (snd e) = true) m ->
  link_ok (suffixLink word wordBegin wordSize nextChar o) = true ->
  entry_ok (suffixKey word nextChar,
            [suffixLink word wordBegin wordSize nextChar o]) = true ->
  Forall (fun e => entry_ok e = true /\ forallb link_ok (snd e) = true)
         (insertSuffix word wordBegin wordSize nextChar o m).
Proof.
  intros Hasc Hm Hl He. unfold insertSuffix. cbv zeta.
  set (key := suffixKey word nextChar) in *.
  set (link := suffixLink word wordBegin wordSize nextChar o) in *.
  pose proof (map_insert_empty_find key m Hasc) as Hfind.
  destruct (map_find key m) as [c|] eqn:Ec.
  - rewrite (map_insert_present key [] c m Hasc Ec).
    destruct (_ || _); [|exact Hm].
    exact (map_emplace_back_ok key link m Hm Hl).
  - assert (Hlen : (length (chain_of key (map_insert key [] m)) <? 1024)%nat
                   = true).
    { unfold chain_of at 1. rewrite Hfind. unfold chain_of. now rewrite Ec. }
    rewrite Hlen. cbn [orb]. rewrite (map_emplace_back_fresh key link m Ec).
    apply Forall_map_insert; [exact Hm|]. split; [exact He|].
    cbn [snd forallb]. now rewrite Hl.
Qed.

Lemma trimTrailingWhitespace_spec (w : wstring) (b : nat) :
  forall n,
    (trimTrailingWhitespace w b n <= n)%nat
    /\ forall i, (trimTrailingWhitespace w b n <= i < n)%nat ->
                 Folding_isWhitespace (nth (b + i) w 0) = true.
Proof.
  induction n as [|n [IH1 IH2]]; cbn [trimTrailingWhitespace].
  - split; [lia|]. intros i Hi. lia.
  - destruct (Folding_isWhitespace (nth (b + n) w 0)) eqn:E.
    + split; [lia|]. intros i Hi.
      destruct (Nat.eq_dec i n) as [->|Hne]; [exact E|]. apply IH2. lia.
    + split; [lia|]. intros i Hi. lia.
Qed.

Lemma skipSeparators_some (rest : wstring) :
  forall i tok,
    skipSeparators rest i = Some tok ->
    (i <= tok)%nat
    /\ exists c, nth_error rest (tok - i) = Some c
                 /\ Folding_isWhitespace c = false.
Proof.
  induction rest as [|c rest IH]; intros i tok H; [discriminate|].
  cbn [skipSeparators] in H. destruct (c =? 0); [discriminate|].
  destruct (negb (Folding_isWhitespace c) && negb (Folding_isPunct c)) eqn:E.
  - injection H as <-. split; [lia|]. exists c. rewrite Nat.sub_diag.
    split; [reflexivity|]. apply andb_true_iff in E.
    now apply negb_true_iff.
  - destruct (IH _ _ H) as (Hle & c' & Hc' & Hw). split; [lia|].
    exists c'. split; [|exact Hw].
    replace (tok - i)%nat with (S (tok - S i)) by lia. exact Hc'.
Qed.

Lemma skipToken_some (rest : wstring) :
  forall i sep, skipToken rest i = Some sep -> (i <= sep)%nat.
Proof.
  induction rest as [|c rest IH]; intros i sep H; [discriminate|].
  cbn [skipToken] in H. destruct (c =? 0); [discriminate|].
  destruct (Folding_isWhitespace c || Folding_isPunct c).
  - injection H as <-. lia.
  - pose proof (IH _ _ H). lia.
Qed.

Lemma forallb_skipn_nth (f : Z -> bool) (a : nat) (w : list Z) :
  (forall j, (a <= j < length w)%nat -> f (nth j w 0) = true) ->
  forallb f (skipn a w) = true.
Proof.
  intros H. apply forallb_forall. intros c Hc.
  apply In_nth_error in Hc. destruct Hc as (i & Hi).
  rewrite nth_error_skipn in Hi.
  assert (a + i < length w)%nat by (apply nth_error_Some; congruence).
  rewrite <- (nth_error_nth _ _ 0 Hi). apply H. lia.
Qed.

(** The record [addWord] makes for the token at [tok] can be stored, and as
    the first record of a chain it folds to the key it is stored under. *)
Lemma suffix_entry_ok (w : wstring) (b tok : nat) (o : Z) :
  (forall x, Utf8_decode (Utf8_encode x) = Some x) ->
  (forall x, nul_free x = true -> nul_free (Utf8_encode x) = true) ->
  (forall x, nul_free x = true -> nul_free (Folding_apply x) = true) ->
  (forall x k, forallb Folding_isWhitespace (skipn k x) = true ->
               Folding_apply (firstn k x) = Folding_apply x) ->
  nul_free w = true -> 0 <= o < u32_modulus ->
  (b <= tok < length w)%nat ->
  Folding_isWhitespace (nth tok w 0) = false ->
  let size := trimTrailingWhitespace w b (length w - b) in
  link_ok (suffixLink w b size tok o) = true
  /\ entry_ok (suffixKey w tok, [suffixLink w b size tok o]) = true.
Proof.
  intros H1 H2 H3 H4 Hw Ho Htok Hws size.
  destruct (trimTrailingWhitespace_spec w b (length w - b)) as [Hle Htrail].
  fold size in Hle, Htrail.
  assert (Hin : (tok - b < size)%nat).
  { destruct (Nat.lt_ge_cases (tok - b) size) as [Hlt|Hge]; [exact Hlt|].
    specialize (Htrail (tok - b)%nat ltac:(lia)).
    replace (b + (tok - b))%nat with tok in Htrail by lia. congruence. }
  assert (Hs : nul_free (skipn tok w) = true) by now apply nul_free_skipn.
  split.
  - unfold link_ok, suffixLink. cbn [word prefix articleOffset].
    rewrite (H2 _ (nul_free_firstn _ _ Hs)).
    rewrite (H2 _ (nul_free_firstn _ _ (nul_free_skipn b w Hw))).
    cbn [andb]. apply andb_true_iff. split; [apply Z.leb_le|apply Z.ltb_lt]; lia.
  - unfold entry_ok, suffixKey, suffixLink. cbn [fst snd word].
    rewrite (cstr_nul_free _ Hs), !H1.
    rewrite str_eqb_refl, (H2 _ (H3 _ Hs)), (H3 _ Hs). cbn [andb].
    rewrite (cstr_nul_free _ (nul_free_firstn _ _ Hs)).
    rewrite H4; [apply str_eqb_refl|].
    rewrite skipn_skipn.
    apply forallb_skipn_nth. intros j Hj.
    specialize (Htrail (j - b)%nat ltac:(lia)).
    now replace (b + (j - b))%nat with j in Htrail by lia.
Qed.

Lemma addWord_loop_ok (w : wstring) (b : nat) (o : Z) :
  (forall x, Utf8_decode (Utf8_encode x) = Some x) ->
  (forall x, nul_free x = true -> nul_free (Utf8_encode x) = true) ->
  (forall x, nul_free x = true -> nul_free (Folding_apply x) = true) ->
  (forall x k, forallb Folding_isWhitespace (skipn k x) = true ->
               Folding_apply (firstn k x) = Folding_apply x) ->
  nul_free w = true -> 0 <= o < u32_modulus ->
  forall (turns nextChar : nat) (m : IndexedWords),
    (b <= nextChar)%nat -> keys_ascending m ->
    Forall (fun e => entry_ok e = true /\ forallb link_ok (snd e) = true) m ->
    Forall (fun e => entry_ok e = true /\ forallb link_ok (snd e) = true)
           (addWord_loop turns w b
              (trimTrailingWhitespace w b (length w - b)) o nextChar m).
Proof.
  intros H1 H2 H3 H4 Hw Ho.
  induction turns as [|turns IH]; intros nextChar m Hb Hasc Hm;
    cbn [addWord_loop]; [exact Hm|].
  destruct (skipSeparators (skipn nextChar w) nextChar) as [tok|] eqn:Etok;
    [|exact Hm].
  destruct (skipSeparators_some _ _ _ Etok) as (Hle & c & Hc & Hws).
  rewrite nth_error_skipn in Hc.
  replace (nextChar + (tok - nextChar))%nat with tok in Hc by lia.
  assert (Hlt : (tok < length w)%nat) by (apply nth_error_Some; congruence).
  rewrite <- (nth_error_nth _ _ 0 Hc) in Hws.
  destruct (suffix_entry_ok w b tok o H1 H2 H3 H4 Hw Ho ltac:(lia) Hws)
    as [Hl He].
  pose proof (insertSuffix_ok w b _ tok o m Hasc Hm Hl He) as Hm'.
  destruct (insertSuffix_keeps w b (trimTrailingWhitespace w b (length w - b))
              tok o m Hasc) as (Hasc' & _).
  destruct (skipToken (skipn (S tok) w) (S tok)) as [sep|] eqn:Esep;
    [|exact Hm'].
  pose proof (skipToken_some _ _ _ Esep).
  apply IH; [lia|exact Hasc'|exact Hm'].
Qed.

(** X20.  [addSingleWord] and [addWord] keep the map searchable: when the
    codec round-trips and keeps strings free of NUL, and folding keeps
    strings free of NUL and ignores trailing whitespace, then after adding a
    headword without NUL under an article offset of 32 bits every key is
    still the encoded folding of the first word of its chain, and every
    record can still be stored in a leaf.  (These are the conditions on the
    map the lookups on the index rely on.) *)
Theorem IndexedWords_searchable (w : wstring) (o : Z) (m : IndexedWords) :
  (forall x, Utf8_decode (Utf8_encode x) = Some x) ->
  (forall x, nul_free x = true -> nul_free (Utf8_encode x) = true) ->
  (forall x, nul_free x = true -> nul_free (Folding_apply x) = true) ->
  (forall x k, forallb Folding_isWhitespace (skipn k x) = true ->
               Folding_apply (firstn k x) = Folding_apply x) ->
  nul_free w = true -> 0 <= o < u32_modulus ->
  keys_ascending m -> forallb entry_ok m = true -> chains_ok m = true ->
  (forallb entry_ok (addSingleWord w o m) = true
   /\ chains_ok (addSingleWord w o m) = true)
  /\ (forallb entry_ok (addWord w o m) = true
      /\ chains_ok (addWord w o m) = true).
Proof.
  intros H1 H2 H3 H4 Hw Ho Hasc Hok Hch.
  assert (Hm : Forall (fun e => entry_ok e = true
                                /\ forallb link_ok (snd e) = true) m).
  { apply Forall_forall. intros e He. unfold chains_ok in Hch.
    rewrite forallb_forall in Hok, Hch. auto. }
  assert (Hback : forall m' : IndexedWords,
             Forall (fun e => entry_ok e = true
                              /\ forallb link_ok (snd e) = true) m' ->
             forallb entry_ok m' = true /\ chains_ok m' = true).
  { intros m' H. rewrite Forall_forall in H. unfold chains_ok.
    split; apply forallb_forall; intros e He; apply (H e He). }
  split; apply Hback.
  - unfold addSingleWord. apply Forall_map_insert; [exact Hm|]. split.
    + unfold entry_ok. cbn [fst snd word].
      rewrite !H1, str_eqb_refl, (H2 _ (H3 _ Hw)), (H3 _ Hw).
      cbn [andb]. rewrite (cstr_nul_free _ Hw). apply str_eqb_refl.
    + cbn [snd forallb]. unfold link_ok. cbn [word prefix articleOffset].
      rewrite (H2 _ Hw). cbn [nul_free forallb andb].
      rewrite andb_true_r. apply andb_true_iff.
      split; [apply Z.leb_le|apply Z.ltb_lt]; lia.
  - unfold addWord.
    apply (addWord_loop_ok w _ o H1 H2 H3 H4 Hw Ho); [lia|exact Hasc|exact Hm].
Qed.

Lemma map_emplace_back_links (Q : WordArticleLink -> Prop) (k : bytes)
    (l : WordArticleLink) (m : IndexedWords) :
  Forall (fun e => Forall Q (snd e)) m -> Q l ->
  Forall (fun e => Forall Q (snd e)) (map_emplace_back k l m).
Proof.
  intros H Hl. induction H as [|[k0 v0] m H0 Hm IH]; cbn [map_emplace_back];
    [constructor|].
  destruct (str_eqb k k0); constructor; auto.
  cbn [snd] in *. apply Forall_app. split; [exact H0|]. now constructor.
Qed.

Lemma addWord_loop_links (Q : WordArticleLink -> Prop) (w : wstring)
    (b size : nat) (o : Z) :
  (forall tok, Q (suffixLink w b size tok o)) ->
  forall (turns nextChar : nat) (m : IndexedWords),
    Forall (fun e => Forall Q (snd e)) m ->
    Forall (fun e => Forall Q (snd e))
           (addWord_loop turns w b size o nextChar m).
Proof.
  intros HQ. induction turns as [|turns IH]; intros nextChar m Hm;
    cbn [addWord_loop]; [exact Hm|].
  destruct (skipSeparators (skipn nextChar w) nextChar) as [tok|]; [|exact Hm].
  assert (Hm' : Forall (fun e => Forall Q (snd e))
                       (insertSuffix w b size tok o m)).
  { unfold insertSuffix. cbv zeta.
    assert (H1 : Forall (fun e => Forall Q (snd e))
                        (map_insert (suffixKey w tok) [] m))
      by (apply Forall_map_insert; [exact Hm|constructor]).
    destruct (_ || _); [|exact H1].
    apply map_emplace_back_links; [exact H1|apply HQ]. }
  destruct (skipToken (skipn (S tok) w) (S tok)) as [sep|]; [|exact Hm'].
  apply IH. exact Hm'.
Qed.

(** X21.  The records [addSingleWord] and [addWord] make can be decoded again
    by the readers: when the codec round-trips and encodes a concatenation as
    the concatenation of the encodings, [prefix + word] and [prefix] of every
    record of the map decode after the call if they did before it.  (So
    [findArticles] and the search requests do not throw [exCantDecode] on an
    index made from such a map.) *)
Theorem IndexedWords_decodable (w : wstring) (o : Z) (m : IndexedWords) :
  (forall x, Utf8_decode (Utf8_encode x) = Some x) ->
  (forall x y, Utf8_encode x ++ Utf8_encode y = Utf8_encode (x ++ y)) ->
  forallb (fun e => forallb decodable (snd e)) m = true ->
  forallb (fun e => forallb prefixDecodes (snd e)) m = true ->
  (forallb (fun e => forallb decodable (snd e)) (addSingleWord w o m) = true
   /\ forallb (fun e => forallb prefixDecodes (snd e)) (addSingleWord w o m)
      = true)
  /\ (forallb (fun e => forallb decodable (snd e)) (addWord w o m) = true
      /\ forallb (fun e => forallb prefixDecodes (snd e)) (addWord w o m)
         = true).
Proof.
  intros H1 Hcat Hd Hp.
  set (Q := fun l => decodable l = true /\ prefixDecodes l = true).
  assert (Hm : Forall (fun e => Forall Q (snd e)) m).
  { apply Forall_forall. intros e He. apply Forall_forall. intros l Hl.
    rewrite forallb_forall in Hd, Hp.
    specialize (Hd e He). specialize (Hp e He).
    rewrite forallb_forall in Hd, Hp. split; auto. }
  assert (Hback : forall m' : IndexedWords,
             Forall (fun e => Forall Q (snd e)) m' ->
             forallb (fun e => forallb decodable (snd e)) m' = true
             /\ forallb (fun e => forallb prefixDecodes (snd e)) m' = true).
  { intros m' H. rewrite Forall_forall in H.
    split; apply forallb_forall; intros e He; apply forallb_forall;
      intros l Hl; specialize (H e He); rewrite Forall_forall in H;
      apply (H l Hl). }
  assert (HQ : forall a b, Q (mkLink (Utf8_encode a) (Utf8_encode b) o)).
  { intros a b. unfold Q, decodable, prefixDecodes. cbn [word prefix].
    now rewrite Hcat, !H1. }
  split; apply Hback.
  - unfold addSingleWord. apply Forall_map_insert; [exact Hm|].
    cbn [snd]. constructor; [|constructor].
    unfold Q, decodable, prefixDecodes. cbn [word prefix app].
    rewrite H1.
    replace (@nil Z) with (Utf8_encode [] ++ Utf8_encode [])
      by (rewrite Hcat; cbn [app];
          destruct (Utf8_encode []) eqn:E; [reflexivity|];
          pose proof (Hcat [] []) as H0; cbn [app] in H0; rewrite E in H0;
          apply (f_equal (@length _)) in H0; rewrite length_app in H0;
          cbn in H0; lia).
    now rewrite Hcat, H1.
  - unfold addWord. apply addWord_loop_links; [|exact Hm].
    intros tok. unfold suffixLink. apply HQ.
Qed.

(** ** Round trips between the writer and the reader *)

(** X5.  [readChain] reads back a chain as the leaf writer of
    [buildBtreeNode] lays it out (the size word, then for every record the
    word, a NUL, the prefix, a NUL and the article offset): wherever the
    image lies in a buffer, the records come back in order and the pointer
    ends right after the image.  The records must be storable: no NUL in word
    or prefix, an offset of 32 bits, and an image below 2^32 bytes. *)
Theorem readChain_round_trip (before after : bytes) (ch : chain) :
  forallb link_ok ch = true ->
  len (chain_bytes ch) < u32_modulus ->
  readChain (before ++ chain_bytes ch ++ after) (len before)
  = Ok (ch, len before + len (chain_bytes ch)).
Proof.
  intros Hok Hlen.
  exact (readChain_at _ before after (len before) ch eq_refl eq_refl Hok Hlen).
Qed.

Lemma chain_ptrs_next (es : IndexedWords) :
  forall (p : Z) (i : nat) (e : bytes * chain) (q : Z),
    nth_error es i = Some e -> nth_error (chain_ptrs p es) i = Some q ->
    nth_error (chain_ptrs p es) (S i)
    = if (S i <? length es)%nat then Some (q + len (chain_bytes (snd e)))
      else None.
Proof.
  induction es as [|e0 es IH]; intros p i e q He Hq; [destruct i; discriminate|].
  destruct i as [|i].
  - injection He as ->. injection Hq as <-. cbn [chain_ptrs nth_error length].
    destruct es as [|e1 es]; reflexivity.
  - cbn [chain_ptrs nth_error] in *. rewrite (IH _ i e q He Hq).
    reflexivity.
Qed.


(** [readNode] at a node image, wherever it lies in the file. *)
Lemma readNode_image (f : File.Class) (a p c : bytes) :
  File.data f = a ++ node_image p ++ c ->
  len (File.data f) < u32_modulus -> len p < u32_modulus ->
  zlib_uncompress (zlib_compress p) = Some p ->
  readNode (len a) f
  = Ok (p, File.mk (File.data f) (len a + len (node_image p))).
Proof.
  intros Hd Hlen Hp Hz. unfold node_image in Hd.
  set (z := zlib_compress p) in *.
  pose proof (len_nonneg p). pose proof (len_nonneg z).
  pose proof (len_nonneg a). pose proof (len_nonneg c).
  assert (Hzl : len z < u32_modulus).
  { rewrite Hd in Hlen. rewrite !len_app, !len_put_u32 in Hlen. lia. }
  assert (E1 : File.data f = a ++ put_u32 (len p) ++ put_u32 (len z) ++ z ++ c)
    by (rewrite Hd; now rewrite <- !app_assoc).
  assert (E2 : File.data f
               = (a ++ put_u32 (len p)) ++ put_u32 (len z) ++ z ++ c)
    by (rewrite Hd; now rewrite <- !app_assoc).
  assert (E3 : File.data f
               = (a ++ put_u32 (len p) ++ put_u32 (len z)) ++ z ++ c)
    by (rewrite Hd; now rewrite <- !app_assoc).
  unfold readNode, File.seek, File.read_u32, File.read.
  cbn [File.data File.pos].
  rewrite (get_u32_at (File.data f) a _ (len a) (len p) E1 eq_refl) by lia.
  cbn [bind File.data File.pos].
  rewrite (get_u32_at (File.data f) _ _ (len a + 4) (len z) E2)
    by (rewrite ?len_app, ?len_put_u32; lia).
  cbn [bind File.data File.pos].
  rewrite (slice_at (File.data f) _ z c (len a + 4 + 4) (len z) E3)
    by (rewrite ?len_app, ?len_put_u32; lia).
  cbn [bind File.data File.pos]. fold z. rewrite Hz, Z.eqb_refl.
  f_equal. f_equal. f_equal. rewrite node_image_len. fold z. lia.
Qed.

(** X7.  What [buildBtreeNode] saves, [readNode] reads back.  Saving a node
    at the end of the file returns the offset it starts at and leaves the
    file at its new end; [readNode] at that offset returns the uncompressed
    data.  An internal node adds its image and nothing else.  A leaf is
    followed by a forward link that reads 0, [lastLeafLinkOffset] becomes the
    position of that link, and the link of the leaf before it, when there is
    one, now reads the offset of the new leaf. *)
Theorem saveNode_readNode (isLeaf : bool) (p : bytes) (f : File.Class)
    (last : Z) :
  File.pos f = len (File.data f) ->
  len p < u32_modulus ->
  len (File.data f) + len (node_image p) + 4 < u32_modulus ->
  zlib_uncompress (zlib_compress p) = Some p ->
  last = 0 \/ 0 < last /\ last + 4 <= len (File.data f) ->
  exists f' last' f1,
    saveNode isLeaf p f last = (len (File.data f), f', last')
    /\ File.pos f' = len (File.data f')
    /\ readNode (len (File.data f)) f' = Ok (p, f1)
    /\ (isLeaf = false ->
        last' = last /\ File.data f' = File.data f ++ node_image p)
    /\ (isLeaf = true ->
        (exists f2, File.read_u32 f1 = Ok (0, f2))
        /\ last' = File.pos f1
        /\ (last = 0 ->
            File.data f' = File.data f ++ node_image p ++ put_u32 0)
        /\ (last <> 0 ->
            get_u32 (File.data f') last = Some (len (File.data f)))).
Proof.
  intros Hpos Hp Hlen Hz Hlast.
  pose proof (len_nonneg (File.data f)) as HD.
  pose proof (node_image_len p) as HN.
  pose proof (len_nonneg (zlib_compress p)) as HZ.
  unfold saveNode. rewrite (write_node_at_end p f Hpos).
  unfold File.tell. rewrite Hpos, to_u32_small by lia.
  destruct isLeaf.
  - (* a leaf *)
    set (D4 := File.data f ++ node_image p ++ put_u32 0).
    assert (HD4 : len D4 = len (File.data f) + len (node_image p) + 4)
      by (unfold D4; rewrite !len_app, len_put_u32; lia).
    assert (Hw : File.write_u32 0
                   (File.mk (File.data f ++ node_image p)
                            (len (File.data f ++ node_image p)))
                 = File.mk D4 (len D4)).
    { unfold File.write_u32. rewrite write_at_end by reflexivity.
      cbn [File.data File.pos]. unfold D4. rewrite <- app_assoc.
      f_equal. rewrite !len_app. lia. }
    rewrite !Hw. cbn [File.pos].
    rewrite (to_u32_small (len D4)) by lia.
    rewrite (to_u32_small (len D4 - 4)) by lia.
    destruct Hlast as [->|[Hl0 Hl4]].
    + cbn [Z.eqb].
      eexists _, _, _. split; [reflexivity|]. split; [reflexivity|].
      cbn [File.data File.pos]. split.
      { apply (readNode_image _ (File.data f) p (put_u32 0)); cbn [File.data];
          [reflexivity|lia|exact Hp|exact Hz]. }
      split; [discriminate|]. intros _. cbn [File.pos File.data].
      split.
      { eexists. unfold File.read_u32. cbn [File.data File.pos].
        rewrite (get_u32_at D4 (File.data f ++ node_image p) [] _ 0);
          [reflexivity| | |unfold u32_modulus; lia].
        - unfold D4. now rewrite <- app_assoc.
        - rewrite len_app. lia. }
      split; [lia|]. split; [reflexivity|congruence].
    + replace (last =? 0) with false by (symmetry; apply Z.eqb_neq; lia).
      unfold File.write_u32, File.seek. cbn [File.data File.pos].
      rewrite write_inside
        by (cbn [File.data File.pos]; rewrite ?len_put_u32; lia).
      cbn [File.data File.pos].
      unfold D4. rewrite overwrite_app_l by (rewrite ?len_put_u32; lia).
      set (D' := overwrite (File.data f) last (put_u32 (len (File.data f)))).
      assert (HD' : len D' = len (File.data f))
        by (apply overwrite_len; rewrite ?len_put_u32; lia).
      eexists _, _, _. split; [reflexivity|]. cbn [File.data File.pos].
      split; [rewrite !len_app, HD', len_put_u32; lia|].
      split.
      { rewrite <- HD'.
        apply (readNode_image _ D' p (put_u32 0)); cbn [File.data];
          [reflexivity|rewrite !len_app, HD', len_put_u32; lia
          |exact Hp|exact Hz]. }
      split; [discriminate|]. intros _. cbn [File.pos File.data].
      split.
      { eexists. unfold File.read_u32. cbn [File.data File.pos].
        rewrite (get_u32_at _ (D' ++ node_image p) [] _ 0);
          [reflexivity| | |unfold u32_modulus; lia].
        - now rewrite <- app_assoc.
        - rewrite len_app, HD'. lia. }
      split; [fold D4; rewrite HD4; lia|]. split; [lia|]. intros _.
      apply (get_u32_at _ (firstn (Z.to_nat last) (File.data f))
               (skipn (Z.to_nat last + length (put_u32 (len (File.data f))))
                      (File.data f) ++ node_image p ++ put_u32 0));
        [|unfold len in *; rewrite length_firstn; lia|lia].
      unfold D', overwrite. now rewrite <- !app_assoc.
  - (* an internal node *)
    eexists _, _, _. split; [reflexivity|]. split; [reflexivity|].
    cbn [File.data File.pos]. split.
    { pose proof (readNode_image
                    (File.mk (File.data f ++ node_image p)
                             (len (File.data f ++ node_image p)))
                    (File.data f) p []) as Hr.
      cbn [File.data] in Hr. rewrite app_nil_r in Hr.
      apply Hr; [reflexivity|rewrite len_app; lia|exact Hp|exact Hz]. }
    split; [auto|discriminate].
Qed.

(** ** The index as a whole *)

(** X8.  [buildIndex] appends the index to the file: the bytes the file
    held (the header of the dictionary index) are still there, unchanged,
    the file is left positioned at its new end, and the root node lies in
    the appended part. *)
Theorem buildIndex_appends (m : IndexedWords) (file : File.Class)
    (info : IndexInfo) (file' : File.Class) :
  keys_ascending m ->
  raw_size BtreeMaxElements m < u32_modulus ->
  File.pos file = len (File.data file) ->
  buildIndex m file = Some (info, file') ->
  len (File.data file') < u32_modulus ->
  (exists added, File.data file' = File.data file ++ added)
  /\ firstn (length (File.data file)) (File.data file') = File.data file
  /\ File.pos file' = len (File.data file')
  /\ len (File.data file) <= rootOffset info
  /\ rootOffset info + 8 <= len (File.data file').
Proof.
  intros Hasc Hraw Hpos Hb Hsmall.
  destruct (buildIndex_ok m file info file' Hasc Hraw Hpos Hb Hsmall)
    as (_ & new & [Hd Hp] & Hsub & _).
  split; [eauto|]. split.
  { rewrite Hd, firstn_app, firstn_all, Nat.sub_diag. cbn [firstn].
    apply app_nil_r. }
  split; [exact Hp|].
  destruct (subtree_item _ _ _ _ _ _ _ Hsub) as (it & Hat).
  pose proof (item_at_bounds _ _ _ _ Hat) as [H1 H2].
  pose proof (item_size_min it).
  rewrite Hd, len_app, image_len. lia.
Qed.

Lemma nonEmptyKeys_idem (m : IndexedWords) :
  nonEmptyKeys (nonEmptyKeys m) = nonEmptyKeys m.
Proof.
  unfold nonEmptyKeys. induction m as [|e m IH]; [reflexivity|].
  cbn [filter]. destruct (hasKey e) eqn:E; [|exact IH].
  cbn [filter]. now rewrite E, IH.
Qed.

(** X9.  The entry under the empty key has no part in the index:
    [buildIndex] writes for a map what it writes for the map without that
    entry. *)
Theorem buildIndex_ignores_empty_key (m : IndexedWords) (file : File.Class) :
  keys_ascending m ->
  buildIndex m file = buildIndex (nonEmptyKeys m) file.
Proof.
  intros Hasc. unfold buildIndex.
  rewrite (skipEmptyWords_ascending m Hasc).
  rewrite (skipEmptyWords_ascending _ (keys_ascending_nonEmptyKeys m Hasc)).
  now rewrite nonEmptyKeys_idem.
Qed.

(** The quotient of a sum is the sum of the quotients, or one more. *)
Lemma div_add_bounds (a b d : Z) :
  0 < d -> 0 <= a -> 0 <= b ->
  a / d + b / d <= (a + b) / d <= a / d + b / d + 1.
Proof.
  intros Hd Ha Hb.
  pose proof (Z.div_mod a d ltac:(lia)). pose proof (Z.mod_pos_bound a d Hd).
  pose proof (Z.div_mod b d ltac:(lia)). pose proof (Z.mod_pos_bound b d Hd).
  pose proof (Z.div_mod (a + b) d ltac:(lia)).
  pose proof (Z.mod_pos_bound (a + b) d Hd).
  split; nia.
Qed.

(** X10.  An internal node splits its entries evenly: with [n] entries and
    fanout [F], every one of the [F + 1] children gets [n / (F + 1)] entries
    or one more, so the sizes of two children differ by at most one, and no
    child is empty. *)
Theorem child_sizes_balanced (n F x : Z) :
  1 <= F -> F + 1 < u32_modulus -> F + 1 <= n -> n < u32_modulus ->
  0 <= x <= F ->
  let before := if x =? 0 then 0 else curEntryOf n F (x - 1) in
  let upto := if x =? F then n else curEntryOf n F x in
  n / (F + 1) <= upto - before <= n / (F + 1) + 1
  /\ 1 <= upto - before.
Proof.
  intros HF HF2 Hn Hn2 Hx before upto.
  assert (Hq : 1 <= n / (F + 1)) by (apply Z.div_le_lower_bound; lia).
  assert (Hb : before = n * x / (F + 1)).
  { unfold before. destruct (Z.eqb_spec x 0) as [->|Hx0].
    - now rewrite Z.mul_0_r.
    - rewrite curEntryOf_cutPoint, cutPoint_inner by lia.
      f_equal. lia. }
  assert (Hu : upto = n * (x + 1) / (F + 1)).
  { unfold upto. destruct (Z.eqb_spec x F) as [->|HxF].
    - now rewrite Z.div_mul by lia.
    - rewrite curEntryOf_cutPoint, cutPoint_inner by lia. reflexivity. }
  rewrite Hb, Hu.
  replace (n * (x + 1)) with (n * x + n) by lia.
  pose proof (div_add_bounds (n * x) n (F + 1) ltac:(lia) ltac:(nia)
                ltac:(lia)). lia.
Qed.

Lemma cutPoint_slice_le (n F x : Z) :
  1 <= F -> F + 1 <= n -> 0 <= x <= F ->
  cutPoint n F x - cutPoint n F (x - 1) <= n / (F + 1) + 1.
Proof.
  intros HF Hn Hx.
  assert (Hprev : cutPoint n F (x - 1) = n * x / (F + 1)).
  { destruct (Z.eq_dec x 0) as [->|Hx0].
    - change (0 - 1) with (-1). now rewrite cutPoint_first, Z.mul_0_r.
    - rewrite cutPoint_inner by lia. f_equal. lia. }
  assert (Hcur : cutPoint n F x = n * (x + 1) / (F + 1)).
  { destruct (Z.eq_dec x F) as [->|HxF].
    - rewrite cutPoint_last by lia. now rewrite Z.div_mul by lia.
    - now rewrite cutPoint_inner by lia. }
  rewrite Hprev, Hcur. replace (n * (x + 1)) with (n * x + n) by lia.
  pose proof (div_add_bounds (n * x) n (F + 1) ltac:(lia) ltac:(nia)
                ltac:(lia)). lia.
Qed.

Lemma len_entries_between (es : IndexedWords) (a b : Z) :
  0 <= a -> a <= b -> b <= len es -> len (entries_between es a b) = b - a.
Proof.
  intros Ha Hab Hb. unfold entries_between.
  rewrite len_firstn; [reflexivity|]. rewrite len_skipn by lia. lia.
Qed.

(** X11.  "We try to stick to two-level tree": with the fanout [buildIndex]
    picks, the tree of fewer than 4096 * 4096 keys has at most two levels.
    The root is a leaf of all the entries, or an internal node whose
    [fanout + 1] children are all leaves, child [x] the leaf of the entries
    between the cut points [x - 1] and [x]. *)
Theorem buildIndex_two_levels (m : IndexedWords) (file : File.Class)
    (info : IndexInfo) (file' : File.Class) :
  keys_ascending m ->
  raw_size BtreeMaxElements m < u32_modulus ->
  File.pos file = len (File.data file) ->
  buildIndex m file = Some (info, file') ->
  len (File.data file') < u32_modulus ->
  len (nonEmptyKeys m) < 4096 * 4096 ->
  exists new,
    disk file' (File.data file) new
    /\ if len (nonEmptyKeys m) <=? btreeMaxElements info
       then item_at (len (File.data file)) new (rootOffset info)
                    (LeafI (nonEmptyKeys m))
       else exists offsets pivots,
           item_at (len (File.data file)) new (rootOffset info)
                   (NodeI offsets pivots)
           /\ len offsets = btreeMaxElements info + 1
           /\ forall x, 0 <= x <= btreeMaxElements info ->
                item_at (len (File.data file)) new
                  (nth (Z.to_nat x) offsets 0)
                  (LeafI (entries_between (nonEmptyKeys m)
                            (cutPoint (len (nonEmptyKeys m))
                                      (btreeMaxElements info) (x - 1))
                            (cutPoint (len (nonEmptyKeys m))
                                      (btreeMaxElements info) x))).
Proof.
  intros Hasc Hraw Hpos Hb Hsmall Hn.
  destruct (buildIndex_ok m file info file' Hasc Hraw Hpos Hb Hsmall)
    as (HF & new & Hd & Hsub & _).
  exists new. split; [exact Hd|].
  set (es := nonEmptyKeys m) in *. set (F := btreeMaxElements info) in *.
  pose proof (len_nonneg es) as Hes.
  assert (HFr : 64 <= F <= 4096 /\ Z.sqrt (len es) + 1 <= F).
  { rewrite HF, chooseMaxElements_clamp.
    assert (Z.sqrt (len es) < 4096)
      by (apply Z.sqrt_lt_square; lia).
    lia. }
  destruct HFr as [HFr Hsq].
  assert (HnF : len es < F * (F + 1)).
  { pose proof (Z.sqrt_spec (len es) Hes) as [_ Hs].
    pose proof (Z.sqrt_nonneg (len es)). unfold Z.succ in Hs. nia. }
  cbn [subtree] in Hsub.
  destruct (len es <=? F) eqn:Eleaf; [exact (proj1 Hsub)|].
  apply Z.leb_gt in Eleaf.
  destruct Hsub as (offsets & pivots & Hat & Ho & _ & _ & Hch).
  exists offsets, pivots. split; [exact Hat|]. split; [exact Ho|].
  intros x Hx. destruct (Hch x Hx) as (fx & Hsx & _).
  pose proof (cutPoint_range (len es) F (x - 1) ltac:(lia) ltac:(lia)
                ltac:(lia)).
  pose proof (cutPoint_range (len es) F x ltac:(lia) ltac:(lia) ltac:(lia)).
  pose proof (cutPoint_step (len es) F x ltac:(lia) ltac:(lia) Hx).
  pose proof (cutPoint_slice_le (len es) F x ltac:(lia) ltac:(lia) Hx) as Hle.
  assert (Hq : len es / (F + 1) < F)
    by (apply Z.div_lt_upper_bound; lia).
  destruct (length es) as [|h]; [destruct Hsx|].
  cbn [subtree] in Hsx. rewrite len_entries_between in Hsx by lia.
  replace (cutPoint (len es) F x - cutPoint (len es) F (x - 1) <=? F)
    with true in Hsx by (symmetry; apply Z.leb_le; lia).
  exact (proj1 Hsx).
Qed.

(** ** Lookups, for keys that are there and keys that are not *)

(** The binary search of a leaf ends for every target, and reports an exact
    match only at an entry whose key is the target. *)
Lemma searchChains_total (es : IndexedWords) (t : wstring) :
  searchable es -> len (leaf_body es) < u32_modulus ->
  forall (turns : nat) (w0 s : Z),
    0 <= w0 -> 0 < s -> w0 + s <= len es -> s <= Z.of_nat turns ->
    exists r,
      searchChains turns t (leaf_body es) (chain_ptrs 4 es) w0 s = Ok r
      /\ (forall p, r = ExactAt p -> exists e, In e es /\ dkey e = t).
Proof.
  intros Hs Hlen.
  assert (Hn32 : len es < u32_modulus).
  { rewrite leaf_body_len in Hlen. pose proof (chains_len_min es).
    unfold u32_modulus in *. lia. }
  induction turns as [|turns IH]; intros w0 s Hw0 Hs0 Hend Hturns; [lia|].
  cbn [searchChains].
  set (c := w0 + s / 2).
  assert (Hc : w0 <= c < w0 + s).
  { assert (0 <= s / 2 < s) by (split; [apply Z.div_pos|apply Z.div_lt]; lia).
    unfold c. lia. }
  destruct (nth_error es (Z.to_nat c)) as [e|] eqn:Ec.
  2:{ apply nth_error_None in Ec. unfold len in Hend. lia. }
  destruct (probe_chain es _ e Hs Hlen Ec)
    as (pc & v & n & w & Hp & Hv & Hd & Hf & _).
  unfold nth_chain.
  replace (0 <=? c) with true by (symmetry; apply Z.leb_le; lia).
  rewrite Hp. cbn [access bind]. rewrite Hv. cbn [access bind].
  rewrite Hd. cbn [bind]. rewrite Hf.
  destruct (str_compare t (dkey e)) eqn:Ecmp.
  - eexists. split; [reflexivity|]. intros p _. exists e.
    split; [exact (nth_error_In _ _ Ec)|].
    symmetry. now apply str_compare_eq.
  - destruct (s / 2 =? 0) eqn:Ez.
    + eexists. split; [reflexivity|]. discriminate.
    + apply Z.eqb_neq in Ez.
      assert (0 < s / 2 < s) by (unfold c in Hc; lia).
      apply IH; lia.
  - assert (Hrest : 0 <= s - (s / 2 + 1)) by (unfold c in Hc; lia).
    rewrite to_u32_small by lia.
    destruct (s - (s / 2 + 1) =? 0) eqn:Ez.
    + destruct (c =? len (chain_ptrs 4 es) - 1) eqn:Elast.
      * eexists. split; [reflexivity|]. discriminate.
      * apply Z.eqb_neq in Elast. unfold len in Elast.
        rewrite chain_ptrs_length in Elast.
        replace (0 <=? c + 1) with true by (symmetry; apply Z.leb_le; lia).
        destruct (nth_error (chain_ptrs 4 es) (Z.to_nat (c + 1))) as [p1|]
          eqn:E1.
        -- cbn [access bind]. eexists. split; [reflexivity|]. discriminate.
        -- apply nth_error_None in E1. rewrite chain_ptrs_length in E1.
           unfold len in Hend. lia.
    + apply Z.eqb_neq in Ez. apply IH; unfold c in *; lia.
Qed.

(** In a leaf the descent ends without an error for every target: the leaf
    is not empty or it is the root, and the next leaf, when the search runs
    past the last chain, can be read. *)
Lemma descend_leaf_total (fuel : nat) (t : wstring) (F root : Z)
    (f : File.Class) (es : IndexedWords) (off : Z) :
  searchable es -> len (leaf_body es) < u32_modulus ->
  es <> [] \/ off = root ->
  (off <> root ->
   exists nx f1,
     File.read_u32 f = Ok (nx, f1)
     /\ (nx <> 0 ->
         exists leaf' f2 nx' f3,
           readNode nx f1 = Ok (leaf', f2)
           /\ File.read_u32 f2 = Ok (nx', f3))) ->
  exists r f',
    descend (S fuel) t F root f (leaf_body es) off = Ok (r, f')
    /\ (exactMatch r = true -> exists e, In e es /\ dkey e = t).
Proof.
  intros Hs Hlen Hne Hread.
  assert (Hn : 0 <= len es < u32_modulus).
  { pose proof (len_nonneg es). rewrite leaf_body_len in Hlen.
    pose proof (chains_len_min es). unfold u32_modulus in *. lia. }
  cbn [descend].
  pose proof (leaf_count es [] Hlen) as Hc. rewrite app_nil_r in Hc.
  rewrite Hc. cbn [access bind].
  replace (len es =? 4294967295) with false
    by (symmetry; apply Z.eqb_neq; now apply leaf_not_marker).
  assert (Hlink : exists nx f1,
             (if off =? root then Ok (0, f) else File.read_u32 f)
             = Ok (nx, f1)
             /\ ((off =? root) = true -> nx = 0)
             /\ (nx <> 0 ->
                 exists leaf' f2 nx' f3,
                   readNode nx f1 = Ok (leaf', f2)
                   /\ File.read_u32 f2 = Ok (nx', f3))).
  { destruct (off =? root) eqn:Er.
    - exists 0, f. split; [reflexivity|]. split; [reflexivity|]. congruence.
    - apply Z.eqb_neq in Er. destruct (Hread Er) as (nx & f1 & H1 & H2).
      exists nx, f1. split; [exact H1|]. split; [discriminate|exact H2]. }
  destruct Hlink as (nx & f1 & -> & Hroot & Hnx). cbn [bind].
  destruct (len es =? 0) eqn:Ez.
  - apply Z.eqb_eq in Ez. apply len_zero_nil in Ez.
    destruct Hne as [Hne| ->]; [contradiction|].
    rewrite Z.eqb_refl. eexists _, _. split; [reflexivity|]. discriminate.
  - apply Z.eqb_neq in Ez.
    rewrite (chainPointers_leaf es Hlen). cbn [bind].
    replace (to_u32 (len (chain_ptrs 4 es))) with (len es)
      by (unfold len; rewrite chain_ptrs_length; symmetry;
          apply to_u32_small; unfold len in Hn; lia).
    destruct (searchChains_total es t Hs Hlen (S (length (chain_ptrs 4 es)))
                0 (len es) ltac:(lia) ltac:(lia) ltac:(lia)
                ltac:(rewrite chain_ptrs_length; unfold len; lia))
      as (r & Hr & Hex).
    rewrite Hr. cbn [bind]. destruct r as [p|p|].
    + eexists _, _. split; [reflexivity|]. intros _. exact (Hex p eq_refl).
    + eexists _, _. split; [reflexivity|]. discriminate.
    + destruct (nx =? 0) eqn:En.
      * eexists _, _. split; [reflexivity|]. discriminate.
      * apply Z.eqb_neq in En.
        destruct (Hnx En) as (leaf' & f2 & nx' & f3 & H1 & H2).
        rewrite H1. cbn [bind]. rewrite H2. cbn [bind].
        eexists _, _. split; [reflexivity|]. discriminate.
Qed.

Lemma In_entries_between (es : IndexedWords) (a b : Z) (e : bytes * chain) :
  0 <= a -> In e (entries_between es a b) -> In e es.
Proof.
  intros Ha H. apply In_nth_error in H. destruct H as (c & Hc).
  exact (nth_error_In _ _ (nth_error_between_inv es a b c e Ha Hc)).
Qed.

(** After a leaf the builder wrote, the forward link can be read, and the
    leaf it names, when it is not 0, can be read with its own link. *)
Lemma next_leaf_readable (f : File.Class) (d0 : bytes) (pre post : list item)
    (es : IndexedWords) :
  (forall p, zlib_uncompress (zlib_compress p) = Some p) ->
  File.data f = d0 ++ image (len d0) (pre ++ LeafI es :: post) ->
  len (File.data f) < u32_modulus ->
  Forall payload_small (pre ++ LeafI es :: post) ->
  exists nx f1,
    File.read_u32
      (File.mk (File.data f)
               (len d0 + items_size pre + len (node_image (leaf_body es))))
    = Ok (nx, f1)
    /\ (nx <> 0 ->
        exists leaf' f2 nx' f3,
          readNode nx f1 = Ok (leaf', f2)
          /\ File.read_u32 f2 = Ok (nx', f3)).
Proof.
  intros Hz Hd Hlen Hsm.
  rewrite (read_link_at f d0 pre post es Hd Hlen).
  eexists _, _. split; [reflexivity|]. intros Hnx.
  destruct (next_leaf_split post
              (len d0 + items_size pre + item_size (LeafI es)))
    as [[_ H0]|(nodes & es1 & post' & Hpost & _ & Hn)]; [contradiction|].
  rewrite Hn.
  assert (Hd' : File.data f
                = d0 ++ image (len d0)
                          ((pre ++ LeafI es :: nodes) ++ LeafI es1 :: post'))
    by (rewrite Hd, Hpost, <- app_assoc; reflexivity).
  assert (Hoff : len d0 + items_size pre + item_size (LeafI es)
                 + items_size nodes
                 = len d0 + items_size (pre ++ LeafI es :: nodes))
    by (rewrite items_size_app; cbn [items_size]; lia).
  rewrite Hoff.
  assert (Hs1 : payload_small (LeafI es1)).
  { rewrite Hpost in Hsm. apply Forall_app in Hsm. destruct Hsm as [_ Hsm].
    inversion Hsm as [|? ? _ Hsm']. apply Forall_app in Hsm'.
    destruct Hsm' as [_ Hsm']. now inversion Hsm'. }
  pose proof (readNode_at (File.mk (File.data f)
                             (len d0 + items_size pre
                              + item_size (LeafI es)))
                d0 (pre ++ LeafI es :: nodes) post' (LeafI es1) Hd' Hlen Hs1
                (Hz _)) as Hr.
  cbn [File.data payload_of] in Hr.
  eexists _, _, _, _. split; [exact Hr|].
  exact (read_link_at f d0 (pre ++ LeafI es :: nodes) post' es1 Hd' Hlen).
Qed.

(** The descent from the root of a tree the builder wrote ends without an
    error for every target, and reports an exact match only when the target
    is the key of an entry of the tree. *)
Lemma descend_total (d0 : bytes) (its : list item) (F root : Z) (t : wstring) :
  (forall p, zlib_uncompress (zlib_compress p) = Some p) ->
  len (d0 ++ image (len d0) its) < u32_modulus ->
  Forall payload_small its -> 1 <= F -> F + 1 < u32_modulus ->
  forall (h : nat) (off : Z) (es : IndexedWords) (first : Z),
    subtree h F (len d0) its off es first ->
    searchable es -> es <> [] \/ off = root ->
    forall (fuel : nat) (f : File.Class),
      File.data f = d0 ++ image (len d0) its ->
      (h + Z.to_nat F <= fuel)%nat ->
      exists r f',
        ('(leaf, f1) <- readNode off f ;;
         descend fuel t F root f1 leaf off) = Ok (r, f')
        /\ (exactMatch r = true -> exists e, In e es /\ dkey e = t).
Proof.
  intros Hz HD Hsm HF HF2.
  induction h as [|h IH]; intros off es first Hsub Hs Hne fuel f Hf Hfuel;
    [destruct Hsub|].
  destruct fuel as [|fuel]; [lia|].
  rewrite <- Hf in HD.
  cbn [subtree] in Hsub. destruct (len es <=? F) eqn:Eleaf.
  - (* a leaf *)
    destruct Hsub as [Hat _].
    destruct (readNode_item f d0 its off _ Hz Hf HD Hsm Hat) as [Hr Hsmall].
    rewrite Hr. cbn [bind payload_of].
    destruct Hat as (pre & post & Hits & Hoff).
    rewrite Hits in Hf, Hsm.
    destruct (next_leaf_readable f d0 pre post es Hz Hf HD Hsm)
      as (nx & f1 & Hlink).
    rewrite <- Hoff in Hlink.
    apply (descend_leaf_total fuel t F root _ es off Hs Hsmall Hne).
    intros _. exists nx, f1. exact Hlink.
  - (* an internal node *)
    apply Z.leb_gt in Eleaf.
    destruct Hsub as (offsets & pivots & Hat & Ho & Hp & Hpiv & Hch).
    destruct (readNode_item f d0 its off _ Hz Hf HD Hsm Hat) as [Hr Hsmall].
    rewrite Hr. cbn [bind payload_of].
    set (n := len es) in *.
    assert (Hcut : forall x, 0 <= x < F -> 0 <= cutPoint n F x < n).
    { intros x Hx.
      pose proof (cutPoint_range n F x HF ltac:(lia) ltac:(lia)).
      pose proof (cutPoint_below n F x HF ltac:(lia) ltac:(lia)). lia. }
    assert (Harea : pivot_area (node_payload offsets pivots)
                      (4 + 4 * len offsets) pivots).
    { apply (pivot_area_node es offsets pivots
               (fun j => cutPoint n F (Z.of_nat j)) Hs Hsmall).
      intros j Hj. unfold len in Hp.
      split; [apply Hcut; lia|].
      rewrite <- (Hpiv (Z.of_nat j)) by lia. now rewrite Nat2Z.id. }
    assert (Hoffs : forall x, 0 <= x <= F ->
               0 <= nth (Z.to_nat x) offsets 0 < u32_modulus).
    { intros x Hx. destruct (Hch x Hx) as (fx & Hsx & _).
      destruct (subtree_item _ _ _ _ _ _ _ Hsx) as (itx & Hatx).
      pose proof (item_at_bounds _ _ _ _ Hatx).
      pose proof (item_size_min itx). pose proof (len_nonneg d0).
      rewrite Hf, len_app, image_len in HD. lia. }
    destruct (descend_node fuel t F root
                (File.mk (File.data f)
                         (off + len (node_image (node_payload offsets pivots))))
                offsets pivots off Harea Ho Hp HF HF2 ltac:(lia) Hoffs)
      as (j & k & child & Hj & Ek & Hchild & _ & _ & Hstep).
    rewrite Hstep. clear Hstep.
    assert (Hcr : 0 <= child <= F).
    { unfold len in Hp. subst child.
      destruct (str_compare t (dkey (k, []))); lia. }
    destruct (Hch child Hcr) as (fx & Hsx & _).
    pose proof (cutPoint_range n F (child - 1) HF ltac:(lia) ltac:(lia)) as Ha.
    pose proof (cutPoint_range n F child HF ltac:(lia) ltac:(lia)) as Hb.
    pose proof (cutPoint_step n F child HF ltac:(lia) Hcr) as Hst.
    destruct (IH _ _ _ Hsx (searchable_between es _ _ (proj1 Ha) Hs))
      with (fuel := fuel)
           (f := File.mk (File.data f)
                   (off + len (node_image (node_payload offsets pivots))))
      as (r & f' & Hd & Hex).
    + left. intros Hnil.
      pose proof (len_entries_between es (cutPoint n F (child - 1))
                    (cutPoint n F child) (proj1 Ha) ltac:(lia)
                    (proj2 Hb)) as Hl.
      rewrite Hnil in Hl. change (len (@nil (bytes * chain))) with 0 in Hl.
      lia.
    + exact Hf.
    + lia.
    + exists r, f'. split; [exact Hd|]. intros He.
      destruct (Hex He) as (e & Hin & Hk). exists e.
      split; [exact (In_entries_between es _ _ e (proj1 Ha) Hin)|exact Hk].
Qed.

Lemma In_map_find (m : IndexedWords) (k : bytes) (c : chain) :
  In (k, c) m -> map_find k m <> None.
Proof.
  induction m as [|[k' c'] m IH]; [intros []|]. cbn [map_find].
  intros [H|H].
  - injection H as -> ->. now rewrite str_eqb_refl.
  - destruct (str_eqb k k'); [discriminate|exact (IH H)].
Qed.

(** X12.  Every chain stored under a non-empty key is read back whole.  On
    the index [buildIndex] wrote from a well-formed map, the lookup of the
    decoded key of an entry ends on an exact match, and [readChain] at the
    pointer it returns gives the chain of the entry, record for record, and
    the pointer past its bytes. *)
Theorem lookup_returns_stored_chain (m : IndexedWords) (file : File.Class)
    (info : IndexInfo) (file' : File.Class) (k : bytes) (c : chain)
    (t : wstring) :
  (forall p, zlib_uncompress (zlib_compress p) = Some p) ->
  (forall a b, str_compare (Utf8_encode a) (Utf8_encode b) = str_compare a b) ->
  keys_ascending m -> forallb entry_ok m = true -> chains_ok m = true ->
  raw_size BtreeMaxElements m < u32_modulus ->
  File.pos file = len (File.data file) ->
  buildIndex m file = Some (info, file') ->
  len (File.data file') < u32_modulus ->
  In (k, c) m -> k <> [] -> Utf8_decode k = Some t ->
  exists n, forall fuel, (n <= fuel)%nat ->
    exists r idx' p,
      findChainOffsetExactOrPrefix fuel t (openIndex info file')
        = Ok (r, idx')
      /\ exactMatch r = true /\ chainOffset r = Some p
      /\ readChain (leafBuf r) p = Ok (c, p + len (chain_bytes c)).
Proof.
  intros Hz Hord Hasc Hok Hch Hraw Hpos Hb Hsmall Hin Hk Ht.
  destruct (buildIndex_ok m file info file' Hasc Hraw Hpos Hb Hsmall)
    as (HF & new & [Hd _] & Hsub & _ & Hsm).
  pose proof (searchable_map m Hord Hasc Hok Hch) as Hs.
  assert (Hine : In (k, c) (nonEmptyKeys m)).
  { apply filter_In. split; [exact Hin|]. unfold hasKey. cbn [fst].
    destruct k; [congruence|reflexivity]. }
  apply In_nth_error in Hine. destruct Hine as (i & Hi).
  destruct Hs as [Hoks Hsorted]. destruct (Hoks i _ Hi) as [He _].
  destruct (entry_ok_inv _ He)
    as (fk & _ & _ & _ & Hdk & _ & _ & _ & _ & _ & _ & Hkey).
  cbn [fst] in Hdk. rewrite Ht in Hdk. injection Hdk as <-.
  assert (HFr : 64 <= btreeMaxElements info <= 4096)
    by (rewrite HF, chooseMaxElements_clamp; lia).
  exists (S (length (nonEmptyKeys m)) + Z.to_nat (btreeMaxElements info))%nat.
  intros fuel Hfuel.
  rewrite Hd in Hsmall.
  destruct (descend_finds (File.data file) new (btreeMaxElements info)
              (rootOffset info) t Hz Hsmall Hsm
              ltac:(lia) ltac:(unfold u32_modulus; lia) _ _ _ _ Hsub
              (conj Hoks Hsorted) i _ Hi Hkey fuel file' Hd Hfuel)
    as (r & f' & p & Hdesc & _ & Hex & Hp & Hrc).
  cbn [snd] in Hrc.
  apply bind_Ok in Hdesc. destruct Hdesc as ([leaf f1] & Hr & Hdesc).
  unfold findChainOffsetExactOrPrefix, openIndex.
  cbn [idxFile rootNodeLoaded idxRootOffset indexNodeSize].
  rewrite Hr. cbn [bind]. rewrite Hdesc. cbn [bind].
  eexists r, _, p. split; [reflexivity|]. split; [exact Hex|].
  split; [exact Hp|exact Hrc].
Qed.

(** X13.  A word whose folded key is not in the map is not found and
    nothing is raised: on the index [buildIndex] wrote from a well-formed
    map, [findArticles] returns the empty list for it. *)
Theorem findArticles_missing_key (m : IndexedWords) (file : File.Class)
    (info : IndexInfo) (file' : File.Class) (w : wstring) :
  (forall p, zlib_uncompress (zlib_compress p) = Some p) ->
  (forall a b, str_compare (Utf8_encode a) (Utf8_encode b) = str_compare a b) ->
  keys_ascending m -> forallb entry_ok m = true -> chains_ok m = true ->
  raw_size BtreeMaxElements m < u32_modulus ->
  File.pos file = len (File.data file) ->
  buildIndex m file = Some (info, file') ->
  len (File.data file') < u32_modulus ->
  map_find (Utf8_encode (Folding_apply w)) m = None ->
  exists n, forall fuel, (n <= fuel)%nat ->
    exists idx', findArticles fuel w (openIndex info file') = Ok ([], idx').
Proof.
  intros Hz Hord Hasc Hok Hch Hraw Hpos Hb Hsmall Hnone.
  destruct (buildIndex_ok m file info file' Hasc Hraw Hpos Hb Hsmall)
    as (HF & new & [Hd _] & Hsub & _ & Hsm).
  pose proof (searchable_map m Hord Hasc Hok Hch) as Hs.
  assert (HFr : 64 <= btreeMaxElements info <= 4096)
    by (rewrite HF, chooseMaxElements_clamp; lia).
  exists (S (length (nonEmptyKeys m)) + Z.to_nat (btreeMaxElements info))%nat.
  intros fuel Hfuel.
  rewrite Hd in Hsmall.
  destruct (descend_total (File.data file) new (btreeMaxElements info)
              (rootOffset info) (Folding_apply w) Hz Hsmall Hsm
              ltac:(lia) ltac:(unfold u32_modulus; lia) _ _ _ _ Hsub Hs
              (or_intror eq_refl) fuel file' Hd Hfuel)
    as (r & f' & Hdesc & Hex).
  assert (Hno : exactMatch r = false).
  { destruct (exactMatch r); [|reflexivity]. exfalso.
    destruct (Hex eq_refl) as ([k c] & Hin & Hk).
    apply filter_In in Hin. destruct Hin as [Hin _].
    rewrite forallb_forall in Hok.
    destruct (entry_ok_inv _ (Hok _ Hin))
      as (fk & _ & _ & _ & _ & _ & Henc & _ & _ & _ & _ & Hkey).
    cbn [fst] in Henc. rewrite Hk in Hkey. subst fk.
    rewrite Henc in Hnone. exact (In_map_find m k c Hin Hnone). }
  apply bind_Ok in Hdesc. destruct Hdesc as ([leaf f1] & Hr & Hdesc).
  unfold findArticles, findChainOffsetExactOrPrefix, openIndex.
  cbn [idxFile rootNodeLoaded idxRootOffset indexNodeSize].
  rewrite Hr. cbn [bind]. rewrite Hdesc. cbn [bind]. rewrite Hno.
  destruct (chainOffset r); eauto.
Qed.


(** ** [findArticles], for every query *)

(** The lookup of a folded query on the index written from a map ends on
    the chain of the key of the query, as an exact match, when the map has
    the key, and on no exact match when it has not. *)
Lemma lookup_cases (m : IndexedWords) (file : File.Class) (info : IndexInfo)
    (file' : File.Class) (q : wstring) :
  (forall p, zlib_uncompress (zlib_compress p) = Some p) ->
  (forall a b, str_compare (Utf8_encode a) (Utf8_encode b) = str_compare a b) ->
  keys_ascending m -> forallb entry_ok m = true -> chains_ok m = true ->
  raw_size BtreeMaxElements m < u32_modulus ->
  File.pos file = len (File.data file) ->
  buildIndex m file = Some (info, file') ->
  len (File.data file') < u32_modulus ->
  exists k, forall fuel, (k <= fuel)%nat ->
    exists r idx1,
      findChainOffsetExactOrPrefix fuel (Folding_apply q)
                                   (openIndex info file') = Ok (r, idx1)
      /\ match map_find (Utf8_encode (Folding_apply q)) (nonEmptyKeys m) with
         | Some c =>
             exactMatch r = true
             /\ exists p, chainOffset r = Some p
                  /\ readChain (leafBuf r) p
                     = Ok (c, p + len (chain_bytes c))
         | None => exactMatch r = false
         end.
Proof.
  intros Hz Hord Hasc Hok Hch Hraw Hpos Hb Hsmall.
  destruct (buildIndex_ok m file info file' Hasc Hraw Hpos Hb Hsmall)
    as (HF & new & [Hd _] & Hsub & _ & Hsm).
  pose proof (searchable_map m Hord Hasc Hok Hch) as Hs.
  assert (HFr : 64 <= btreeMaxElements info <= 4096)
    by (rewrite HF, chooseMaxElements_clamp; lia).
  exists (S (length (nonEmptyKeys m)) + Z.to_nat (btreeMaxElements info))%nat.
  intros fuel Hfuel.
  rewrite Hd in Hsmall.
  destruct (map_find (Utf8_encode (Folding_apply q)) (nonEmptyKeys m))
    as [c|] eqn:Hfind.
  - apply map_find_In in Hfind. apply In_nth_error in Hfind.
    destruct Hfind as (i & Hi).
    destruct (Hs) as [Hoks _]. destruct (Hoks i _ Hi) as [He _].
    destruct (entry_ok_inv _ He)
      as (fk & _ & _ & _ & _ & _ & Henc & _ & _ & _ & _ & Hk).
    cbn [fst] in Henc.
    assert (Hfk : fk = Folding_apply q).
    { apply str_compare_eq. rewrite <- Hord, Henc. apply str_compare_refl. }
    rewrite Hfk in Hk.
    destruct (descend_finds (File.data file) new (btreeMaxElements info)
                (rootOffset info) (Folding_apply q) Hz Hsmall Hsm
                ltac:(lia) ltac:(unfold u32_modulus; lia) _ _ _ _ Hsub Hs i _
                Hi Hk fuel file' Hd Hfuel)
      as (r & f' & p & Hdesc & _ & Hex & Hp & Hrc).
    cbn [snd] in Hrc.
    apply bind_Ok in Hdesc. destruct Hdesc as ([leaf f1] & Hr & Hdesc).
    unfold findChainOffsetExactOrPrefix, openIndex.
    cbn [idxFile rootNodeLoaded idxRootOffset indexNodeSize].
    rewrite Hr. cbn [bind]. rewrite Hdesc. cbn [bind].
    eexists r, _. split; [reflexivity|]. split; [exact Hex|].
    exists p. split; [exact Hp|exact Hrc].
  - destruct (descend_total (File.data file) new (btreeMaxElements info)
                (rootOffset info) (Folding_apply q) Hz Hsmall Hsm
                ltac:(lia) ltac:(unfold u32_modulus; lia) _ _ _ _ Hsub Hs
                (or_intror eq_refl) fuel file' Hd Hfuel)
      as (r & f' & Hdesc & Hex).
    assert (Hno : exactMatch r = false).
    { destruct (exactMatch r); [|reflexivity]. exfalso.
      destruct (Hex eq_refl) as ([k c] & Hin & Hk).
      assert (Hin' : In (k, c) m)
        by (apply filter_In in Hin; exact (proj1 Hin)).
      rewrite forallb_forall in Hok.
      destruct (entry_ok_inv _ (Hok _ Hin'))
        as (fk & _ & _ & _ & _ & _ & Henc & _ & _ & _ & _ & Hkey).
      cbn [fst] in Henc. rewrite Hk in Hkey. subst fk.
      rewrite Henc in Hfind. exact (In_map_find _ k c Hin Hfind). }
    apply bind_Ok in Hdesc. destruct Hdesc as ([leaf f1] & Hr & Hdesc).
    unfold findChainOffsetExactOrPrefix, openIndex.
    cbn [idxFile rootNodeLoaded idxRootOffset indexNodeSize].
    rewrite Hr. cbn [bind]. rewrite Hdesc. cbn [bind].
    eexists r, _. split; [reflexivity|exact Hno].
Qed.

(** No key of the entries the index is built from is empty. *)
Lemma map_find_empty_key (m : IndexedWords) :
  map_find [] (nonEmptyKeys m) = None.
Proof.
  unfold nonEmptyKeys. induction m as [|[k c] m IH]; [reflexivity|].
  cbn [filter]. unfold hasKey at 1. cbn [fst].
  destruct k as [|b k]; [exact IH|]. cbn [map_find]. exact IH.
Qed.


(** C1, amended.  Let the map be well formed (keys ascending; every key the
    NUL-free encoding of the folding of the first word of its chain; words
    and prefixes free of NUL, article offsets of 32 bits) and the codecs
    faithful (zlib round-trips, UTF-8 keeps the order of strings), the index
    file below 2^32 bytes.  If the link [addSingleWord( w, o )] inserts is
    in the chain of its folded key when [buildIndex] writes the index, the
    folded key is not empty, UTF-8 round-trips on [w] and the records of
    that chain decode, then [findArticles( w )] on the index written returns
    a list that contains the link with word [w] and article offset [o].  If
    the folded key is empty, [buildIndex] skips it and [findArticles( w )]
    returns the empty list: the link is not recoverable. *)
Theorem addSingleWord_round_trip (m : IndexedWords) (file : File.Class)
    (info : IndexInfo) (file' : File.Class) (w : wstring) (o : Z) :
  (forall p, zlib_uncompress (zlib_compress p) = Some p) ->
  (forall a b, str_compare (Utf8_encode a) (Utf8_encode b) = str_compare a b) ->
  keys_ascending m -> forallb entry_ok m = true -> chains_ok m = true ->
  raw_size BtreeMaxElements m < u32_modulus ->
  File.pos file = len (File.data file) ->
  buildIndex m file = Some (info, file') ->
  len (File.data file') < u32_modulus ->
  (Utf8_encode (Folding_apply w) <> [] ->
   Utf8_decode (Utf8_encode w) = Some w ->
   forall c,
     map_find (Utf8_encode (Folding_apply w)) m = Some c ->
     In (mkLink (Utf8_encode w) [] o) c ->
     forallb decodable c = true ->
     exists k, forall fuel, (k <= fuel)%nat ->
       exists res idx',
         findArticles fuel w (openIndex info file') = Ok (res, idx')
         /\ In (mkLink (Utf8_encode w) [] o) res)
  /\ (Utf8_encode (Folding_apply w) = [] ->
      exists k, forall fuel, (k <= fuel)%nat ->
        exists idx',
          findArticles fuel w (openIndex info file') = Ok ([], idx')).
Proof.
  intros Hz Hord Hasc Hok Hch Hraw Hpos Hb Hsmall. split.
  - intros Hkey Hdw c Hfind Hin Hdec.
    destruct (buildIndex_ok m file info file' Hasc Hraw Hpos Hb Hsmall)
      as (HF & new & [Hd _] & Hsub & _ & Hsm).
    pose proof (searchable_map m Hord Hasc Hok Hch) as Hs.
    (* the entry of the folded key *)
    assert (Hine : In (Utf8_encode (Folding_apply w), c) (nonEmptyKeys m)).
    { apply filter_In. split; [now apply map_find_In|].
      unfold hasKey. cbn [fst].
      destruct (Utf8_encode (Folding_apply w)); [congruence|reflexivity]. }
    apply In_nth_error in Hine. destruct Hine as (i & Hi).
    destruct (Hs) as [Hoks _]. destruct (Hoks i _ Hi) as [He _].
    destruct (entry_ok_inv _ He)
      as (fk & _ & _ & _ & _ & _ & Henc & _ & _ & _ & _ & Hk).
    cbn [fst] in Henc.
    assert (Hfk : fk = Folding_apply w).
    { apply str_compare_eq. rewrite <- Hord, Henc. apply str_compare_refl. }
    rewrite Hfk in Hk.
    assert (HFr : 64 <= btreeMaxElements info <= 4096)
      by (rewrite HF, chooseMaxElements_clamp; lia).
    exists (S (length (nonEmptyKeys m)) + Z.to_nat (btreeMaxElements info))%nat.
    intros fuel Hfuel.
    rewrite Hd in Hsmall.
    destruct (descend_finds (File.data file) new (btreeMaxElements info)
                (rootOffset info) (Folding_apply w) Hz Hsmall Hsm
                ltac:(lia) ltac:(unfold u32_modulus; lia) _ _ _ _ Hsub Hs i _
                Hi Hk fuel file' Hd Hfuel)
      as (r & f' & p & Hdesc & _ & Hex & Hp & Hrc).
    cbn [snd] in Hrc.
    destruct (findArticles_found fuel w info file' f' r p _ c Hdesc Hex Hp Hrc
                Hdec) as (idx' & Hfa).
    exists (antialiased w c), idx'. split; [exact Hfa|].
    unfold antialiased.
    change (mkLink (Utf8_encode w) [] o)
      with (merged (mkLink (Utf8_encode w) [] o)).
    apply in_map. apply filter_In. split; [exact Hin|].
    unfold survives. cbn [prefix word app]. rewrite Hdw. apply str_eqb_refl.
  - intros Hkey.
    destruct (lookup_cases m file info file' w Hz Hord Hasc Hok Hch Hraw Hpos
                Hb Hsmall) as [k Hk].
    exists k. intros fuel Hfuel.
    destruct (Hk fuel Hfuel) as (r & idx1 & Hl & Hcase).
    rewrite Hkey, map_find_empty_key in Hcase.
    unfold findArticles. rewrite Hl. cbn [bind]. rewrite Hcase.
    destruct (chainOffset r); eexists; reflexivity.
Qed.

(** ** Antialiasing *)

Lemma merged_shape (l : WordArticleLink) :
  prefix (merged l) = [] /\ word (merged l) = prefix l ++ word l
  /\ articleOffset (merged l) = articleOffset l.
Proof.
  unfold merged. destruct (prefix l) eqn:E; cbn [prefix word articleOffset].
  - rewrite E. auto.
  - auto.
Qed.

Lemma antialiased_fixed (q : wstring) (c : chain) :
  forallb decodable (antialiased q c) = forallb decodable (filter (survives q) c)
  /\ antialiased q (antialiased q c) = antialiased q c.
Proof.
  unfold antialiased. induction c as [|l c [IH1 IH2]]; [auto|].
  cbn [filter]. destruct (survives q l) eqn:Es; [|auto].
  destruct (merged_shape l) as (Hp & Hw & Ho).
  assert (Hcat : prefix (merged l) ++ word (merged l) = prefix l ++ word l)
    by (rewrite Hp, Hw; reflexivity).
  assert (Hs : survives q (merged l) = true)
    by (unfold survives in *; rewrite Hcat; exact Es).
  assert (Hm : merged (merged l) = merged l)
    by (unfold merged at 1; rewrite Hp; reflexivity).
  cbn [map forallb filter]. rewrite Hs. cbn [map]. rewrite Hm, IH1, IH2.
  split; [|reflexivity]. f_equal. unfold decodable. now rewrite Hcat.
Qed.

(** X14.  What [antialias] returns, when it returns: every record has an
    empty prefix and a word that is [prefix + word] of a record of the chain
    with the same article offset, and that word has the simple case folding
    of the query; no record is added; and antialiasing the result again for
    the same query changes nothing. *)
Theorem antialias_result (q : wstring) (c res : chain) :
  antialias q c = Ok res ->
  Forall (fun l =>
            prefix l = []
            /\ (exists l0, In l0 c /\ word l = prefix l0 ++ word l0
                           /\ articleOffset l = articleOffset l0)
            /\ exists w, Utf8_decode (word l) = Some w
                         /\ Folding_applySimpleCaseOnly w
                            = Folding_applySimpleCaseOnly q) res
  /\ (length res <= length c)%nat
  /\ antialias q res = Ok res.
Proof.
  rewrite antialias_spec. destruct (forallb decodable c) eqn:Hdec;
    [|discriminate].
  intros [= <-]. split; [|split].
  - apply Forall_forall. intros l Hl. unfold antialiased in Hl.
    apply in_map_iff in Hl. destruct Hl as (l0 & <- & Hl0).
    apply filter_In in Hl0. destruct Hl0 as [Hin Hs].
    destruct (merged_shape l0) as (Hp & Hw & Ho).
    split; [exact Hp|]. split; [exists l0; auto|].
    unfold survives in Hs. rewrite Hw.
    destruct (Utf8_decode (prefix l0 ++ word l0)) as [w|]; [|discriminate].
    exists w. split; [reflexivity|]. now apply str_eqb_true.
  - unfold antialiased. rewrite length_map. apply filter_length_le.
  - rewrite antialias_spec.
    destruct (antialiased_fixed q c) as [H1 H2]. rewrite H1, H2.
    assert (Hf : forallb decodable (filter (survives q) c) = true).
    { apply forallb_forall. intros l Hl. apply filter_In in Hl.
      rewrite forallb_forall in Hdec. exact (Hdec l (proj1 Hl)). }
    now rewrite Hf.
Qed.

(** ** Lookups and walks, for any target

    On an index the builder wrote, the descent ends on the first chain whose
    key is not below the target, and the forward walk steps from chain to
    chain and from leaf to leaf. *)

(** *** The leaves the builder writes *)

(** The child loop of an internal node, with the leaves it writes. *)
Lemma buildChildren_full
    (build : IndexedWords -> Z -> File.Class -> Z -> option built)
    (h : nat) (n F : Z) (ni : IndexedWords) (d0 : bytes) (its : list item) :
  (forall ni_c m f its_c last r,
      build ni_c m f last = Some r ->
      disk f d0 its_c -> last = last_link_offset (len d0) its_c ->
      0 <= m <= len ni_c -> m < n ->
      raw_size F (firstn (Z.to_nat m) ni_c) < u32_modulus ->
      len (File.data (file_of r)) < u32_modulus ->
      built_full h F d0 its_c ni_c m r) ->
  (forall ni_c m f l r,
      build ni_c m f l = Some r ->
      len (File.data f) <= len (File.data (file_of r))) ->
  1 <= F -> F + 1 < u32_modulus -> F + 1 <= n -> n <= len ni ->
  n < u32_modulus ->
  raw_size F (firstn (Z.to_nat n) ni) < u32_modulus ->
  forall k x f last offs piv pe' ni' f' last' offs' piv',
    x + Z.of_nat k = F -> 0 <= x ->
    buildChildren build k x (cutPoint n F (x - 1)) n F
                  (skipn (Z.to_nat (cutPoint n F (x - 1))) ni) f last offs piv
    = Some (pe', ni', f', last', offs', piv') ->
    len (File.data f') < u32_modulus ->
    children_full h F d0 its ni n x f last offs piv ->
    children_full h F d0 its ni n F f' last' offs' piv'
    /\ pe' = cutPoint n F (F - 1)
    /\ ni' = skipn (Z.to_nat (cutPoint n F (F - 1))) ni.
Proof.
  intros Hb Hmono HF HF2 HFn Hn Hn2 Hraw.
  induction k as [|k IH];
    intros x f last offs piv pe' ni' f' last' offs' piv' Hk Hx H Hsmall Hst.
  - assert (x = F) by lia. subst x. cbn in H.
    injection H as <- <- <- <- <- <-. auto.
  - cbn [buildChildren] in H.
    rewrite curEntryOf_cutPoint in H by lia.
    pose proof (cutPoint_step n F x HF HFn ltac:(lia)) as Hstep.
    pose proof (cutPoint_range n F (x - 1) HF HFn ltac:(lia)) as Ha.
    pose proof (cutPoint_below n F x HF HFn ltac:(lia)) as Hc.
    set (a := cutPoint n F (x - 1)) in *. set (c := cutPoint n F x) in *.
    rewrite to_u32_small in H by lia.
    destruct (build (skipn (Z.to_nat a) ni) (c - a) f last)
      as [[[[off ni1] f1] last1]|] eqn:E; [|discriminate].
    destruct ni1 as [|[key ch] rest] eqn:Eni1; [discriminate|].
    rewrite <- Eni1 in *.
    pose proof (buildChildren_data_len build Hmono _ _ _ _ _ _ _ _ _ _
                  _ _ _ _ _ _ H) as Hlen1.
    destruct Hst as (newx & Hd & Hl & Ho & Hp & Hx0 & Hpiv & Hsub & Hle & Hsm & Hw
                     & Hleaves).
    pose proof (Hb _ _ _ _ _ _ E Hd Hl) as Hok.
    cbn [file_of] in Hok.
    destruct Hok as (new1 & Hd1 & Hl1 & Hni1 & Hs1 & Hc1 & Hp1 & Hq1).
    { rewrite len_skipn by lia. lia. }
    { lia. }
    { eapply Z.le_lt_trans; [|exact Hraw]. apply raw_size_slice; lia. }
    { lia. }
    rewrite skipn_skipn_Z in Hni1 by lia.
    replace (a + (c - a)) with c in Hni1 by lia.
    assert (Hnth : nth (Z.to_nat c) ni ([], []) = (key, ch)).
    { rewrite (skipn_head (Z.to_nat c) ni ([], [])) in Hni1
        by (unfold len in *; lia).
      rewrite Eni1 in Hni1. now injection Hni1 as -> _. }
    specialize (IH (x + 1) f1 last1 (offs ++ [off]) (piv ++ [key])
                   pe' ni' f' last' offs' piv' ltac:(lia) ltac:(lia)).
    replace (x + 1 - 1) with x in IH by lia. fold c in IH.
    rewrite Hni1 in H.
    apply IH; [exact H|exact Hsmall|].
    exists (newx ++ new1).
    rewrite app_assoc. split; [exact Hd1|]. split; [exact Hl1|].
    split; [rewrite len_app; change (len [off]) with 1; lia|].
    split; [rewrite len_app; change (len [key]) with 1; lia|].
    split; [intros; lia|].
    split.
    { intros y Hy. destruct (Z.eq_dec y x) as [->|Hne].
      - rewrite nth_snoc_last by exact Hp.
        unfold key_at. fold c. now rewrite Hnth.
      - rewrite nth_snoc_before by lia. apply Hpiv. lia. }
    split.
    { intros y Hy. destruct (Z.eq_dec y x) as [->|Hne].
      - rewrite nth_snoc_last by exact Ho.
        exists (len d0 + items_size (its ++ newx)). split.
        + exact Hs1.
        + intros ->. rewrite (Hx0 eq_refl). now rewrite app_nil_r.
      - rewrite nth_snoc_before by lia.
        destruct (Hsub y ltac:(lia)) as (fy & Hsy & Hfy).
        exists fy. split; [now apply subtree_app|exact Hfy]. }
    split.
    { replace (x + 1 - 1) with x by lia. fold c.
      rewrite leaf_entries_app, concat_app, Hle, Hc1.
      fold a. rewrite firstn_app_slice by lia. f_equal. f_equal. lia. }
    split.
    { apply Forall_app. split; assumption. }
    split.
    { replace (x + 1 - 1) with x by lia. fold c.
      rewrite pivots_bytes_app.
      replace (Z.to_nat (c + 1)) with (S (Z.to_nat c)) by lia.
      rewrite entries_weight_firstn_succ by (unfold len in *; lia).
      rewrite Hnth. unfold entry_weight. cbn [fst snd].
      pose proof (entries_weight_firstn_mono (Z.to_nat (a + 1)) (Z.to_nat c) ni
                    ltac:(lia)).
      pose proof (len_nonneg (chain_bytes ch)). fold a in Hw. lia. }
    apply Forall_app. split; [exact Hleaves|apply Hq1; lia].
Qed.

(** What [buildBtreeNode] leaves in the file: the layout, and leaves that
    are not empty when there are entries to write. *)
Lemma buildBtreeNode_full (fuel : nat) (d0 : bytes) :
  forall ni n f F last its r,
    buildBtreeNode fuel ni n f F last = Some r ->
    disk f d0 its -> last = last_link_offset (len d0) its ->
    0 <= n <= len ni -> 1 <= F -> F + 1 < u32_modulus ->
    raw_size F (firstn (Z.to_nat n) ni) < u32_modulus ->
    len (File.data (file_of r)) < u32_modulus ->
    built_full fuel F d0 its ni n r.
Proof.
  induction fuel as [|fuel IH];
    intros ni n f F last its r H Hd Hl Hn HF HF2 Hraw Hsmall; [discriminate|].
  assert (Hn32 : n < u32_modulus).
  { unfold raw_size in Hraw.
    assert (entries_weight (firstn (Z.to_nat n) ni) >= len (firstn (Z.to_nat n) ni)).
    { generalize (firstn (Z.to_nat n) ni). intros l.
      induction l as [|e l IHl]; cbn [entries_weight];
        rewrite ?len_cons; [unfold len; simpl; lia|].
      pose proof (entry_weight_min e). lia. }
    rewrite len_firstn in * by lia. lia. }
  pose proof (len_nonneg d0) as Hd0. pose proof (items_size_nonneg its) as Hits.
  cbn [buildBtreeNode] in H.
  destruct (n <=? F) eqn:Eleaf.
  - (* a leaf *)
    rewrite to_u32_small in H by lia. rewrite take_entries_ok in H by lia.
    set (es := firstn (Z.to_nat n) ni) in *.
    assert (Hes : len es = n) by (unfold es; apply len_firstn; lia).
    assert (Hbody : len (leaf_body es) < u32_modulus).
    { pose proof (leaf_body_weight es). unfold raw_size in Hraw. lia. }
    rewrite <- Hes in H at 1.
    rewrite (leaf_payload_exact es Hbody) in H.
    pose proof (saveNode_leaf_len f d0 its es last Hd) as Hlen.
    destruct (saveNode true (leaf_body es) f last) as [[off f'] last'] eqn:Es.
    injection H as <-. cbn [file_of fst snd] in *.
    destruct (saveNode_leaf f d0 its es Hd ltac:(lia)) as (f'' & Es' & Hd').
    rewrite <- Hl in Es'. rewrite Es in Es'. injection Es' as -> <- ->.
    exists [LeafI es].
    split; [exact Hd'|]. split.
    { unfold last_link_offset. now rewrite last_link_app_leaf. }
    split; [reflexivity|]. split.
    { fold es. cbn [subtree]. rewrite Hes, Eleaf.
      split; [apply item_at_last|reflexivity]. }
    split; [cbn; now rewrite app_nil_r|].
    split; [constructor; [exact Hbody|constructor]|].
    intros Hpos. constructor; [|constructor].
    revert Hes. generalize es. intros [|e l] Hes'; [|exact I].
    rewrite len_nil in Hes'. lia.
  - (* an internal node *)
    apply Z.leb_gt in Eleaf.
    destruct (buildChildren _ _ _ _ _ _ _ _ _ _ _)
      as [[[[[[pe ni1] f1] last1] offs] piv]|] eqn:E; [|discriminate].
    destruct (buildBtreeNode fuel ni1 _ f1 F last1)
      as [[[[off ni2] f2] last2]|] eqn:E2; [|discriminate].
    pose proof (saveNode_data_len false (node_payload (offs ++ [off]) piv)
                  f2 last2) as Hlen3.
    destruct (saveNode false _ f2 last2) as [[off' f'] last'] eqn:Es.
    injection H as <-. cbn [file_of fst snd] in *.
    pose proof (buildBtreeNode_data_len _ _ _ _ _ _ _ E2) as Hlen2.
    cbn [file_of] in Hlen2.
    pose proof (cutPoint_step n F F HF ltac:(lia) ltac:(lia)) as Hstep.
    pose proof (cutPoint_range n F (F - 1) HF ltac:(lia) ltac:(lia)) as Ha.
    rewrite cutPoint_last in Hstep by lia.
    (* the children before the rightmost *)
    destruct (buildChildren_full
                (fun ni0 n0 f0 l0 => buildBtreeNode fuel ni0 n0 f0 F l0)
                fuel n F ni d0 its) with
        (k := Z.to_nat F) (x := 0) (f := f) (last := last)
        (offs := @nil Z) (piv := @nil (list Z))
        (pe' := pe) (ni' := ni1) (f' := f1) (last' := last1)
        (offs' := offs) (piv' := piv)
      as (Hch & Hpe & Hni1); try lia.
    { intros ni_c m f0 its_c last0 r0 H0 Hd0' Hl0 Hm Hmn Hr Hs.
      eapply IH; eauto. }
    { intros ni_c m f0 l0 r0 H0. eapply buildBtreeNode_data_len; eauto. }
    { exact E. }
    { exists []. rewrite app_nil_r.
      split; [exact Hd|]. split; [exact Hl|].
      split; [reflexivity|]. split; [reflexivity|]. split; [reflexivity|].
      split; [intros; lia|]. split; [intros; lia|].
      split; [reflexivity|]. split; [constructor|].
      split; [cbn; apply entries_weight_nonneg|constructor]. }
    subst pe ni1.
    destruct Hch as (newF & HdF & HlF & Ho & Hp & _ & Hpiv & Hsub & Hle & Hsm & Hw
                     & HneF).
    set (a := cutPoint n F (F - 1)) in *.
    rewrite to_u64_small in E2 by (unfold u32_modulus in *; lia).
    (* the rightmost child *)
    pose proof (IH _ _ _ _ _ _ _ E2 HdF HlF) as Hr.
    cbn [file_of] in Hr.
    destruct Hr as (new2 & Hd2 & Hl2 & Hni2 & Hs2 & Hc2 & Hp2 & Hq2).
    { rewrite len_skipn by lia. lia. }
    { exact HF. }
    { exact HF2. }
    { eapply Z.le_lt_trans; [|exact Hraw]. apply raw_size_slice; lia. }
    { lia. }
    rewrite skipn_skipn_Z in Hni2 by lia.
    replace (a + (n - a)) with n in Hni2 by lia.
    (* the node itself *)
    destruct (saveNode_internal f2 d0 ((its ++ newF) ++ new2) (offs ++ [off])
                piv last2 Hd2) as (f'' & Es' & Hd').
    rewrite Es in Es'. injection Es' as -> <-.
    pose proof (disk_len _ _ _ Hd') as Hlen'.
    rewrite items_size_app in Hlen'. cbn [items_size] in Hlen'.
    pose proof (item_size_min (NodeI (offs ++ [off]) piv)) as Hmin.
    pose proof (items_size_nonneg ((its ++ newF) ++ new2)) as Hsz.
    rewrite to_u32_small by lia.
    exists (newF ++ new2 ++ [NodeI (offs ++ [off]) piv]).
    replace (its ++ newF ++ new2 ++ [NodeI (offs ++ [off]) piv])
      with (((its ++ newF) ++ new2) ++ [NodeI (offs ++ [off]) piv])
      by (now rewrite <- !app_assoc).
    split; [exact Hd'|]. split.
    { subst last' last2. unfold last_link_offset.
      now rewrite last_link_app_node. }
    split; [exact Hni2|].
    assert (Hlen_es : len (firstn (Z.to_nat n) ni) = n)
      by (apply len_firstn; lia).
    split.
    { cbn [subtree]. rewrite Hlen_es.
      replace (n <=? F) with false by (symmetry; apply Z.leb_gt; lia).
      exists (offs ++ [off]), piv.
      split; [apply item_at_last|].
      split; [rewrite len_app; change (len [off]) with 1; lia|].
      split; [exact Hp|].
      split.
      { intros x Hx. rewrite Hpiv by exact Hx.
        symmetry. apply key_at_firstn.
        pose proof (cutPoint_range n F x HF ltac:(lia) ltac:(lia)).
        pose proof (cutPoint_below n F x HF ltac:(lia) ltac:(lia)). lia. }
      intros x Hx.
      pose proof (cutPoint_step n F x HF ltac:(lia) Hx) as Hsx.
      pose proof (cutPoint_range n F (x - 1) HF ltac:(lia) ltac:(lia)) as Hax.
      pose proof (cutPoint_range n F x HF ltac:(lia) ltac:(lia)) as Hcx.
      rewrite entries_between_firstn by lia.
      destruct (Z.eq_dec x F) as [->|Hne].
      - rewrite nth_snoc_last by exact Ho.
        exists (len d0 + items_size (its ++ newF)). split; [|intros; lia].
        rewrite cutPoint_last by lia. fold a. unfold entries_between.
        now apply subtree_app.
      - rewrite nth_snoc_before by lia.
        destruct (Hsub x ltac:(lia)) as (fx & Hsx' & Hfx).
        exists fx. split; [|exact Hfx].
        apply subtree_app. now apply subtree_app. }
    split.
    { rewrite !leaf_entries_app, !concat_app, Hle, Hc2. cbn [leaf_entries concat].
      rewrite app_nil_r. fold a. rewrite firstn_app_slice by lia.
      f_equal. f_equal. lia. }
    split.
    { apply Forall_app. split; [exact Hsm|].
      apply Forall_app. split; [exact Hp2|].
      constructor; [|constructor].
      unfold payload_small. cbn [payload_of]. rewrite node_payload_len.
      rewrite len_app. change (len [off]) with 1. rewrite Ho.
      pose proof (entries_weight_firstn_mono (Z.to_nat (a + 1)) (Z.to_nat n) ni
                    ltac:(lia)).
      unfold raw_size in Hraw. fold a in Hw. lia. }
    intros _. apply Forall_app. split; [exact HneF|].
    apply Forall_app. split; [apply Hq2; lia|].
    constructor; [exact I|constructor].
Qed.

(** The index [buildIndex] writes, with its leaves. *)
Lemma buildIndex_full (m : IndexedWords) (file : File.Class) (info : IndexInfo)
    (file' : File.Class) :
  keys_ascending m ->
  raw_size BtreeMaxElements m < u32_modulus ->
  File.pos file = len (File.data file) ->
  buildIndex m file = Some (info, file') ->
  len (File.data file') < u32_modulus ->
  exists new,
    disk file' (File.data file) new
    /\ subtree (S (length (nonEmptyKeys m))) (btreeMaxElements info)
               (len (File.data file)) new (rootOffset info)
               (nonEmptyKeys m) (len (File.data file))
    /\ concat (leaf_entries new) = nonEmptyKeys m
    /\ Forall payload_small new
    /\ (nonEmptyKeys m <> [] -> Forall leaf_nonempty new).
Proof.
  intros Hasc Hraw Hpos Hb Hsmall.
  destruct (buildIndex_total m file Hasc Hraw)
    as (root & f' & last' & Hn & Hb').
  rewrite Hb in Hb'. injection Hb' as -> ->. cbn [btreeMaxElements rootOffset].
  set (es := nonEmptyKeys m) in *. set (F := chooseMaxElements (len es)) in *.
  assert (HF : 64 <= F <= 4096)
    by (unfold F; rewrite chooseMaxElements_clamp; lia).
  pose proof (len_nonneg es) as Hes.
  pose proof (buildBtreeNode_full _ (File.data file) _ _ _ _ _ [] _ Hn
                (disk_empty file Hpos) eq_refl) as Hok.
  destruct Hok as (new & Hd & _ & _ & Hsub & Hle & Hsm & Hne).
  - lia.
  - lia.
  - unfold u32_modulus. lia.
  - rewrite firstn_len. pose proof (entries_weight_nonEmptyKeys m).
    unfold raw_size, BtreeMaxElements in *. fold es in H. lia.
  - exact Hsmall.
  - rewrite firstn_len in *. cbn [app items_size] in *.
    rewrite Z.add_0_r in Hsub. exists new.
    split; [exact Hd|]. split; [exact Hsub|]. split; [exact Hle|].
    split; [exact Hsm|]. intros Hnil. apply Hne.
    destruct es; [congruence|]. rewrite len_cons. pose proof (len_nonneg es).
    lia.
Qed.

(** *** Strings that start with the target *)

Lemma startsWith_app (x t : wstring) :
  startsWith x t = true <-> exists s, x = t ++ s.
Proof.
  unfold startsWith. split.
  - intros H. apply andb_true_iff in H. destruct H as [_ H].
    apply str_eqb_true in H. exists (skipn (length t) x).
    rewrite <- H at 1. symmetry. apply firstn_skipn.
  - intros (s & ->). apply andb_true_iff. split.
    + apply Z.leb_le. rewrite len_app. pose proof (len_nonneg s). lia.
    + apply str_eqb_true. rewrite firstn_app, Nat.sub_diag, firstn_all.
      cbn [firstn]. now rewrite app_nil_r.
Qed.

(** A string that starts with the target is not below it. *)
Lemma startsWith_not_below (t : wstring) :
  forall x, startsWith x t = true -> str_compare t x <> Gt.
Proof.
  intros x H. apply startsWith_app in H. destruct H as (s & ->).
  induction t as [|c t IH]; cbn [app str_compare].
  - destruct s; discriminate.
  - rewrite Z.compare_refl. exact IH.
Qed.

(** Between the target and a string that starts with it, every string
    starts with it. *)
Lemma startsWith_between (t : wstring) :
  forall x y, str_compare t x <> Gt -> str_compare x y = Lt ->
              startsWith y t = true -> startsWith x t = true.
Proof.
  intros x y Htx Hxy Hy. apply startsWith_app in Hy. destruct Hy as (s & ->).
  apply startsWith_app. revert x Htx Hxy.
  induction t as [|c t IH]; intros x Htx Hxy; [exists x; reflexivity|].
  destruct x as [|d x]; [cbn in Htx; congruence|].
  cbn [app str_compare] in Htx, Hxy.
  destruct (c ?= d) eqn:Ecd.
  - apply Z.compare_eq in Ecd. subst d. rewrite Z.compare_refl in Hxy.
    destruct (IH x Htx Hxy) as (s' & ->). exists s'. reflexivity.
  - rewrite Z.compare_antisym, Ecd in Hxy. cbn in Hxy. discriminate.
  - congruence.
Qed.

(** Entries a search can run over, around a place compared with the
    target. *)
Lemma sorted_below (es : IndexedWords) (t : wstring) (c i : nat)
    (ec ei : bytes * chain) :
  searchable es -> nth_error es c = Some ec -> str_compare t (dkey ec) <> Lt ->
  (i < c)%nat -> nth_error es i = Some ei -> str_compare t (dkey ei) = Gt.
Proof.
  intros Hs Hc Hcmp Hi Hei.
  pose proof (proj2 Hs i c ei ec Hi Hei Hc) as Hlt.
  apply str_compare_gt_lt.
  destruct (str_compare t (dkey ec)) eqn:E; [| congruence |].
  - apply str_compare_eq in E. now subst t.
  - apply str_compare_gt_lt in E. exact (str_compare_lt_trans _ _ _ Hlt E).
Qed.

Lemma sorted_above (es : IndexedWords) (t : wstring) (c i : nat)
    (ec ei : bytes * chain) :
  searchable es -> nth_error es c = Some ec -> str_compare t (dkey ec) = Lt ->
  (c <= i)%nat -> nth_error es i = Some ei -> str_compare t (dkey ei) = Lt.
Proof.
  intros Hs Hc Hcmp Hi Hei.
  destruct (Nat.eq_dec c i) as [->|Hne]; [congruence|].
  pose proof (proj2 Hs c i ec ei ltac:(lia) Hc Hei) as Hlt.
  exact (str_compare_lt_trans _ _ _ Hcmp Hlt).
Qed.

(** *** The binary search of a leaf, for any target

    The search ends on the first chain whose key is not below the target,
    or runs past the last chain when every key is below it. *)
Lemma searchChains_lower (es : IndexedWords) (t : wstring) :
  searchable es -> len (leaf_body es) < u32_modulus ->
  forall (turns : nat) (w0 s : Z),
    0 <= w0 -> 0 < s -> w0 + s <= len es -> s <= Z.of_nat turns ->
    (forall i e, Z.of_nat i < w0 -> nth_error es i = Some e ->
                 str_compare t (dkey e) = Gt) ->
    (forall i e, w0 + s <= Z.of_nat i -> nth_error es i = Some e ->
                 str_compare t (dkey e) = Lt) ->
    exists r,
      searchChains turns t (leaf_body es) (chain_ptrs 4 es) w0 s = Ok r
      /\ match r with
         | PastLastChain =>
             forall i e, nth_error es i = Some e -> str_compare t (dkey e) = Gt
         | ExactAt p | PrefixAt p =>
             exists j e,
               nth_error (chain_ptrs 4 es) j = Some p
               /\ nth_error es j = Some e
               /\ str_compare t (dkey e) <> Gt
               /\ forall i e', (i < j)%nat -> nth_error es i = Some e' ->
                               str_compare t (dkey e') = Gt
         end.
Proof.
  intros Hs Hlen.
  assert (Hn32 : len es < u32_modulus).
  { rewrite leaf_body_len in Hlen. pose proof (chains_len_min es).
    unfold u32_modulus in *. lia. }
  pose proof (fun c ec i ei => sorted_below es t c i ec ei Hs) as Hbelow.
  pose proof (fun c ec i ei => sorted_above es t c i ec ei Hs) as Habove.
  induction turns as [|turns IH]; intros w0 s Hw0 Hs0 Hend Hturns Hlo Hhi;
    [lia|].
  cbn [searchChains].
  set (c := w0 + s / 2).
  assert (Hc : w0 <= c < w0 + s).
  { assert (0 <= s / 2 < s) by (split; [apply Z.div_pos|apply Z.div_lt]; lia).
    unfold c. lia. }
  destruct (nth_error es (Z.to_nat c)) as [e|] eqn:Ec.
  2:{ apply nth_error_None in Ec. unfold len in Hend. lia. }
  destruct (probe_chain es _ e Hs Hlen Ec)
    as (pc & v & n & w & Hp & Hv & Hd & Hf & _).
  unfold nth_chain.
  replace (0 <=? c) with true by (symmetry; apply Z.leb_le; lia).
  rewrite Hp. cbn [access bind]. rewrite Hv. cbn [access bind].
  rewrite Hd. cbn [bind]. rewrite Hf.
  destruct (str_compare t (dkey e)) eqn:Ecmp.
  - eexists. split; [reflexivity|]. exists (Z.to_nat c), e.
    split; [exact Hp|]. split; [exact Ec|]. split; [congruence|].
    intros i e' Hi He'. apply (Hbelow _ e i e' Ec); [congruence|exact Hi|exact He'].
  - destruct (s / 2 =? 0) eqn:Ez.
    + apply Z.eqb_eq in Ez. eexists. split; [reflexivity|].
      exists (Z.to_nat c), e.
      split; [exact Hp|]. split; [exact Ec|]. split; [congruence|].
      intros i e' Hi He'. apply (Hlo i e'); [unfold c in *; lia|exact He'].
    + apply Z.eqb_neq in Ez.
      assert (0 < s / 2 < s) by (unfold c in Hc; lia).
      apply IH; try lia; [exact Hlo|].
      intros i e' Hi He'.
      apply (Habove _ e i e' Ec Ecmp); [unfold c; lia|exact He'].
  - assert (Hrest : 0 <= s - (s / 2 + 1)) by (unfold c in Hc; lia).
    assert (Hup : forall i e', Z.of_nat i < c + 1 -> nth_error es i = Some e' ->
                               str_compare t (dkey e') = Gt).
    { intros i e' Hi He'. destruct (Nat.eq_dec i (Z.to_nat c)) as [->|Hne].
      - rewrite Ec in He'. now injection He' as <-.
      - apply (Hbelow _ e i e' Ec); [congruence|lia|exact He']. }
    rewrite to_u32_small by lia.
    destruct (s - (s / 2 + 1) =? 0) eqn:Ez.
    + apply Z.eqb_eq in Ez.
      destruct (c =? len (chain_ptrs 4 es) - 1) eqn:Elast.
      * apply Z.eqb_eq in Elast. unfold len in Elast.
        rewrite chain_ptrs_length in Elast.
        eexists. split; [reflexivity|]. intros i e' He'.
        apply (Hup i e'); [|exact He'].
        assert (i < length es)%nat by (apply nth_error_Some; congruence). lia.
      * apply Z.eqb_neq in Elast. unfold len in Elast.
        rewrite chain_ptrs_length in Elast.
        replace (0 <=? c + 1) with true by (symmetry; apply Z.leb_le; lia).
        destruct (nth_error (chain_ptrs 4 es) (Z.to_nat (c + 1))) as [p1|]
          eqn:E1.
        2:{ apply nth_error_None in E1. rewrite chain_ptrs_length in E1.
            unfold len in Hend. lia. }
        cbn [access bind]. eexists. split; [reflexivity|].
        destruct (nth_error es (Z.to_nat (c + 1))) as [e1|] eqn:Ee1.
        2:{ apply nth_error_None in Ee1. unfold len in Hend. lia. }
        exists (Z.to_nat (c + 1)), e1.
        split; [exact E1|]. split; [exact Ee1|]. split.
        -- rewrite (Hhi (Z.to_nat (c + 1)) e1 ltac:(unfold c in *; lia) Ee1).
           discriminate.
        -- intros i e' Hi He'. apply (Hup i e'); [lia|exact He'].
    + apply Z.eqb_neq in Ez.
      apply IH; try (unfold c in *; lia); [exact Hup|].
      intros i e' Hi He'. apply (Hhi i e'); [unfold c in *; lia|exact He'].
Qed.

(** *** Leaves in file order *)

Lemma next_leaf_zero (its : list item) (cur : Z) :
  0 < cur -> next_leaf cur its = 0 -> leaf_entries its = [].
Proof.
  intros Hcur H0.
  destruct (next_leaf_split its cur)
    as [[H _]|(nodes & es & post & _ & _ & Hn)]; [exact H|].
  pose proof (items_size_nonneg nodes). lia.
Qed.

Lemma next_leaf_none (its : list item) (cur : Z) :
  leaf_entries its = [] -> next_leaf cur its = 0.
Proof.
  intros H.
  destruct (next_leaf_split its cur)
    as [[_ H0]|(nodes & es & post & Hi & Hn & _)]; [exact H0|].
  rewrite Hi, leaf_entries_app, Hn in H. discriminate H.
Qed.

Lemma leaf_entries_nonempty (its : list item) :
  Forall leaf_nonempty its -> concat (leaf_entries its) = [] ->
  leaf_entries its = [].
Proof.
  induction 1 as [|it its Hit _ IH]; [reflexivity|].
  destruct it as [es|offs piv]; cbn [leaf_entries concat].
  - destruct es as [|e es]; [destruct Hit|discriminate].
  - exact IH.
Qed.

Lemma searchable_app_mid (A es C : IndexedWords) :
  searchable (A ++ es ++ C) -> searchable es.
Proof.
  intros [Hok Hs].
  assert (Hnth : forall i e, nth_error es i = Some e ->
                   nth_error (A ++ es ++ C) (length A + i) = Some e).
  { intros i e H. rewrite nth_error_app2 by lia.
    replace (length A + i - length A)%nat with i by lia.
    rewrite nth_error_app1 by (apply nth_error_Some; congruence). exact H. }
  split.
  - intros c e H. exact (Hok _ e (Hnth c e H)).
  - intros a b ea eb Hab Ha Hb.
    apply (Hs (length A + a)%nat (length A + b)%nat ea eb); [lia| |].
    + exact (Hnth a ea Ha).
    + exact (Hnth b eb Hb).
Qed.

(** Where a non-empty slice lies in a list of distinct keys. *)
Lemma slice_unique (A es C P Q : IndexedWords) :
  searchable (A ++ es ++ C) -> A ++ es ++ C = P ++ es ++ Q -> es <> [] ->
  P = A /\ Q = C.
Proof.
  intros Hs Heq Hne. destruct es as [|e0 es]; [congruence|].
  assert (HA : nth_error (A ++ (e0 :: es) ++ C) (length A) = Some e0).
  { rewrite nth_error_app2 by lia. now rewrite Nat.sub_diag. }
  assert (HP : nth_error (A ++ (e0 :: es) ++ C) (length P) = Some e0).
  { rewrite Heq, nth_error_app2 by lia. now rewrite Nat.sub_diag. }
  pose proof (index_compare _ _ _ e0 e0 Hs HA HP) as Hc.
  rewrite str_compare_refl in Hc. symmetry in Hc. apply Nat.compare_eq in Hc.
  assert (HAP : A = P).
  { apply (f_equal (firstn (length A))) in Heq.
    rewrite firstn_app, Nat.sub_diag, firstn_all in Heq. cbn [firstn] in Heq.
    rewrite app_nil_r in Heq. rewrite Heq, Hc.
    rewrite firstn_app, Nat.sub_diag, firstn_all. cbn [firstn].
    now rewrite app_nil_r. }
  subst P. split; [reflexivity|].
  apply app_inv_head in Heq. apply app_inv_head in Heq. now symmetry.
Qed.

(** Where the chain of entry [j] ends in a leaf. *)
Lemma chain_ptrs_end (es : IndexedWords) :
  forall (p : Z) (j : nat) (e : bytes * chain) (q : Z),
    nth_error es j = Some e -> nth_error (chain_ptrs p es) j = Some q ->
    q + len (chain_bytes (snd e))
    + len (concat (map (fun e => chain_bytes (snd e)) (skipn (S j) es)))
    = p + len (concat (map (fun e => chain_bytes (snd e)) es)).
Proof.
  induction es as [|e0 es IH]; intros p j e q He Hq;
    [destruct j; discriminate|].
  destruct j as [|j]; cbn [nth_error chain_ptrs] in He, Hq.
  - injection He as ->. injection Hq as ->. cbn [skipn map concat].
    rewrite len_app. lia.
  - pose proof (IH _ j e q He Hq) as H. cbn [skipn map concat] in *.
    rewrite len_app. lia.
Qed.

(** *** The descent, for any target *)

(** In a leaf the descent splits the entries at the target: the entries
    below it, and the entries from the chain it returns on.  When all the
    entries of the leaf are below the target it returns the first chain of
    the next leaf, or the null pointer in the last leaf. *)
Lemma descend_leaf_lower (d0 : bytes) (pre post : list item)
    (es : IndexedWords) (F root : Z) (t : wstring) (fuel : nat)
    (f : File.Class) :
  (forall p, zlib_uncompress (zlib_compress p) = Some p) ->
  File.data f = d0 ++ image (len d0) (pre ++ LeafI es :: post) ->
  len (File.data f) < u32_modulus ->
  Forall payload_small (pre ++ LeafI es :: post) ->
  searchable es ->
  (es <> [] -> Forall leaf_nonempty post) ->
  (es = [] ->
   len d0 + items_size pre = root /\ concat (leaf_entries post) = []) ->
  (es <> [] -> len d0 + items_size pre = root ->
   next_leaf (len d0 + items_size (pre ++ [LeafI es])) post = 0) ->
  exists r f',
    descend (S fuel) t F root
      (File.mk (File.data f)
         (len d0 + items_size pre + len (node_image (leaf_body es))))
      (leaf_body es) (len d0 + items_size pre) = Ok (r, f')
    /\ File.data f' = File.data f
    /\ exists lo hi,
        es = lo ++ hi
        /\ (forall e, In e lo -> str_compare t (dkey e) = Gt)
        /\ (forall e, In e hi -> str_compare t (dkey e) <> Gt)
        /\ match chainOffset r with
           | None => hi ++ concat (leaf_entries post) = []
           | Some p =>
               cursor (len d0) (pre ++ LeafI es :: post) (leafBuf r) p
                      (nextLeaf r) (hi ++ concat (leaf_entries post))
           end.
Proof.
  intros Hz Hd HD Hsm Hs Hpost Hempty Hroot.
  set (off := len d0 + items_size pre) in *.
  set (f0 := File.mk (File.data f) (off + len (node_image (leaf_body es)))).
  assert (Hlen : len (leaf_body es) < u32_modulus).
  { apply Forall_app in Hsm. destruct Hsm as [_ Hsm]. now inversion Hsm. }
  assert (Hn : 0 <= len es < u32_modulus).
  { pose proof (len_nonneg es). rewrite leaf_body_len in Hlen.
    pose proof (chains_len_min es). unfold u32_modulus in *. lia. }
  assert (Hcur : len d0 + items_size (pre ++ [LeafI es])
                 = off + item_size (LeafI es)).
  { rewrite items_size_app. cbn [items_size]. unfold off. lia. }
  assert (Hpos : 0 < off + item_size (LeafI es)).
  { pose proof (len_nonneg d0). pose proof (items_size_nonneg pre).
    pose proof (item_size_min (LeafI es)). unfold off. lia. }
  cbn [descend].
  pose proof (leaf_count es [] Hlen) as Hc. rewrite app_nil_r in Hc.
  rewrite Hc. cbn [access bind].
  replace (len es =? 4294967295) with false
    by (symmetry; apply Z.eqb_neq; now apply leaf_not_marker).
  assert (Hlink : exists nx f1,
             (if off =? root then Ok (0, f0) else File.read_u32 f0)
             = Ok (nx, f1)
             /\ File.data f1 = File.data f
             /\ ((off =? root) = true -> nx = 0)
             /\ (es <> [] ->
                 nx = next_leaf (off + item_size (LeafI es)) post)).
  { destruct (off =? root) eqn:Er.
    - apply Z.eqb_eq in Er. exists 0, f0. split; [reflexivity|].
      split; [reflexivity|]. split; [reflexivity|]. intros Hne.
      rewrite <- Hcur. symmetry. exact (Hroot Hne Er).
    - unfold f0, off. rewrite (read_link_at f d0 pre post es Hd HD).
      eexists _, _. split; [reflexivity|]. split; [reflexivity|].
      split; [discriminate|reflexivity]. }
  destruct Hlink as (nx & f1 & -> & Hf1 & Hnx0 & Hnx). cbn [bind].
  destruct (len es =? 0) eqn:Ez.
  - apply Z.eqb_eq in Ez. apply len_zero_nil in Ez.
    destruct (Hempty Ez) as [Hr Hnil]. rewrite Hr, Z.eqb_refl.
    eexists _, _. split; [reflexivity|]. split; [exact Hf1|].
    exists [], []. rewrite Ez. split; [reflexivity|].
    split; [intros e []|]. split; [intros e []|]. exact Hnil.
  - apply Z.eqb_neq in Ez.
    assert (Hne : es <> []) by (intros ->; apply Ez; reflexivity).
    specialize (Hnx Hne). specialize (Hpost Hne).
    rewrite (chainPointers_leaf es Hlen). cbn [bind].
    replace (to_u32 (len (chain_ptrs 4 es))) with (len es)
      by (unfold len; rewrite chain_ptrs_length; symmetry;
          apply to_u32_small; unfold len in Hn; lia).
    destruct (searchChains_lower es t Hs Hlen (S (length (chain_ptrs 4 es)))
                0 (len es) ltac:(lia) ltac:(lia) ltac:(lia)
                ltac:(rewrite chain_ptrs_length; unfold len; lia))
      as (r & Hr & Hres).
    { intros i e Hi. lia. }
    { intros i e Hi He.
      assert (i < length es)%nat by (apply nth_error_Some; congruence).
      unfold len in Hi. lia. }
    rewrite Hr. cbn [bind].
    assert (Hfound : forall p j e,
               nth_error (chain_ptrs 4 es) j = Some p ->
               nth_error es j = Some e ->
               str_compare t (dkey e) <> Gt ->
               (forall i e', (i < j)%nat -> nth_error es i = Some e' ->
                             str_compare t (dkey e') = Gt) ->
               exists lo hi,
                 es = lo ++ hi
                 /\ (forall e, In e lo -> str_compare t (dkey e) = Gt)
                 /\ (forall e, In e hi -> str_compare t (dkey e) <> Gt)
                 /\ cursor (len d0) (pre ++ LeafI es :: post) (leaf_body es) p
                           nx (hi ++ concat (leaf_entries post))).
    { intros p j e Hp He Hcmp Hbelow.
      exists (firstn j es), (skipn j es).
      split; [symmetry; apply firstn_skipn|]. split; [|split].
      - intros e' Hin. apply In_nth_error in Hin. destruct Hin as (i & Hi).
        rewrite nth_error_firstn in Hi.
        destruct (i <? j)%nat eqn:Eij; [|discriminate].
        apply Nat.ltb_lt in Eij. exact (Hbelow i e' Eij Hi).
      - intros e' Hin. apply In_nth_error in Hin. destruct Hin as (i & Hi).
        rewrite nth_error_skipn in Hi.
        destruct (Nat.eq_dec i 0) as [->|Hi0].
        + rewrite Nat.add_0_r, He in Hi. now injection Hi as <-.
        + pose proof (proj2 Hs j (j + i)%nat e e' ltac:(lia) He Hi) as Hlt.
          destruct (str_compare t (dkey e)) eqn:E; [| |congruence].
          * apply str_compare_eq in E. subst t. rewrite Hlt. discriminate.
          * rewrite (str_compare_lt_trans _ _ _ E Hlt). discriminate.
      - exists pre, es, post, j. split; [reflexivity|].
        split; [reflexivity|]. split; [exact Hp|].
        split; [now rewrite Hcur|reflexivity]. }
    destruct r as [p|p|].
    + destruct Hres as (j & e & Hp & He & Hcmp & Hbelow).
      eexists _, _. split; [reflexivity|]. split; [exact Hf1|].
      exact (Hfound p j e Hp He Hcmp Hbelow).
    + destruct Hres as (j & e & Hp & He & Hcmp & Hbelow).
      eexists _, _. split; [reflexivity|]. split; [exact Hf1|].
      exact (Hfound p j e Hp He Hcmp Hbelow).
    + assert (Hall : exists lo hi,
                 es = lo ++ hi
                 /\ (forall e, In e lo -> str_compare t (dkey e) = Gt)
                 /\ (forall e, In e hi -> str_compare t (dkey e) <> Gt)
                 /\ hi = []).
      { exists es, []. rewrite app_nil_r. split; [reflexivity|].
        split; [|split; [intros e []|reflexivity]].
        intros e Hin. apply In_nth_error in Hin. destruct Hin as (i & Hi).
        exact (Hres i e Hi). }
      destruct Hall as (lo & hi & Hes & Hlo & Hhi & ->).
      destruct (nx =? 0) eqn:En.
      * apply Z.eqb_eq in En. rewrite En in Hnx. symmetry in Hnx.
        apply next_leaf_zero in Hnx; [|exact Hpos].
        eexists _, _. split; [reflexivity|]. split; [exact Hf1|].
        exists lo, []. split; [exact Hes|]. split; [exact Hlo|].
        split; [exact Hhi|]. cbn [chainOffset app]. now rewrite Hnx.
      * apply Z.eqb_neq in En.
        destruct (next_leaf_split post (off + item_size (LeafI es)))
          as [[_ H0]|(nodes & esn & post' & Hp' & Hnodes & Hn')];
          [congruence|].
        rewrite Hn' in Hnx.
        assert (Hd' : File.data f1
                      = d0 ++ image (len d0)
                                ((pre ++ LeafI es :: nodes) ++ LeafI esn :: post'))
          by (rewrite Hf1, Hd, Hp', <- app_assoc; reflexivity).
        assert (Hoff : nx = len d0 + items_size (pre ++ LeafI es :: nodes)).
        { rewrite Hnx, items_size_app. cbn [items_size]. unfold off. lia. }
        assert (Hsn : payload_small (LeafI esn)).
        { rewrite Hp' in Hsm. apply Forall_app in Hsm. destruct Hsm as [_ Hsm].
          inversion Hsm as [|? ? _ Hsm']. apply Forall_app in Hsm'.
          destruct Hsm' as [_ Hsm']. now inversion Hsm'. }
        rewrite <- Hf1 in HD.
        rewrite Hoff.
        rewrite (readNode_at f1 d0 (pre ++ LeafI es :: nodes) post' (LeafI esn)
                   Hd' HD Hsn (Hz _)).
        cbn [bind payload_of].
        rewrite (read_link_at f1 d0 (pre ++ LeafI es :: nodes) post' esn Hd' HD).
        cbn [bind].
        eexists _, _. split; [reflexivity|]. split; [exact Hf1|].
        exists lo, []. split; [exact Hes|]. split; [exact Hlo|].
        split; [exact Hhi|]. cbn [chainOffset leafBuf nextLeaf app].
        exists (pre ++ LeafI es :: nodes), esn, post', O.
        split; [rewrite Hp', <- app_assoc; reflexivity|].
        split; [reflexivity|]. split.
        { rewrite Hp' in Hpost. apply Forall_app in Hpost.
          destruct Hpost as [_ Hpost]. inversion Hpost as [|? ? Hq _].
          destruct esn; [destruct Hq|reflexivity]. }
        split.
        { rewrite items_size_app. cbn [items_size].
          f_equal. rewrite items_size_app. cbn [items_size]. lia. }
        rewrite Hp', leaf_entries_app, Hnodes. reflexivity.
Qed.

Lemma item_at_functional (b : Z) (its : list item) (off : Z) (i1 i2 : item) :
  item_at b its off i1 -> item_at b its off i2 -> i1 = i2.
Proof.
  intros (pre1 & post1 & H1 & ->) (pre2 & post2 & H2 & Hoff).
  assert (Hsz : items_size pre1 = items_size pre2) by lia. clear Hoff.
  subst its. revert pre2 H2 Hsz.
  induction pre1 as [|a pre1 IH]; intros [|a' pre2] H2 Hsz.
  - now injection H2.
  - cbn [items_size] in Hsz. pose proof (item_size_min a').
    pose proof (items_size_nonneg pre2). lia.
  - cbn [items_size] in Hsz. pose proof (item_size_min a).
    pose proof (items_size_nonneg pre1). lia.
  - cbn [app] in H2. injection H2 as <- H2. cbn [items_size] in Hsz.
    apply (IH pre2 H2). lia.
Qed.

Lemma entries_split (es : IndexedWords) (a c : Z) :
  0 <= a -> a <= c ->
  es = firstn (Z.to_nat a) es ++ entries_between es a c
         ++ skipn (Z.to_nat c) es.
Proof.
  intros Ha Hac. unfold entries_between.
  rewrite <- (firstn_skipn (Z.to_nat a) es) at 1. f_equal.
  rewrite <- (firstn_skipn (Z.to_nat (c - a)) (skipn (Z.to_nat a) es)) at 1.
  f_equal. rewrite skipn_skipn. f_equal. lia.
Qed.

(** The descent from the root of a tree the builder wrote, for any target,
    ends at the first entry that is not below the target: it returns the
    chain of that entry, with the leaf it lies in and the forward link of
    that leaf, or the null pointer when every entry is below the target. *)
Lemma descend_lower (d0 : bytes) (its : list item) (F root : Z) (t : wstring)
    (ALL : IndexedWords) :
  (forall p, zlib_uncompress (zlib_compress p) = Some p) ->
  len (d0 ++ image (len d0) its) < u32_modulus ->
  Forall payload_small its -> 1 <= F -> F + 1 < u32_modulus ->
  concat (leaf_entries its) = ALL -> searchable ALL ->
  (ALL <> [] -> Forall leaf_nonempty its) ->
  (forall es', item_at (len d0) its root (LeafI es') -> es' = ALL) ->
  forall (h : nat) (off : Z) (es : IndexedWords) (first : Z)
         (A C : IndexedWords),
    subtree h F (len d0) its off es first ->
    ALL = A ++ es ++ C -> es <> [] \/ off = root ->
    (forall e, In e A -> str_compare t (dkey e) = Gt) ->
    (forall e, In e C -> str_compare t (dkey e) = Lt) ->
    forall (fuel : nat) (f : File.Class),
      File.data f = d0 ++ image (len d0) its ->
      (h + Z.to_nat F <= fuel)%nat ->
      exists r f',
        ('(leaf, f1) <- readNode off f ;;
         descend fuel t F root f1 leaf off) = Ok (r, f')
        /\ File.data f' = File.data f
        /\ exists lo hi,
            ALL = lo ++ hi
            /\ (forall e, In e lo -> str_compare t (dkey e) = Gt)
            /\ (forall e, In e hi -> str_compare t (dkey e) <> Gt)
            /\ match chainOffset r with
               | None => hi = []
               | Some p => cursor (len d0) its (leafBuf r) p (nextLeaf r) hi
               end.
Proof.
  intros Hz HD Hsm HF HF2 Hall HsA Hleaves Htop.
  induction h as [|h IH];
    intros off es first A C Hsub HALL Hne HA HC fuel f Hf Hfuel;
    [destruct Hsub|].
  destruct fuel as [|fuel]; [lia|].
  assert (Hs : searchable es)
    by (rewrite HALL in HsA; exact (searchable_app_mid _ _ _ HsA)).
  rewrite <- Hf in HD.
  cbn [subtree] in Hsub. destruct (len es <=? F) eqn:Eleaf.
  - (* a leaf *)
    destruct Hsub as [Hat _].
    destruct (readNode_item f d0 its off _ Hz Hf HD Hsm Hat) as [Hr _].
    rewrite Hr. cbn [bind payload_of].
    pose proof Hat as (pre & post & Hits & Hoff).
    assert (Hcat : concat (leaf_entries pre) ++ es ++ concat (leaf_entries post)
                   = A ++ es ++ C).
    { rewrite <- HALL, <- Hall, Hits, leaf_entries_app. cbn [leaf_entries].
      rewrite concat_app. reflexivity. }
    assert (HQ : concat (leaf_entries post) = C).
    { destruct es as [|e0 es0] eqn:Ees.
      - destruct Hne as [Hne|Hroot]; [congruence|].
        rewrite Hroot in Hat. pose proof (Htop _ Hat) as Hnil.
        rewrite <- Hnil in HALL. symmetry in HALL.
        apply app_eq_nil in HALL. destruct HALL as [_ HC0].
        cbn [app] in HC0. subst C.
        rewrite <- Hnil in Hall. rewrite Hits, leaf_entries_app in Hall.
        cbn [leaf_entries] in Hall. rewrite concat_app in Hall.
        apply app_eq_nil in Hall. exact (proj2 Hall).
      - rewrite <- Ees in *.
        rewrite HALL in HsA. symmetry in Hcat.
        exact (proj2 (slice_unique _ _ _ _ _ HsA Hcat ltac:(congruence))). }
    assert (Hpost : es <> [] -> Forall leaf_nonempty post).
    { intros Hes. assert (HneA : ALL <> []).
      { rewrite HALL. intros H0. apply app_eq_nil in H0. destruct H0 as [_ H0].
        apply app_eq_nil in H0. now destruct H0. }
      specialize (Hleaves HneA). rewrite Hits in Hleaves.
      apply Forall_app in Hleaves. destruct Hleaves as [_ Hl].
      now inversion Hl. }
    rewrite Hits in Hf, Hsm. rewrite Hoff.
    destruct (descend_leaf_lower d0 pre post es F root t fuel f Hz Hf HD Hsm
                Hs Hpost)
      as (r & f' & Hdesc & Hdata & lo & hi & Hes & Hlo & Hhi & Hcur).
    + intros Hnil. split.
      * destruct Hne as [Hne|Hroot]; [congruence|]. now rewrite <- Hoff.
      * rewrite HQ. rewrite Hnil in *. destruct Hne as [Hne|Hroot]; [congruence|].
        rewrite Hroot in Hat. pose proof (Htop _ Hat) as H0.
        rewrite <- H0 in HALL. symmetry in HALL.
        apply app_eq_nil in HALL. now destruct HALL as [_ HALL].
    + intros Hes Hroot. apply next_leaf_none.
      apply leaf_entries_nonempty; [exact (Hpost Hes)|].
      rewrite HQ. rewrite Hoff, Hroot in Hat.
      pose proof (Htop _ Hat) as H0.
      assert (Hl : len ALL = len A + len es + len C)
        by (rewrite HALL, !len_app; lia).
      rewrite <- H0 in Hl. apply len_zero_nil.
      pose proof (len_nonneg A). pose proof (len_nonneg C). lia.
    + exists r, f'. split; [exact Hdesc|]. split; [exact Hdata|].
      exists (A ++ lo), (hi ++ C).
      split; [rewrite HALL, Hes, <- !app_assoc; reflexivity|].
      split.
      { intros e Hin. apply in_app_or in Hin.
        destruct Hin as [Hin|Hin]; [exact (HA e Hin)|exact (Hlo e Hin)]. }
      split.
      { intros e Hin. apply in_app_or in Hin.
        destruct Hin as [Hin|Hin]; [exact (Hhi e Hin)|].
        rewrite (HC e Hin). discriminate. }
      rewrite HQ, <- Hits in Hcur. exact Hcur.
  - (* an internal node *)
    apply Z.leb_gt in Eleaf.
    destruct Hsub as (offsets & pivots & Hat & Ho & Hp & Hpiv & Hch).
    destruct (readNode_item f d0 its off _ Hz Hf HD Hsm Hat) as [Hr Hsmall].
    rewrite Hr. cbn [bind payload_of].
    set (n := len es) in *.
    assert (Hcut : forall x, 0 <= x < F -> 0 <= cutPoint n F x < n).
    { intros x Hx.
      pose proof (cutPoint_range n F x HF ltac:(lia) ltac:(lia)).
      pose proof (cutPoint_below n F x HF ltac:(lia) ltac:(lia)). lia. }
    assert (Harea : pivot_area (node_payload offsets pivots)
                      (4 + 4 * len offsets) pivots).
    { apply (pivot_area_node es offsets pivots
               (fun j => cutPoint n F (Z.of_nat j)) Hs Hsmall).
      intros j Hj. unfold len in Hp.
      split; [apply Hcut; lia|].
      rewrite <- (Hpiv (Z.of_nat j)) by lia. now rewrite Nat2Z.id. }
    assert (Hoffs : forall x, 0 <= x <= F ->
               0 <= nth (Z.to_nat x) offsets 0 < u32_modulus).
    { intros x Hx. destruct (Hch x Hx) as (fx & Hsx & _).
      destruct (subtree_item _ _ _ _ _ _ _ Hsx) as (itx & Hatx).
      pose proof (item_at_bounds _ _ _ _ Hatx).
      pose proof (item_size_min itx). pose proof (len_nonneg d0).
      rewrite Hf, len_app, image_len in HD. lia. }
    destruct (descend_node fuel t F root
                (File.mk (File.data f)
                         (off + len (node_image (node_payload offsets pivots))))
                offsets pivots off Harea Ho Hp HF HF2 ltac:(lia) Hoffs)
      as (j & k & child & Hj & Ek & Hchild & Hlt & Hgt & Hstep).
    rewrite Hstep. clear Hstep.
    (* the entry the pivot [j'] is the key of *)
    assert (Hpk : forall j' k', nth_error pivots j' = Some k' ->
               exists e', nth_error es (Z.to_nat (cutPoint n F (Z.of_nat j')))
                          = Some e'
                          /\ dkey (k', []) = dkey e').
    { intros j' k' Ek'.
      assert (Hj' : (j' < length pivots)%nat)
        by (apply nth_error_Some; congruence).
      unfold len in Hp.
      pose proof (Hcut (Z.of_nat j') ltac:(lia)) as Hc.
      destruct (nth_error es (Z.to_nat (cutPoint n F (Z.of_nat j'))))
        as [e'|] eqn:Ee'; [|apply nth_error_None in Ee'; unfold n, len in *; lia].
      exists e'. split; [reflexivity|].
      pose proof (Hpiv (Z.of_nat j') ltac:(lia)) as Hk.
      rewrite Nat2Z.id, (nth_error_nth _ _ [] Ek'), (key_at_nth es _ e' Ee') in Hk.
      subst k'. apply dkey_fst. }
    assert (Hcr : 0 <= child <= F).
    { unfold len in Hp. subst child.
      destruct (str_compare t (dkey (k, []))); lia. }
    pose proof (cutPoint_range n F (child - 1) HF ltac:(lia) ltac:(lia)) as Ha.
    pose proof (cutPoint_range n F child HF ltac:(lia) ltac:(lia)) as Hb.
    pose proof (cutPoint_step n F child HF ltac:(lia) Hcr) as Hst.
    set (a := cutPoint n F (child - 1)) in *.
    set (c := cutPoint n F child) in *.
    (* the entries before the child are below the target *)
    assert (Hbefore : forall e, In e (firstn (Z.to_nat a) es) ->
                                str_compare t (dkey e) = Gt).
    { intros e Hin. apply In_nth_error in Hin. destruct Hin as (i & Hi).
      rewrite nth_error_firstn in Hi.
      destruct (i <? Z.to_nat a)%nat eqn:Eia; [|discriminate].
      apply Nat.ltb_lt in Eia.
      assert (Hpiv_a : exists ea, nth_error es (Z.to_nat a) = Some ea
                                  /\ str_compare t (dkey ea) <> Lt).
      { unfold len in Hp.
        destruct (str_compare t (dkey (k, []))) eqn:Ec.
        - destruct (Hpk j k Ek) as (e' & Ee' & Hke).
          exists e'. unfold a. subst child.
          replace (Z.of_nat j + 1 - 1) with (Z.of_nat j) by lia.
          split; [exact Ee'|]. rewrite <- Hke, Ec. discriminate.
        - destruct (Hlt eq_refl) as [Hj0|(k' & Ek' & Hk')].
          + exfalso. subst child. subst j. unfold a in Eia.
            change (Z.of_nat 0 - 1) with (-1) in Eia.
            rewrite cutPoint_first in Eia. cbn in Eia. lia.
          + destruct (Hpk _ _ Ek') as (e' & Ee' & Hke).
            assert (Hj1 : (0 < j)%nat).
            { destruct j; [|lia]. exfalso. subst child. unfold a in Eia.
              change (Z.of_nat 0 - 1) with (-1) in Eia.
              rewrite cutPoint_first in Eia. cbn in Eia. lia. }
            exists e'. unfold a. subst child.
            replace (Z.of_nat (j - 1)) with (Z.of_nat j - 1) in Ee' by lia.
            split; [exact Ee'|]. rewrite <- Hke, Hk'. discriminate.
        - destruct (Hpk j k Ek) as (e' & Ee' & Hke).
          exists e'. unfold a. subst child.
          replace (Z.of_nat j + 1 - 1) with (Z.of_nat j) by lia.
          split; [exact Ee'|]. rewrite <- Hke, Ec. discriminate. }
      destruct Hpiv_a as (ea & Eea & Hcmp).
      exact (sorted_below es t (Z.to_nat a) i ea e Hs Eea Hcmp Eia Hi). }
    (* the entries after the child are above the target *)
    assert (Hafter : forall e, In e (skipn (Z.to_nat c) es) ->
                               str_compare t (dkey e) = Lt).
    { intros e Hin. apply In_nth_error in Hin. destruct Hin as (i & Hi).
      rewrite nth_error_skipn in Hi.
      assert (Hil : (Z.to_nat c + i < length es)%nat)
        by (apply nth_error_Some; congruence).
      assert (HcF : child < F).
      { destruct (Z.eq_dec child F) as [HeqF|]; [|lia]. exfalso.
        unfold c in Hil. rewrite HeqF, cutPoint_last in Hil by lia.
        unfold n, len in Hil. lia. }
      assert (Hpiv_c : exists ec, nth_error es (Z.to_nat c) = Some ec
                                  /\ str_compare t (dkey ec) = Lt).
      { unfold len in Hp.
        destruct (str_compare t (dkey (k, []))) eqn:Ec.
        - (* the target is pivot [j]; pivot [j + 1] is larger *)
          destruct (Hpk j k Ek) as (e' & Ee' & Hke).
          destruct (nth_error pivots (S j)) as [k1|] eqn:Ek1;
            [|apply nth_error_None in Ek1; subst child; lia].
          destruct (Hpk _ _ Ek1) as (e1 & Ee1 & Hke1).
          exists e1. unfold c. subst child.
          replace (Z.of_nat (S j)) with (Z.of_nat j + 1) in Ee1 by lia.
          split; [exact Ee1|].
          apply str_compare_eq in Ec. rewrite Ec, Hke.
          apply (proj2 Hs _ _ e' e1) with (2 := Ee') (3 := Ee1).
          pose proof (cutPoint_step n F (Z.of_nat j + 1) HF ltac:(lia)
                        ltac:(lia)) as Hs1.
          replace (Z.of_nat j + 1 - 1) with (Z.of_nat j) in Hs1 by lia.
          pose proof (Hcut (Z.of_nat j) ltac:(lia)). lia.
        - destruct (Hpk j k Ek) as (e' & Ee' & Hke).
          exists e'. unfold c. subst child.
          split; [exact Ee'|]. now rewrite <- Hke.
        - destruct (Hgt eq_refl) as [Hlast|(k' & Ek' & Hk')];
            [subst child; lia|].
          destruct (Hpk _ _ Ek') as (e' & Ee' & Hke).
          exists e'. unfold c. subst child.
          replace (Z.of_nat (S j)) with (Z.of_nat j + 1) in Ee' by lia.
          split; [exact Ee'|]. now rewrite <- Hke. }
      destruct Hpiv_c as (ec & Eec & Hcmp).
      exact (sorted_above es t (Z.to_nat c) (Z.to_nat c + i) ec e Hs Eec Hcmp
               ltac:(lia) Hi). }
    destruct (Hch child Hcr) as (fx & Hsx & _). fold a c in Hsx.
    destruct (IH _ _ fx (A ++ firstn (Z.to_nat a) es)
                (skipn (Z.to_nat c) es ++ C) Hsx)
      with (fuel := fuel)
           (f := File.mk (File.data f)
                   (off + len (node_image (node_payload offsets pivots))))
      as (r & f' & Hdesc & Hdata & Hres).
    + rewrite HALL. rewrite (entries_split es a c (proj1 Ha) ltac:(lia)) at 1.
      rewrite <- !app_assoc. reflexivity.
    + left. intros Hnil.
      pose proof (len_entries_between es a c (proj1 Ha) ltac:(lia)
                    (proj2 Hb)) as Hl.
      rewrite Hnil in Hl. change (len (@nil (bytes * chain))) with 0 in Hl.
      lia.
    + intros e Hin. apply in_app_or in Hin.
      destruct Hin as [Hin|Hin]; [exact (HA e Hin)|exact (Hbefore e Hin)].
    + intros e Hin. apply in_app_or in Hin.
      destruct Hin as [Hin|Hin]; [exact (Hafter e Hin)|exact (HC e Hin)].
    + exact Hf.
    + lia.
    + exists r, f'. split; [exact Hdesc|]. split; [exact Hdata|exact Hres].
Qed.

(** *** The forward walk *)

(** One step of the walk: the chain under the cursor is read, and the
    cursor moves to the next chain of the leaf, or to the first chain of the
    next leaf, which is read with its link; after the last chain of the last
    leaf the link is zero. *)
Lemma cursor_step (d0 : bytes) (its : list item) (f : File.Class)
    (leaf : bytes) (p nx : Z) (e : bytes * chain) (rest : IndexedWords) :
  (forall p, zlib_uncompress (zlib_compress p) = Some p) ->
  File.data f = d0 ++ image (len d0) its ->
  len (File.data f) < u32_modulus ->
  Forall payload_small its -> Forall leaf_nonempty its ->
  searchable (concat (leaf_entries its)) ->
  cursor (len d0) its leaf p nx (e :: rest) ->
  exists p',
    entry_ok e = true /\ forallb link_ok (snd e) = true
    /\ In e (concat (leaf_entries its))
    /\ readChain leaf p = Ok (snd e, p')
    /\ ((p' < len leaf /\ cursor (len d0) its leaf p' nx rest)
        \/ (len leaf <= p'
            /\ ((nx = 0 /\ rest = [])
                \/ (nx <> 0
                    /\ exists leaf' nx',
                        readNode nx f
                        = Ok (leaf',
                              File.mk (File.data f)
                                      (nx + len (node_image leaf')))
                        /\ File.read_u32
                             (File.mk (File.data f)
                                      (nx + len (node_image leaf')))
                           = Ok (nx', File.mk (File.data f)
                                              (nx + len (node_image leaf') + 4))
                        /\ cursor (len d0) its leaf' 4 nx' rest)))).
Proof.
  intros Hz Hd HD Hsm Hleaves HsA (pre & esl & post & j & Hits & -> & Hp & -> & Hrest).
  assert (Hj : (j < length esl)%nat).
  { rewrite <- (chain_ptrs_length esl 4). apply nth_error_Some. congruence. }
  destruct (nth_error esl j) as [e0|] eqn:Ee0;
    [|apply nth_error_None in Ee0; lia].
  assert (Hskip : skipn j esl = e0 :: skipn (S j) esl).
  { rewrite <- (firstn_skipn_middle j esl Ee0) at 1.
    rewrite skipn_app, skipn_all2 by (rewrite length_firstn; lia).
    rewrite length_firstn, Nat.min_l by lia. now rewrite Nat.sub_diag. }
  rewrite Hskip in Hrest. cbn [app] in Hrest.
  assert (Hhead : e0 = e) by congruence.
  assert (Htail : rest = skipn (S j) esl ++ concat (leaf_entries post))
    by congruence.
  clear Hrest. subst e0 rest.
  assert (Hsl : searchable esl).
  { rewrite Hits, leaf_entries_app in HsA. cbn [leaf_entries] in HsA.
    rewrite concat_app in HsA. cbn [concat] in HsA.
    exact (searchable_app_mid _ _ _ HsA). }
  assert (Hlen : len (leaf_body esl) < u32_modulus).
  { rewrite Hits in Hsm. apply Forall_app in Hsm. destruct Hsm as [_ Hsm].
    now inversion Hsm. }
  destruct (probe_chain esl j e Hsl Hlen Ee0)
    as (pc & _ & _ & _ & Hpc & _ & _ & _ & Hrc).
  rewrite Hp in Hpc. injection Hpc as <-.
  pose proof (chain_ptrs_end esl 4 j e p Ee0 Hp) as Hend.
  rewrite <- leaf_body_len in Hend.
  pose proof (chain_ptrs_next esl 4 j e p Ee0 Hp) as Hnext.
  exists (p + len (chain_bytes (snd e))).
  split; [exact (proj1 (proj1 Hsl j e Ee0))|].
  split; [exact (proj2 (proj1 Hsl j e Ee0))|].
  split.
  { rewrite Hits, leaf_entries_app. cbn [leaf_entries].
    rewrite concat_app. cbn [concat]. apply in_or_app. right.
    apply in_or_app. left. exact (nth_error_In _ _ Ee0). }
  split; [exact Hrc|].
  destruct (S j <? length esl)%nat eqn:Elast.
  - (* the next chain of the leaf *)
    apply Nat.ltb_lt in Elast. left. split.
    + destruct (skipn (S j) esl) as [|e1 tl] eqn:Esk.
      * apply (f_equal (@length _)) in Esk. rewrite length_skipn in Esk.
        cbn in Esk. lia.
      * cbn [map concat] in Hend. rewrite len_app in Hend.
        pose proof (chain_bytes_len (snd e1)).
        pose proof (len_nonneg (concat (map link_bytes (snd e1)))).
        pose proof (len_nonneg
                      (concat (map (fun e => chain_bytes (snd e)) tl))).
        lia.
    + exists pre, esl, post, (S j). split; [exact Hits|].
      split; [reflexivity|]. split; [exact Hnext|].
      split; reflexivity.
  - (* the end of the leaf *)
    apply Nat.ltb_ge in Elast. right.
    rewrite skipn_all2 in * by lia. cbn [map concat app] in *.
    rewrite len_nil in Hend. split; [lia|].
    set (cur := len d0 + items_size (pre ++ [LeafI esl])).
    assert (Hcur : cur = len d0 + items_size pre + item_size (LeafI esl)).
    { unfold cur. rewrite items_size_app. cbn [items_size]. lia. }
    assert (Hpos : 0 < cur).
    { pose proof (len_nonneg d0). pose proof (items_size_nonneg pre).
      pose proof (item_size_min (LeafI esl)). lia. }
    destruct (next_leaf_split post cur)
      as [[Hnil H0]|(nodes & esn & post' & Hp' & Hnodes & Hn')].
    + left. split; [exact H0|]. rewrite Hnil. reflexivity.
    + right. split.
      { rewrite Hn'. pose proof (items_size_nonneg nodes). lia. }
      assert (Hd' : File.data f
                    = d0 ++ image (len d0)
                              ((pre ++ LeafI esl :: nodes) ++ LeafI esn :: post'))
        by (rewrite Hd, Hits, Hp', <- app_assoc; reflexivity).
      assert (Hoff : next_leaf cur post
                     = len d0 + items_size (pre ++ LeafI esl :: nodes)).
      { rewrite Hn', Hcur, items_size_app. cbn [items_size]. lia. }
      assert (Hsn : payload_small (LeafI esn) /\ leaf_nonempty (LeafI esn)).
      { rewrite Hits, Hp' in Hsm, Hleaves.
        apply Forall_app in Hsm, Hleaves.
        destruct Hsm as [_ Hsm]. destruct Hleaves as [_ Hl].
        inversion Hsm as [|? ? _ Hsm']. inversion Hl as [|? ? _ Hl'].
        apply Forall_app in Hsm', Hl'.
        destruct Hsm' as [_ Hsm']. destruct Hl' as [_ Hl'].
        inversion Hsm'. inversion Hl'. auto. }
      destruct Hsn as [Hsn Hne].
      exists (leaf_body esn),
        (next_leaf (len d0 + items_size (pre ++ LeafI esl :: nodes)
                    + item_size (LeafI esn)) post').
      rewrite Hoff. split; [|split].
      * exact (readNode_at f d0 (pre ++ LeafI esl :: nodes) post' (LeafI esn)
                 Hd' HD Hsn (Hz _)).
      * pose proof (read_link_at f d0 (pre ++ LeafI esl :: nodes) post' esn
                      Hd' HD) as Hl.
        unfold item_size in Hl at 2. cbn [payload_of link_room] in Hl.
        rewrite Z.add_assoc in Hl. exact Hl.
      * exists (pre ++ LeafI esl :: nodes), esn, post', O.
        split; [rewrite Hits, Hp', <- app_assoc; reflexivity|].
        split; [reflexivity|]. split.
        { destruct esn; [destruct Hne|reflexivity]. }
        split.
        { f_equal. rewrite (items_size_app (pre ++ LeafI esl :: nodes)).
          cbn [items_size]. lia. }
        rewrite Hp', leaf_entries_app, Hnodes. reflexivity.
Qed.

Lemma cursor_nonempty (b : Z) (its : list item) (leaf : bytes) (p nx : Z)
    (rest : IndexedWords) :
  cursor b its leaf p nx rest -> rest <> [].
Proof.
  intros (pre & esl & post & j & _ & _ & Hp & _ & ->) H.
  apply app_eq_nil in H. destruct H as [H _].
  apply (f_equal (@length _)) in H. rewrite length_skipn in H. cbn in H.
  assert (j < length esl)%nat; [|lia].
  rewrite <- (chain_ptrs_length esl 4). apply nth_error_Some. congruence.
Qed.

Lemma filter_none {A : Type} (P : A -> bool) (l : list A) :
  (forall x, In x l -> P x = false) -> filter P l = [].
Proof.
  induction l as [|a l IH]; intros H; [reflexivity|]. cbn [filter].
  rewrite (H a (or_introl eq_refl)). apply IH. intros x Hx. apply H.
  now right.
Qed.

(** Among ascending entries that are not below the target, the entries
    whose keys start with the target come first. *)
Lemma prefix_run (t : wstring) (hi : IndexedWords) :
  (forall a b ea eb, (a < b)%nat ->
     nth_error hi a = Some ea -> nth_error hi b = Some eb ->
     str_compare (dkey ea) (dkey eb) = Lt) ->
  (forall e, In e hi -> str_compare t (dkey e) <> Gt) ->
  exists good bad,
    hi = good ++ bad
    /\ Forall (fun e => startsWith (dkey e) t = true) good
    /\ match bad with
       | [] => True
       | e :: _ => startsWith (dkey e) t = false
       end
    /\ filter (fun e => startsWith (dkey e) t) hi = good.
Proof.
  induction hi as [|e hi IH]; intros Hsorted Hlow.
  - exists [], []. repeat split; constructor.
  - destruct (startsWith (dkey e) t) eqn:Ee.
    + destruct IH as (good & bad & Hhi & Hgood & Hbad & Hfil).
      * intros a b ea eb Hab Ha Hb.
        exact (Hsorted (S a) (S b) ea eb ltac:(lia) Ha Hb).
      * intros e' He'. apply Hlow. now right.
      * exists (e :: good), bad. split; [cbn; now rewrite Hhi|].
        split; [constructor; assumption|]. split; [exact Hbad|].
        cbn [filter]. now rewrite Ee, Hfil.
    + exists [], (e :: hi). split; [reflexivity|]. split; [constructor|].
      split; [exact Ee|]. apply filter_none.
      intros e' [<-|He']; [exact Ee|].
      destruct (startsWith (dkey e') t) eqn:Ee'; [|reflexivity].
      apply In_nth_error in He'. destruct He' as (i & Hi).
      pose proof (Hsorted O (S i) e e' ltac:(lia) eq_refl Hi) as Hlt.
      rewrite (startsWith_between t (dkey e) (dkey e')
                 (Hlow e (or_introl eq_refl)) Hlt Ee') in Ee.
      discriminate.
Qed.

(** ** Search requests

    The loops of [BtreeWordSearchRequest::run] on an index the builder
    wrote. *)

(** What a chain adds to the matches of any request, when its records
    decode. *)
Lemma addMatches_total (r : BtreeWordSearchRequest) (n : Z)
    (e : bytes * chain) :
  forallb decodable (snd e) = true ->
  (allowMiddleMatches r = false -> forallb prefixDecodes (snd e) = true) ->
  forall ms, addMatches r n (dkey e) (snd e) ms = Ok (ms ++ chainMatches r n e).
Proof.
  unfold chainMatches. generalize (snd e). intros c.
  set (fits := (maxSuffixVariation r <? 0)
               || (len (dkey e) - n <=? maxSuffixVariation r)).
  induction c as [|cx c IH]; intros Hdec Hpre ms.
  - cbn [addMatches]. destruct fits, (allowMiddleMatches r);
      cbn; now rewrite app_nil_r.
  - cbn [forallb] in Hdec. apply andb_true_iff in Hdec.
    destruct Hdec as [Hcx Hc].
    assert (Hp : allowMiddleMatches r = false ->
                 forallb prefixDecodes c = true).
    { intros Ha. specialize (Hpre Ha). cbn [forallb] in Hpre.
      apply andb_true_iff in Hpre. exact (proj2 Hpre). }
    specialize (IH Hc Hp). cbn [addMatches]. fold fits.
    unfold decodable in Hcx.
    destruct (allowMiddleMatches r) eqn:Eallow; cbn [bind andb].
    + destruct fits.
      * rewrite headwordsOf_cons.
        destruct (Utf8_decode (prefix cx ++ word cx)) as [hw|]; [|discriminate].
        rewrite IH. now rewrite <- app_assoc.
      * exact (IH ms).
    + specialize (Hpre eq_refl). cbn [forallb] in Hpre.
      apply andb_true_iff in Hpre. destruct Hpre as [Hpx _].
      unfold prefixDecodes in Hpx.
      cbn [filter]. unfold isWholeHeadword at 1.
      destruct (Utf8_decode (prefix cx)) as [px|]; [|discriminate].
      cbn [bind]. destruct (Folding_apply px); cbn [andb].
      * destruct fits.
        -- rewrite headwordsOf_cons.
           destruct (Utf8_decode (prefix cx ++ word cx)) as [hw|];
             [|discriminate].
           rewrite IH. now rewrite <- app_assoc.
        -- exact (IH ms).
      * exact (IH ms).
Qed.

(** The walk of any request from a cursor: the chains whose keys start
    with the target are taken in turn, up to the first chain whose key does
    not, the end of the last leaf, or the chain that brings the matches to
    [maxResults]. *)
Lemma walkChains_collects (d0 : bytes) (its : list item)
    (r : BtreeWordSearchRequest) (n : Z) (folded : wstring) :
  (forall p, zlib_uncompress (zlib_compress p) = Some p) ->
  (forall s v, Utf8_decode s = Some v -> nul_free s = true ->
               nul_free v = true) ->
  len (d0 ++ image (len d0) its) < u32_modulus ->
  Forall payload_small its -> Forall leaf_nonempty its ->
  searchable (concat (leaf_entries its)) ->
  (forall e, In e (concat (leaf_entries its)) ->
             forallb decodable (snd e) = true
             /\ (allowMiddleMatches r = false ->
                 forallb prefixDecodes (snd e) = true)) ->
  forall (good bad : IndexedWords) (leaf : bytes) (p nx : Z) (f : File.Class)
         (ms : list wstring) (fuel : nat),
    cursor (len d0) its leaf p nx (good ++ bad) ->
    File.data f = d0 ++ image (len d0) its ->
    Forall (fun e => startsWith (dkey e) folded = true) good ->
    match bad with
    | [] => True
    | e :: _ => startsWith (dkey e) folded = false
    end ->
    (length good < fuel)%nat ->
    exists f',
      walkChains fuel r false n folded leaf p nx f ms
      = Ok (collect (maxResults r) (map (chainMatches r n) good) ms, f')
      /\ File.data f' = File.data f.
Proof.
  intros Hz Hnul HD Hsm Hleaves HsA Hdec.
  assert (Hhead : forall e, entry_ok e = true ->
                            forallb link_ok (snd e) = true ->
             exists l c' w0,
               snd e = l :: c' /\ Utf8_decode (word l) = Some w0
               /\ Folding_apply w0 = dkey e).
  { intros e He Hl.
    destruct (entry_ok_inv e He)
      as (fk & l & c' & w0 & _ & Hs & _ & _ & _ & Hw0 & Hf & Hk).
    exists l, c', w0. split; [exact Hs|]. split; [exact Hw0|].
    rewrite Hs in Hl. cbn [forallb] in Hl. apply andb_true_iff in Hl.
    destruct Hl as [Hl _]. apply link_ok_inv in Hl. destruct Hl as (Hn & _).
    rewrite <- (cstr_nul_free w0 (Hnul _ _ Hw0 Hn)). now rewrite Hf, Hk. }
  induction good as [|e good IH];
    intros bad leaf p nx f ms fuel Hcur Hf Hgood Hbad Hfuel.
  - cbn [app] in Hcur. destruct bad as [|e bad];
      [exfalso; exact (cursor_nonempty _ _ _ _ _ _ Hcur eq_refl)|].
    destruct fuel as [|fuel]; [lia|].
    rewrite <- Hf in HD.
    destruct (cursor_step d0 its f leaf p nx e bad Hz Hf HD Hsm Hleaves HsA Hcur)
      as (p' & He & Hl & _ & Hrc & _).
    destruct (Hhead e He Hl) as (l & c' & w0 & Hs & Hw0 & Hfold).
    cbn [walkChains]. rewrite Hrc. cbn [bind]. rewrite Hs.
    cbn [nth_error access bind]. rewrite Hw0, Hfold, Hbad.
    exists f. split; reflexivity.
  - cbn [app] in Hcur. destruct fuel as [|fuel]; [cbn in Hfuel; lia|].
    rewrite <- Hf in HD.
    destruct (cursor_step d0 its f leaf p nx e (good ++ bad) Hz Hf HD Hsm
                Hleaves HsA Hcur)
      as (p' & He & Hl & Hin & Hrc & Hnext).
    destruct (Hhead e He Hl) as (l & c' & w0 & Hs & Hw0 & Hfold).
    inversion Hgood as [|? ? Hpe Hgood']; subst.
    cbn [walkChains]. rewrite Hrc. cbn [bind]. rewrite Hs.
    cbn [nth_error access bind]. rewrite Hw0, Hfold, Hpe. rewrite <- Hs.
    destruct (Hdec e Hin) as [Hd1 Hd2].
    rewrite (addMatches_total r n e Hd1 Hd2 ms). cbn [bind map collect].
    set (ms1 := ms ++ chainMatches r n e).
    destruct (maxResults r <=? len ms1); [exists f; split; reflexivity|].
    cbn [length] in Hfuel.
    destruct Hnext as [[Hlt Hc']|[Hge [[Hnx Hnil]|(Hnx & leaf' & nx' & Hrn & Hrl & Hc')]]].
    + replace (len leaf <=? p') with false by (symmetry; apply Z.leb_gt; lia).
      rewrite Hf in HD.
      exact (IH bad leaf p' nx f ms1 fuel Hc' Hf Hgood' Hbad ltac:(lia)).
    + replace (len leaf <=? p') with true by (symmetry; apply Z.leb_le; lia).
      rewrite Hnx. cbn [Z.eqb].
      apply app_eq_nil in Hnil. destruct Hnil as [-> _].
      exists f. split; reflexivity.
    + replace (len leaf <=? p') with true by (symmetry; apply Z.leb_le; lia).
      replace (nx =? 0) with false by (symmetry; apply Z.eqb_neq; exact Hnx).
      rewrite Hrn. cbn [bind]. rewrite Hrl. cbn [bind].
      rewrite Hf in HD.
      destruct (IH bad leaf' 4 nx'
                  (File.mk (File.data f) (nx + len (node_image leaf') + 4))
                  ms1 fuel Hc' Hf Hgood' Hbad ltac:(lia))
        as (f' & Hw & Hd').
      exists f'. split; [exact Hw|exact Hd'].
Qed.

Lemma readNode_data (off : Z) (f1 f2 : File.Class) :
  File.data f1 = File.data f2 -> readNode off f1 = readNode off f2.
Proof. intros H. unfold readNode, File.seek. now rewrite H. Qed.

(** From the root the descent does not depend on where the file is
    positioned: the root has no forward link to read, and the children of a
    node are read at their offsets. *)
Lemma descend_root_any_pos (fuel : nat) (t : wstring) (F root : Z)
    (f1 f2 : File.Class) (leaf : bytes) (r : ChainLookup) (f1' : File.Class) :
  File.data f1 = File.data f2 ->
  descend fuel t F root f1 leaf root = Ok (r, f1') ->
  File.data f1' = File.data f1 ->
  exists f2',
    descend fuel t F root f2 leaf root = Ok (r, f2')
    /\ File.data f2' = File.data f2.
Proof.
  intros Hd H Hd1. destruct fuel as [|fuel]; [discriminate|].
  cbn [descend] in H |- *.
  destruct (get_u32 leaf 0) as [le|]; [|discriminate].
  cbn [access bind] in H |- *.
  destruct (le =? 4294967295).
  - apply bind_Ok in H. destruct H as ([cs cmp] & Hsp & H).
    rewrite Hsp. cbn [bind].
    apply bind_Ok in H. destruct H as (entry & Hce & H).
    rewrite Hce. cbn [bind].
    apply bind_Ok in H. destruct H as (c & Hc & H).
    rewrite Hc. cbn [bind].
    rewrite (readNode_data c f2 f1 (eq_sym Hd)).
    exists f1'. split; [exact H|congruence].
  - rewrite Z.eqb_refl in H |- *. cbn [bind] in H |- *.
    destruct (le =? 0).
    + injection H as <- <-. exists f2. split; reflexivity.
    + apply bind_Ok in H. destruct H as (ptrs & Hcp & H).
      rewrite Hcp. cbn [bind].
      apply bind_Ok in H. destruct H as (sr & Hsr & H).
      rewrite Hsr. cbn [bind].
      destruct sr as [p|p|]; cbn [Z.eqb] in H |- *;
        injection H as <- <-; exists f2; split; reflexivity.
Qed.

(** A lookup on an index in use, whether the root is cached or not. *)
Lemma lookup_lower (d0 : bytes) (its : list item) (F root : Z) (t : wstring)
    (ALL : IndexedWords) (h : nat) (first : Z) (it : item) :
  (forall p, zlib_uncompress (zlib_compress p) = Some p) ->
  len (d0 ++ image (len d0) its) < u32_modulus ->
  Forall payload_small its -> 1 <= F -> F + 1 < u32_modulus ->
  concat (leaf_entries its) = ALL -> searchable ALL ->
  (ALL <> [] -> Forall leaf_nonempty its) ->
  subtree h F (len d0) its root ALL first ->
  item_at (len d0) its root it ->
  forall (f : File.Class) (loaded : bool) (fuel : nat),
    File.data f = d0 ++ image (len d0) its ->
    (h + Z.to_nat F <= fuel)%nat ->
    exists r f',
      findChainOffsetExactOrPrefix fuel t
        (mkBtreeIndex (Some f) F root loaded
                      (if loaded then payload_of it else []))
      = Ok (r, mkBtreeIndex (Some f') F root true (payload_of it))
      /\ File.data f' = File.data f
      /\ exists lo hi,
          ALL = lo ++ hi
          /\ (forall e, In e lo -> str_compare t (dkey e) = Gt)
          /\ (forall e, In e hi -> str_compare t (dkey e) <> Gt)
          /\ match chainOffset r with
             | None => hi = []
             | Some p => cursor (len d0) its (leafBuf r) p (nextLeaf r) hi
             end.
Proof.
  intros Hz HD Hsm HF HF2 Hcat HsA Hleaves Hsub Hat f loaded fuel Hf Hfuel.
  assert (Htop : forall es', item_at (len d0) its root (LeafI es') -> es' = ALL).
  { intros es' Hat'. destruct h as [|h]; [destruct Hsub|].
    cbn [subtree] in Hsub. destruct (len ALL <=? F).
    - destruct Hsub as [Hat2 _].
      pose proof (item_at_functional _ _ _ _ _ Hat' Hat2) as Heq.
      now injection Heq.
    - destruct Hsub as (offs & piv & Hat2 & _).
      pose proof (item_at_functional _ _ _ _ _ Hat' Hat2) as Heq.
      discriminate Heq. }
  destruct (descend_lower d0 its F root t ALL Hz HD Hsm HF HF2 Hcat HsA
              Hleaves Htop h root ALL first [] [] Hsub
              ltac:(now rewrite app_nil_r) (or_intror eq_refl)
              ltac:(intros e []) ltac:(intros e []) fuel f Hf Hfuel)
    as (r & f' & Hdesc & Hdata & Hres).
  rewrite <- Hf in HD.
  destruct (readNode_item f d0 its root it Hz Hf HD Hsm Hat) as [Hr _].
  rewrite Hr in Hdesc. cbn [bind] in Hdesc.
  unfold findChainOffsetExactOrPrefix.
  cbn [idxFile rootNodeLoaded idxRootOffset indexNodeSize rootNode].
  destruct loaded.
  - cbn [bind].
    destruct (descend_root_any_pos fuel t F root
                (File.mk (File.data f)
                         (root + len (node_image (payload_of it))))
                f (payload_of it) r f' eq_refl Hdesc Hdata)
      as (f2 & Hdesc2 & Hdata2).
    rewrite Hdesc2. cbn [bind]. exists r, f2.
    split; [reflexivity|]. split; [exact Hdata2|exact Hres].
  - rewrite Hr. cbn [bind]. rewrite Hdesc. cbn [bind]. exists r, f'.
    split; [reflexivity|]. split; [exact Hdata|exact Hres].
Qed.

(** The walk that follows a lookup collects the matches of the chains whose
    keys start with the target. *)
Lemma walk_after_lookup (d0 : bytes) (its : list item) (ALL : IndexedWords)
    (r : BtreeWordSearchRequest) (n : Z) (fuel : nat) (folded : wstring)
    (l : ChainLookup) (f : File.Class) (ms : list wstring)
    (lo hi : IndexedWords) :
  (forall p, zlib_uncompress (zlib_compress p) = Some p) ->
  (forall s v, Utf8_decode s = Some v -> nul_free s = true ->
               nul_free v = true) ->
  len (d0 ++ image (len d0) its) < u32_modulus ->
  Forall payload_small its ->
  concat (leaf_entries its) = ALL -> searchable ALL ->
  (ALL <> [] -> Forall leaf_nonempty its) ->
  (forall e, In e ALL ->
             forallb decodable (snd e) = true
             /\ (allowMiddleMatches r = false ->
                 forallb prefixDecodes (snd e) = true)) ->
  (length ALL < fuel)%nat ->
  File.data f = d0 ++ image (len d0) its ->
  ALL = lo ++ hi ->
  (forall e, In e lo -> str_compare folded (dkey e) = Gt) ->
  (forall e, In e hi -> str_compare folded (dkey e) <> Gt) ->
  match chainOffset l with
  | None => hi = []
  | Some p => cursor (len d0) its (leafBuf l) p (nextLeaf l) hi
  end ->
  match chainOffset l with
  | Some p =>
      exists f',
        walkChains fuel r false n folded (leafBuf l) p (nextLeaf l) f ms
        = Ok (collect (maxResults r)
                (map (chainMatches r n)
                     (filter (fun e => startsWith (dkey e) folded) ALL)) ms,
              f')
        /\ File.data f' = d0 ++ image (len d0) its
  | None =>
      collect (maxResults r)
        (map (chainMatches r n)
             (filter (fun e => startsWith (dkey e) folded) ALL)) ms
      = ms
  end.
Proof.
  intros Hz Hnul HD Hsm Hcat HsA Hleaves Hdec Hfuel Hf Hsplit Hlo Hhi Hcur.
  set (P := fun e : bytes * chain => startsWith (dkey e) folded).
  assert (Hfl : filter P lo = []).
  { apply filter_none. intros e Hin. unfold P.
    destruct (startsWith (dkey e) folded) eqn:E; [|reflexivity].
    exfalso. exact (startsWith_not_below folded _ E (Hlo e Hin)). }
  destruct (chainOffset l) as [p|].
  - assert (Hne : ALL <> []).
    { pose proof (cursor_nonempty _ _ _ _ _ _ Hcur) as Hn. rewrite Hsplit.
      intros H0. apply app_eq_nil in H0. now destruct H0. }
    assert (Hshi : searchable hi).
    { apply (searchable_app_mid lo hi []). now rewrite app_nil_r, <- Hsplit. }
    destruct (prefix_run folded hi (proj2 Hshi) Hhi)
      as (good & bad & Hgb & Hgood & Hbad & Hfil).
    assert (Hlg : (length good < fuel)%nat).
    { assert (length good <= length ALL)%nat; [|lia].
      rewrite Hsplit, Hgb, !length_app. lia. }
    rewrite Hsplit, filter_app, Hfl. cbn [app]. fold P in Hfil. rewrite Hfil.
    rewrite Hgb in Hcur. rewrite <- Hcat in HsA, Hdec.
    destruct (walkChains_collects d0 its r n folded Hz Hnul HD Hsm
                (Hleaves Hne) HsA Hdec good bad (leafBuf l) p (nextLeaf l)
                f ms fuel Hcur Hf Hgood Hbad Hlg)
      as (f' & Hw & Hd').
    exists f'. split; [exact Hw|]. now rewrite Hd'.
  - subst hi. rewrite app_nil_r in Hsplit. rewrite Hsplit, Hfl. reflexivity.
Qed.

(** The outer loop of a request: a lookup and a walk for the target, then
    for the target chopped, with the root read once. *)
Lemma chopLoop_matches (d0 : bytes) (its : list item) (F root : Z)
    (ALL : IndexedWords) (h : nat) (first : Z) (it : item)
    (r : BtreeWordSearchRequest) (n : Z) (fuel : nat) :
  (forall p, zlib_uncompress (zlib_compress p) = Some p) ->
  (forall s v, Utf8_decode s = Some v -> nul_free s = true ->
               nul_free v = true) ->
  len (d0 ++ image (len d0) its) < u32_modulus ->
  Forall payload_small its -> 1 <= F -> F + 1 < u32_modulus ->
  concat (leaf_entries its) = ALL -> searchable ALL ->
  (ALL <> [] -> Forall leaf_nonempty its) ->
  subtree h F (len d0) its root ALL first ->
  item_at (len d0) its root it ->
  (forall e, In e ALL ->
             forallb decodable (snd e) = true
             /\ (allowMiddleMatches r = false ->
                 forallb prefixDecodes (snd e) = true)) ->
  (h + Z.to_nat F <= fuel)%nat -> (length ALL < fuel)%nat ->
  forall (chops : nat) (folded : wstring) (f : File.Class) (loaded : bool)
         (ms : list wstring),
    File.data f = d0 ++ image (len d0) its ->
    if (chops <=? length folded)%nat then
      exists idx',
        chopLoop fuel r false n chops folded
          (mkBtreeIndex (Some f) F root loaded
                        (if loaded then payload_of it else [])) ms
        = Ok (matchesOf r n ALL chops folded ms, idx')
    else
      chopLoop fuel r false n chops folded
        (mkBtreeIndex (Some f) F root loaded
                      (if loaded then payload_of it else [])) ms
      = Throw exLengthError.
Proof.
  intros Hz Hnul HD Hsm HF HF2 Hcat HsA Hleaves Hsub Hat Hdec Hfuel1 Hfuel2.
  assert (Hstep : forall folded f loaded ms,
             File.data f = d0 ++ image (len d0) its ->
             exists l f1 f2,
               findChainOffsetExactOrPrefix fuel folded
                 (mkBtreeIndex (Some f) F root loaded
                               (if loaded then payload_of it else []))
               = Ok (l, mkBtreeIndex (Some f1) F root true (payload_of it))
               /\ File.data f2 = d0 ++ image (len d0) its
               /\ match chainOffset l with
                  | Some p =>
                      walkChains fuel r false n folded (leafBuf l) p
                                 (nextLeaf l) f1 ms
                      = Ok (collect (maxResults r)
                              (map (chainMatches r n)
                                 (filter (fun e => startsWith (dkey e) folded)
                                         ALL)) ms, f2)
                  | None =>
                      collect (maxResults r)
                        (map (chainMatches r n)
                           (filter (fun e => startsWith (dkey e) folded) ALL))
                        ms = ms
                      /\ f2 = f1
                  end).
  { intros folded f loaded ms Hf.
    destruct (lookup_lower d0 its F root folded ALL h first it Hz HD Hsm HF
                HF2 Hcat HsA Hleaves Hsub Hat f loaded fuel Hf Hfuel1)
      as (l & f1 & Hlook & Hdata & lo & hi & Hsplit & Hlo & Hhi & Hcur).
    assert (Hf1 : File.data f1 = d0 ++ image (len d0) its)
      by (now rewrite Hdata).
    pose proof (walk_after_lookup d0 its ALL r n fuel folded l f1 ms lo hi Hz
                  Hnul HD Hsm Hcat HsA Hleaves Hdec Hfuel2 Hf1 Hsplit Hlo Hhi
                  Hcur) as Hw.
    destruct (chainOffset l) as [p|] eqn:El.
    - destruct Hw as (f2 & Hw & Hd2). exists l, f1, f2. rewrite El.
      split; [exact Hlook|]. split; [exact Hd2|exact Hw].
    - exists l, f1, f1. rewrite El. split; [exact Hlook|].
      split; [exact Hf1|]. split; [exact Hw|reflexivity]. }
  induction chops as [|chops IH]; intros folded f loaded ms Hf.
  - destruct (Hstep folded f loaded ms Hf) as (l & f1 & f2 & Hlook & _ & Hw).
    change (0 <=? length folded)%nat with true. cbv iota.
    cbn [chopLoop matchesOf]. rewrite Hlook. cbn [bind idxFile].
    destruct (chainOffset l) as [p|].
    + rewrite Hw. cbn [bind]. eexists. reflexivity.
    + destruct Hw as [Hw _]. rewrite Hw. cbn [bind]. eexists. reflexivity.
  - destruct (Hstep folded f loaded ms Hf) as (l & f1 & f2 & Hlook & Hd2 & Hw).
    assert (Hlast : forall (c : wchar) (t : wstring),
               length (removelast (c :: t)) = length t).
    { intros c t. revert c. induction t as [|c' t IHt]; intros c;
        [reflexivity|].
      change (removelast (c :: c' :: t)) with (c :: removelast (c' :: t)).
      cbn [length]. now rewrite IHt. }
    cbn [chopLoop matchesOf]. rewrite Hlook. cbn [bind idxFile].
    destruct folded as [|c t].
    + change (S chops <=? length (@nil wchar))%nat with false. cbv iota.
      destruct (chainOffset l) as [p|].
      * rewrite Hw. reflexivity.
      * destruct Hw as [Hw _]. reflexivity.
    + change (S chops <=? length (c :: t))%nat
        with (chops <=? length t)%nat.
      rewrite <- (Hlast c t).
      destruct (chainOffset l) as [p|].
      * rewrite Hw.
        cbn [bind indexNodeSize idxRootOffset rootNodeLoaded rootNode].
        exact (IH (removelast (c :: t)) f2 true _ Hd2).
      * destruct Hw as [Hw ->]. rewrite Hw. cbn [bind].
        exact (IH (removelast (c :: t)) f1 true _ Hd2).
Qed.

Lemma collect_all (R : Z) (cs : list (list wstring)) :
  forall ms, len (ms ++ concat cs) < R -> collect R cs ms = ms ++ concat cs.
Proof.
  induction cs as [|c cs IH]; intros ms H; cbn [collect concat] in H |- *.
  - now rewrite app_nil_r.
  - rewrite app_assoc in H |- *.
    replace (R <=? len (ms ++ c)) with false; [exact (IH _ H)|].
    symmetry. apply Z.leb_gt. rewrite len_app in H.
    pose proof (len_nonneg (concat cs)). lia.
Qed.

(** X16.  A prefix search finds every match and nothing else.  On the
    index [buildIndex] wrote from a well-formed map whose records decode,
    [prefixMatch( w, maxResults )] yields the headwords ([prefix + word]) of
    all the records of all the chains whose key starts with the folding of
    [w], in the order of the keys and, within a chain, of the records;
    provided they are fewer than [maxResults]. *)
Theorem prefixMatch_finds_all (m : IndexedWords) (file : File.Class)
    (info : IndexInfo) (file' : File.Class) (w : wstring) (R : Z) :
  (forall p, zlib_uncompress (zlib_compress p) = Some p) ->
  (forall a b, str_compare (Utf8_encode a) (Utf8_encode b) = str_compare a b) ->
  (forall s v, Utf8_decode s = Some v -> nul_free s = true ->
               nul_free v = true) ->
  keys_ascending m -> forallb entry_ok m = true -> chains_ok m = true ->
  forallb (fun e => forallb decodable (snd e)) m = true ->
  raw_size BtreeMaxElements m < u32_modulus ->
  File.pos file = len (File.data file) ->
  buildIndex m file = Some (info, file') ->
  len (File.data file') < u32_modulus ->
  len (flat_map (fun e => headwordsOf (snd e))
         (filter (fun e => startsWith (dkey e) (Folding_apply w))
                 (nonEmptyKeys m))) < R ->
  exists k, forall fuel, (k <= fuel)%nat ->
    exists idx',
      run fuel (prefixMatch w R) false (openIndex info file')
      = Ok (flat_map (fun e => headwordsOf (snd e))
              (filter (fun e => startsWith (dkey e) (Folding_apply w))
                      (nonEmptyKeys m)),
            idx').
Proof.
  intros Hz Hord Hnul Hasc Hok Hch Hdec Hraw Hpos Hb Hsmall HR.
  destruct (buildIndex_ok m file info file' Hasc Hraw Hpos Hb Hsmall)
    as (HF & _).
  destruct (buildIndex_full m file info file' Hasc Hraw Hpos Hb Hsmall)
    as (new & [Hd _] & Hsub & Hcat & Hsm & Hleaves).
  pose proof (searchable_map m Hord Hasc Hok Hch) as Hs.
  assert (HFr : 64 <= btreeMaxElements info <= 4096)
    by (rewrite HF, chooseMaxElements_clamp; lia).
  assert (HdecA : forall e, In e (nonEmptyKeys m) ->
             forallb decodable (snd e) = true
             /\ (allowMiddleMatches (prefixMatch w R) = false ->
                 forallb prefixDecodes (snd e) = true)).
  { intros e Hin. apply filter_In in Hin. destruct Hin as [Hin _].
    split; [|discriminate].
    rewrite forallb_forall in Hdec. exact (Hdec e Hin). }
  destruct (subtree_item _ _ _ _ _ _ _ Hsub) as (it & Hat).
  exists (S (S (length (nonEmptyKeys m)))
          + Z.to_nat (btreeMaxElements info))%nat.
  intros fuel Hfuel.
  rewrite Hd in Hsmall.
  destruct (chopLoop_matches (File.data file) new (btreeMaxElements info)
              (rootOffset info) (nonEmptyKeys m) _ _ it (prefixMatch w R)
              (len (Folding_apply w)) fuel Hz Hnul Hsmall Hsm ltac:(lia)
              ltac:(unfold u32_modulus; lia) Hcat Hs Hleaves Hsub Hat HdecA
              ltac:(lia) ltac:(lia) O (Folding_apply w) file' false [] Hd)
    as (idx' & Hrun).
  cbn [matchesOf] in Hrun. rewrite collect_all in Hrun.
  - cbn [app] in Hrun. rewrite <- flat_map_concat_map in Hrun.
    exists idx'. exact Hrun.
  - cbn [app]. rewrite <- flat_map_concat_map. exact HR.
Qed.

(** Where [collect] stops: after the first chain that brings the matches to
    [R], or after the last chain. *)
Lemma collect_stops (R : Z) (cs : list (list wstring)) :
  forall ms, exists j : nat,
    (j <= length cs)%nat
    /\ (cs <> [] -> (0 < j)%nat)
    /\ (forall i, (0 < i < j)%nat -> len (ms ++ concat (firstn i cs)) < R)
    /\ (j = length cs \/ R <= len (ms ++ concat (firstn j cs)))
    /\ collect R cs ms = ms ++ concat (firstn j cs).
Proof.
  induction cs as [|c cs IH]; intros ms.
  - exists O. cbn [length firstn concat collect]. rewrite app_nil_r.
    split; [lia|]. split; [congruence|]. split; [lia|]. split; [now left|].
    reflexivity.
  - cbn [collect]. destruct (R <=? len (ms ++ c)) eqn:E.
    + apply Z.leb_le in E. exists 1%nat.
      cbn [length firstn concat]. rewrite app_nil_r.
      split; [lia|]. split; [lia|]. split; [lia|]. split; [now right|].
      reflexivity.
    + apply Z.leb_gt in E.
      destruct (IH (ms ++ c)) as (j & Hj & Hpos & Hlt & Hend & Hc).
      exists (S j). cbn [length firstn concat].
      rewrite app_assoc. split; [lia|]. split; [lia|].
      split; [|split; [|exact Hc]].
      * intros i Hi. destruct i as [|i]; [lia|].
        cbn [firstn concat]. rewrite app_assoc.
        destruct i as [|i];
          [cbn [firstn concat]; rewrite app_nil_r; exact E|].
        apply Hlt. lia.
      * destruct Hend as [->|Hend]; [now left|now right].
Qed.

(** X15.  A prefix search stops at [maxResults], chain by chain.  On the
    index [buildIndex] wrote from a well-formed map whose records decode,
    [prefixMatch( w, maxResults )] yields the headwords of the first [j]
    chains whose key starts with the folding of [w], in the order of the
    keys, where [j] is the number of chains it takes to reach [maxResults]
    headwords: no smaller number of chains (but for none) reaches it, and
    [j] chains reach it unless [j] is all the chains there are.  The first
    chain is always taken whole, so [maxResults] is exceeded by no more than
    the records of the last chain taken. *)
Theorem prefixMatch_stops_at_maxResults (m : IndexedWords) (file : File.Class)
    (info : IndexInfo) (file' : File.Class) (w : wstring) (R : Z) :
  (forall p, zlib_uncompress (zlib_compress p) = Some p) ->
  (forall a b, str_compare (Utf8_encode a) (Utf8_encode b) = str_compare a b) ->
  (forall s v, Utf8_decode s = Some v -> nul_free s = true ->
               nul_free v = true) ->
  keys_ascending m -> forallb entry_ok m = true -> chains_ok m = true ->
  forallb (fun e => forallb decodable (snd e)) m = true ->
  raw_size BtreeMaxElements m < u32_modulus ->
  File.pos file = len (File.data file) ->
  buildIndex m file = Some (info, file') ->
  len (File.data file') < u32_modulus ->
  let found := filter (fun e => startsWith (dkey e) (Folding_apply w))
                      (nonEmptyKeys m) in
  let headwords := fun es : IndexedWords =>
                     flat_map (fun e => headwordsOf (snd e)) es in
  exists j : nat,
    (j <= length found)%nat
    /\ (found <> [] -> (0 < j)%nat)
    /\ (forall i, (0 < i < j)%nat -> len (headwords (firstn i found)) < R)
    /\ (j = length found \/ R <= len (headwords (firstn j found)))
    /\ exists k, forall fuel, (k <= fuel)%nat ->
         exists idx',
           run fuel (prefixMatch w R) false (openIndex info file')
           = Ok (headwords (firstn j found), idx').
Proof.
  intros Hz Hord Hnul Hasc Hok Hch Hdec Hraw Hpos Hb Hsmall found headwords.
  destruct (buildIndex_ok m file info file' Hasc Hraw Hpos Hb Hsmall)
    as (HF & _).
  destruct (buildIndex_full m file info file' Hasc Hraw Hpos Hb Hsmall)
    as (new & [Hd _] & Hsub & Hcat & Hsm & Hleaves).
  pose proof (searchable_map m Hord Hasc Hok Hch) as Hs.
  assert (HFr : 64 <= btreeMaxElements info <= 4096)
    by (rewrite HF, chooseMaxElements_clamp; lia).
  assert (HdecA : forall e, In e (nonEmptyKeys m) ->
             forallb decodable (snd e) = true
             /\ (allowMiddleMatches (prefixMatch w R) = false ->
                 forallb prefixDecodes (snd e) = true)).
  { intros e Hin. apply filter_In in Hin. destruct Hin as [Hin _].
    split; [|discriminate].
    rewrite forallb_forall in Hdec. exact (Hdec e Hin). }
  destruct (subtree_item _ _ _ _ _ _ _ Hsub) as (it & Hat).
  assert (Hheads : forall es : IndexedWords,
             concat (map (chainMatches (prefixMatch w R)
                            (len (Folding_apply w))) es)
             = headwords es).
  { intros es. unfold headwords. now rewrite flat_map_concat_map. }
  destruct (collect_stops R
              (map (chainMatches (prefixMatch w R) (len (Folding_apply w)))
                   found) [])
    as (j & Hj & Hpos' & Hlt & Hend & Hc).
  rewrite length_map in Hj, Hend.
  cbn [app] in Hlt, Hend, Hc.
  exists j. split; [exact Hj|]. split.
  { intros Hne. apply Hpos'. intros Hnil. apply Hne.
    destruct found; [reflexivity|discriminate]. }
  split.
  { intros i Hi. specialize (Hlt i Hi).
    now rewrite firstn_map, Hheads in Hlt. }
  split.
  { destruct Hend as [Hend|Hend]; [now left|right].
    now rewrite firstn_map, Hheads in Hend. }
  exists (S (S (length (nonEmptyKeys m)))
          + Z.to_nat (btreeMaxElements info))%nat.
  intros fuel Hfuel.
  rewrite Hd in Hsmall.
  destruct (chopLoop_matches (File.data file) new (btreeMaxElements info)
              (rootOffset info) (nonEmptyKeys m) _ _ it (prefixMatch w R)
              (len (Folding_apply w)) fuel Hz Hnul Hsmall Hsm ltac:(lia)
              ltac:(unfold u32_modulus; lia) Hcat Hs Hleaves Hsub Hat HdecA
              ltac:(lia) ltac:(lia) O (Folding_apply w) file' false [] Hd)
    as (idx' & Hrun).
  change (matchesOf (prefixMatch w R) (len (Folding_apply w))
            (nonEmptyKeys m) 0 (Folding_apply w) [])
    with (collect R
            (map (chainMatches (prefixMatch w R) (len (Folding_apply w)))
                 found) []) in Hrun.
  rewrite Hc, firstn_map, Hheads in Hrun.
  exists idx'. exact Hrun.
Qed.

(** X17.  What [findChainOffsetExactOrPrefix] returns for a target that
    need not be a key: the keys split into those below the target and the
    rest; the pointer returned is the null pointer when there is no rest,
    and otherwise designates the chain of the first key that is not below
    the target, the place a prefix match starts at. *)
Theorem lookup_lower_bound (m : IndexedWords) (file : File.Class)
    (info : IndexInfo) (file' : File.Class) (t : wstring) :
  (forall p, zlib_uncompress (zlib_compress p) = Some p) ->
  (forall a b, str_compare (Utf8_encode a) (Utf8_encode b) = str_compare a b) ->
  keys_ascending m -> forallb entry_ok m = true -> chains_ok m = true ->
  raw_size BtreeMaxElements m < u32_modulus ->
  File.pos file = len (File.data file) ->
  buildIndex m file = Some (info, file') ->
  len (File.data file') < u32_modulus ->
  exists k, forall fuel, (k <= fuel)%nat ->
    exists r idx' lo hi,
      findChainOffsetExactOrPrefix fuel t (openIndex info file')
      = Ok (r, idx')
      /\ nonEmptyKeys m = lo ++ hi
      /\ (forall e, In e lo -> str_compare (dkey e) t = Lt)
      /\ (forall e, In e hi -> str_compare (dkey e) t <> Lt)
      /\ match chainOffset r with
         | None => hi = []
         | Some p =>
             exists e hi' q,
               hi = e :: hi' /\ readChain (leafBuf r) p = Ok (snd e, q)
         end.
Proof.
  intros Hz Hord Hasc Hok Hch Hraw Hpos Hb Hsmall.
  destruct (buildIndex_ok m file info file' Hasc Hraw Hpos Hb Hsmall)
    as (HF & _).
  destruct (buildIndex_full m file info file' Hasc Hraw Hpos Hb Hsmall)
    as (new & [Hd _] & Hsub & Hcat & Hsm & Hleaves).
  pose proof (searchable_map m Hord Hasc Hok Hch) as Hs.
  set (ALL := nonEmptyKeys m) in *.
  assert (HFr : 64 <= btreeMaxElements info <= 4096)
    by (rewrite HF, chooseMaxElements_clamp; lia).
  destruct (subtree_item _ _ _ _ _ _ _ Hsub) as (it & Hat).
  exists (S (length ALL) + Z.to_nat (btreeMaxElements info))%nat.
  intros fuel Hfuel.
  rewrite Hd in Hsmall.
  destruct (lookup_lower (File.data file) new (btreeMaxElements info)
              (rootOffset info) t ALL _ _ it Hz Hsmall Hsm ltac:(lia)
              ltac:(unfold u32_modulus; lia) Hcat Hs Hleaves Hsub Hat file'
              false fuel Hd Hfuel)
    as (r & f' & Hlook & Hdata & lo & hi & Hsplit & Hlo & Hhi & Hcur).
  unfold openIndex. eexists r, _, lo, hi.
  split; [exact Hlook|]. split; [exact Hsplit|].
  split; [intros e Hin; apply str_compare_gt_lt; exact (Hlo e Hin)|].
  split.
  { intros e Hin Hlt. apply str_compare_gt_lt in Hlt. exact (Hhi e Hin Hlt). }
  destruct (chainOffset r) as [p|]; [|exact Hcur].
  pose proof (cursor_nonempty _ _ _ _ _ _ Hcur) as Hne.
  destruct hi as [|e hi']; [congruence|].
  assert (HneA : ALL <> []).
  { rewrite Hsplit. intros H0. apply app_eq_nil in H0.
    destruct H0 as [_ H0]. discriminate H0. }
  rewrite <- Hcat in Hs.
  assert (Hd' : File.data f'
                = File.data file ++ image (len (File.data file)) new)
    by (rewrite Hdata; exact Hd).
  assert (HD' : len (File.data f') < u32_modulus)
    by (rewrite Hd'; exact Hsmall).
  destruct (cursor_step (File.data file) new f' (leafBuf r) p (nextLeaf r) e
              hi' Hz Hd' HD' Hsm (Hleaves HneA) Hs Hcur)
    as (p' & _ & Hl & _ & Hrc & _).
  exists e, hi', p'. split; [reflexivity|exact Hrc].
Qed.

(** X19.  The matches of a search request, prefix or stemmed, that runs to
    its end on the index [buildIndex] wrote from a well-formed map whose
    records decode.  For the folded target, and then for the target with its
    last character chopped, as many times as there are characters to chop:
    the chains whose key starts with the target are taken in the order of
    the keys, each adding the headwords of its records (for a stemmed search
    only those that are no middle matches, and nothing when the key is more
    than [maxSuffixVariation] longer than the folded word), until a chain
    brings the matches to [maxResults].  Nothing is removed, so a match
    found for the target is found again for the chopped ones.  When there
    are more characters to chop than the folded word has (which takes a
    [minLength] of 2^31 or more, negative as an [int]), the request does not
    end: [resize( size() - 1 )] is applied to the empty string and throws
    [std::length_error]. *)
Theorem run_matches (m : IndexedWords) (file : File.Class) (info : IndexInfo)
    (file' : File.Class) (r : BtreeWordSearchRequest) :
  (forall p, zlib_uncompress (zlib_compress p) = Some p) ->
  (forall a b, str_compare (Utf8_encode a) (Utf8_encode b) = str_compare a b) ->
  (forall s v, Utf8_decode s = Some v -> nul_free s = true ->
               nul_free v = true) ->
  keys_ascending m -> forallb entry_ok m = true -> chains_ok m = true ->
  forallb (fun e => forallb decodable (snd e)) m = true ->
  (allowMiddleMatches r = false ->
   forallb (fun e => forallb prefixDecodes (snd e)) m = true) ->
  raw_size BtreeMaxElements m < u32_modulus ->
  File.pos file = len (File.data file) ->
  buildIndex m file = Some (info, file') ->
  len (File.data file') < u32_modulus ->
  exists k, forall fuel, (k <= fuel)%nat ->
    if charsLeftToChop r (len (Folding_apply (req_str r)))
       <=? len (Folding_apply (req_str r))
    then
      exists idx',
        run fuel r false (openIndex info file')
        = Ok (matchesOf r (len (Folding_apply (req_str r))) (nonEmptyKeys m)
                (Z.to_nat (charsLeftToChop r (len (Folding_apply (req_str r)))))
                (Folding_apply (req_str r)) [],
              idx')
    else run fuel r false (openIndex info file') = Throw exLengthError.
Proof.
  intros Hz Hord Hnul Hasc Hok Hch Hdec Hpre Hraw Hpos Hb Hsmall.
  destruct (buildIndex_ok m file info file' Hasc Hraw Hpos Hb Hsmall)
    as (HF & _).
  destruct (buildIndex_full m file info file' Hasc Hraw Hpos Hb Hsmall)
    as (new & [Hd _] & Hsub & Hcat & Hsm & Hleaves).
  pose proof (searchable_map m Hord Hasc Hok Hch) as Hs.
  assert (HFr : 64 <= btreeMaxElements info <= 4096)
    by (rewrite HF, chooseMaxElements_clamp; lia).
  assert (HdecA : forall e, In e (nonEmptyKeys m) ->
             forallb decodable (snd e) = true
             /\ (allowMiddleMatches r = false ->
                 forallb prefixDecodes (snd e) = true)).
  { intros e Hin. apply filter_In in Hin. destruct Hin as [Hin _]. split.
    - rewrite forallb_forall in Hdec. exact (Hdec e Hin).
    - intros Ha. specialize (Hpre Ha). rewrite forallb_forall in Hpre.
      exact (Hpre e Hin). }
  destruct (subtree_item _ _ _ _ _ _ _ Hsub) as (it & Hat).
  exists (S (S (length (nonEmptyKeys m)))
          + Z.to_nat (btreeMaxElements info))%nat.
  intros fuel Hfuel.
  rewrite Hd in Hsmall.
  unfold run, openIndex. cbv zeta. cbn [negb].
  set (folded := Folding_apply (req_str r)).
  set (c := charsLeftToChop r (len folded)).
  pose proof (chopLoop_matches (File.data file) new (btreeMaxElements info)
           (rootOffset info) (nonEmptyKeys m) _ _ it r (len folded) fuel Hz
           Hnul Hsmall
           Hsm ltac:(lia) ltac:(unfold u32_modulus; lia) Hcat Hs Hleaves Hsub
           Hat HdecA ltac:(lia) ltac:(lia) (Z.to_nat c) folded file' false []
           Hd) as Hrun.
  replace (Z.to_nat c <=? length folded)%nat with (c <=? len folded)
    in Hrun; [exact Hrun|].
  unfold len. destruct (c <=? Z.of_nat (length folded)) eqn:E; symmetry.
  - apply Z.leb_le in E. apply Nat.leb_le. lia.
  - apply Z.leb_gt in E. apply Nat.leb_gt. lia.
Qed.

(** ** The index that was not opened *)

Lemma bind_not_thrown {A B : Type} (c : outcome A) (k : A -> outcome B)
    (e : exn) :
  c <> Throw e -> (forall a, c = Ok a -> k a <> Throw e) -> bind c k <> Throw e.
Proof.
  intros Hc Hk. destruct c as [a| e'| |]; cbn [bind];
    [apply Hk; reflexivity|congruence|discriminate|discriminate].
Qed.

Lemma access_not_thrown {A : Type} (o : option A) (e : exn) :
  access o <> Throw e.
Proof. destruct o; discriminate. Qed.

Ltac not_thrown :=
  repeat (cbv zeta;
          match goal with
          | |- bind _ _ <> _ => apply bind_not_thrown; [|intros ? _]
          | |- access _ <> _ => apply access_not_thrown
          | |- Ok _ <> _ => discriminate
          | |- Throw _ <> _ => discriminate
          | |- Fault <> _ => discriminate
          | |- OutOfFuel <> _ => discriminate
          | |- (if ?b then _ else _) <> _ => destruct b
          | |- (match ?x with _ => _ end) <> _ => destruct x
          end).

Lemma read_u32_opened (f : File.Class) :
  File.read_u32 f <> Throw exIndexWasNotOpened.
Proof. unfold File.read_u32. not_thrown. Qed.

Lemma readNode_opened (offset : Z) (f : File.Class) :
  readNode offset f <> Throw exIndexWasNotOpened.
Proof.
  pose proof read_u32_opened as Hr.
  unfold readNode, File.read. not_thrown; auto.
Qed.

Lemma scanBack_opened (n : nat) (buf : bytes) :
  forall p, scanBack n buf p <> Throw exIndexWasNotOpened.
Proof.
  induction n as [|n IH]; intros p; cbn [scanBack]; not_thrown; auto.
Qed.

Lemma decodeAt_opened (buf : bytes) (p : Z) :
  decodeAt buf p <> Throw exIndexWasNotOpened.
Proof. unfold decodeAt. not_thrown. Qed.

Lemma searchPivots_opened (fuel : nat) (target : wstring) (buf : bytes)
    (ptr : Z) :
  forall window windowSize,
    searchPivots fuel target buf ptr window windowSize
    <> Throw exIndexWasNotOpened.
Proof.
  pose proof scanBack_opened as Hs. pose proof decodeAt_opened as Hd.
  induction fuel as [|fuel IH]; intros window windowSize;
    cbn [searchPivots]; not_thrown; auto.
Qed.

Lemma countEntries_opened (fuel : nat) (buf : bytes) (closestString : Z) :
  forall next entry,
    countEntries fuel buf next closestString entry
    <> Throw exIndexWasNotOpened.
Proof.
  induction fuel as [|fuel IH]; intros next entry; cbn [countEntries];
    not_thrown; auto.
Qed.

Lemma chainPointers_opened (turns : nat) (buf : bytes) :
  forall ptr leafEntries,
    chainPointers turns buf ptr leafEntries <> Throw exIndexWasNotOpened.
Proof.
  induction turns as [|turns IH]; intros ptr leafEntries;
    cbn [chainPointers]; not_thrown; auto.
Qed.

Lemma searchChains_opened (turns : nat) (target : wstring) (buf : bytes)
    (chainOffsets : list Z) :
  forall window windowSize,
    searchChains turns target buf chainOffsets window windowSize
    <> Throw exIndexWasNotOpened.
Proof.
  pose proof decodeAt_opened as Hd.
  induction turns as [|turns IH]; intros window windowSize;
    cbn [searchChains]; not_thrown; auto.
Qed.

Lemma descend_opened (fuel : nat) (target : wstring) (nodeSize root : Z) :
  forall file leaf currentNodeOffset,
    descend fuel target nodeSize root file leaf currentNodeOffset
    <> Throw exIndexWasNotOpened.
Proof.
  pose proof read_u32_opened as H1. pose proof readNode_opened as H2.
  pose proof searchPivots_opened as H3. pose proof countEntries_opened as H4.
  pose proof chainPointers_opened as H5. pose proof searchChains_opened as H6.
  induction fuel as [|fuel IH]; intros file leaf currentNodeOffset;
    [discriminate|].
  cbn [descend]. not_thrown; auto.
Qed.

Lemma readChain_opened (buf : bytes) (ptr : Z) :
  readChain buf ptr <> Throw exIndexWasNotOpened.
Proof.
  unfold readChain. apply bind_not_thrown; [apply access_not_thrown|].
  intros chainSize _. generalize (ptr + 4) as p. revert chainSize.
  generalize (@nil WordArticleLink).
  induction (S (length buf)) as [|turns IH]; intros res chainSize p;
    cbn [readChain_loop]; not_thrown; auto.
Qed.

Lemma antialias_opened (str : wstring) (c : chain) :
  antialias str c <> Throw exIndexWasNotOpened.
Proof.
  unfold antialias. generalize (Folding_applySimpleCaseOnly str) as cf.
  generalize c at 2. induction (length c) as [|x IH]; intros c' cf;
    cbn [antialias_loop]; not_thrown; auto.
Qed.

Lemma addMatches_opened (r : BtreeWordSearchRequest) (n : Z)
    (resultFolded : wstring) (c : chain) :
  forall matches,
    addMatches r n resultFolded c matches <> Throw exIndexWasNotOpened.
Proof.
  induction c as [|cx c IH]; intros matches; cbn [addMatches];
    not_thrown; auto.
Qed.

Lemma walkChains_opened (fuel : nat) (r : BtreeWordSearchRequest)
    (isCancelled : bool) (n : Z) (folded : wstring) :
  forall leaf chainOffset nextLeaf file matches,
    walkChains fuel r isCancelled n folded leaf chainOffset nextLeaf file
               matches
    <> Throw exIndexWasNotOpened.
Proof.
  pose proof read_u32_opened as H1. pose proof readNode_opened as H2.
  pose proof readChain_opened as H3. pose proof addMatches_opened as H4.
  induction fuel as [|fuel IH];
    intros leaf chainOffset nextLeaf file matches; [discriminate|].
  cbn [walkChains]. not_thrown; auto.
Qed.

Lemma lookup_opened (fuel : nat) (target : wstring) (idx : BtreeIndex) :
  idxFile idx <> None ->
  findChainOffsetExactOrPrefix fuel target idx <> Throw exIndexWasNotOpened
  /\ forall l idx',
       findChainOffsetExactOrPrefix fuel target idx = Ok (l, idx') ->
       idxFile idx' <> None.
Proof.
  pose proof readNode_opened as H2. pose proof descend_opened as H3.
  intros Hopen. unfold findChainOffsetExactOrPrefix.
  destruct (idxFile idx) as [file|]; [clear Hopen|congruence].
  split; [not_thrown; auto|].
  intros l idx' H.
  apply bind_Ok in H as ([root file1] & _ & H).
  apply bind_Ok in H as ([r file2] & _ & H).
  injection H as _ <-. discriminate.
Qed.

Lemma chopLoop_opened (fuel : nat) (r : BtreeWordSearchRequest)
    (isCancelled : bool) (n : Z) (chops : nat) :
  forall folded idx matches,
    idxFile idx <> None ->
    chopLoop fuel r isCancelled n chops folded idx matches
    <> Throw exIndexWasNotOpened.
Proof.
  pose proof walkChains_opened as H1.
  assert (Hstep : forall folded idx matches
                     (k : list wstring * BtreeIndex
                          -> outcome (list wstring * BtreeIndex)),
             idxFile idx <> None ->
             (forall ms idx2, idxFile idx2 <> None ->
                              k (ms, idx2) <> Throw exIndexWasNotOpened) ->
             bind (findChainOffsetExactOrPrefix fuel folded idx)
                  (fun x => let '(l, idx1) := x in
                     bind (match chainOffset l, idxFile idx1 with
                           | Some p, Some file =>
                               bind (walkChains fuel r isCancelled n folded
                                       (leafBuf l) p (nextLeaf l) file matches)
                                    (fun y => let '(ms, file') := y in
                                       Ok (ms, mkBtreeIndex (Some file')
                                                 (indexNodeSize idx1)
                                                 (idxRootOffset idx1)
                                                 (rootNodeLoaded idx1)
                                                 (rootNode idx1)))
                           | _, _ => Ok (matches, idx1)
                           end) k)
             <> Throw exIndexWasNotOpened).
  { intros folded idx matches k Hopen Hk.
    destruct (lookup_opened fuel folded idx Hopen) as [Hl1 Hl2].
    apply bind_not_thrown; [exact Hl1|].
    intros [l idx1] Hl. apply Hl2 in Hl.
    apply bind_not_thrown; [not_thrown; auto|].
    intros [ms idx2] H2. apply Hk.
    destruct (chainOffset l); [destruct (idxFile idx1) eqn:E1|].
    - apply bind_Ok in H2 as ([ms' f'] & _ & H2).
      injection H2 as _ <-. discriminate.
    - exfalso. apply Hl. reflexivity.
    - injection H2 as _ <-. exact Hl. }
  induction chops as [|chops IH]; intros folded idx matches Hopen;
    cbn [chopLoop]; apply Hstep; try exact Hopen; intros ms idx2 Hopen2.
  - discriminate.
  - destruct isCancelled; [discriminate|].
    destruct folded as [|c t]; [discriminate|]. apply IH. exact Hopen2.
Qed.

(** X22.  [exIndexWasNotOpened] is what the readers throw on an index whose
    [openIndex] was not called, and only on such an index: [findArticles] and
    a search request that was not cancelled throw it exactly when [idxFile]
    is null, for every word and request. *)
Theorem not_opened_iff (fuel : nat) (w : wstring) (r : BtreeWordSearchRequest)
    (idx : BtreeIndex) :
  (findArticles fuel w idx = Throw exIndexWasNotOpened <-> idxFile idx = None)
  /\ (run fuel r false idx = Throw exIndexWasNotOpened
      <-> idxFile idx = None).
Proof.
  split; split.
  - intros H. destruct (idxFile idx) as [file|] eqn:E; [|reflexivity].
    exfalso. revert H. unfold findArticles. cbv zeta.
    apply bind_not_thrown;
      [apply lookup_opened; rewrite E; discriminate|].
    intros [l idx'] _.
    pose proof readChain_opened as H1. pose proof antialias_opened as H2.
    not_thrown; auto.
  - intros E. unfold findArticles, findChainOffsetExactOrPrefix.
    rewrite E. reflexivity.
  - intros H. destruct (idxFile idx) as [file|] eqn:E; [|reflexivity].
    exfalso. revert H. unfold run. cbv zeta.
    apply chopLoop_opened. rewrite E. discriminate.
  - intros E. unfold run. cbv zeta.
    destruct (Z.to_nat _); cbn [chopLoop];
      unfold findChainOffsetExactOrPrefix; rewrite E; reflexivity.
Qed.

End BtreeIndexing.

(** * The index on the sample inputs *)

Example sample_words_added :
  addWord Sample.apply Sample.isWhitespace Sample.isPunct Sample.encode
    Sample.word_nyc 42
    (addSingleWord Sample.apply Sample.encode Sample.word_abc 3
       (addSingleWord Sample.apply Sample.encode Sample.word_ab 2
          (addSingleWord Sample.apply Sample.encode Sample.word_a 1 [])))
  = Sample.words.
Proof. vm_compute. reflexivity. Qed.

Example sample_index_built :
  buildIndex Sample.compress Sample.words Sample.file0
  = Some (Sample.indexInfo, Sample.indexFile).
Proof. vm_compute. reflexivity. Qed.

Lemma sample_words_ascending : keys_ascending Sample.words.
Proof. vm_compute. repeat split. Qed.

(** "a" is indexed already: adding it again under article 9 changes
    nothing. *)
Lemma addSingleWord_keeps_first_witness :
  keys_ascending Sample.words
  /\ addSingleWord Sample.apply Sample.encode Sample.word_a 9 Sample.words
     = Sample.words.
Proof.
  split; [exact sample_words_ascending|].
  exact (proj1 (addSingleWord_keeps_first Sample.apply Sample.encode
                  Sample.word_a 9 Sample.words sample_words_ascending)
               _ eq_refl).
Defined.



(** A chain of one record: the word "a", no prefix, article 7. *)
Lemma readChain_spec_witness :
  get_u32 [7; 0; 0; 0; 97; 0; 0; 7; 0; 0; 0] 0 = Some 7
  /\ readChain [7; 0; 0; 0; 97; 0; 0; 7; 0; 0; 0] 0
     = Ok ([mkLink [97] [] 7], 11).
Proof.
  split; [reflexivity|].
  apply (proj1 (readChain_spec [7; 0; 0; 0; 97; 0; 0; 7; 0; 0; 0] 0 7
                  eq_refl ltac:(lia))).
  split; [reflexivity|].
  constructor; [|constructor].
  repeat split.
Defined.

(** The claim C9 as it is written fails: on the sample index the stemmed
    search for "a" without suffix variation yields "a" alone, the prefix
    search for "a" yields "a", "ab" and "abc". *)
Lemma stemmedMatch_zero_differs_from_prefixMatch :
  let dict := openIndex Sample.indexInfo Sample.indexFile in
  let matches r :=
    match run Sample.apply Sample.decode Sample.uncompress 5 r false dict with
    | Ok (ms, _) => Some ms
    | _ => None
    end in
  matches (stemmedMatch Sample.word_a 1 0 10) = Some [[97]]
  /\ matches (prefixMatch Sample.word_a 10)
     = Some [[97]; [97; 98]; [97; 98; 99]]
  /\ matches (stemmedMatch Sample.word_a 1 0 10)
     <> matches (prefixMatch Sample.word_a 10).
Proof.
  vm_compute. repeat split; discriminate.
Qed.

Lemma sample_raw_size : raw_size BtreeMaxElements Sample.words < u32_modulus.
Proof. vm_compute. reflexivity. Qed.

Lemma sample_file0_at_end :
  File.pos Sample.file0 = len (File.data Sample.file0).
Proof. reflexivity. Qed.

(** Six keys: the fanout of the sample index is the minimum, 64. *)
Lemma buildIndex_fanout_witness :
  keys_ascending Sample.words
  /\ btreeMaxElements Sample.indexInfo = 64
  /\ exists info file',
      buildIndex Sample.compress Sample.words Sample.file0 = Some (info, file').
Proof.
  split; [exact sample_words_ascending|].
  destruct (buildIndex_fanout Sample.compress Sample.words Sample.file0
              sample_words_ascending) as [Hfan Hret].
  split; [|exact (Hret sample_raw_size)].
  destruct (Hfan _ _ sample_index_built) as (HF & _). rewrite HF. reflexivity.
Defined.


(** Seventy keys make an index of two levels: the root, written last at
    offset 1885, over 65 leaves.  The descent along the first offsets ends
    on the leaf at offset 5, and the walk along the forward links from it
    reads the seventy chains in the order of the keys. *)
Lemma leaf_linkage_witness :
  exists file',
    buildIndex Sample.compress Sample.words70 Sample.file0
    = Some (mkIndexInfo 64 1885, file')
    /\ leftmostLeaf Sample.uncompress 71 file' 1885 = Ok 5
    /\ exists k, forall fuel, (k <= fuel)%nat ->
         followLinks Sample.uncompress fuel file' 5
         = Ok (map snd Sample.words70).
Proof.
  assert (Hb : exists file',
             buildIndex Sample.compress Sample.words70 Sample.file0
             = Some (mkIndexInfo 64 1885, file')
             /\ (len (File.data file') <? u32_modulus) = true
             /\ leftmostLeaf Sample.uncompress 71 file' 1885 = Ok 5)
    by (eexists; split;
        [vm_compute; reflexivity
        |split; [vm_compute; reflexivity|vm_compute; reflexivity]]).
  destruct Hb as (file' & Hb & Hlen & Hleft).
  exists file'. split; [exact Hb|]. split; [exact Hleft|].
  assert (Hasc : keys_ascending Sample.words70) by (vm_compute; repeat split).
  assert (Hok : chains_ok Sample.words70 = true) by (vm_compute; reflexivity).
  assert (Hraw : raw_size BtreeMaxElements Sample.words70 < u32_modulus)
    by (vm_compute; reflexivity).
  destruct (proj2 (leaf_linkage Sample.compress Sample.uncompress
                     Sample.words70 Sample.file0 (mkIndexInfo 64 1885) file'
                     (fun p => eq_refl) Hasc Hok Hraw sample_file0_at_end Hb
                     (proj1 (Z.ltb_lt _ _) Hlen)))
    as (first & k & Hl & Hf).
  assert (Hfirst : Ok first = Ok 5) by (rewrite <- Hl; exact Hleft).
  injection Hfirst as ->.
  exists k. exact Hf.
Defined.

(** The claim C5 as it is written fails for a map with the empty key.  The
    map after [addSingleWord] of " " (article 7) and of "a" (article 1) has
    two keys, the empty one and "a"; the walk over the leaves of its index
    reads the chain of "a" alone. *)
Lemma leaf_linkage_skips_empty_key :
  let m := addSingleWord Sample.apply Sample.encode [97] 1
             (addSingleWord Sample.apply Sample.encode [32] 7 []) in
  m = [([], [mkLink [32] [] 7]); ([97], [mkLink [97] [] 1])]
  /\ exists info file',
      buildIndex Sample.compress m Sample.file0 = Some (info, file')
      /\ leftmostLeaf Sample.uncompress 3 file' (rootOffset info) = Ok 5
      /\ (forall fuel,
            followLinks Sample.uncompress (S fuel) file' 5
            = Ok [[mkLink [97] [] 1]])
      /\ [[mkLink [97] [] 1]] <> map snd m.
Proof.
  split; [reflexivity|].
  eexists. eexists. split; [vm_compute; reflexivity|].
  split; [vm_compute; reflexivity|].
  split; [intros fuel; vm_compute; reflexivity|].
  vm_compute. discriminate.
Qed.

(** A map whose only key is empty, written after the five-byte header: the
    index is one empty leaf at offset 5, and nothing is found in it. *)
Lemma empty_index_witness :
  Forall (fun e => hasKey e = false) [([], [mkLink [32] [] 7])]
  /\ len (File.data Sample.file0) + item_size Sample.compress (LeafI [])
     < u32_modulus
  /\ exists file',
      buildIndex Sample.compress [([], [mkLink [32] [] 7])] Sample.file0
      = Some (mkIndexInfo 64 5, file')
      /\ forall fuel w, exists idx',
          findArticles Sample.apply Sample.applySimpleCaseOnly Sample.decode
            Sample.uncompress (S fuel) w (openIndex (mkIndexInfo 64 5) file')
          = Ok ([], idx').
Proof.
  assert (Hm : Forall (fun e : bytes * chain => hasKey e = false)
                      [([], [mkLink [32] [] 7])])
    by (constructor; [reflexivity|constructor]).
  assert (Hlen : len (File.data Sample.file0)
                 + item_size Sample.compress (LeafI []) < u32_modulus)
    by (vm_compute; reflexivity).
  split; [exact Hm|]. split; [exact Hlen|].
  destruct (empty_index Sample.apply Sample.applySimpleCaseOnly Sample.decode
              Sample.compress Sample.uncompress [([], [mkLink [32] [] 7])]
              Sample.file0 Hm sample_file0_at_end Hlen eq_refl)
    as (file' & Hb & _ & _ & _ & Hfind & _).
  exists file'. split; [exact Hb|exact Hfind].
Defined.


(** "a" was added by [addSingleWord] under article 1: it is found again in
    the sample index.  "-" folds to the empty key: nothing is found for it. *)
Lemma addSingleWord_round_trip_witness :
  forallb (entry_ok Sample.apply Sample.encode Sample.decode) Sample.words
  = true
  /\ map_find (Sample.encode (Sample.apply Sample.word_a)) Sample.words
     = Some [mkLink (Sample.encode Sample.word_a) [] 1]
  /\ (exists k, forall fuel, (k <= fuel)%nat ->
        exists res idx',
          findArticles Sample.apply Sample.applySimpleCaseOnly Sample.decode
            Sample.uncompress fuel Sample.word_a
            (openIndex Sample.indexInfo Sample.indexFile) = Ok (res, idx')
          /\ In (mkLink (Sample.encode Sample.word_a) [] 1) res)
  /\ (exists k, forall fuel, (k <= fuel)%nat ->
        exists idx',
          findArticles Sample.apply Sample.applySimpleCaseOnly Sample.decode
            Sample.uncompress fuel [45]
            (openIndex Sample.indexInfo Sample.indexFile) = Ok ([], idx')).
Proof.
  assert (Hok : forallb (entry_ok Sample.apply Sample.encode Sample.decode)
                        Sample.words = true) by (vm_compute; reflexivity).
  assert (Hfind : map_find (Sample.encode (Sample.apply Sample.word_a))
                           Sample.words
                  = Some [mkLink (Sample.encode Sample.word_a) [] 1])
    by (vm_compute; reflexivity).
  pose proof (fun w o =>
    addSingleWord_round_trip Sample.apply Sample.applySimpleCaseOnly
      Sample.encode Sample.decode Sample.compress Sample.uncompress
      Sample.words Sample.file0 Sample.indexInfo Sample.indexFile w o
      (fun p => eq_refl) (fun a b => eq_refl)
      sample_words_ascending Hok ltac:(vm_compute; reflexivity)
      sample_raw_size sample_file0_at_end sample_index_built
      ltac:(vm_compute; reflexivity)) as H.
  split; [exact Hok|]. split; [exact Hfind|]. split.
  - exact (proj1 (H Sample.word_a 1) ltac:(discriminate) eq_refl
             [mkLink (Sample.encode Sample.word_a) [] 1] Hfind
             (or_introl eq_refl) eq_refl).
  - exact (proj2 (H [45] 5) eq_refl).
Defined.

(** The claim C1 as it is written fails for a word whose folding is empty:
    the headword "-" is added by [addSingleWord] under article 5 and its link
    is in the map when the index is built, but [buildIndex] skips the empty
    key and [findArticles] returns the empty list. *)
Lemma addSingleWord_empty_key_not_found :
  let m := addSingleWord Sample.apply Sample.encode [45] 5 [] in
  In (mkLink (Sample.encode [45]) [] 5)
     (chain_of (Sample.encode (Sample.apply [45])) m)
  /\ exists info file',
      buildIndex Sample.compress m Sample.file0 = Some (info, file')
      /\ forall fuel, exists idx',
          findArticles Sample.apply Sample.applySimpleCaseOnly Sample.decode
            Sample.uncompress (S fuel) [45] (openIndex info file')
          = Ok ([], idx').
Proof.
  split; [left; reflexivity|].
  eexists. eexists. split; [vm_compute; reflexivity|].
  intros fuel. eexists. vm_compute. reflexivity.
Qed.

(** ** The further properties on the sample inputs *)

Lemma sample_chains_nonempty :
  Forall (fun e : bytes * chain => snd e <> []) Sample.words.
Proof. repeat constructor; discriminate. Qed.

(** Adding "a" once more, under article 9, to the sample map. *)
Lemma IndexedWords_invariant_witness :
  keys_ascending Sample.words
  /\ Forall (fun e : bytes * chain => snd e <> []) Sample.words
  /\ keys_ascending
       (addWord Sample.apply Sample.isWhitespace Sample.isPunct Sample.encode
          Sample.word_a 9 Sample.words)
  /\ keys_ascending
       (addSingleWord Sample.apply Sample.encode Sample.word_a 9 Sample.words).
Proof.
  split; [exact sample_words_ascending|].
  split; [exact sample_chains_nonempty|].
  destruct (IndexedWords_invariant Sample.apply Sample.isWhitespace
              Sample.isPunct Sample.encode Sample.word_a 9 Sample.words
              sample_words_ascending sample_chains_nonempty)
    as [[H1 _] [H2 _]].
  split; [exact H1|exact H2].
Defined.

(** "New York City" once more, under article 43: the chain of "city" keeps
    its record of article 42 in front. *)
Lemma addWord_only_appends_witness :
  keys_ascending Sample.words
  /\ exists s,
      chain_of [99; 105; 116; 121]
        (addWord Sample.apply Sample.isWhitespace Sample.isPunct Sample.encode
           Sample.word_nyc 43 Sample.words)
      = chain_of [99; 105; 116; 121] Sample.words ++ s
      /\ Forall (fun l => articleOffset l = 43) s.
Proof.
  split; [exact sample_words_ascending|].
  exact (addWord_only_appends Sample.apply Sample.isWhitespace Sample.isPunct
           Sample.encode Sample.word_nyc 43 Sample.words
           sample_words_ascending [99; 105; 116; 121]).
Defined.

(** The headword " - ". *)
Lemma addWord_blank_witness :
  forallb (fun c => Sample.isWhitespace c || Sample.isPunct c) [32; 45; 32]
  = true
  /\ addWord Sample.apply Sample.isWhitespace Sample.isPunct Sample.encode
       [32; 45; 32] 9 Sample.words
     = Sample.words.
Proof.
  split; [reflexivity|].
  exact (addWord_blank Sample.apply Sample.isWhitespace Sample.isPunct
           Sample.encode [32; 45; 32] 9 Sample.words eq_refl).
Defined.

(** The headword " a ", under article 9: the record "a" is added to the
    chain of "a". *)
Lemma addWord_whole_word_witness :
  skipn (skipLeadingWhitespace Sample.isWhitespace [32; 97; 32]) [32; 97; 32]
  = [97; 32]
  /\ In (mkLink [97] [] 9)
        (chain_of [97]
           (addWord Sample.apply Sample.isWhitespace Sample.isPunct
              Sample.encode [32; 97; 32] 9 Sample.words)).
Proof.
  split; [reflexivity|].
  exact (addWord_whole_word Sample.apply Sample.isWhitespace Sample.isPunct
           Sample.encode [32; 97; 32] 9 Sample.words 97 [32]
           sample_words_ascending eq_refl ltac:(discriminate) eq_refl).
Defined.

(** The chain of "city" between two bytes and one. *)
Lemma readChain_round_trip_witness :
  forallb link_ok (chain_of [99; 105; 116; 121] Sample.words) = true
  /\ readChain
       ([9; 9] ++ chain_bytes (chain_of [99; 105; 116; 121] Sample.words)
               ++ [1]) 2
     = Ok (chain_of [99; 105; 116; 121] Sample.words, 25).
Proof.
  split; [reflexivity|].
  exact (readChain_round_trip [9; 9] [1]
           (chain_of [99; 105; 116; 121] Sample.words) eq_refl eq_refl).
Defined.


(** An empty leaf saved after the five-byte header, no leaf before it. *)
Lemma saveNode_readNode_witness :
  len (File.data Sample.file0)
  + len (node_image Sample.compress [0; 0; 0; 0]) + 4 < u32_modulus
  /\ exists f' last' f1,
      saveNode Sample.compress true [0; 0; 0; 0] Sample.file0 0
      = (5, f', last')
      /\ File.pos f' = len (File.data f')
      /\ readNode Sample.uncompress 5 f' = Ok ([0; 0; 0; 0], f1).
Proof.
  assert (H : len (File.data Sample.file0)
              + len (node_image Sample.compress [0; 0; 0; 0]) + 4
              < u32_modulus) by reflexivity.
  split; [exact H|].
  destruct (saveNode_readNode Sample.compress Sample.uncompress true
              [0; 0; 0; 0] Sample.file0 0 eq_refl eq_refl H eq_refl
              (or_introl eq_refl))
    as (f' & last' & f1 & Hs & Hp & Hr & _).
  exists f', last', f1. split; [exact Hs|]. split; [exact Hp|exact Hr].
Defined.

Lemma sample_index_small : len (File.data Sample.indexFile) < u32_modulus.
Proof. reflexivity. Qed.

(** The sample index keeps the five-byte header. *)
Lemma buildIndex_appends_witness :
  buildIndex Sample.compress Sample.words Sample.file0
  = Some (Sample.indexInfo, Sample.indexFile)
  /\ firstn 5 (File.data Sample.indexFile) = [1; 2; 3; 4; 5]
  /\ File.pos Sample.indexFile = len (File.data Sample.indexFile).
Proof.
  split; [exact sample_index_built|].
  destruct (buildIndex_appends Sample.compress Sample.words Sample.file0
              Sample.indexInfo Sample.indexFile sample_words_ascending
              sample_raw_size sample_file0_at_end sample_index_built
              sample_index_small) as (_ & H1 & H2 & _).
  split; [exact H1|exact H2].
Defined.

(** The sample map with an entry under the empty key in front. *)
Lemma buildIndex_ignores_empty_key_witness :
  keys_ascending (([], [mkLink [45] [] 5]) :: Sample.words)
  /\ buildIndex Sample.compress (([], [mkLink [45] [] 5]) :: Sample.words)
       Sample.file0
     = buildIndex Sample.compress Sample.words Sample.file0.
Proof.
  assert (H : keys_ascending (([], [mkLink [45] [] 5]) :: Sample.words))
    by (split; [reflexivity|exact sample_words_ascending]).
  split; [exact H|].
  exact (buildIndex_ignores_empty_key Sample.compress
           (([], [mkLink [45] [] 5]) :: Sample.words) Sample.file0 H).
Defined.

(** A hundred entries under fanout 64: child 3 has one or two of them. *)
Lemma child_sizes_balanced_witness :
  64 + 1 <= 100
  /\ 100 / (64 + 1) <= curEntryOf 100 64 3 - curEntryOf 100 64 2
     <= 100 / (64 + 1) + 1.
Proof.
  split; [lia|].
  exact (proj1 (child_sizes_balanced 100 64 3 ltac:(lia) eq_refl ltac:(lia)
                  eq_refl ltac:(lia))).
Defined.

(** The sample index: six keys, the root is their leaf. *)
Lemma buildIndex_two_levels_witness :
  len (nonEmptyKeys Sample.words) < 4096 * 4096
  /\ exists new,
      disk Sample.compress Sample.indexFile (File.data Sample.file0) new
      /\ item_at Sample.compress (len (File.data Sample.file0)) new
           (rootOffset Sample.indexInfo) (LeafI (nonEmptyKeys Sample.words)).
Proof.
  assert (H : len (nonEmptyKeys Sample.words) < 4096 * 4096) by reflexivity.
  split; [exact H|].
  exact (buildIndex_two_levels Sample.compress Sample.words Sample.file0
           Sample.indexInfo Sample.indexFile sample_words_ascending
           sample_raw_size sample_file0_at_end sample_index_built
           sample_index_small H).
Defined.

Lemma sample_entries_ok :
  forallb (entry_ok Sample.apply Sample.encode Sample.decode) Sample.words
  = true.
Proof. reflexivity. Qed.

Lemma sample_chains_ok : chains_ok Sample.words = true.
Proof. reflexivity. Qed.

(** The chain of "ab" in the sample index. *)
Lemma lookup_returns_stored_chain_witness :
  In ([97; 98], [mkLink [97; 98] [] 2]) Sample.words
  /\ Sample.decode [97; 98] = Some Sample.word_ab
  /\ exists n, forall fuel, (n <= fuel)%nat ->
      exists r idx' p,
        findChainOffsetExactOrPrefix Sample.apply Sample.decode
          Sample.uncompress fuel Sample.word_ab
          (openIndex Sample.indexInfo Sample.indexFile) = Ok (r, idx')
        /\ exactMatch r = true /\ chainOffset r = Some p
        /\ readChain (leafBuf r) p
           = Ok ([mkLink [97; 98] [] 2],
                 p + len (chain_bytes [mkLink [97; 98] [] 2])).
Proof.
  assert (Hin : In ([97; 98], [mkLink [97; 98] [] 2]) Sample.words)
    by (right; left; reflexivity).
  split; [exact Hin|]. split; [reflexivity|].
  exact (lookup_returns_stored_chain Sample.apply Sample.encode Sample.decode
           Sample.compress Sample.uncompress Sample.words Sample.file0
           Sample.indexInfo Sample.indexFile [97; 98] [mkLink [97; 98] [] 2]
           Sample.word_ab (fun p => eq_refl) (fun a b => eq_refl)
           sample_words_ascending sample_entries_ok sample_chains_ok
           sample_raw_size sample_file0_at_end sample_index_built
           sample_index_small Hin ltac:(discriminate) eq_refl).
Defined.

(** "z" is not in the sample index. *)
Lemma findArticles_missing_key_witness :
  map_find (Sample.encode (Sample.apply [122])) Sample.words = None
  /\ exists n, forall fuel, (n <= fuel)%nat ->
      exists idx',
        findArticles Sample.apply Sample.applySimpleCaseOnly Sample.decode
          Sample.uncompress fuel [122]
          (openIndex Sample.indexInfo Sample.indexFile) = Ok ([], idx').
Proof.
  split; [reflexivity|].
  exact (findArticles_missing_key Sample.apply Sample.applySimpleCaseOnly
           Sample.encode Sample.decode Sample.compress Sample.uncompress
           Sample.words Sample.file0 Sample.indexInfo Sample.indexFile [122]
           (fun p => eq_refl) (fun a b => eq_refl)
           sample_words_ascending sample_entries_ok sample_chains_ok
           sample_raw_size sample_file0_at_end sample_index_built
           sample_index_small eq_refl).
Defined.

(** The chain of "city" antialiased for "new york city": the prefix is
    merged into the word. *)
Lemma antialias_result_witness :
  antialias Sample.applySimpleCaseOnly Sample.decode
    [110; 101; 119; 32; 121; 111; 114; 107; 32; 99; 105; 116; 121]
    (chain_of [99; 105; 116; 121] Sample.words)
  = Ok [mkLink Sample.word_nyc [] 42]
  /\ antialias Sample.applySimpleCaseOnly Sample.decode
       [110; 101; 119; 32; 121; 111; 114; 107; 32; 99; 105; 116; 121]
       [mkLink Sample.word_nyc [] 42]
     = Ok [mkLink Sample.word_nyc [] 42].
Proof.
  split; [reflexivity|].
  exact (proj2 (proj2 (antialias_result Sample.applySimpleCaseOnly
                         Sample.decode
                         [110; 101; 119; 32; 121; 111; 114; 107; 32; 99; 105;
                          116; 121]
                         (chain_of [99; 105; 116; 121] Sample.words)
                         [mkLink Sample.word_nyc [] 42] eq_refl))).
Defined.

Lemma sample_decode_nul_free (s v : list Z) :
  Sample.decode s = Some v -> nul_free s = true -> nul_free v = true.
Proof.
  unfold Sample.decode.
  destruct (forallb (fun c => (0 <=? c) && (c <? 128)) s); [|discriminate].
  now intros [= <-].
Qed.

Lemma sample_records_decode :
  forallb (fun e => forallb (decodable Sample.decode) (snd e)) Sample.words
  = true.
Proof. reflexivity. Qed.

(** The prefix "a" in the sample index: "a", "ab" and "abc". *)
Lemma prefixMatch_finds_all_witness :
  forallb (fun e => forallb (decodable Sample.decode) (snd e)) Sample.words
  = true
  /\ exists k, forall fuel, (k <= fuel)%nat ->
      exists idx',
        run Sample.apply Sample.decode Sample.uncompress fuel
          (prefixMatch Sample.word_a 10) false
          (openIndex Sample.indexInfo Sample.indexFile)
        = Ok ([[97]; [97; 98]; [97; 98; 99]], idx').
Proof.
  split; [exact sample_records_decode|].
  exact (prefixMatch_finds_all Sample.apply Sample.encode Sample.decode
           Sample.compress Sample.uncompress Sample.words Sample.file0
           Sample.indexInfo Sample.indexFile Sample.word_a 10
           (fun p => eq_refl) (fun a b => eq_refl) sample_decode_nul_free
           sample_words_ascending sample_entries_ok sample_chains_ok
           sample_records_decode sample_raw_size sample_file0_at_end
           sample_index_built sample_index_small eq_refl).
Defined.

(** The prefix "a" in the sample index with [maxResults] 2: the chains of
    "a" and "ab" are taken, that of "abc" is not. *)
Lemma prefixMatch_stops_at_maxResults_witness :
  exists k, forall fuel, (k <= fuel)%nat ->
    exists idx',
      run Sample.apply Sample.decode Sample.uncompress fuel
        (prefixMatch Sample.word_a 2) false
        (openIndex Sample.indexInfo Sample.indexFile)
      = Ok ([[97]; [97; 98]], idx').
Proof.
  destruct (prefixMatch_stops_at_maxResults Sample.apply Sample.encode
              Sample.decode Sample.compress Sample.uncompress Sample.words
              Sample.file0 Sample.indexInfo Sample.indexFile Sample.word_a 2
              (fun p => eq_refl) (fun a b => eq_refl) sample_decode_nul_free
              sample_words_ascending sample_entries_ok sample_chains_ok
              sample_records_decode sample_raw_size sample_file0_at_end
              sample_index_built sample_index_small)
    as (j & Hj & Hpos & Hlt & Hend & k & Hk).
  assert (Hj2 : j = 2%nat).
  { destruct j as [|[|[|[|j]]]].
    - exfalso. apply (Nat.lt_irrefl 0), Hpos. discriminate.
    - exfalso. destruct Hend as [Hend|Hend];
        [vm_compute in Hend; discriminate Hend
        |vm_compute in Hend; apply Hend; reflexivity].
    - reflexivity.
    - exfalso. specialize (Hlt 2%nat (conj (le_S _ _ (le_n 1)) (le_n 3))).
      vm_compute in Hlt. discriminate Hlt.
    - exfalso. vm_compute in Hj. do 3 apply le_S_n in Hj.
      exact (Nat.nle_succ_0 _ Hj). }
  subst j. exists k. intros fuel Hfuel. exact (Hk fuel Hfuel).
Defined.

(** The target "aa" in the sample index: "a" is below it, and the pointer
    returned is at the chain of "ab". *)
Lemma lookup_lower_bound_witness :
  buildIndex Sample.compress Sample.words Sample.file0
  = Some (Sample.indexInfo, Sample.indexFile)
  /\ exists k, forall fuel, (k <= fuel)%nat ->
      exists r idx' lo hi,
        findChainOffsetExactOrPrefix Sample.apply Sample.decode
          Sample.uncompress fuel [97; 97]
          (openIndex Sample.indexInfo Sample.indexFile) = Ok (r, idx')
        /\ nonEmptyKeys Sample.words = lo ++ hi
        /\ (forall e, In e lo ->
              str_compare (dkey Sample.decode e) [97; 97] = Lt)
        /\ (forall e, In e hi ->
              str_compare (dkey Sample.decode e) [97; 97] <> Lt)
        /\ match chainOffset r with
           | None => hi = []
           | Some p =>
               exists e hi' q,
                 hi = e :: hi' /\ readChain (leafBuf r) p = Ok (snd e, q)
           end.
Proof.
  split; [exact sample_index_built|].
  exact (lookup_lower_bound Sample.apply Sample.encode Sample.decode
           Sample.compress Sample.uncompress Sample.words Sample.file0
           Sample.indexInfo Sample.indexFile [97; 97]
           (fun p => eq_refl) (fun a b => eq_refl)
           sample_words_ascending sample_entries_ok sample_chains_ok
           sample_raw_size sample_file0_at_end sample_index_built
           sample_index_small).
Defined.


Lemma sample_prefixes_decode :
  forallb (fun e => forallb (prefixDecodes Sample.decode) (snd e)) Sample.words
  = true.
Proof. reflexivity. Qed.

(** Stemmed searches in the sample index.  For "abcd" with a minimum length
    of 1 and two characters to chop: nothing for "abcd", "abc" for "abc",
    "ab" and "abc" for "ab".  With a minimum length of 2^31, which is
    negative as an [int], the difference wraps below zero and nothing is
    chopped.  For "ab" with a minimum length of 2^32 - 1, which is -1 as an
    [int], three characters are to be chopped from two: the request ends in
    [std::length_error]. *)
Lemma run_matches_witness :
  (exists k, forall fuel, (k <= fuel)%nat ->
      exists idx',
        run Sample.apply Sample.decode Sample.uncompress fuel
          (stemmedMatch [97; 98; 99; 100] 1 2 10) false
          (openIndex Sample.indexInfo Sample.indexFile)
        = Ok ([[97; 98; 99]; [97; 98]; [97; 98; 99]], idx'))
  /\ (exists k, forall fuel, (k <= fuel)%nat ->
        exists idx',
          run Sample.apply Sample.decode Sample.uncompress fuel
            (stemmedMatch [97; 98; 99; 100] 2147483648 2 10) false
            (openIndex Sample.indexInfo Sample.indexFile)
          = Ok ([], idx'))
  /\ (exists k, forall fuel, (k <= fuel)%nat ->
        run Sample.apply Sample.decode Sample.uncompress fuel
          (stemmedMatch [97; 98] 4294967295 5 10) false
          (openIndex Sample.indexInfo Sample.indexFile)
        = Throw exLengthError).
Proof.
  pose proof (fun r =>
    run_matches Sample.apply Sample.encode Sample.decode
      Sample.compress Sample.uncompress Sample.words Sample.file0
      Sample.indexInfo Sample.indexFile r
      (fun p => eq_refl) (fun a b => eq_refl) sample_decode_nul_free
      sample_words_ascending sample_entries_ok sample_chains_ok
      sample_records_decode (fun _ => sample_prefixes_decode)
      sample_raw_size sample_file0_at_end sample_index_built
      sample_index_small) as H.
  split; [|split].
  - destruct (H (stemmedMatch [97; 98; 99; 100] 1 2 10)) as [k Hk].
    exists k. intros fuel Hfuel. exact (Hk fuel Hfuel).
  - destruct (H (stemmedMatch [97; 98; 99; 100] 2147483648 2 10)) as [k Hk].
    exists k. intros fuel Hfuel. exact (Hk fuel Hfuel).
  - destruct (H (stemmedMatch [97; 98] 4294967295 5 10)) as [k Hk].
    exists k. intros fuel Hfuel. exact (Hk fuel Hfuel).
Defined.

Lemma sample_apply_nul_free (x : wstring) :
  nul_free x = true -> nul_free (Sample.apply x) = true.
Proof.
  unfold nul_free, Sample.apply. induction x as [|c x IH]; [reflexivity|].
  cbn [forallb filter]. intros H. apply andb_true_iff in H as [Hc Hx].
  destruct (negb (Sample.isWhitespace c || Sample.isPunct c));
    [|exact (IH Hx)].
  cbn [map forallb]. rewrite (IH Hx), andb_true_r.
  apply negb_true_iff, Z.eqb_neq. apply negb_true_iff, Z.eqb_neq in Hc.
  unfold Sample.lower.
  destruct ((65 <=? c) && (c <=? 90)) eqn:E; [|exact Hc].
  apply andb_true_iff in E as [E _]. apply Z.leb_le in E. lia.
Qed.

Lemma sample_apply_trailing (x : wstring) (k : nat) :
  forallb Sample.isWhitespace (skipn k x) = true ->
  Sample.apply (firstn k x) = Sample.apply x.
Proof.
  intros H. rewrite <- (firstn_skipn k x) at 2. unfold Sample.apply.
  rewrite filter_app.
  assert (Hnil : filter (fun c => negb (Sample.isWhitespace c || Sample.isPunct c))
                        (skipn k x) = []).
  { induction (skipn k x) as [|c t IH]; [reflexivity|].
    cbn [forallb] in H. apply andb_true_iff in H as [Hc Ht].
    cbn [filter]. rewrite Hc. cbn [orb negb]. exact (IH Ht). }
  rewrite Hnil, app_nil_r. reflexivity.
Qed.

(** "Old York" (article 7) added to the sample map, with a codec that
    decodes every byte string to itself. *)
Lemma IndexedWords_searchable_witness :
  (forallb (entry_ok Sample.apply Sample.encode (fun b => Some b))
     (addSingleWord Sample.apply Sample.encode
        [79; 108; 100; 32; 89; 111; 114; 107] 7 Sample.words) = true
   /\ chains_ok (addSingleWord Sample.apply Sample.encode
        [79; 108; 100; 32; 89; 111; 114; 107] 7 Sample.words) = true)
  /\ (forallb (entry_ok Sample.apply Sample.encode (fun b => Some b))
        (addWord Sample.apply Sample.isWhitespace Sample.isPunct Sample.encode
           [79; 108; 100; 32; 89; 111; 114; 107] 7 Sample.words) = true
      /\ chains_ok (addWord Sample.apply Sample.isWhitespace Sample.isPunct
           Sample.encode [79; 108; 100; 32; 89; 111; 114; 107] 7 Sample.words)
         = true).
Proof.
  exact (IndexedWords_searchable Sample.apply Sample.isWhitespace
           Sample.isPunct Sample.encode (fun b => Some b)
           [79; 108; 100; 32; 89; 111; 114; 107] 7 Sample.words
           (fun x => eq_refl) (fun x H => H) sample_apply_nul_free
           sample_apply_trailing eq_refl
           (conj (proj1 (Z.leb_le 0 7) eq_refl) (eq_refl : 7 < u32_modulus))
           sample_words_ascending eq_refl sample_chains_ok).
Defined.

(** The same calls: every record of the two maps decodes. *)
Lemma IndexedWords_decodable_witness :
  (forallb (fun e => forallb (decodable (fun b => Some b)) (snd e))
     (addSingleWord Sample.apply Sample.encode
        [79; 108; 100; 32; 89; 111; 114; 107] 7 Sample.words) = true
   /\ forallb (fun e => forallb (prefixDecodes (fun b => Some b)) (snd e))
        (addSingleWord Sample.apply Sample.encode
           [79; 108; 100; 32; 89; 111; 114; 107] 7 Sample.words) = true)
  /\ (forallb (fun e => forallb (decodable (fun b => Some b)) (snd e))
        (addWord Sample.apply Sample.isWhitespace Sample.isPunct Sample.encode
           [79; 108; 100; 32; 89; 111; 114; 107] 7 Sample.words) = true
      /\ forallb (fun e => forallb (prefixDecodes (fun b => Some b)) (snd e))
           (addWord Sample.apply Sample.isWhitespace Sample.isPunct
              Sample.encode [79; 108; 100; 32; 89; 111; 114; 107] 7
              Sample.words) = true).
Proof.
  exact (IndexedWords_decodable Sample.apply Sample.isWhitespace
           Sample.isPunct Sample.encode (fun b => Some b)
           [79; 108; 100; 32; 89; 111; 114; 107] 7 Sample.words
           (fun x => eq_refl) (fun x y => eq_refl) eq_refl eq_refl).
Defined.
